(** * csvc99: the incremental CSV tokenizer of [csv.c], embedded in Rocq

    The development follows [src/csv.c] function by function:
    the SSE4.2 byte scanner ([fillbmap], [scan_reset], [__scan_forward],
    [scan_next]), the row state machine ([csv_line]), the in-place field
    finalizer ([touchup]), the entry points [csv_feed], [csv_feed_last],
    [csv_open] and the streaming driver [csv_scan].

    Conventions of the embedding.
    - A [char] is a [Byte.byte]; a block of memory is a [list byte].
    - A pointer into the buffer being parsed is the [Z] offset of the byte
      inside its block; a pointer that may be [NULL] is an [option Z].
    - C [int] and [int64_t] values are [Z]; the arithmetic of the parser
      stays far below the signed ranges (every quantity is bounded by the
      buffer size), and signed overflow is undefined in C, so no wrap-around
      is modelled for them.  The [uint16_t] bitmap of the scanner is kept
      modulo [2^16].
    - Loops of the C code are fixpoints over a [nat] fuel; a run that would
      need more fuel yields [None].  The totality lemmas show that the fuel
      handed out by the entry points is always enough.
    - An [assert] that fails aborts the program.  In [touchup] the bytes of
      the row decide whether one fails, and a failing [assert] yields
      [None] there.  The other [assert]s of the file hold whenever they are
      reached from a parser that [csv_open] made, and are left out. *)

From Stdlib Require Import String DecimalString.
From Stdlib Require Import ZArith List Bool Lia.
From Stdlib Require Import Strings.Byte.
Import ListNotations.

Open Scope Z_scope.
Open Scope list_scope.

(** ** Bytes and memory blocks *)

Definition NUL : byte := x00.
Definition LF : byte := x0a.
Definition CR : byte := x0d.
Definition DQUOTE : byte := x22.
Definition COMMA : byte := x2c.

Section Blocks.
Context {A : Type}.

Fixpoint set_nth (n : nat) (v : A) (l : list A) : list A :=
  match l, n with
  | [], _ => []
  | _ :: t, O => v :: t
  | x :: t, S k => x :: set_nth k v t
  end.

(** [zget l i d] is [l[i]]; [d] stands for whatever lies outside the block. *)
Definition zget (l : list A) (i : Z) (d : A) : A :=
  if i <? 0 then d else nth (Z.to_nat i) l d.

(** [zset l i v] is the store [l[i] = v]; a store outside the block is
    dropped (the C code never performs one on the paths we verify). *)
Definition zset (l : list A) (i : Z) (v : A) : list A :=
  if i <? 0 then l else set_nth (Z.to_nat i) v l.

(** [realloc] keeps the old elements; the fresh tail is filled with [d]. *)
Definition grow (l : list A) (n : Z) (d : A) : list A :=
  l ++ repeat d (Z.to_nat n - length l).
End Blocks.

Definition rd (mem : list byte) (p : Z) : byte := zget mem p NUL.
Definition wr (mem : list byte) (p : Z) (v : byte) : list byte := zset mem p v.

Definition zlen {A} (l : list A) : Z := Z.of_nat (length l).

(** The bytes of [mem] in [[p, p+n)]. *)
Definition bytes_at (mem : list byte) (p n : Z) : list byte :=
  firstn (Z.to_nat n) (skipn (Z.to_nat p) mem).

(** The C string that starts at [p]: the bytes up to the first [NUL]. *)
Fixpoint cstr_of (l : list byte) : list byte :=
  match l with
  | [] => []
  | b :: t => if Byte.eqb b NUL then [] else b :: cstr_of t
  end.

Definition cstring (mem : list byte) (p : Z) : list byte :=
  cstr_of (skipn (Z.to_nat p) mem).

(** ** The SSE intrinsics used by csv.c *)

Definition m128i := list byte.

Definition lane (r : m128i) (i : nat) : byte := nth i r NUL.

(** [_mm_loadu_si128]: sixteen bytes starting at [p]. *)
Definition mm_loadu_si128 (mem : list byte) (p : Z) : m128i :=
  map (fun i => rd mem (p + Z.of_nat i)) (seq 0 16).

(** [_mm_storeu_si128]: sixteen bytes stored at [s]. *)
Definition mm_storeu_si128 (mem : list byte) (s : Z) (r : m128i) : list byte :=
  fold_left (fun m i => wr m (s + Z.of_nat i) (lane r i)) (seq 0 16) mem.

(** Explicit lengths of [pcmpestr*] are taken in absolute value and
    saturate at the number of lanes. *)
Definition sidd_len (l : Z) : Z := Z.min (Z.abs l) 16.

(** [_SIDD_CMP_EQUAL_ANY | _SIDD_UBYTE_OPS]: lane [j] of [b] is flagged when
    it is valid and equals some valid lane of [a]. *)
Definition cmpestr_equal_any (a : m128i) (la : Z) (b : m128i) (lb : Z)
  : list bool :=
  map (fun j =>
         (Z.of_nat j <? sidd_len lb) &&
         existsb (fun i => (Z.of_nat i <? sidd_len la) &&
                           Byte.eqb (lane a i) (lane b j))
                 (seq 0 16))
      (seq 0 16).

Fixpoint bits_to_Z (l : list bool) : Z :=
  match l with
  | [] => 0
  | b :: t => Z.b2z b + 2 * bits_to_Z t
  end.

Fixpoint first_set (l : list bool) : Z :=
  match l with
  | [] => 0
  | b :: t => if b then 0 else 1 + first_set t
  end.

(** [_mm_cmpestrm] with a bit mask result. *)
Definition mm_cmpestrm (a : m128i) (la : Z) (b : m128i) (lb : Z) : Z :=
  bits_to_Z (cmpestr_equal_any a la b lb).

(** [_mm_cmpestri], least significant index; 16 when no lane is flagged. *)
Definition mm_cmpestri (a : m128i) (la : Z) (b : m128i) (lb : Z) : Z :=
  first_set (cmpestr_equal_any a la b lb).

(** [_mm_extract_epi16 (mask, 0)]. *)
Definition mm_extract_epi16_0 (mask : Z) : Z := Z.land mask 65535.

Fixpoint ctz (p : positive) : Z :=
  match p with
  | xO p' => 1 + ctz p'
  | _ => 0
  end.

(** [__builtin_ffs]: one plus the index of the least significant set bit,
    0 for 0. *)
Definition builtin_ffs (x : Z) : Z :=
  match x with
  | Z0 => 0
  | Zpos p => ctz p + 1
  | Zneg p => ctz p + 1
  end.

(** ** ByteScanner *)

Record scan_t := mk_scan {
  bmap : Z;               (* uint16_t *)
  base : Z;               (* const char* *)
  sq : Z;                 (* const char* q *)
  smatch : m128i;         (* qte, esc, delim, \r, \n *)
  matchlen : Z
}.

Definition fillbmap (mem : list byte) (p : Z) (plen : Z) (mtch : m128i)
           (mlen : Z) : Z :=
  let pval := mm_loadu_si128 mem p in
  let mask := mm_cmpestrm mtch mlen pval plen in
  mm_extract_epi16_0 mask.

Definition scan_reset (mem : list byte) (sp : scan_t) (p q : Z) : scan_t :=
  {| bmap := fillbmap mem p (q - p) (smatch sp) (matchlen sp);
     base := p; sq := q;
     smatch := smatch sp; matchlen := matchlen sp |}.

(** The [while (0 == sp->bmap)] loop of [__scan_forward]; [b] is the local
    [base].  Returns the C result (-1 or 0) and the scanner. *)
Fixpoint scan_forward_loop (fuel : nat) (mem : list byte) (sp : scan_t) (b : Z)
  : option (Z * scan_t) :=
  match fuel with
  | O => None
  | S f =>
      if bmap sp =? 0 then
        let b := b + 16 in
        if b >=? sq sp then Some (-1, sp)
        else
          scan_forward_loop f mem
            {| bmap := fillbmap mem b (sq sp - b) (smatch sp) (matchlen sp);
               base := base sp; sq := sq sp;
               smatch := smatch sp; matchlen := matchlen sp |} b
      else
        Some (0, {| bmap := bmap sp; base := b; sq := sq sp;
                    smatch := smatch sp; matchlen := matchlen sp |})
  end.

Definition scan_forward (mem : list byte) (sp : scan_t) : option (Z * scan_t) :=
  scan_forward_loop (Z.to_nat (sq sp - base sp) + 2) mem sp (base sp).

(** [scan_next]: pointer to the next special byte, [None] for the C [0]. *)
Definition scan_next (mem : list byte) (sp : scan_t)
  : option (option Z * scan_t) :=
  let pick (sp : scan_t) :=
    let off := builtin_ffs (bmap sp) - 1 in
    (Some (base sp + off),
     {| bmap := Z.land (bmap sp) (Z.lnot (Z.shiftl 1 off)) mod 65536;
        base := base sp; sq := sq sp;
        smatch := smatch sp; matchlen := matchlen sp |}) in
  if bmap sp =? 0 then
    match scan_forward mem sp with
    | None => None
    | Some (r, sp') => if r =? 0 then Some (pick sp') else Some (None, sp')
    end
  else Some (pick sp).

(** ** The parser instance *)

(** Modelled from the spec: the error codes [CSV_EPARAM], [CSV_EOUTOFMEMORY],
    [CSV_EQUOTE], [CSV_ECRLF] and [CSV_EEXTRAINPUT] are macros of [csv.h],
    which is not part of the sources at hand; section 7 of the specification
    lists them as BadParameter, OutOfMemory, BadQuote, BadLineEnding and
    ExtraTrailingInput.  Only their identity matters here. *)
Inductive csv_errno :=
| CSV_EPARAM
| CSV_EOUTOFMEMORY
| CSV_EQUOTE
| CSV_ECRLF
| CSV_EEXTRAINPUT.

(** The anonymous [state] struct of [csv_parse_t]. *)
Record csv_state := mk_state {
  linenum : Z;
  charnum : Z;
  rownum : Z;
  fldnum : Z;
  errnum : option csv_errno;      (* [None] is the zero left by calloc *)
  errmsg : option string;
  elinenum : Z;
  echarnum : Z;
  erownum : Z;
  efldnum : Z
}.

Record csv_parse_t := mk_parse {
  fldmax : Z;
  fldtop : Z;
  fld : list (option Z);          (* char** fld *)
  escptr : list (option Z);       (* char** escptr *)
  len : list Z;                   (* int* len *)
  qte : byte;
  esc : byte;
  delim : byte;
  nullstr : list byte;            (* char nullstr[20] *)
  nullstrsz : Z;
  lastbuf : option (list byte);
  state : csv_state;
  scan_escaped_string : m128i;    (* qte, esc *)
  scan : scan_t
}.

Definition set_arrays (cp : csv_parse_t) (mx : Z) (f e : list (option Z))
           (l : list Z) : csv_parse_t :=
  {| fldmax := mx; fldtop := fldtop cp; fld := f; escptr := e; len := l;
     qte := qte cp; esc := esc cp; delim := delim cp;
     nullstr := nullstr cp; nullstrsz := nullstrsz cp;
     lastbuf := lastbuf cp; state := state cp;
     scan_escaped_string := scan_escaped_string cp; scan := scan cp |}.

Definition set_fld (cp : csv_parse_t) (f : list (option Z)) : csv_parse_t :=
  set_arrays cp (fldmax cp) f (escptr cp) (len cp).

Definition set_escptr (cp : csv_parse_t) (e : list (option Z)) : csv_parse_t :=
  set_arrays cp (fldmax cp) (fld cp) e (len cp).

Definition set_len (cp : csv_parse_t) (l : list Z) : csv_parse_t :=
  set_arrays cp (fldmax cp) (fld cp) (escptr cp) l.

Definition set_fldtop (cp : csv_parse_t) (n : Z) : csv_parse_t :=
  {| fldmax := fldmax cp; fldtop := n; fld := fld cp; escptr := escptr cp;
     len := len cp; qte := qte cp; esc := esc cp; delim := delim cp;
     nullstr := nullstr cp; nullstrsz := nullstrsz cp;
     lastbuf := lastbuf cp; state := state cp;
     scan_escaped_string := scan_escaped_string cp; scan := scan cp |}.

Definition set_state (cp : csv_parse_t) (s : csv_state) : csv_parse_t :=
  {| fldmax := fldmax cp; fldtop := fldtop cp; fld := fld cp;
     escptr := escptr cp; len := len cp; qte := qte cp; esc := esc cp;
     delim := delim cp; nullstr := nullstr cp; nullstrsz := nullstrsz cp;
     lastbuf := lastbuf cp; state := s;
     scan_escaped_string := scan_escaped_string cp; scan := scan cp |}.

Definition set_scan (cp : csv_parse_t) (s : scan_t) : csv_parse_t :=
  {| fldmax := fldmax cp; fldtop := fldtop cp; fld := fld cp;
     escptr := escptr cp; len := len cp; qte := qte cp; esc := esc cp;
     delim := delim cp; nullstr := nullstr cp; nullstrsz := nullstrsz cp;
     lastbuf := lastbuf cp; state := state cp;
     scan_escaped_string := scan_escaped_string cp; scan := s |}.

Definition set_lastbuf (cp : csv_parse_t) (b : option (list byte))
  : csv_parse_t :=
  {| fldmax := fldmax cp; fldtop := fldtop cp; fld := fld cp;
     escptr := escptr cp; len := len cp; qte := qte cp; esc := esc cp;
     delim := delim cp; nullstr := nullstr cp; nullstrsz := nullstrsz cp;
     lastbuf := b; state := state cp;
     scan_escaped_string := scan_escaped_string cp; scan := scan cp |}.

(** The running counters, as one value. *)
Definition counters (cp : csv_parse_t) : Z * Z * Z * Z :=
  (linenum (state cp), charnum (state cp), rownum (state cp),
   fldnum (state cp)).

(** [reterr]: save the error record and return -1. *)
Definition reterr (cp : csv_parse_t) (e : csv_errno) (msg : string)
           (cno nline nchar : Z) : Z * csv_parse_t :=
  let s := state cp in
  (-1,
   set_state cp
     {| linenum := linenum s; charnum := charnum s; rownum := rownum s;
        fldnum := fldnum s;
        errnum := Some e; errmsg := Some msg;
        elinenum := linenum s + nline;
        echarnum := charnum s + nchar;
        erownum := rownum s + 1;
        efldnum := cno |}).

Section Parser.

(** The allocator: [alloc_ok n] tells whether a request for [n] bytes
    ([malloc], [calloc] or [realloc]) is served. *)
Variable alloc_ok : Z -> bool.

(** [expand]: 64 more slots in [fld], [escptr] and [len]
    (8-byte pointers, 4-byte ints). *)
Definition expand (cp : csv_parse_t) : Z * csv_parse_t :=
  let max := fldmax cp + 64 in
  if negb (alloc_ok (8 * max)) then (-1, cp)
  else
    let cp := set_fld cp (grow (fld cp) max None) in
    if negb (alloc_ok (8 * max)) then (-1, cp)
    else
      let cp := set_escptr cp (grow (escptr cp) max None) in
      if negb (alloc_ok (4 * max)) then (-1, cp)
      else
        (0, set_arrays cp max (fld cp) (escptr cp) (grow (len cp) max 0)).

(** *** RowStateMachine: [csv_line] *)

(** The locals of [csv_line] that live across the labels.  [fldv] is the
    value of [*fld]: [fld] points at the slot [cp->fld[cno]], which
    START_VAL has just written, and nothing writes the slot again before
    FINISH reads it. *)
Record locals := mk_locals {
  ppp : Z;
  cno : Z;
  nline : Z;
  fldv : Z;
  quoted : bool;
  l_escptr : option Z
}.

Inductive label := START_VAL | QUOTED_VAL.

Inductive jump :=
| Return (r : Z) (cp : csv_parse_t)
| Goto (l : label) (cp : csv_parse_t) (L : locals).

Definition FINROW (cp : csv_parse_t) (buf : Z) (p nl : Z) : jump :=
  let rowsz := p - buf in
  let nl := nl + 1 in
  let s := state cp in
  Return rowsz
    (set_state cp
       {| linenum := linenum s + nl; charnum := charnum s + rowsz;
          rownum := rownum s + 1; fldnum := fldnum s;
          errnum := errnum s; errmsg := errmsg s;
          elinenum := elinenum s; echarnum := echarnum s;
          erownum := erownum s; efldnum := efldnum s |}).

Definition FINISH (mem : list byte) (buf q : Z) (cp : csv_parse_t)
           (L : locals) : jump :=
  let c := cno L in
  let cp := set_len cp (zset (len cp) c (ppp L - fldv L)) in
  let cp := set_escptr cp (zset (escptr cp) c (l_escptr L)) in
  let cp :=
    if quoted L then
      let cp := set_fld cp (zset (fld cp) c (Some (fldv L + 1))) in
      set_len cp (zset (len cp) c (zget (len cp) c 0 - 2))
    else cp in
  let c := c + 1 in
  let cur := rd mem (ppp L) in
  let p := ppp L + 1 in
  if Byte.eqb cur (delim cp) then
    Goto START_VAL cp
         {| ppp := p; cno := c; nline := nline L; fldv := fldv L;
            quoted := quoted L; l_escptr := l_escptr L |}
  else
    let cp := set_fldtop cp c in
    if Byte.eqb cur LF then FINROW cp buf p (nline L)
    else if Byte.eqb cur CR && ((p <? q) && Byte.eqb (rd mem p) LF) then
      FINROW cp buf (p + 1) (nline L)
    else
      let '(r, cp) := reterr cp CSV_ECRLF "CRLF expected" c (nline L)
                             (p - buf) in
      Return r cp.

(** One visit of a label; [None] only when the scanner runs out of fuel. *)
Definition csv_line_step (mem : list byte) (buf q : Z) (l : label)
           (cp : csv_parse_t) (L : locals) : option jump :=
  match l with
  | START_VAL =>
      let grown :=
        if cno L >=? fldmax cp then
          let '(r, cp') := expand cp in
          if r =? 0 then inr cp'
          else inl (reterr cp' CSV_EOUTOFMEMORY "out of memory"
                           (cno L) (nline L) (ppp L - buf))
        else inr cp in
      match grown with
      | inl (r, cp) => Some (Return r cp)
      | inr cp =>
          (* field starts here *)
          let cp := set_fld cp (zset (fld cp) (cno L) (Some (ppp L))) in
          let fv := ppp L in
          match scan_next mem (scan cp) with
          | None => None
          | Some (None, sc) => Some (Return 0 (set_scan cp sc))
          | Some (Some p, sc) =>
              let cp := set_scan cp sc in
              let qd := (p =? fv) && Byte.eqb (rd mem p) (qte cp) in
              let L' := {| ppp := p; cno := cno L; nline := nline L;
                           fldv := fv; quoted := qd; l_escptr := None |} in
              if qd then Some (Goto QUOTED_VAL cp L')
              else Some (FINISH mem buf q cp L')
          end
      end
  | QUOTED_VAL =>
      match scan_next mem (scan cp) with
      | None => None
      | Some (None, sc) => Some (Return 0 (set_scan cp sc))
      | Some (Some p, sc) =>
          let cp := set_scan cp sc in
          let cur := rd mem p in
          if Byte.eqb cur (qte cp) then
            match scan_next mem (scan cp) with
            | None => None
            | Some (None, sc) => Some (Return 0 (set_scan cp sc))
            | Some (Some xp, sc) =>
                let cp := set_scan cp sc in
                if negb (xp =? p + 1) then
                  let '(r, cp) := reterr cp CSV_EQUOTE "bad value after quote"
                                         (cno L) (nline L) (p - buf) in
                  Some (Return r cp)
                else if Byte.eqb (esc cp) (qte cp)
                        && Byte.eqb (rd mem xp) (qte cp) then
                  Some (Goto QUOTED_VAL cp
                          {| ppp := p; cno := cno L; nline := nline L;
                             fldv := fldv L; quoted := quoted L;
                             l_escptr := match l_escptr L with
                                         | Some e => Some e
                                         | None => Some p
                                         end |})
                else
                  Some (FINISH mem buf q cp
                          {| ppp := xp; cno := cno L; nline := nline L;
                             fldv := fldv L; quoted := quoted L;
                             l_escptr := l_escptr L |})
            end
          else if Byte.eqb cur (esc cp) then
            let e := match l_escptr L with
                     | Some e => Some e
                     | None => Some p
                     end in
            let p := p + 2 in
            if p >=? q then Some (Return 0 cp)
            else
              Some (Goto QUOTED_VAL
                      (set_scan cp (scan_reset mem (scan cp) p q))
                      {| ppp := p; cno := cno L; nline := nline L;
                         fldv := fldv L; quoted := quoted L;
                         l_escptr := e |})
          else
            Some (Goto QUOTED_VAL cp
                    {| ppp := p; cno := cno L;
                       nline := nline L + (if Byte.eqb cur LF then 1 else 0);
                       fldv := fldv L; quoted := quoted L;
                       l_escptr := l_escptr L |})
      end
  end.

Fixpoint csv_line_run (fuel : nat) (mem : list byte) (buf q : Z) (j : jump)
  : option (Z * csv_parse_t) :=
  match j with
  | Return r cp => Some (r, cp)
  | Goto l cp L =>
      match fuel with
      | O => None
      | S f =>
          match csv_line_step mem buf q l cp L with
          | None => None
          | Some j' => csv_line_run f mem buf q j'
          end
      end
  end.

(** [csv_line (cp, buf, bufsz)]; [buf] is [None] for a [NULL] pointer. *)
Definition csv_line (cp : csv_parse_t) (mem : list byte) (buf : option Z)
           (bufsz : Z) : option (Z * csv_parse_t) :=
  match buf with
  | Some b =>
      if bufsz <=? 0 then
        Some (if bufsz =? 0 then (0, cp)
              else reterr cp CSV_EPARAM "bad bufsz" 0 0 0)
      else
        let q := b + bufsz in
        let cp := set_scan cp (scan_reset mem (scan cp) b q) in
        csv_line_run (Z.to_nat bufsz + 1) mem b q
          (Goto START_VAL cp
             {| ppp := b; cno := 0; nline := 0; fldv := b;
                quoted := false; l_escptr := None |})
  | None =>
      Some (if bufsz =? 0 then (0, cp)
            else reterr cp CSV_EPARAM "bad bufsz" 0 0 0)
  end.

(** *** FieldFinalizer: [touchup] *)

(** [memcmp (p, s2, n) == 0]. *)
Definition memcmp_eq (mem : list byte) (p : Z) (s2 : list byte) (n : Z)
  : bool :=
  forallb (fun i => Byte.eqb (rd mem (p + Z.of_nat i))
                             (zget s2 (Z.of_nat i) NUL))
          (seq 0 (Z.to_nat n)).

(** [for ( ; m; m--) *s++ = *p++;] *)
Fixpoint copy_head (m : nat) (mem : list byte) (s p : Z)
  : list byte * Z * Z :=
  match m with
  | O => (mem, s, p)
  | S k => copy_head k (wr mem s (rd mem p)) (s + 1) (p + 1)
  end.

(** [while ( *p ) *s++ = *p++;] *)
Fixpoint copy_tail (fuel : nat) (mem : list byte) (s p : Z)
  : option (list byte * Z * Z) :=
  match fuel with
  | O => None
  | S f =>
      if Byte.eqb (rd mem p) NUL then Some (mem, s, p)
      else copy_tail f (wr mem s (rd mem p)) (s + 1) (p + 1)
  end.

(** The [while (p < q)] loop that squeezes the escape bytes out.  An
    [assert] that fails aborts the program: no result. *)
Fixpoint squeeze (fuel : nat) (cp : csv_parse_t) (mem : list byte)
         (s p q : Z) : option (list byte * Z) :=
  match fuel with
  | O => None
  | S f =>
      if p <? q then
        let reg := mm_loadu_si128 mem p in
        let m := mm_cmpestri (scan_escaped_string cp) 2 reg (q - p) in
        if m =? 16 then
          if p + 16 <? q then
            squeeze f cp (mm_storeu_si128 mem s reg) (s + 16) (p + 16) q
          else
            match copy_tail (Z.to_nat (zlen mem - p) + 1) mem s p with
            | None => None
            | Some (mem, s, p) =>
                (* assert(p == q) *)
                if p =? q then Some (mem, s) else None
            end
        else
          let '(mem, s, p) := copy_head (Z.to_nat m) mem s p in
          (* assert( *p == esc) *)
          if negb (Byte.eqb (rd mem p) (esc cp)) then None
          else
            let p := p + 1 in
            let mem := wr mem s (rd mem p) in
            squeeze f cp mem (s + 1) (p + 1) q
      else Some (mem, s)
  end.

(** The body of the [for] loop of [touchup] for field [i].  A [NULL]
    field pointer cannot be dereferenced, and an [assert] that fails aborts
    the program: no result. *)
Definition touchup_field (cp : csv_parse_t) (mem : list byte) (i : Z)
  : option (csv_parse_t * list byte) :=
  match zget (fld cp) i None with
  | None => None
  | Some p =>
      let q := p + zget (len cp) i 0 in
      let mem := wr mem q NUL in
      match zget (escptr cp) i None with
      | None =>
          if (q - p =? nullstrsz cp)
             && memcmp_eq mem p (nullstr cp) (q - p)
          then Some (set_fld cp (zset (fld cp) i None), mem)
          else Some (cp, mem)
      | Some e =>
          (* assert(p <= escptr && escptr < q) *)
          if negb ((p <=? e) && (e <? q)) then None
          else
            let s := e in
            let p := e in
            (* assert( *p == esc) *)
            if negb (Byte.eqb (rd mem p) (esc cp)) then None
            else
              let p := p + 1 in
              let mem := wr mem s (rd mem p) in
              let s := s + 1 in
              let p := p + 1 in
              match squeeze (Z.to_nat (q - p) + 1) cp mem s p q with
              | None => None
              | Some (mem, s) => Some (cp, wr mem s NUL)
              end
      end
  end.

Fixpoint touchup_loop (n : nat) (i : Z) (cp : csv_parse_t) (mem : list byte)
  : option (csv_parse_t * list byte) :=
  match n with
  | O => Some (cp, mem)
  | S k =>
      match touchup_field cp mem i with
      | None => None
      | Some (cp, mem) => touchup_loop k (i + 1) cp mem
      end
  end.

Definition touchup (cp : csv_parse_t) (mem : list byte)
  : option (csv_parse_t * list byte) :=
  touchup_loop (Z.to_nat (fldtop cp)) 0 cp mem.

(** *** [csv_feed] and [csv_feed_last] *)

(** What a feed call hands back: the return value, the parser, the
    caller's block, the block the field pointers index ([f_fldmem]),
    [*ret_field] ([None] for [NULL], else the [fld] array) and
    [*ret_nfield]. *)
Record feed_t := mk_feed {
  f_ret : Z;
  f_cp : csv_parse_t;
  f_mem : list byte;
  f_fldmem : list byte;
  f_field : option (list (option Z));
  f_nfield : Z
}.

Definition csv_feed (cp : csv_parse_t) (mem : list byte) (buf : option Z)
           (bufsz : Z) : option feed_t :=
  match csv_line cp mem buf bufsz with
  | None => None
  | Some (rowsz, cp) =>
      if rowsz <=? 0 then
        Some {| f_ret := rowsz; f_cp := cp; f_mem := mem; f_fldmem := mem;
                f_field := None; f_nfield := 0 |}
      else
        match touchup cp mem with
        | None => None
        | Some (cp, mem) =>
            Some {| f_ret := rowsz; f_cp := cp; f_mem := mem;
                    f_fldmem := mem;
                    f_field := Some (fld cp); f_nfield := fldtop cp |}
        end
  end.

(** [memcpy]: [n] bytes read from [p]. *)
Definition memcpy_from (mem : list byte) (p n : Z) : list byte :=
  map (fun i => rd mem (p + Z.of_nat i)) (seq 0 (Z.to_nat n)).

Definition csv_feed_last (cp : csv_parse_t) (mem : list byte) (buf : Z)
           (bufsz : Z) : option feed_t :=
  if bufsz <? 0 then
    let '(r, cp) := reterr cp CSV_EPARAM "bad bufsz" 0 0 0 in
    Some {| f_ret := r; f_cp := cp; f_mem := mem; f_fldmem := mem;
            f_field := None; f_nfield := 0 |}
  else if bufsz =? 0 then
    Some {| f_ret := 0; f_cp := cp; f_mem := mem; f_fldmem := mem;
            f_field := None; f_nfield := 0 |}
  else if negb (Byte.eqb (rd mem (buf + bufsz - 1)) LF) then
    (* the last row is missing its LF *)
    if negb (alloc_ok (bufsz + 2)) then
      let '(r, cp) := reterr (set_lastbuf cp None) CSV_EOUTOFMEMORY
                             "out of memory" 0 0 0 in
      Some {| f_ret := r; f_cp := cp; f_mem := mem; f_fldmem := mem;
              f_field := None; f_nfield := 0 |}
    else
      let lb := memcpy_from mem buf bufsz ++ [LF; NUL] in
      match csv_feed (set_lastbuf cp (Some lb)) lb (Some 0) (bufsz + 1) with
      | None => None
      | Some r =>
          Some {| f_ret := if 0 <? f_ret r then f_ret r - 1 else f_ret r;
                  f_cp := set_lastbuf (f_cp r) (Some (f_mem r));
                  f_mem := mem; f_fldmem := f_mem r;
                  f_field := f_field r; f_nfield := f_nfield r |}
      end
  else
    csv_feed cp mem (Some buf) bufsz.

(** The row a caller reads through [ret_field]/[ret_nfield]: each field
    is [None] for a [NULL] pointer, else the C string it points at. *)
Definition row_of (fldmem : list byte) (field : option (list (option Z)))
           (nfield : Z) : list (option (list byte)) :=
  match field with
  | None => []
  | Some f =>
      map (fun o => option_map (cstring fldmem) o) (firstn (Z.to_nat nfield) f)
  end.

Definition feed_row (r : feed_t) : list (option (list byte)) :=
  row_of (f_fldmem r) (f_field r) (f_nfield r).

(** *** [csv_open] *)

(** Conversion of an [int] to [char]. *)
Definition char_of_int (z : Z) : byte :=
  match Byte.of_N (Z.to_N (z mod 256)) with
  | Some b => b
  | None => NUL
  end.

(** [strncpy (dst, src, n)] into a fresh [n]-byte array; [src] holds the
    bytes at the source pointer, its terminating [NUL] left implicit. *)
Definition strncpy (src : list byte) (n : nat) : list byte :=
  let c := firstn n (cstr_of src) in
  c ++ repeat NUL (n - length c).

Definition strlen (s : list byte) : Z := zlen (cstr_of s).

Definition sizeof_csv_parse_t : Z := 240.

Definition v16 (l : list byte) : m128i := l ++ repeat NUL (16 - length l).

Definition csv_open (qte esc delim : Z) (nullstr : option (list byte))
  : option csv_parse_t :=
  let qte := if qte =? 0 then 34 else qte in
  let esc := if esc =? 0 then qte else esc in
  let delim := if delim =? 0 then 44 else delim in
  let nullstr := match nullstr with Some s => s | None => [] end in
  if negb (alloc_ok sizeof_csv_parse_t) then None
  else
    let ns := zset (strncpy nullstr 20) 19 NUL in
    let q := char_of_int qte in
    let e := char_of_int esc in
    let d := char_of_int delim in
    Some {| fldmax := 0; fldtop := 0; fld := []; escptr := []; len := [];
            qte := q; esc := e; delim := d;
            nullstr := ns; nullstrsz := strlen ns;
            lastbuf := None;
            state := {| linenum := 0; charnum := 0; rownum := 0;
                        fldnum := 0; errnum := None; errmsg := None;
                        elinenum := 0; echarnum := 0; erownum := 0;
                        efldnum := 0 |};
            scan_escaped_string := v16 [q; e];
            scan := {| bmap := 0; base := 0; sq := 0;
                       smatch := v16 [q; e; d; CR; LF]; matchlen := 5 |} |}.

End Parser.

(** ** StreamDriver: [csv_scan] *)

Section Driver.

Variable alloc_ok : Z -> bool.

(** The caller's [handle] and its three callbacks.  [on_bufempty h cap]
    returns the C result [nb], the bytes it stored at [q] (the first [nb]
    of the list) and the new handle; [on_row] returns [true] for a
    non-zero result. *)
Variable handle : Type.
Variable on_bufempty : handle -> Z -> Z * list byte * handle.
Variable on_row : handle -> Z -> list (option (list byte)) -> bool * handle.
Variable on_error :
  handle -> option csv_errno -> option string -> option csv_parse_t -> handle.

(** The block [mem] holds the bytes of [buf] up to [q]; what lies beyond
    [q] is not initialised and is left out. *)
Inductive rows_t :=
| RowsBail (h : handle)
| RowsDone (cp : csv_parse_t) (mem : list byte) (p : Z) (h : handle).

(** [while (p < q)]: keep feeding until no complete row is left. *)
Fixpoint feed_rows (fuel : nat) (cp : csv_parse_t) (mem : list byte)
         (p q : Z) (h : handle) : option rows_t :=
  match fuel with
  | O => None
  | S f =>
      if p <? q then
        match csv_feed alloc_ok cp mem (Some p) (q - p) with
        | None => None
        | Some r =>
            let nb := f_ret r in
            if nb <=? 0 then
              if nb =? 0 then Some (RowsDone (f_cp r) (f_mem r) p h)
              else Some (RowsBail (on_error h None None (Some (f_cp r))))
            else
              let '(stop, h) :=
                on_row h (rownum (state (f_cp r))) (feed_row r) in
              if stop then Some (RowsBail h)
              else feed_rows f (f_cp r) (f_mem r) (p + nb) q h
        end
      else Some (RowsDone cp mem p h)
  end.

Inductive loop_t :=
| LoopBail (h : handle)
| LoopEof (cp : csv_parse_t) (mem : list byte) (p q : Z) (h : handle).

Definition expand_msg (bufsz : Z) : string :=
  ("cannot expand buffer beyond "
     ++ NilZero.string_of_int (Z.to_int bufsz) ++ " bytes")%string.

(** [while (!eof)]: shift, grow, fill, feed. *)
Fixpoint scan_loop (fuel : nat) (bufsz : Z) (cp : csv_parse_t)
         (mem : list byte) (p q : Z) (h : handle) : option loop_t :=
  match fuel with
  | O => None
  | S f =>
      (* shift p..q to start of buf *)
      let '(mem, p, q) :=
        if negb (p =? 0) then (memcpy_from mem p (q - p), 0, q - p)
        else (mem, p, q) in
      (* expand buf[] if p..q fills up the whole buf *)
      let grown :=
        if q - p =? bufsz then
          let newsz := bufsz + 1024 * 1024 * 10 in
          if negb (alloc_ok newsz) then None else Some newsz
        else Some bufsz in
      match grown with
      | None =>
          Some (LoopBail (on_error h (Some CSV_EOUTOFMEMORY)
                                   (Some (expand_msg bufsz)) None))
      | Some bufsz =>
          (* fill *)
          let '(nb, data, h) := on_bufempty h (bufsz - (q - p)) in
          if nb <? 0 then Some (LoopBail h)
          else
            let eof := nb =? 0 in
            let mem := memcpy_from mem 0 q ++ memcpy_from data 0 nb in
            let q := q + nb in
            match feed_rows (Z.to_nat (q - p) + 1) cp mem p q h with
            | None => None
            | Some (RowsBail h) => Some (LoopBail h)
            | Some (RowsDone cp mem p h) =>
                if eof then Some (LoopEof cp mem p q h)
                else scan_loop f bufsz cp mem p q h
            end
      end
  end.

(** [fuel] bounds the number of rounds of the [while (!eof)] loop, which
    is as long as the source keeps delivering. *)
Definition csv_scan (fuel : nat) (h : handle) (qte esc delim : Z)
           (nullstr : option (list byte)) : option (Z * handle) :=
  let bufsz := 1024 * 1024 in
  if negb (alloc_ok bufsz) then
    Some (-1, on_error h (Some CSV_EOUTOFMEMORY) (Some "out of memory"%string)
                       None)
  else
    match csv_open alloc_ok qte esc delim nullstr with
    | None =>
        Some (-1, on_error h (Some CSV_EOUTOFMEMORY)
                           (Some "csv_open failed"%string) None)
    | Some cp =>
        match scan_loop fuel bufsz cp [] 0 0 h with
        | None => None
        | Some (LoopBail h) => Some (-1, h)
        | Some (LoopEof cp mem p q h) =>
            (* one last row might remain in buf[] *)
            let last :=
              if p <? q then
                match csv_feed_last alloc_ok cp mem p (q - p) with
                | None => None
                | Some r =>
                    let nb := f_ret r in
                    if nb <? 0 then
                      Some (inl (on_error h None None (Some (f_cp r))))
                    else
                      let '(stop, h) :=
                        on_row h (rownum (state (f_cp r))) (feed_row r) in
                      if stop then Some (inl h) else Some (inr (p + nb, h))
                end
              else Some (inr (p, h)) in
            match last with
            | None => None
            | Some (inl h) => Some (-1, h)
            | Some (inr (p, h)) =>
                if negb (p =? q) then
                  Some (-1, on_error h (Some CSV_EEXTRAINPUT)
                                     (Some "extra data after last row"%string)
                                     None)
                else Some (0, h)
            end
        end
    end.

End Driver.

(** *** A source that delivers a list of chunks, and a sink that collects *)

Record tape := mk_tape {
  chunks : list (list byte);                       (* still to deliver *)
  rows : list (Z * list (option (list byte)));     (* rows seen, with rownum *)
  errors : list (option csv_errno * option csv_errno)
    (* errors seen: the errtype argument, and the parser's errnum *)
}.

(** Hands out the next chunk whole; 0 once the chunks are exhausted. *)
Definition tape_fill (t : tape) (cap : Z) : Z * list byte * tape :=
  match chunks t with
  | [] => (0, [], t)
  | c :: cs => (zlen c, c, {| chunks := cs; rows := rows t; errors := errors t |})
  end.

Definition tape_row (t : tape) (rownum : Z) (r : list (option (list byte)))
  : bool * tape :=
  (false,
   {| chunks := chunks t; rows := rows t ++ [(rownum, r)];
      errors := errors t |}).

Definition tape_error (t : tape) (e : option csv_errno) (msg : option string)
           (cp : option csv_parse_t) : tape :=
  {| chunks := chunks t; rows := rows t;
     errors := errors t ++
               [(e, match cp with
                    | Some c => errnum (state c)
                    | None => None
                    end)] |}.

(** Run the driver over the given chunks with the default configuration. *)
Definition scan_chunks (alloc_ok : Z -> bool) (cs : list (list byte))
  : option (Z * tape) :=
  csv_scan alloc_ok tape tape_fill tape_row tape_error
           (length cs + 1) {| chunks := cs; rows := []; errors := [] |}
           0 0 0 None.

(** * Specification-level definitions

    What the scanner computes, stated without bitmaps: the least position
    in [[cur, q)] that holds a byte of the special set. *)

(** Membership in the first [ml] lanes of [m], as [pcmpestr*] decides it. *)
Definition is_special (m : m128i) (ml : Z) (b : byte) : bool :=
  existsb (fun i => (Z.of_nat i <? sidd_len ml) && Byte.eqb (lane m i) b)
          (seq 0 16).

Fixpoint find_from (f : byte -> bool) (mem : list byte) (n : nat) (i : Z)
  : option Z :=
  match n with
  | O => None
  | S k => if f (rd mem i) then Some i else find_from f mem k (i + 1)
  end.

Definition find_special (f : byte -> bool) (mem : list byte) (cur q : Z)
  : option Z :=
  find_from f mem (Z.to_nat (q - cur)) cur.

(** The special set of a scanner. *)
Definition sp_of (sc : scan_t) : byte -> bool :=
  is_special (smatch sc) (matchlen sc).

(** [scan_ok mem sc cur q]: the scanner [sc] is about to deliver exactly the
    special positions of [[cur, q)], in order.  [cur] is one past the last
    position delivered. *)
Definition scan_ok (mem : list byte) (sc : scan_t) (cur q : Z) : Prop :=
  sq sc = q /\
  base sc <= cur <= base sc + 16 /\
  0 <= bmap sc < 65536 /\
  forall k, 0 <= k < 16 ->
            Z.testbit (bmap sc) k =
            (cur <=? base sc + k) && (base sc + k <? q)
            && sp_of sc (rd mem (base sc + k)).

(** The scanner with its [base] moved to [b], as [__scan_forward] leaves it. *)
Definition with_base (sc : scan_t) (b : Z) : scan_t :=
  {| bmap := bmap sc; base := b; sq := sq sc;
     smatch := smatch sc; matchlen := matchlen sc |}.

(** ** The row state machine over the abstract scanner

    [astep] is [csv_line_step] with every [scan_next] replaced by
    [find_special] from a cursor; the parser it works on has its scanner
    erased.  The simulation lemma below ties the two together. *)

Definition erase (cp : csv_parse_t) : csv_parse_t :=
  set_scan cp {| bmap := 0; base := 0; sq := 0; smatch := []; matchlen := 0 |}.

Inductive ajump :=
| AReturn (r : Z) (cp : csv_parse_t)
| AGoto (l : label) (cp : csv_parse_t) (L : locals) (cur : Z).

Definition lift (cur : Z) (j : jump) : ajump :=
  match j with
  | Return r cp => AReturn r cp
  | Goto l cp L => AGoto l cp L cur
  end.

Definition map_jump (g : csv_parse_t -> csv_parse_t) (j : jump) : jump :=
  match j with
  | Return r cp => Return r (g cp)
  | Goto l cp L => Goto l (g cp) L
  end.

Section Abstract.
Variable alloc_ok : Z -> bool.
Variable f : byte -> bool.
Variable mem : list byte.
Variables buf q : Z.

Definition astep (l : label) (cp : csv_parse_t) (L : locals) (cur : Z)
  : ajump :=
  match l with
  | START_VAL =>
      let grown :=
        if cno L >=? fldmax cp then
          let '(r, cp') := expand alloc_ok cp in
          if r =? 0 then inr cp'
          else inl (reterr cp' CSV_EOUTOFMEMORY "out of memory"
                           (cno L) (nline L) (ppp L - buf))
        else inr cp in
      match grown with
      | inl (r, cp) => AReturn r cp
      | inr cp =>
          let cp := set_fld cp (zset (fld cp) (cno L) (Some (ppp L))) in
          let fv := ppp L in
          match find_special f mem cur q with
          | None => AReturn 0 cp
          | Some p =>
              let qd := (p =? fv) && Byte.eqb (rd mem p) (qte cp) in
              let L' := {| ppp := p; cno := cno L; nline := nline L;
                           fldv := fv; quoted := qd; l_escptr := None |} in
              if qd then AGoto QUOTED_VAL cp L' (p + 1)
              else lift (p + 1) (FINISH mem buf q cp L')
          end
      end
  | QUOTED_VAL =>
      match find_special f mem cur q with
      | None => AReturn 0 cp
      | Some p =>
          let c := rd mem p in
          if Byte.eqb c (qte cp) then
            match find_special f mem (p + 1) q with
            | None => AReturn 0 cp
            | Some xp =>
                if negb (xp =? p + 1) then
                  let '(r, cp) := reterr cp CSV_EQUOTE "bad value after quote"
                                         (cno L) (nline L) (p - buf) in
                  AReturn r cp
                else if Byte.eqb (esc cp) (qte cp)
                        && Byte.eqb (rd mem xp) (qte cp) then
                  AGoto QUOTED_VAL cp
                        {| ppp := p; cno := cno L; nline := nline L;
                           fldv := fldv L; quoted := quoted L;
                           l_escptr := match l_escptr L with
                                       | Some e => Some e
                                       | None => Some p
                                       end |}
                        (xp + 1)
                else
                  lift (xp + 1)
                       (FINISH mem buf q cp
                               {| ppp := xp; cno := cno L; nline := nline L;
                                  fldv := fldv L; quoted := quoted L;
                                  l_escptr := l_escptr L |})
            end
          else if Byte.eqb c (esc cp) then
            let e := match l_escptr L with
                     | Some e => Some e
                     | None => Some p
                     end in
            let p := p + 2 in
            if p >=? q then AReturn 0 cp
            else
              AGoto QUOTED_VAL cp
                    {| ppp := p; cno := cno L; nline := nline L;
                       fldv := fldv L; quoted := quoted L; l_escptr := e |}
                    p
          else
            AGoto QUOTED_VAL cp
                  {| ppp := p; cno := cno L;
                     nline := nline L + (if Byte.eqb c LF then 1 else 0);
                     fldv := fldv L; quoted := quoted L;
                     l_escptr := l_escptr L |}
                  (p + 1)
      end
  end.

Fixpoint arun (fuel : nat) (j : ajump) : option (Z * csv_parse_t) :=
  match j with
  | AReturn r cp => Some (r, cp)
  | AGoto l cp L cur =>
      match fuel with
      | O => None
      | S k => arun k (astep l cp L cur)
      end
  end.
End Abstract.

(** [csv_line] over the abstract scanner. *)
Definition aline (alloc_ok : Z -> bool) (cp : csv_parse_t) (mem : list byte)
           (b bufsz : Z) : option (Z * csv_parse_t) :=
  arun alloc_ok (sp_of (scan cp)) mem b (b + bufsz) (Z.to_nat bufsz + 1)
       (AGoto START_VAL (erase cp)
              {| ppp := b; cno := 0; nline := 0; fldv := b;
                 quoted := false; l_escptr := None |} b).

(** One step of [csv_line] against one step of the abstract machine: the
    same result with the scanner erased, and a scanner that is about to
    deliver the special positions from the abstract cursor on. *)
Definition step_rel (mem : list byte) (q : Z) (f : byte -> bool) (j : jump)
           (a : ajump) : Prop :=
  match j with
  | Return r c => a = AReturn r (erase c)
  | Goto l c L =>
      exists cur, a = AGoto l (erase c) L cur /\
                  scan_ok mem (scan c) cur q /\ sp_of (scan c) = f
  end.

(** ** Invariants of the row state machine *)

(** The three field arrays have room for [fldmax] slots. *)
Definition cp_wf (cp : csv_parse_t) : Prop :=
  0 <= fldmax cp /\
  fldmax cp <= zlen (fld cp) /\
  fldmax cp <= zlen (escptr cp) /\
  fldmax cp <= zlen (len cp).

(** The configuration part of a parser: what [csv_open] sets and no
    parsing function changes (the spill buffer aside). *)
Definition cfg_eq (cp cp0 : csv_parse_t) : Prop :=
  qte cp = qte cp0 /\ esc cp = esc cp0 /\ delim cp = delim cp0 /\
  nullstr cp = nullstr cp0 /\ nullstrsz cp = nullstrsz cp0 /\
  lastbuf cp = lastbuf cp0 /\
  scan_escaped_string cp = scan_escaped_string cp0.

Definition field_at (cp : csv_parse_t) (i : Z) : option Z * Z * option Z :=
  (zget (fld cp) i None, zget (len cp) i 0, zget (escptr cp) i None).

Definition fields_of (cp : csv_parse_t) (n : nat)
  : list (option Z * Z * option Z) :=
  map (fun i => field_at cp (Z.of_nat i)) (seq 0 n).

(** An escape position lies inside its field, with the escaped byte. *)
Definition esc_ok (s l : Z) (e : option Z) : Prop :=
  match e with
  | None => True
  | Some e => s <= e /\ e + 1 < s + l
  end.

(** The fields lie in [[lo, hi)], in order, each followed by at least one
    byte (its terminator or closing quote) before the next one starts. *)
Fixpoint chain (lo : Z) (fs : list (option Z * Z * option Z)) (hi : Z) : Prop :=
  match fs with
  | [] => lo <= hi
  | (Some s, l, e) :: t =>
      lo <= s /\ 0 <= l /\ esc_ok s l e /\ chain (s + l + 1) t hi
  | (None, _, _) :: _ => False
  end.

(** The state after a completed row of [r] bytes with [nl] embedded LFs. *)
Definition advance (s : csv_state) (nl r : Z) : csv_state :=
  {| linenum := linenum s + (nl + 1); charnum := charnum s + r;
     rownum := rownum s + 1; fldnum := fldnum s;
     errnum := errnum s; errmsg := errmsg s;
     elinenum := elinenum s; echarnum := echarnum s;
     erownum := erownum s; efldnum := efldnum s |}.

Definition line_inv (buf q : Z) (cp0 : csv_parse_t) (l : label)
           (cp : csv_parse_t) (L : locals) (cur : Z) : Prop :=
  cfg_eq cp cp0 /\ state cp = state cp0 /\
  buf <= cur <= q /\ 0 <= cno L /\ 0 <= nline L /\
  match l with
  | START_VAL =>
      ppp L = cur /\
      (cp_wf cp0 ->
       cp_wf cp /\ cno L <= fldmax cp /\
       chain buf (fields_of cp (Z.to_nat (cno L))) cur)
  | QUOTED_VAL =>
      quoted L = true /\ buf <= fldv L /\ fldv L + 1 <= cur /\
      match l_escptr L with
      | Some e => fldv L + 1 <= e /\ e + 2 <= cur
      | None => True
      end /\
      (cp_wf cp0 ->
       cp_wf cp /\ cno L < fldmax cp /\
       chain buf (fields_of cp (Z.to_nat (cno L))) (fldv L))
  end.

(** What [csv_line] guarantees about its result. *)
Definition line_post (mem : list byte) (buf q : Z) (cp0 : csv_parse_t)
           (r : Z) (cp : csv_parse_t) : Prop :=
  cfg_eq cp cp0 /\
  (r = 0 \/ r = -1 \/ 0 < r <= q - buf) /\
  (r = 0 -> state cp = state cp0) /\
  (r = -1 -> counters cp = counters cp0 /\ errnum (state cp) <> None) /\
  (0 < r ->
   (exists nl, 0 <= nl /\ state cp = advance (state cp0) nl r) /\
   1 <= fldtop cp /\ rd mem (buf + r - 1) = LF) /\
  (cp_wf cp0 ->
   cp_wf cp /\
   (0 < r -> chain buf (fields_of cp (Z.to_nat (fldtop cp))) (buf + r))).

(** The array updates at the head of FINISH. *)
Definition fin_arrays (cp : csv_parse_t) (L : locals) : csv_parse_t :=
  let c := cno L in
  let cp := set_len cp (zset (len cp) c (ppp L - fldv L)) in
  let cp := set_escptr cp (zset (escptr cp) c (l_escptr L)) in
  if quoted L then
    let cp := set_fld cp (zset (fld cp) c (Some (fldv L + 1))) in
    set_len cp (zset (len cp) c (zget (len cp) c 0 - 2))
  else cp.

(** ** What the finalizer computes *)

(** Removal of the escape bytes: a flagged byte is dropped and the byte
    after it is kept. *)
Fixpoint unesc (qe : byte -> bool) (l : list byte) : list byte :=
  match l with
  | [] => []
  | b :: t =>
      if qe b then
        match t with
        | [] => []
        | c :: t' => c :: unesc qe t'
        end
      else b :: unesc qe t
  end.

(** No NUL byte, and every flagged byte is followed by a byte. *)
Fixpoint clean (qe : byte -> bool) (l : list byte) : bool :=
  match l with
  | [] => true
  | b :: t =>
      negb (Byte.eqb b NUL) &&
      (if qe b then
         match t with
         | [] => false
         | c :: t' => negb (Byte.eqb c NUL) && clean qe t'
         end
       else clean qe t)
  end.

(** Every flagged byte that starts a pair is the escape byte [es]. *)
Fixpoint led (es : byte) (qe : byte -> bool) (l : list byte) : bool :=
  match l with
  | [] => true
  | b :: t =>
      if qe b then
        Byte.eqb b es &&
        match t with
        | [] => true
        | _ :: t' => led es qe t'
        end
      else led es qe t
  end.

(** The bytes [touchup] looks for while squeezing. *)
Definition qe_of (cp : csv_parse_t) : byte -> bool :=
  is_special (scan_escaped_string cp) 2.

(** Whether [touchup] turns the field [(s, l, e)] into [NULL]. *)
Definition is_null_field (cp : csv_parse_t) (mem : list byte)
           (fd : option Z * Z * option Z) : bool :=
  match fd with
  | (Some s, l, None) =>
      (l =? nullstrsz cp) && memcmp_eq mem s (nullstr cp) l
  | _ => false
  end.

(** The fields [i], [i+1], ..., [i+n-1]. *)
Definition fields_from (cp : csv_parse_t) (i : Z) (n : nat)
  : list (option Z * Z * option Z) :=
  map (fun k => field_at cp (i + Z.of_nat k)) (seq 0 n).

(** The text of a field as [touchup] leaves it: the bytes of its span,
    with the escape bytes squeezed out when an escape was recorded. *)
Definition field_text (cp : csv_parse_t) (mem : list byte)
           (fd : option Z * Z * option Z) : list byte :=
  match fd with
  | (Some s, l, None) => memcpy_from mem s l
  | (Some s, l, Some _) => unesc (qe_of cp) (memcpy_from mem s l)
  | (None, _, _) => []
  end.

(** When a recorded escape position is the first flagged byte of a span
    that lies inside the block, is [clean] and has the escape byte in front
    of every pair: the [assert]s of [touchup] hold on such a field. *)
Definition text_cond (cp : csv_parse_t) (mem : list byte)
           (fd : option Z * Z * option Z) : Prop :=
  match fd with
  | (Some s, l, Some e) =>
      0 <= s /\ s + l <= zlen mem /\
      clean (qe_of cp) (memcpy_from mem s l) = true /\
      led (esc cp) (qe_of cp) (memcpy_from mem s l) = true /\
      qe_of cp (rd mem e) = true /\
      forall k, s <= k < e -> qe_of cp (rd mem k) = false
  | _ => True
  end.

(** The block holds [txt] at [s], followed by a NUL. *)
Definition field_done (mem : list byte) (s : Z) (txt : list byte) : Prop :=
  rd mem (s + zlen txt) = NUL /\ memcpy_from mem s (zlen txt) = txt.

(** Two parsers that differ at most in their [fld] array. *)
Definition same_but_fld (cp' cp : csv_parse_t) : Prop :=
  cp' = set_fld cp (fld cp').

(** ** Concrete settings for the examples *)

(** An allocator that serves every request. *)
Definition always_ok (n : Z) : bool := true.

(** Run [k] on the parser [csv_open] returns. *)
Definition with_open {A} (o : option csv_parse_t)
           (k : csv_parse_t -> option A) : option A :=
  match o with
  | Some cp => k cp
  | None => None
  end.

(** The default configuration: the double quote as quote and escape byte,
    the comma as delimiter, an empty null marker. *)
Definition open_default : option csv_parse_t :=
  csv_open always_ok 0 0 0 None.

(** ASCII text as bytes. *)
Definition txt (s : string) : list byte := list_byte_of_string s.

(** The parser [open_default] yields, spelled out. *)
Definition default_cp : csv_parse_t :=
  Eval vm_compute in
    match open_default with
    | Some cp => cp
    | None =>
        {| fldmax := 0; fldtop := 0; fld := []; escptr := []; len := [];
           qte := NUL; esc := NUL; delim := NUL; nullstr := []; nullstrsz := 0;
           lastbuf := None;
           state := {| linenum := 0; charnum := 0; rownum := 0; fldnum := 0;
                       errnum := None; errmsg := None; elinenum := 0;
                       echarnum := 0; erownum := 0; efldnum := 0 |};
           scan_escaped_string := [];
           scan := {| bmap := 0; base := 0; sq := 0; smatch := [];
                      matchlen := 0 |} |}
    end.

(** What a caller sees of a feed call: the return value and the row. *)
Definition feed_view (o : option feed_t)
  : option (Z * list (option (list byte))) :=
  option_map (fun r => (f_ret r, feed_row r)) o.

(** What a caller sees of a [csv_line] call: the return value, the error
    code and the character offset of the error record. *)
Definition line_view (o : option (Z * csv_parse_t))
  : option (Z * option csv_errno * Z) :=
  option_map (fun '(r, c) => (r, errnum (state c), echarnum (state c))) o.

(** What the sink saw of a driver run: the return value, the rows and the
    error codes. *)
Definition scan_view (o : option (Z * tape))
  : option (Z * list (list (option (list byte))) * list (option csv_errno)) :=
  option_map (fun '(r, t) => (r, map snd (rows t), map snd (errors t))) o.

(** A parser opened with the null marker [NULL]. *)
Definition null_cp : csv_parse_t :=
  Eval vm_compute in
    match csv_open always_ok 0 0 0 (Some (txt "NULL")) with
    | Some cp => cp
    | None => default_cp
    end.

(** ** Writing a row, to read it back

    A field is written either plain or between quotes, every quote byte of
    its content doubled; fields are joined by the delimiter and the row ends
    in LF or CR LF. *)

Definition dbl (qt : byte) (c : list byte) : list byte :=
  flat_map (fun b => if Byte.eqb b qt then [qt; qt] else [b]) c.

(** A field to write: whether to quote it, and its content. *)
Definition src_field := (bool * list byte)%type.

Definition enc_field (qt : byte) (fd : src_field) : list byte :=
  if fst fd then qt :: dbl qt (snd fd) ++ [qt] else snd fd.

Definition eol (crlf : bool) : list byte := if crlf then [CR; LF] else [LF].

(** The fields after the first one, each behind a delimiter. *)
Definition enc_more (qt dl : byte) (more : list src_field) : list byte :=
  flat_map (fun fd => dl :: enc_field qt fd) more.

Definition enc_row (qt dl : byte) (fd : src_field) (more : list src_field)
           (crlf : bool) : list byte :=
  enc_field qt fd ++ enc_more qt dl more ++ eol crlf.

(** The configuration [csv_open] builds, with the doubling convention and
    a quote and a delimiter that are not line-ending bytes. *)
Definition cfg_std (cp : csv_parse_t) : Prop :=
  esc cp = qte cp /\
  scan_escaped_string cp = v16 [qte cp; esc cp] /\
  smatch (scan cp) = v16 [qte cp; esc cp; delim cp; CR; LF] /\
  matchlen (scan cp) = 5 /\
  qte cp <> delim cp /\ qte cp <> CR /\ qte cp <> LF /\
  delim cp <> CR /\ delim cp <> LF.

Definition is_std_special (cp : csv_parse_t) (b : byte) : bool :=
  Byte.eqb b (qte cp) || Byte.eqb b (delim cp)
  || Byte.eqb b CR || Byte.eqb b LF.

(** A field that can be written: no NUL byte, and no special byte unless it
    is quoted. *)
Definition valid_field (cp : csv_parse_t) (fd : src_field) : Prop :=
  Forall (fun b => b <> NUL) (snd fd) /\
  (fst fd = false -> Forall (fun b => is_std_special cp b = false) (snd fd)).

Fixpoint bytes_eqb (a b : list byte) : bool :=
  match a, b with
  | [], [] => true
  | x :: a', y :: b' => Byte.eqb x y && bytes_eqb a' b'
  | _, _ => false
  end.

(** What the caller reads back for a written field: its content, or the
    null value when the content has no quote byte and is the null marker. *)
Definition field_value (cp : csv_parse_t) (fd : src_field)
  : option (list byte) :=
  if existsb (fun b => Byte.eqb b (qte cp)) (snd fd) then Some (snd fd)
  else if bytes_eqb (snd fd) (cstr_of (nullstr cp)) then None
       else Some (snd fd).

(** Position of the first quote byte of a content written at [pos]. *)
Fixpoint first_esc (qt : byte) (pos : Z) (c : list byte) : option Z :=
  match c with
  | [] => None
  | b :: c' => if Byte.eqb b qt then Some pos else first_esc qt (pos + 1) c'
  end.

(** The descriptor [csv_line] records for a field written at [pos]. *)
Definition desc (qt : byte) (pos : Z) (fd : src_field)
  : option Z * Z * option Z :=
  if fst fd
  then (Some (pos + 1), zlen (dbl qt (snd fd)), first_esc qt (pos + 1) (snd fd))
  else (Some pos, zlen (snd fd), None).

Fixpoint descs (qt : byte) (pos : Z) (fds : list src_field)
  : list (option Z * Z * option Z) :=
  match fds with
  | [] => []
  | fd :: more =>
      desc qt pos fd :: descs qt (pos + zlen (enc_field qt fd) + 1) more
  end.

(** The block holds the bytes [l] at [pos]. *)
Definition mem_has (mem : list byte) (pos : Z) (l : list byte) : Prop :=
  memcpy_from mem pos (zlen l) = l.

Fixpoint count_lf (c : list byte) : Z :=
  match c with
  | [] => 0
  | b :: c' => (if Byte.eqb b LF then 1 else 0) + count_lf c'
  end.

Definition or_else (a b : option Z) : option Z :=
  match a with
  | Some e => Some e
  | None => b
  end.

(** The abstract machine gets from [j] to [j'] in a number of steps that
    does not depend on the fuel at hand. *)
Definition reaches (alloc_ok : Z -> bool) (f : byte -> bool)
           (mem : list byte) (buf q : Z) (j j' : ajump) : Prop :=
  exists k, forall fuel,
      arun alloc_ok f mem buf q (k + fuel) j = arun alloc_ok f mem buf q fuel j'.

(** The parser with room for field [k], as START_VAL makes it when every
    allocation is served. *)
Definition ensure (alloc_ok : Z -> bool) (cp : csv_parse_t) (k : Z)
  : csv_parse_t :=
  if k >=? fldmax cp then snd (expand alloc_ok cp) else cp.

(** The parser START_VAL leaves when a field starts at [pos]. *)
Definition started (alloc_ok : Z -> bool) (cp : csv_parse_t) (k pos : Z)
  : csv_parse_t :=
  set_fld (ensure alloc_ok cp k)
          (zset (fld (ensure alloc_ok cp k)) k (Some pos)).

(** A parser whose quote is also its escape, with delimiter [dl]. *)
Definition cfg_run (qt dl : byte) (cp : csv_parse_t) : Prop :=
  qte cp = qt /\ esc cp = qt /\ delim cp = dl.

(** ** Using the scanner and the parser: what a caller observes *)

(** The positions successive [scan_next] calls deliver, up to the call that
    returns the C [0]. *)
Fixpoint scan_collect (fuel : nat) (mem : list byte) (sc : scan_t)
  : option (list Z) :=
  match fuel with
  | O => None
  | S k =>
      match scan_next mem sc with
      | None => None
      | Some (None, _) => Some []
      | Some (Some p, sc') => option_map (cons p) (scan_collect k mem sc')
      end
  end.

(** The positions of [[p, q)] that hold a byte of the set [f], in order. *)
Definition specials (f : byte -> bool) (mem : list byte) (p q : Z) : list Z :=
  filter (fun k => f (rd mem k))
         (map (fun i => p + Z.of_nat i) (seq 0 (Z.to_nat (q - p)))).

(** What the scanner looks for: the part of [scan_t] no function changes
    once [csv_open] has set it. *)
Definition scan_cfg (sc : scan_t) : m128i * Z := (smatch sc, matchlen sc).

(** A row to write: its first field, the other fields, and whether it ends
    in CR LF or in LF. *)
Definition src_row := (src_field * list src_field * bool)%type.

Definition enc_src_row (qt dl : byte) (r : src_row) : list byte :=
  enc_row qt dl (fst (fst r)) (snd (fst r)) (snd r).

Definition row_fields (r : src_row) : list src_field :=
  fst (fst r) :: snd (fst r).

(** A written row without its line end. *)
Definition enc_body (qt dl : byte) (fd : src_field) (more : list src_field)
  : list byte :=
  enc_field qt fd ++ enc_more qt dl more.

Definition valid_row (cp : csv_parse_t) (r : src_row) : Prop :=
  Forall (valid_field cp) (row_fields r).

(** What the caller reads back for a written row. *)
Definition row_values (cp : csv_parse_t) (r : src_row)
  : list (option (list byte)) :=
  map (field_value cp) (row_fields r).

(** A stream of rows, as written. *)
Definition enc_rows (qt dl : byte) (rs : list src_row) : list byte :=
  flat_map (enc_src_row qt dl) rs.

(** The bytes [lo] are the start of the next row of [rs] and not the whole
    of it, nor all of it but the LF of a CR LF. *)
Definition pending (qt dl : byte) (lo : list byte) (rs : list src_row)
  : Prop :=
  lo = [] \/
  exists r rs',
    rs = r :: rs' /\
    (length lo < length (enc_src_row qt dl r))%nat /\
    lo = firstn (length lo) (enc_src_row qt dl r) /\
    (snd r = true -> S (length lo) <> length (enc_src_row qt dl r)).

(** A parser between two rows of a stream opened as [cp0]. *)
Definition ready (cp0 cp : csv_parse_t) : Prop :=
  cfg_std cp /\ cp_wf cp /\ cfg_eq cp cp0 /\
  nullstrsz cp = strlen (nullstr cp).

(** ** Writing a row with an escape byte of its own

    With an escape byte that differs from the quote, a quoted field is
    written with the escape byte in front of every quote and every escape
    byte of its content. *)

Definition is_esc (qt es : byte) (b : byte) : bool :=
  Byte.eqb b qt || Byte.eqb b es.

Definition benc (qt es : byte) (c : list byte) : list byte :=
  flat_map (fun b => if is_esc qt es b then [es; b] else [b]) c.

Definition benc_field (qt es : byte) (fd : src_field) : list byte :=
  if fst fd then qt :: benc qt es (snd fd) ++ [qt] else snd fd.

Definition benc_more (qt es dl : byte) (more : list src_field) : list byte :=
  flat_map (fun fd => dl :: benc_field qt es fd) more.

Definition benc_row (qt es dl : byte) (fd : src_field)
           (more : list src_field) (crlf : bool) : list byte :=
  benc_field qt es fd ++ benc_more qt es dl more ++ eol crlf.

(** The configuration [csv_open] builds for an escape byte that is not the
    quote: quote, escape and delimiter differ and are not line-ending
    bytes, and the escape byte is not NUL. *)
Definition cfg_bs (cp : csv_parse_t) : Prop :=
  esc cp <> qte cp /\
  scan_escaped_string cp = v16 [qte cp; esc cp] /\
  smatch (scan cp) = v16 [qte cp; esc cp; delim cp; CR; LF] /\
  matchlen (scan cp) = 5 /\
  qte cp <> delim cp /\ qte cp <> CR /\ qte cp <> LF /\
  esc cp <> delim cp /\ esc cp <> CR /\ esc cp <> LF /\ esc cp <> NUL /\
  delim cp <> CR /\ delim cp <> LF.

Definition is_bs_special (cp : csv_parse_t) (b : byte) : bool :=
  Byte.eqb b (qte cp) || Byte.eqb b (esc cp) || Byte.eqb b (delim cp)
  || Byte.eqb b CR || Byte.eqb b LF.

Definition valid_bs_field (cp : csv_parse_t) (fd : src_field) : Prop :=
  Forall (fun b => b <> NUL) (snd fd) /\
  (fst fd = false -> Forall (fun b => is_bs_special cp b = false) (snd fd)).

(** What the caller reads back: the content, or the null value when the
    content needed no escape byte and is the null marker. *)
Definition bs_value (cp : csv_parse_t) (fd : src_field)
  : option (list byte) :=
  if existsb (is_esc (qte cp) (esc cp)) (snd fd) then Some (snd fd)
  else if bytes_eqb (snd fd) (cstr_of (nullstr cp)) then None
       else Some (snd fd).

(** Position of the first escape byte of a content written at [pos]. *)
Fixpoint first_bs (qt es : byte) (pos : Z) (c : list byte) : option Z :=
  match c with
  | [] => None
  | b :: c' => if is_esc qt es b then Some pos else first_bs qt es (pos + 1) c'
  end.

Definition bdesc (qt es : byte) (pos : Z) (fd : src_field)
  : option Z * Z * option Z :=
  if fst fd
  then (Some (pos + 1), zlen (benc qt es (snd fd)),
        first_bs qt es (pos + 1) (snd fd))
  else (Some pos, zlen (snd fd), None).

Fixpoint bdescs (qt es : byte) (pos : Z) (fds : list src_field)
  : list (option Z * Z * option Z) :=
  match fds with
  | [] => []
  | fd :: more =>
      bdesc qt es pos fd
      :: bdescs qt es (pos + zlen (benc_field qt es fd) + 1) more
  end.

(** A parser with quote [qt], escape [es] and delimiter [dl]. *)
Definition cfg_run3 (qt es dl : byte) (cp : csv_parse_t) : Prop :=
  qte cp = qt /\ esc cp = es /\ delim cp = dl.

(** A parser opened with the backslash as escape byte. *)
Definition bs_cp : csv_parse_t :=
  Eval vm_compute in
    match csv_open always_ok 0 92 0 None with
    | Some cp => cp
    | None => default_cp
    end.

Definition BSLASH : byte := x5c.

(** ** Rows of any content: when [touchup] comes back *)

(** The scan vectors are the ones [csv_open] builds from the quote, the
    escape and the delimiter of the parser. *)
Definition cfg_open (cp : csv_parse_t) : Prop :=
  scan_escaped_string cp = v16 [qte cp; esc cp] /\
  smatch (scan cp) = v16 [qte cp; esc cp; delim cp; CR; LF] /\
  matchlen (scan cp) = 5.

(** No NUL byte in [[lo, hi)]. *)
Definition nul_free (mem : list byte) (lo hi : Z) : Prop :=
  forall k, lo <= k < hi -> rd mem k <> NUL.

(** The [n] bytes of a block from offset [p] on. *)
Definition sub_block (mem : list byte) (p n : Z) : list byte :=
  firstn (Z.to_nat n) (skipn (Z.to_nat p) mem).

(** The bytes of a quoted field read so far, [[a, cur)]: plain bytes and
    whole escape pairs, each pair led by the escape byte, and the recorded
    escape position the first flagged byte. *)
Definition span_ok (cp : csv_parse_t) (mem : list byte) (a cur : Z)
           (e : option Z) : Prop :=
  clean (qe_of cp) (memcpy_from mem a (cur - a)) = true /\
  led (esc cp) (qe_of cp) (memcpy_from mem a (cur - a)) = true /\
  match e with
  | Some e =>
      qe_of cp (rd mem e) = true /\
      forall k, a <= k < e -> qe_of cp (rd mem k) = false
  | None => forall k, a <= k < cur -> qe_of cp (rd mem k) = false
  end.

(** The first [n] fields meet [text_cond]. *)
Definition fields_ok (cp : csv_parse_t) (mem : list byte) (n : Z) : Prop :=
  forall i, 0 <= i < n -> text_cond cp mem (field_at cp i).

(** What the row state machine keeps about the bytes it has read. *)
Definition text_inv (mem : list byte) (l : label) (cp : csv_parse_t)
           (L : locals) (cur : Z) : Prop :=
  fields_ok cp mem (cno L) /\
  match l with
  | START_VAL => True
  | QUOTED_VAL => span_ok cp mem (fldv L + 1) cur (l_escptr L)
  end.

(** * Properties *)

(** ** Blocks *)

Section BlockFacts.
Context {A : Type}.
Implicit Types (l : list A) (i j : Z) (v d : A).

Lemma set_nth_length n v l : length (set_nth n v l) = length l.
Proof.
  revert n; induction l as [|x t IH]; intros [|n]; simpl; auto.
Qed.

Lemma nth_set_nth_eq n v l d : (n < length l)%nat -> nth n (set_nth n v l) d = v.
Proof.
  revert n; induction l as [|x t IH]; intros [|n]; simpl; intros; try lia; auto.
  apply IH; lia.
Qed.

Lemma nth_set_nth_ne n m v l d : n <> m -> nth m (set_nth n v l) d = nth m l d.
Proof.
  revert n m; induction l as [|x t IH]; intros [|n] [|m]; simpl; intros;
    try congruence; auto.
Qed.

Lemma zset_length l i v : length (zset l i v) = length l.
Proof. unfold zset; destruct (i <? 0); auto using set_nth_length. Qed.

Lemma zlen_zset l i v : zlen (zset l i v) = zlen l.
Proof. unfold zlen; now rewrite zset_length. Qed.

Lemma zget_zset_eq l i v d : 0 <= i < zlen l -> zget (zset l i v) i d = v.
Proof.
  unfold zget, zset, zlen; intros H.
  destruct (Z.ltb_spec i 0); try lia.
  apply nth_set_nth_eq; lia.
Qed.

Lemma zget_zset_ne l i j v d : i <> j -> zget (zset l i v) j d = zget l j d.
Proof.
  unfold zget, zset; intros H.
  destruct (Z.ltb_spec j 0); auto.
  destruct (Z.ltb_spec i 0); auto.
  apply nth_set_nth_ne; lia.
Qed.

Lemma zget_zset l i j v d :
  zget (zset l i v) j d = if (i =? j) && (0 <=? i) && (i <? zlen l) then v else zget l j d.
Proof.
  destruct (Z.eqb_spec i j) as [->|Hne]; simpl.
  - destruct (Z.leb_spec 0 j); simpl.
    + destruct (Z.ltb_spec j (zlen l)).
      * apply zget_zset_eq; lia.
      * unfold zget, zset, zlen in *.
        destruct (Z.ltb_spec j 0); try lia.
        rewrite !nth_overflow; auto; rewrite ?set_nth_length; lia.
    + unfold zget; destruct (Z.ltb_spec j 0); auto; lia.
  - now apply zget_zset_ne.
Qed.

Lemma zget_outside l i d : i < 0 \/ zlen l <= i -> zget l i d = d.
Proof.
  unfold zget, zlen; intros H.
  destruct (Z.ltb_spec i 0); auto.
  apply nth_overflow; lia.
Qed.

Lemma zget_app_l l l' i d : i < zlen l -> zget (l ++ l') i d = zget l i d.
Proof.
  unfold zget, zlen; intros H.
  destruct (Z.ltb_spec i 0); auto.
  apply app_nth1; lia.
Qed.

Lemma zget_app_r l l' i d :
  zlen l <= i -> zget (l ++ l') i d = zget l' (i - zlen l) d.
Proof.
  unfold zget, zlen; intros H.
  destruct (Z.ltb_spec i 0); destruct (Z.ltb_spec (i - Z.of_nat (length l)) 0);
    try lia.
  rewrite app_nth2 by lia. f_equal; lia.
Qed.

Lemma zget_cons_0 x l d : zget (x :: l) 0 d = x.
Proof. reflexivity. Qed.

Lemma zget_cons_pos x l i d : 0 < i -> zget (x :: l) i d = zget l (i - 1) d.
Proof.
  unfold zget; intros H.
  destruct (Z.ltb_spec i 0); destruct (Z.ltb_spec (i - 1) 0); try lia.
  replace (Z.to_nat i) with (S (Z.to_nat (i - 1))) by lia. reflexivity.
Qed.

Lemma grow_length l n d : zlen l <= n -> zlen (grow l n d) = n.
Proof.
  unfold grow, zlen; intros H. rewrite length_app, repeat_length. lia.
Qed.

Lemma zget_grow l n d i : zget (grow l n d) i d = zget l i d.
Proof.
  unfold grow.
  destruct (Z.ltb_spec i (zlen l)).
  - now apply zget_app_l.
  - rewrite zget_app_r by lia.
    rewrite (zget_outside l) by lia.
    unfold zget. destruct (_ <? 0); auto.
    apply nth_repeat.
Qed.
End BlockFacts.

Lemma rd_wr mem p v i :
  rd (wr mem p v) i = if (p =? i) && (0 <=? p) && (p <? zlen mem) then v else rd mem i.
Proof. apply zget_zset. Qed.

Lemma rd_wr_ne mem p v i : p <> i -> rd (wr mem p v) i = rd mem i.
Proof. apply zget_zset_ne. Qed.

Lemma rd_wr_eq mem p v : 0 <= p < zlen mem -> rd (wr mem p v) p = v.
Proof. apply zget_zset_eq. Qed.

Lemma wr_length mem p v : zlen (wr mem p v) = zlen mem.
Proof. apply zlen_zset. Qed.

Lemma byte_eqb_refl b : Byte.eqb b b = true.
Proof. now apply Byte.byte_dec_lb. Qed.

Lemma byte_eqb_spec a b : reflect (a = b) (Byte.eqb a b).
Proof.
  destruct (Byte.eqb a b) eqn:E; constructor.
  - now apply Byte.byte_dec_bl.
  - now apply Byte.eqb_false.
Qed.

Lemma byte_eqb_sym a b : Byte.eqb a b = Byte.eqb b a.
Proof.
  destruct (byte_eqb_spec a b), (byte_eqb_spec b a); congruence.
Qed.

(** ** Bit-level facts for the scanner *)

Lemma bits_to_Z_testbit l k :
  0 <= k -> Z.testbit (bits_to_Z l) k = nth (Z.to_nat k) l false.
Proof.
  revert k; induction l as [|b t IH]; intros k Hk; cbn [bits_to_Z].
  - rewrite Z.bits_0. now destruct (Z.to_nat k).
  - rewrite Z.add_comm.
    destruct (Z.eq_dec k 0) as [->|Hne].
    + now rewrite Z.testbit_0_r.
    + replace k with (Z.succ (k - 1)) by lia.
      rewrite Z.testbit_succ_r by lia.
      rewrite IH by lia.
      replace (Z.to_nat (Z.succ (k - 1))) with (S (Z.to_nat (k - 1))) by lia.
      reflexivity.
Qed.

Lemma bits_to_Z_range l : 0 <= bits_to_Z l < 2 ^ zlen l.
Proof.
  unfold zlen; induction l as [|b t IH]; cbn [bits_to_Z].
  - simpl; lia.
  - replace (Z.of_nat (length (b :: t))) with (Z.succ (Z.of_nat (length t)))
      by (simpl length; lia).
    rewrite Z.pow_succ_r by lia.
    destruct b; cbn [Z.b2z]; lia.
Qed.

Lemma ctz_nonneg p : 0 <= ctz p.
Proof. induction p; cbn [ctz]; lia. Qed.

Lemma ctz_spec p :
  Z.testbit (Zpos p) (ctz p) = true /\
  forall j, 0 <= j < ctz p -> Z.testbit (Zpos p) j = false.
Proof.
  induction p as [p IH|p IH|]; cbn [ctz].
  - split; [reflexivity | intros; lia].
  - destruct IH as [IH1 IH2]. pose proof (ctz_nonneg p).
    change (Zpos p~0) with (2 * Zpos p).
    split.
    + replace (1 + ctz p) with (Z.succ (ctz p)) by lia.
      now rewrite Z.double_bits_succ.
    + intros j Hj. destruct (Z.eq_dec j 0) as [->|].
      * apply Z.testbit_even_0.
      * replace j with (Z.succ (j - 1)) by lia.
        rewrite Z.double_bits_succ. apply IH2; lia.
  - split; [reflexivity | intros; lia].
Qed.

Lemma builtin_ffs_spec x :
  0 < x ->
  let k := builtin_ffs x - 1 in
  0 <= k /\ Z.testbit x k = true /\
  forall j, 0 <= j < k -> Z.testbit x j = false.
Proof.
  destruct x as [|p|p]; try lia; intros _; cbn [builtin_ffs].
  replace (ctz p + 1 - 1) with (ctz p) by lia.
  split; [apply ctz_nonneg | apply ctz_spec].
Qed.

(** ** The scanner delivers the special positions in order *)

Lemma nth_map_seq {A} (f : nat -> A) n k d :
  (k < n)%nat -> nth k (map f (seq 0 n)) d = f k.
Proof.
  intros H.
  rewrite (nth_indep _ d (f 0%nat)) by (rewrite length_map, length_seq; lia).
  rewrite map_nth, seq_nth by lia. reflexivity.
Qed.

Lemma lane_loadu mem p j :
  (j < 16)%nat -> lane (mm_loadu_si128 mem p) j = rd mem (p + Z.of_nat j).
Proof.
  intros H. unfold lane, mm_loadu_si128.
  now rewrite (nth_map_seq (fun i => rd mem (p + Z.of_nat i))).
Qed.

Lemma cmpestr_equal_any_nth a la mem p lb k :
  (k < 16)%nat ->
  nth k (cmpestr_equal_any a la (mm_loadu_si128 mem p) lb) false =
  (Z.of_nat k <? sidd_len lb) && is_special a la (rd mem (p + Z.of_nat k)).
Proof.
  intros H. unfold cmpestr_equal_any.
  rewrite nth_map_seq by assumption.
  rewrite lane_loadu by assumption. reflexivity.
Qed.

Lemma cmpestr_equal_any_length a la b lb :
  length (cmpestr_equal_any a la b lb) = 16%nat.
Proof. unfold cmpestr_equal_any. now rewrite length_map, length_seq. Qed.

Lemma fillbmap_range mem p plen m ml : 0 <= fillbmap mem p plen m ml < 65536.
Proof.
  unfold fillbmap, mm_extract_epi16_0.
  change 65535 with (Z.ones 16). rewrite Z.land_ones by lia.
  change (2 ^ 16) with 65536. apply Z.mod_pos_bound. lia.
Qed.

Lemma fillbmap_testbit mem p plen m ml k :
  0 <= k < 16 ->
  Z.testbit (fillbmap mem p plen m ml) k =
  (k <? sidd_len plen) && is_special m ml (rd mem (p + k)).
Proof.
  intros Hk. unfold fillbmap, mm_extract_epi16_0, mm_cmpestrm.
  rewrite Z.land_spec.
  change 65535 with (Z.ones 16). rewrite Z.ones_spec_low by lia.
  rewrite andb_true_r, bits_to_Z_testbit by lia.
  rewrite cmpestr_equal_any_nth by lia.
  now rewrite Z2Nat.id by lia.
Qed.

Lemma testbit_small x k : 0 <= x < 65536 -> 16 <= k -> Z.testbit x k = false.
Proof.
  intros Hx Hk. destruct (Z.eq_dec x 0) as [->|]; [apply Z.bits_0|].
  apply Z.bits_above_log2; [lia|].
  assert (Z.log2 x < 16) by (apply Z.log2_lt_pow2; [lia | simpl; lia]).
  lia.
Qed.

Lemma testbit_shiftl_1 k j :
  0 <= k -> 0 <= j -> Z.testbit (Z.shiftl 1 k) j = (j =? k).
Proof.
  intros Hk Hj. rewrite Z.shiftl_1_l, Z.pow2_bits_eqb by lia.
  apply Z.eqb_sym.
Qed.

Lemma clear_bit_range x k :
  0 <= x < 65536 -> 0 <= Z.land x (Z.lnot (Z.shiftl 1 k)) mod 65536 < 65536.
Proof. intros; apply Z.mod_pos_bound; lia. Qed.

Lemma clear_bit_testbit x k j :
  0 <= x < 65536 -> 0 <= k -> 0 <= j < 16 ->
  Z.testbit (Z.land x (Z.lnot (Z.shiftl 1 k)) mod 65536) j =
  Z.testbit x j && negb (j =? k).
Proof.
  intros Hx Hk Hj.
  change 65536 with (2 ^ 16). rewrite Z.mod_pow2_bits_low by lia.
  rewrite Z.land_spec, Z.lnot_spec, testbit_shiftl_1 by lia. reflexivity.
Qed.

Section FindSpecial.
Variable f : byte -> bool.
Variable mem : list byte.

Lemma find_from_some n i r :
  find_from f mem n i = Some r ->
  i <= r < i + Z.of_nat n /\ f (rd mem r) = true /\
  forall j, i <= j < r -> f (rd mem j) = false.
Proof.
  revert i; induction n as [|n IH]; intros i; cbn [find_from]; [discriminate|].
  destruct (f (rd mem i)) eqn:E.
  - intros [= <-]. repeat split; try lia; auto.
  - intros H. apply IH in H. destruct H as (H1 & H2 & H3).
    repeat split; try lia; auto.
    intros j Hj. destruct (Z.eq_dec j i) as [->|]; auto. apply H3; lia.
Qed.

Lemma find_from_none n i :
  find_from f mem n i = None ->
  forall j, i <= j < i + Z.of_nat n -> f (rd mem j) = false.
Proof.
  revert i; induction n as [|n IH]; intros i; cbn [find_from]; [intros; lia|].
  destruct (f (rd mem i)) eqn:E; [discriminate|].
  intros H j Hj. destruct (Z.eq_dec j i) as [->|]; auto.
  apply (IH _ H); lia.
Qed.

Lemma find_special_some cur q r :
  find_special f mem cur q = Some r ->
  cur <= r < q /\ f (rd mem r) = true /\
  forall j, cur <= j < r -> f (rd mem j) = false.
Proof.
  unfold find_special; intros H. apply find_from_some in H.
  destruct H as (H1 & H2 & H3). repeat split; auto; lia.
Qed.

Lemma find_special_none cur q :
  find_special f mem cur q = None ->
  forall j, cur <= j < q -> f (rd mem j) = false.
Proof.
  unfold find_special; intros H j Hj. apply (find_from_none _ _ H); lia.
Qed.

Lemma find_special_intro cur q r :
  cur <= r < q -> f (rd mem r) = true ->
  (forall j, cur <= j < r -> f (rd mem j) = false) ->
  find_special f mem cur q = Some r.
Proof.
  intros H1 H2 H3.
  destruct (find_special f mem cur q) as [r'|] eqn:E.
  - apply find_special_some in E. destruct E as (E1 & E2 & E3).
    f_equal.
    destruct (Z.lt_trichotomy r r') as [Hlt|[->|Hgt]]; auto.
    + rewrite E3 in H2 by lia. discriminate.
    + rewrite H3 in E2 by lia. discriminate.
  - rewrite (find_special_none _ _ E r) in H2 by lia. discriminate.
Qed.

Lemma find_special_none_intro cur q :
  (forall j, cur <= j < q -> f (rd mem j) = false) ->
  find_special f mem cur q = None.
Proof.
  intros H. destruct (find_special f mem cur q) as [r|] eqn:E; auto.
  apply find_special_some in E. destruct E as (E1 & E2 & _).
  rewrite H in E2 by lia. discriminate.
Qed.

(** The cursor may skip bytes that are not special. *)
Lemma find_special_skip cur cur' q :
  cur <= cur' ->
  (forall j, cur <= j < cur' -> j < q -> f (rd mem j) = false) ->
  find_special f mem cur q = find_special f mem cur' q.
Proof.
  intros Hle Hskip.
  destruct (find_special f mem cur' q) as [r|] eqn:E.
  - apply find_special_some in E. destruct E as (E1 & E2 & E3).
    apply find_special_intro; auto; try lia.
    intros j Hj. destruct (Z.lt_ge_cases j cur'); [apply Hskip | apply E3]; lia.
  - apply find_special_none_intro. intros j Hj.
    destruct (Z.lt_ge_cases j cur');
      [apply Hskip | apply (find_special_none _ _ E)]; lia.
Qed.
End FindSpecial.

Lemma sidd_len_window p q k :
  p <= q -> 0 <= k < 16 -> (k <? sidd_len (q - p)) = (p + k <? q).
Proof.
  intros Hpq Hk. unfold sidd_len.
  destruct (Z.ltb_spec k (Z.min (Z.abs (q - p)) 16));
    destruct (Z.ltb_spec (p + k) q); auto; lia.
Qed.

Lemma scan_reset_ok mem sc p q :
  p <= q -> scan_ok mem (scan_reset mem sc p q) p q.
Proof.
  intros Hpq. unfold scan_ok, scan_reset, sp_of; cbn.
  repeat split; try lia; try apply fillbmap_range.
  intros k Hk. rewrite fillbmap_testbit, sidd_len_window by lia.
  destruct (Z.leb_spec p (p + k)); try lia. reflexivity.
Qed.

Lemma scan_reset_sp mem sc p q : sp_of (scan_reset mem sc p q) = sp_of sc.
Proof. reflexivity. Qed.

(** Delivering the lowest pending bit. *)
Lemma scan_pick_ok mem sc cur q :
  scan_ok mem sc cur q -> bmap sc <> 0 ->
  let off := builtin_ffs (bmap sc) - 1 in
  find_special (sp_of sc) mem cur q = Some (base sc + off) /\
  scan_ok mem
    {| bmap := Z.land (bmap sc) (Z.lnot (Z.shiftl 1 off)) mod 65536;
       base := base sc; sq := sq sc;
       smatch := smatch sc; matchlen := matchlen sc |}
    (base sc + off + 1) q.
Proof.
  intros (Hq & Hcur & Hrange & Hbits) Hnz off.
  destruct (builtin_ffs_spec (bmap sc)) as (Hoff & Hset & Hlow); [lia|].
  fold off in Hoff, Hset, Hlow.
  assert (Hoff16 : off < 16).
  { destruct (Z.lt_ge_cases off 16); auto.
    rewrite testbit_small in Hset by lia. discriminate. }
  pose proof (Hbits off ltac:(lia)) as Hb. rewrite Hset in Hb.
  symmetry in Hb. apply andb_true_iff in Hb. destruct Hb as [Hb Hsp].
  apply andb_true_iff in Hb. destruct Hb as [Hb1 Hb2].
  apply Z.leb_le in Hb1. apply Z.ltb_lt in Hb2.
  split.
  - apply find_special_intro; auto; try lia.
    intros j Hj.
    pose proof (Hbits (j - base sc) ltac:(lia)) as Hj'.
    rewrite Hlow in Hj' by lia.
    replace (base sc + (j - base sc)) with j in Hj' by lia.
    destruct (Z.leb_spec cur j); try lia.
    destruct (Z.ltb_spec j q); try lia.
    simpl in Hj'. now symmetry.
  - unfold scan_ok, sp_of; cbn. repeat split; auto; try lia.
    + apply Z.mod_pos_bound; lia.
    + apply Z.mod_pos_bound; lia.
    + intros k Hk. rewrite clear_bit_testbit by lia.
      rewrite Hbits by lia. unfold sp_of.
      destruct (Z.eqb_spec k off) as [->|Hne]; cbn [negb].
      * rewrite andb_false_r.
        destruct (Z.leb_spec (base sc + off + 1) (base sc + off)); try lia;
          reflexivity.
      * rewrite andb_true_r.
        destruct (Z.lt_ge_cases k off).
        -- pose proof (Hbits k ltac:(lia)) as Hk'. rewrite Hlow in Hk' by lia.
           unfold sp_of in Hk'. rewrite <- Hk'.
           destruct (Z.leb_spec (base sc + off + 1) (base sc + k)); try lia;
             reflexivity.
        -- destruct (Z.leb_spec cur (base sc + k));
             destruct (Z.leb_spec (base sc + off + 1) (base sc + k)); try lia;
             reflexivity.
Qed.

Lemma scan_forward_loop_ok mem q fuel :
  forall sc b cur,
    scan_ok mem (with_base sc b) cur q ->
    Z.of_nat fuel > Z.max 0 (q - b) ->
    exists r sc',
      scan_forward_loop fuel mem sc b = Some (r, sc') /\
      sp_of sc' = sp_of sc /\
      ((r = -1 /\ find_special (sp_of sc) mem cur q = None) \/
       (r = 0 /\ bmap sc' <> 0 /\
        exists cur', scan_ok mem sc' cur' q /\
                     find_special (sp_of sc) mem cur q =
                     find_special (sp_of sc) mem cur' q)).
Proof.
  induction fuel as [|fuel IH]; intros sc b cur Hok Hfuel; [lia|].
  cbn [scan_forward_loop].
  destruct (Z.eqb_spec (bmap sc) 0) as [Hz|Hnz].
  - (* the window is exhausted *)
    destruct Hok as (Hq & Hcur & Hrange & Hbits); cbn in Hq, Hcur, Hrange, Hbits.
    assert (Hnone : forall j, cur <= j < b + 16 -> j < q ->
                              sp_of sc (rd mem j) = false).
    { intros j Hj Hjq.
      pose proof (Hbits (j - b) ltac:(lia)) as Hj'.
      rewrite Hz, Z.bits_0 in Hj'.
      replace (b + (j - b)) with j in Hj' by lia.
      destruct (Z.leb_spec cur j); try lia.
      destruct (Z.ltb_spec j q); try lia.
      simpl in Hj'. now symmetry. }
    destruct (Z.geb_spec (b + 16) (sq sc)) as [Hge|Hlt].
    + exists (-1), sc. repeat split. left. split; auto.
      apply find_special_none_intro. intros j Hj. apply Hnone; lia.
    + set (sc1 := {| bmap := fillbmap mem (b + 16) (sq sc - (b + 16))
                                      (smatch sc) (matchlen sc);
                     base := base sc; sq := sq sc;
                     smatch := smatch sc; matchlen := matchlen sc |}).
      assert (Hok1 : scan_ok mem (with_base sc1 (b + 16)) (b + 16) q).
      { pose proof (scan_reset_ok mem sc (b + 16) q ltac:(lia)) as H.
        unfold scan_reset in H. unfold with_base, sc1; cbn. now rewrite Hq. }
      destruct (IH sc1 (b + 16) (b + 16) Hok1 ltac:(lia))
        as (r & sc' & Hrun & Hsp & Hres).
      exists r, sc'. split; [exact Hrun|]. split; [exact Hsp|].
      assert (Hskip : find_special (sp_of sc) mem cur q =
                      find_special (sp_of sc) mem (b + 16) q).
      { apply find_special_skip; [lia|]. intros; apply Hnone; lia. }
      change (sp_of sc1) with (sp_of sc) in Hres.
      destruct Hres as [[-> Hn]|(-> & Hb & cur' & Hok' & Hf)].
      * left. split; auto. congruence.
      * right. repeat split; auto. exists cur'. split; auto. congruence.
  - exists 0, (with_base sc b). split; [reflexivity|]. split; [reflexivity|].
    right. repeat split; auto. exists cur. split; auto.
Qed.

(** [scan_next] returns the least special position of [[cur, q)]. *)
Lemma scan_next_ok mem sc cur q :
  scan_ok mem sc cur q ->
  exists sc',
    scan_next mem sc = Some (find_special (sp_of sc) mem cur q, sc') /\
    sp_of sc' = sp_of sc /\
    forall i, find_special (sp_of sc) mem cur q = Some i ->
              scan_ok mem sc' (i + 1) q.
Proof.
  intros Hok. unfold scan_next.
  destruct (Z.eqb_spec (bmap sc) 0) as [Hz|Hnz].
  - assert (Hok' : scan_ok mem (with_base sc (base sc)) cur q)
      by (now destruct sc).
    destruct (scan_forward_loop_ok mem q
                (Z.to_nat (sq sc - base sc) + 2) sc (base sc) cur Hok')
      as (r & sc' & Hrun & Hsp & Hres).
    { destruct Hok as (Hq & _). lia. }
    unfold scan_forward. rewrite Hrun.
    destruct Hres as [[-> Hn]|(-> & Hb & cur' & Hok1 & Hf)]; cbn.
    + exists sc'. rewrite Hn. split; [reflexivity|]. split; [exact Hsp|].
      discriminate.
    + destruct (scan_pick_ok mem sc' cur' q Hok1 Hb) as [Hfind Hok2].
      rewrite Hsp in Hfind. rewrite Hf, Hfind.
      eexists. split; [reflexivity|]. split; [now rewrite <- Hsp|].
      now intros i [= <-].
  - destruct (scan_pick_ok mem sc cur q Hok Hnz) as [Hfind Hok2].
    rewrite Hfind. eexists. split; [reflexivity|]. split; [reflexivity|].
    now intros i [= <-].
Qed.

(** ** [csv_line] refines the machine over the abstract scanner *)

Section Simulation.
Variable alloc_ok : Z -> bool.
Variable mem : list byte.
Variables buf q : Z.

Lemma expand_erase cp :
  expand alloc_ok (erase cp) =
  (fst (expand alloc_ok cp), erase (snd (expand alloc_ok cp))).
Proof.
  unfold expand. change (fldmax (erase cp)) with (fldmax cp).
  destruct (alloc_ok (8 * (fldmax cp + 64)));
    destruct (alloc_ok (4 * (fldmax cp + 64))); reflexivity.
Qed.

Lemma expand_scan cp : scan (snd (expand alloc_ok cp)) = scan cp.
Proof.
  unfold expand.
  destruct (alloc_ok (8 * (fldmax cp + 64)));
    destruct (alloc_ok (4 * (fldmax cp + 64))); reflexivity.
Qed.

Lemma FINISH_erase cp L :
  FINISH mem buf q (erase cp) L = map_jump erase (FINISH mem buf q cp L).
Proof.
  unfold FINISH.
  destruct (quoted L); cbn;
    destruct (Byte.eqb (rd mem (ppp L)) (delim cp)); cbn; auto;
    destruct (Byte.eqb (rd mem (ppp L)) LF); cbn; auto;
    destruct (Byte.eqb (rd mem (ppp L)) CR); cbn; auto;
    destruct (ppp L + 1 <? q); cbn; auto;
    destruct (Byte.eqb (rd mem (ppp L + 1)) LF); cbn; auto.
Qed.

Lemma FINISH_scan cp L :
  match FINISH mem buf q cp L with
  | Return _ c => scan c = scan cp
  | Goto _ c _ => scan c = scan cp
  end.
Proof.
  unfold FINISH.
  destruct (quoted L); cbn;
    destruct (Byte.eqb (rd mem (ppp L)) (delim cp)); cbn; auto;
    destruct (Byte.eqb (rd mem (ppp L)) LF); cbn; auto;
    destruct (Byte.eqb (rd mem (ppp L)) CR); cbn; auto;
    destruct (ppp L + 1 <? q); cbn; auto;
    destruct (Byte.eqb (rd mem (ppp L + 1)) LF); cbn; auto.
Qed.

Lemma FINISH_rel f cp L cur :
  scan_ok mem (scan cp) cur q -> sp_of (scan cp) = f ->
  step_rel mem q f (FINISH mem buf q cp L)
           (lift cur (FINISH mem buf q (erase cp) L)).
Proof.
  intros Hok Hf. rewrite FINISH_erase.
  pose proof (FINISH_scan cp L) as Hs.
  destruct (FINISH mem buf q cp L) as [r c|l c L']; cbn.
  - reflexivity.
  - exists cur. rewrite Hs. auto.
Qed.

Lemma step_sim l cp L cur :
  scan_ok mem (scan cp) cur q ->
  exists j,
    csv_line_step alloc_ok mem buf q l cp L = Some j /\
    step_rel mem q (sp_of (scan cp)) j
             (astep alloc_ok (sp_of (scan cp)) mem buf q l (erase cp) L cur).
Proof.
  intros Hok. destruct l; unfold csv_line_step, astep.
  - (* START_VAL *)
    change (fldmax (erase cp)) with (fldmax cp).
    rewrite expand_erase.
    pose proof (expand_scan cp) as Hes.
    destruct (cno L >=? fldmax cp).
    + destruct (expand alloc_ok cp) as [r cp1]; cbn [fst snd] in *.
      destruct (r =? 0).
      * destruct (scan_next_ok mem (scan cp1) cur q) as (sc' & Hn & Hsp & Hnext).
        { now rewrite Hes. }
        cbn [scan set_fld set_arrays]. rewrite Hn, Hes.
        destruct (find_special (sp_of (scan cp)) mem cur q) as [p|] eqn:Hfind.
        -- specialize (Hnext p ltac:(now rewrite Hes)).
           cbn [qte set_scan set_fld set_arrays erase].
           destruct ((p =? ppp L) && Byte.eqb (rd mem p) (qte cp1)).
           ++ eexists; split; [reflexivity|].
              exists (p + 1). split; [reflexivity|]. split; [exact Hnext|].
              change (sp_of sc' = sp_of (scan cp)). now rewrite Hsp, Hes.
           ++ eexists; split; [reflexivity|].
              apply (FINISH_rel (sp_of (scan cp))
                       (set_scan (set_fld cp1 _) sc')); [exact Hnext|].
              change (sp_of sc' = sp_of (scan cp)). now rewrite Hsp, Hes.
        -- eexists; split; [reflexivity|]. reflexivity.
      * eexists; split; [reflexivity|]. reflexivity.
    + destruct (scan_next_ok mem (scan cp) cur q Hok) as (sc' & Hn & Hsp & Hnext).
      cbn [scan set_fld set_arrays]. rewrite Hn.
      destruct (find_special (sp_of (scan cp)) mem cur q) as [p|] eqn:Hfind.
      * specialize (Hnext p eq_refl).
        cbn [qte set_scan set_fld set_arrays erase].
        destruct ((p =? ppp L) && Byte.eqb (rd mem p) (qte cp)).
        -- eexists; split; [reflexivity|].
           exists (p + 1). split; [reflexivity|]. split; [exact Hnext|].
           exact Hsp.
        -- eexists; split; [reflexivity|].
           apply (FINISH_rel (sp_of (scan cp))
                    (set_scan (set_fld cp _) sc')); [exact Hnext|exact Hsp].
      * eexists; split; [reflexivity|]. reflexivity.
  - (* QUOTED_VAL *)
    destruct (scan_next_ok mem (scan cp) cur q Hok) as (sc' & Hn & Hsp & Hnext).
    rewrite Hn.
    destruct (find_special (sp_of (scan cp)) mem cur q) as [p|] eqn:Hfind.
    2:{ eexists; split; [reflexivity|]. reflexivity. }
    specialize (Hnext p eq_refl).
    cbn [qte esc set_scan erase scan].
    destruct (Byte.eqb (rd mem p) (qte cp)).
    + destruct (scan_next_ok mem sc' (p + 1) q Hnext) as (sc2 & Hn2 & Hsp2 & Hnext2).
      rewrite Hn2, Hsp.
      destruct (find_special (sp_of (scan cp)) mem (p + 1) q) as [xp|] eqn:Hfind2.
      2:{ eexists; split; [reflexivity|]. reflexivity. }
      specialize (Hnext2 xp ltac:(now rewrite Hsp)).
      destruct (negb (xp =? p + 1)).
      * eexists; split; [reflexivity|]. reflexivity.
      * destruct (Byte.eqb (esc cp) (qte cp) && Byte.eqb (rd mem xp) (qte cp)).
        -- eexists; split; [reflexivity|].
           exists (xp + 1). split; [reflexivity|]. split; [exact Hnext2|].
           change (sp_of sc2 = sp_of (scan cp)). now rewrite Hsp2, Hsp.
        -- eexists; split; [reflexivity|].
           apply (FINISH_rel (sp_of (scan cp)) (set_scan (set_scan cp sc') sc2));
             [exact Hnext2|].
           change (sp_of sc2 = sp_of (scan cp)). now rewrite Hsp2, Hsp.
    + destruct (Byte.eqb (rd mem p) (esc cp)).
      * destruct (Z.geb_spec (p + 2) q).
        -- eexists; split; [reflexivity|]. reflexivity.
        -- eexists; split; [reflexivity|].
           exists (p + 2). split; [reflexivity|].
           split; [apply scan_reset_ok; lia|].
           change (sp_of sc' = sp_of (scan cp)). exact Hsp.
      * eexists; split; [reflexivity|].
        exists (p + 1). split; [reflexivity|]. split; [exact Hnext|].
        exact Hsp.
Qed.

Lemma run_sim fuel :
  forall l cp L cur,
    scan_ok mem (scan cp) cur q ->
    match arun alloc_ok (sp_of (scan cp)) mem buf q fuel
               (AGoto l (erase cp) L cur) with
    | Some (r, ca) =>
        exists c, csv_line_run alloc_ok fuel mem buf q (Goto l cp L)
                  = Some (r, c) /\ erase c = ca
    | None => csv_line_run alloc_ok fuel mem buf q (Goto l cp L) = None
    end.
Proof.
  induction fuel as [|fuel IH]; intros l cp L cur Hok; [reflexivity|].
  cbn [arun csv_line_run].
  destruct (step_sim l cp L cur Hok) as (j & Hstep & Hrel).
  rewrite Hstep.
  destruct j as [r c|l' c L']; cbn [step_rel] in Hrel.
  - rewrite Hrel. destruct fuel; cbn; eauto.
  - destruct Hrel as (cur' & -> & Hok' & Hsp).
    specialize (IH l' c L' cur' Hok'). rewrite Hsp in IH. exact IH.
Qed.
End Simulation.

(** [csv_line] computes what [aline] computes, scanner aside. *)
Lemma csv_line_aline alloc_ok cp mem b bufsz :
  0 < bufsz ->
  match aline alloc_ok cp mem b bufsz with
  | Some (r, ca) =>
      exists c, csv_line alloc_ok cp mem (Some b) bufsz = Some (r, c) /\
                erase c = ca
  | None => csv_line alloc_ok cp mem (Some b) bufsz = None
  end.
Proof.
  intros Hsz. unfold aline, csv_line.
  destruct (Z.leb_spec bufsz 0); [lia|].
  pose proof (run_sim alloc_ok mem b (b + bufsz) (Z.to_nat bufsz + 1) START_VAL
                (set_scan cp (scan_reset mem (scan cp) b (b + bufsz)))
                {| ppp := b; cno := 0; nline := 0; fldv := b;
                   quoted := false; l_escptr := None |} b) as Hsim.
  cbn [scan set_scan] in Hsim. rewrite scan_reset_sp in Hsim.
  apply Hsim. apply scan_reset_ok. lia.
Qed.

(** ** The invariant of the row state machine *)

Lemma chain_le lo fs hi : chain lo fs hi -> lo <= hi.
Proof.
  revert lo; induction fs as [|[[[s|] l] e] t IH]; intros lo; cbn; auto;
    try contradiction.
  intros (H1 & H2 & _ & H4). apply IH in H4. lia.
Qed.

Lemma chain_weaken lo fs hi hi' : chain lo fs hi -> hi <= hi' -> chain lo fs hi'.
Proof.
  revert lo; induction fs as [|[[[s|] l] e] t IH]; intros lo; cbn; auto;
    try lia.
  intros (H1 & H2 & H3 & H4) Hle. repeat split; auto.
Qed.

Lemma chain_snoc lo fs hi s l e hi' :
  chain lo fs hi -> hi <= s -> 0 <= l -> esc_ok s l e -> s + l + 1 <= hi' ->
  chain lo (fs ++ [(Some s, l, e)]) hi'.
Proof.
  revert lo; induction fs as [|[[[s0|] l0] e0] t IH]; intros lo; cbn;
    try contradiction.
  - intros; repeat split; auto; lia.
  - intros (H1 & H2 & H3 & H4) Hs Hl He Hhi. repeat split; auto.
Qed.

Lemma fields_of_ext cp cp' n :
  (forall i, 0 <= i < Z.of_nat n -> field_at cp' i = field_at cp i) ->
  fields_of cp' n = fields_of cp n.
Proof.
  intros H. unfold fields_of. apply map_ext_in.
  intros i Hi. apply in_seq in Hi. apply H. lia.
Qed.

Lemma fields_of_snoc cp n :
  fields_of cp (S n) = fields_of cp n ++ [field_at cp (Z.of_nat n)].
Proof. unfold fields_of. now rewrite seq_S, map_app. Qed.

Lemma fields_of_length cp n : length (fields_of cp n) = n.
Proof. unfold fields_of. now rewrite length_map, length_seq. Qed.

Lemma cfg_eq_refl cp : cfg_eq cp cp.
Proof. repeat split. Qed.

Lemma cfg_eq_trans a b c : cfg_eq a b -> cfg_eq b c -> cfg_eq a c.
Proof.
  unfold cfg_eq. intros (?&?&?&?&?&?&?) (?&?&?&?&?&?&?).
  repeat split; congruence.
Qed.

Lemma grow_zlen_ge {A} (l : list A) n d : n <= zlen (grow l n d).
Proof. unfold grow, zlen. rewrite length_app, repeat_length. lia. Qed.

Lemma grow_zlen_mono {A} (l : list A) n d : zlen l <= zlen (grow l n d).
Proof. unfold grow, zlen. rewrite length_app. lia. Qed.

Lemma expand_ok alloc_ok cp r cp' :
  expand alloc_ok cp = (r, cp') ->
  cfg_eq cp' cp /\ state cp' = state cp /\ fldtop cp' = fldtop cp /\
  (forall i, field_at cp' i = field_at cp i) /\
  ((r = 0 /\ fldmax cp' = fldmax cp + 64) \/ (r = -1 /\ fldmax cp' = fldmax cp)) /\
  (cp_wf cp -> cp_wf cp').
Proof.
  pose proof (grow_zlen_ge (fld cp) (fldmax cp + 64) None).
  pose proof (grow_zlen_ge (escptr cp) (fldmax cp + 64) None).
  pose proof (grow_zlen_ge (len cp) (fldmax cp + 64) 0).
  pose proof (grow_zlen_mono (fld cp) (fldmax cp + 64) None).
  pose proof (grow_zlen_mono (escptr cp) (fldmax cp + 64) None).
  pose proof (grow_zlen_mono (len cp) (fldmax cp + 64) 0).
  unfold expand.
  destruct (alloc_ok (8 * (fldmax cp + 64)));
    destruct (alloc_ok (4 * (fldmax cp + 64)));
    cbn [negb]; intros [= <- <-];
    (split; [repeat split|]); (split; [reflexivity|]);
    (split; [reflexivity|]);
    (split; [intros i; unfold field_at;
             cbn [fld len escptr set_arrays set_fld set_escptr];
             now rewrite ?zget_grow|]);
    (split; [auto|]);
    unfold cp_wf; cbn [fldmax fld len escptr set_arrays set_fld set_escptr];
    intros (W0 & W1 & W2 & W3); repeat split; lia.
Qed.

Lemma fin_arrays_frame cp L :
  cfg_eq (fin_arrays cp L) cp /\ state (fin_arrays cp L) = state cp /\
  fldtop (fin_arrays cp L) = fldtop cp /\
  fldmax (fin_arrays cp L) = fldmax cp /\
  (cp_wf cp -> cp_wf (fin_arrays cp L)) /\
  (forall i, i <> cno L -> field_at (fin_arrays cp L) i = field_at cp i).
Proof.
  unfold fin_arrays. destruct (quoted L); cbn;
    (split; [repeat split|]); (split; [reflexivity|]);
    (split; [reflexivity|]); (split; [reflexivity|]); split.
  - unfold cp_wf; cbn. now rewrite !zlen_zset.
  - intros i Hi. unfold field_at; cbn. now rewrite !zget_zset_ne by auto.
  - unfold cp_wf; cbn. now rewrite !zlen_zset.
  - intros i Hi. unfold field_at; cbn. now rewrite !zget_zset_ne by auto.
Qed.

Lemma fin_arrays_field cp L :
  cp_wf cp -> 0 <= cno L < fldmax cp ->
  (quoted L = false -> zget (fld cp) (cno L) None = Some (fldv L)) ->
  field_at (fin_arrays cp L) (cno L) =
  (Some (if quoted L then fldv L + 1 else fldv L),
   (if quoted L then ppp L - fldv L - 2 else ppp L - fldv L),
   l_escptr L).
Proof.
  intros (H0 & H1 & H2 & H3) Hc Hf. unfold fin_arrays, field_at.
  destruct (quoted L); cbn.
  - rewrite !zget_zset_eq by (rewrite ?zlen_zset; lia). reflexivity.
  - rewrite !zget_zset_eq by (rewrite ?zlen_zset; lia). now rewrite Hf.
Qed.

Lemma FINISH_unfold mem buf q cp L :
  FINISH mem buf q cp L =
  let cp := fin_arrays cp L in
  let c := cno L + 1 in
  let cur := rd mem (ppp L) in
  let p := ppp L + 1 in
  if Byte.eqb cur (delim cp) then
    Goto START_VAL cp
         {| ppp := p; cno := c; nline := nline L; fldv := fldv L;
            quoted := quoted L; l_escptr := l_escptr L |}
  else
    let cp := set_fldtop cp c in
    if Byte.eqb cur LF then FINROW cp buf p (nline L)
    else if Byte.eqb cur CR && ((p <? q) && Byte.eqb (rd mem p) LF) then
      FINROW cp buf (p + 1) (nline L)
    else
      let '(r, cp) := reterr cp CSV_ECRLF "CRLF expected" c (nline L)
                             (p - buf) in
      Return r cp.
Proof. unfold FINISH, fin_arrays. destruct (quoted L); reflexivity. Qed.

Section Invariant.
Variable alloc_ok : Z -> bool.
Variable f : byte -> bool.
Variable mem : list byte.
Variables buf q : Z.
Variable cp0 : csv_parse_t.

Lemma FINISH_inv cp L :
  cfg_eq cp cp0 -> state cp = state cp0 ->
  buf <= fldv L -> ppp L < q -> 0 <= cno L -> 0 <= nline L ->
  (if quoted L
   then fldv L + 2 <= ppp L /\
        match l_escptr L with
        | Some e => fldv L + 1 <= e /\ e + 2 <= ppp L - 1
        | None => True
        end
   else fldv L <= ppp L /\ l_escptr L = None) ->
  (cp_wf cp0 ->
   cp_wf cp /\ cno L < fldmax cp /\
   chain buf (fields_of cp (Z.to_nat (cno L))) (fldv L) /\
   (quoted L = false -> zget (fld cp) (cno L) None = Some (fldv L))) ->
  match FINISH mem buf q cp L with
  | Return r c => line_post mem buf q cp0 r c
  | Goto l c L' =>
      l = START_VAL /\ line_inv buf q cp0 START_VAL c L' (ppp L + 1)
  end.
Proof.
  intros Hcfg Hst Hbuf Hq Hcno Hnl Hpos Hwf.
  rewrite FINISH_unfold.
  destruct (fin_arrays_frame cp L) as (Fcfg & Fst & Ftop & Fmax & Fwf & Fother).
  assert (Hchain :
            cp_wf cp0 ->
            cp_wf (fin_arrays cp L) /\
            chain buf (fields_of (fin_arrays cp L) (Z.to_nat (cno L + 1)))
                  (ppp L + 1)).
  { intros W. destruct (Hwf W) as (W1 & W2 & W3 & W4).
    split; [auto|].
    replace (Z.to_nat (cno L + 1)) with (S (Z.to_nat (cno L))) by lia.
    rewrite fields_of_snoc, Z2Nat.id by lia.
    rewrite (fields_of_ext cp) by (intros; apply Fother; lia).
    rewrite fin_arrays_field by (auto; lia).
    destruct (quoted L).
    - destruct Hpos as [Hp He].
      apply chain_snoc with (hi := fldv L); auto; try lia.
      destruct (l_escptr L); cbn; auto. lia.
    - destruct Hpos as [Hp He]. rewrite He.
      apply chain_snoc with (hi := fldv L); cbn; auto; lia. }
  assert (Hp : fldv L <= ppp L) by (destruct (quoted L); lia).
  cbv zeta.
  destruct (Byte.eqb (rd mem (ppp L)) (delim (fin_arrays cp L))).
  - (* next field *)
    split; [reflexivity|]. unfold line_inv; cbn.
    split; [eapply cfg_eq_trans; eauto|].
    split; [congruence|].
    split; [lia|]. split; [lia|]. split; [lia|]. split; [reflexivity|].
    intros W. destruct (Hchain W) as [W1 W2]. destruct (Hwf W) as (_ & ? & _).
    split; [exact W1|]. split; [rewrite Fmax; lia | exact W2].
  - destruct (byte_eqb_spec (rd mem (ppp L)) LF) as [Hlf|Hnlf].
    + (* LF *)
      unfold FINROW, line_post; cbn.
      split; [eapply cfg_eq_trans; eauto|].
      split; [right; right; lia|].
      split; [intros; lia|]. split; [intros; lia|].
      split.
      * intros _. split; [|split].
        -- exists (nline L). split; [auto|]. unfold advance.
           rewrite Fst, Hst. reflexivity.
        -- lia.
        -- replace (buf + (ppp L + 1 - buf) - 1) with (ppp L) by lia. auto.
      * intros W. destruct (Hchain W) as [W1 W2]. split; [exact W1|].
        intros _. replace (buf + (ppp L + 1 - buf)) with (ppp L + 1) by lia.
        exact W2.
    + destruct (byte_eqb_spec (rd mem (ppp L)) CR) as [Hcr|Hncr]; cbn [andb].
      * destruct (Z.ltb_spec (ppp L + 1) q) as [Hlt|Hge]; cbn [andb].
        -- destruct (byte_eqb_spec (rd mem (ppp L + 1)) LF) as [Hlf2|Hnlf2].
           ++ (* CR LF *)
              unfold FINROW, line_post; cbn.
              split; [eapply cfg_eq_trans; eauto|].
              split; [right; right; lia|].
              split; [intros; lia|]. split; [intros; lia|].
              split.
              ** intros _. split; [|split].
                 --- exists (nline L). split; [auto|]. unfold advance.
                     rewrite Fst, Hst. reflexivity.
                 --- lia.
                 --- replace (buf + (ppp L + 1 + 1 - buf) - 1)
                       with (ppp L + 1) by lia. auto.
              ** intros W. destruct (Hchain W) as [W1 W2]. split; [exact W1|].
                 intros _.
                 apply chain_weaken with (hi := ppp L + 1); auto; lia.
           ++ unfold line_post; cbn.
              split; [eapply cfg_eq_trans; eauto|].
              split; [auto|]. split; [intros; lia|].
              split; [intros _; split; [unfold counters; cbn; now rewrite Fst, Hst
                                       | discriminate]|].
              split; [intros; lia|].
              intros W. split; [now apply Hchain | intros; lia].
        -- unfold line_post; cbn.
           split; [eapply cfg_eq_trans; eauto|].
           split; [auto|]. split; [intros; lia|].
           split; [intros _; split; [unfold counters; cbn; now rewrite Fst, Hst
                                    | discriminate]|].
           split; [intros; lia|].
           intros W. split; [now apply Hchain | intros; lia].
      * unfold line_post; cbn.
        split; [eapply cfg_eq_trans; eauto|].
        split; [auto|]. split; [intros; lia|].
        split; [intros _; split; [unfold counters; cbn; now rewrite Fst, Hst
                                 | discriminate]|].
        split; [intros; lia|].
        intros W. split; [now apply Hchain | intros; lia].
Qed.

Lemma post_zero cp :
  cfg_eq cp cp0 -> state cp = state cp0 -> (cp_wf cp0 -> cp_wf cp) ->
  line_post mem buf q cp0 0 cp.
Proof.
  intros Hcfg Hst Hwf. unfold line_post.
  split; [auto|]. split; [auto|]. split; [auto|].
  split; [intros; lia|]. split; [intros; lia|].
  intros W. split; [auto | intros; lia].
Qed.

Lemma post_reterr cp e msg a b c :
  cfg_eq cp cp0 -> state cp = state cp0 -> (cp_wf cp0 -> cp_wf cp) ->
  line_post mem buf q cp0 (-1) (snd (reterr cp e msg a b c)).
Proof.
  intros Hcfg Hst Hwf. unfold line_post, reterr; cbn.
  split; [auto|]. split; [auto|]. split; [intros; lia|].
  split; [intros _; split; [unfold counters; cbn; now rewrite Hst
                           | discriminate]|].
  split; [intros; lia|].
  intros W. split; [now apply Hwf | intros; lia].
Qed.

Lemma lift_inv cur p cp L :
  cur < p + 1 -> ppp L = p ->
  match FINISH mem buf q cp L with
  | Return r c => line_post mem buf q cp0 r c
  | Goto l c L' =>
      l = START_VAL /\ line_inv buf q cp0 START_VAL c L' (ppp L + 1)
  end ->
  match lift (p + 1) (FINISH mem buf q cp L) with
  | AReturn r c => line_post mem buf q cp0 r c
  | AGoto l' c L' cur' => line_inv buf q cp0 l' c L' cur' /\ cur < cur'
  end.
Proof.
  intros Hlt Hp H. destruct (FINISH mem buf q cp L); cbn; auto.
  destruct H as [-> H]. rewrite Hp in H. auto.
Qed.

Lemma astep_inv l cp L cur :
  line_inv buf q cp0 l cp L cur ->
  match astep alloc_ok f mem buf q l cp L cur with
  | AReturn r c => line_post mem buf q cp0 r c
  | AGoto l' c L' cur' => line_inv buf q cp0 l' c L' cur' /\ cur < cur'
  end.
Proof.
  intros (Hcfg & Hst & Hcur & Hcno & Hnl & Hl).
  destruct l; unfold astep.
  - (* START_VAL *)
    destruct Hl as [Hppp Hwf]. subst cur.
    set (grown := if cno L >=? fldmax cp then _ else _).
    assert (Hg : match grown with
                 | inl (r, c) => line_post mem buf q cp0 r c
                 | inr c =>
                     cfg_eq c cp0 /\ state c = state cp0 /\
                     (cp_wf cp0 ->
                      cp_wf c /\ cno L < fldmax c /\
                      chain buf (fields_of c (Z.to_nat (cno L))) (ppp L))
                 end).
    { subst grown. destruct (Z.geb_spec (cno L) (fldmax cp)) as [Hge|Hlt].
      - destruct (expand alloc_ok cp) as [r c] eqn:He.
        apply expand_ok in He.
        destruct He as (Ecfg & Est & Etop & Efld & Er & Ewf).
        destruct Er as [[-> Emax]|[-> Emax]]; cbn [Z.eqb].
        + split; [eapply cfg_eq_trans; eauto|]. split; [congruence|].
          intros W. destruct (Hwf W) as (W1 & W2 & W3).
          split; [auto|]. split; [lia|].
          now rewrite (fields_of_ext cp) by (intros; apply Efld).
        + apply post_reterr; [eapply cfg_eq_trans; eauto | congruence|].
          intros W. apply Ewf. now apply Hwf.
      - split; [auto|]. split; [auto|].
        intros W. destruct (Hwf W) as (W1 & W2 & W3). auto. }
    destruct grown as [[r c]|c]; [exact Hg|].
    destruct Hg as (Gcfg & Gst & Gwf).
    set (c2 := set_fld c (zset (fld c) (cno L) (Some (ppp L)))).
    assert (Hc2 : cp_wf cp0 ->
                  cp_wf c2 /\ cno L < fldmax c2 /\
                  chain buf (fields_of c2 (Z.to_nat (cno L))) (ppp L) /\
                  zget (fld c2) (cno L) None = Some (ppp L)).
    { intros W. destruct (Gwf W) as ((W0 & W1 & W2 & W3) & W4 & W5).
      subst c2; unfold cp_wf; cbn. rewrite zlen_zset.
      split; [auto|]. split; [auto|]. split.
      - rewrite (fields_of_ext c); auto.
        intros i Hi. unfold field_at; cbn. rewrite zget_zset_ne by lia.
        reflexivity.
      - apply zget_zset_eq; lia. }
    destruct (find_special f mem (ppp L) q) as [p|] eqn:Hfind.
    2:{ apply post_zero; auto. intros W. now apply Hc2. }
    apply find_special_some in Hfind. destruct Hfind as (Hp & _ & _).
    destruct ((p =? ppp L) && Byte.eqb (rd mem p) (qte c2)) eqn:Hqd.
    + apply andb_true_iff in Hqd. destruct Hqd as [Hqd _].
      apply Z.eqb_eq in Hqd. split; [|lia]. unfold line_inv; cbn.
      split; [auto|]. split; [auto|]. split; [lia|]. split; [lia|].
      split; [lia|]. split; [reflexivity|]. split; [lia|]. split; [lia|].
      split; [auto|].
      intros W. destruct (Hc2 W) as (W1 & W2 & W3 & W4). auto.
    + apply lift_inv; [lia | reflexivity|].
      apply FINISH_inv; cbn; auto; try lia.
      * split; [lia | reflexivity].
      * intros W. destruct (Hc2 W) as (W1 & W2 & W3 & W4).
        split; [exact W1|]. split; [exact W2|]. split; [exact W3|].
        intros _; exact W4.
  - (* QUOTED_VAL *)
    destruct Hl as (Hqd & Hfv & Hfc & Hesc & Hwf).
    destruct (find_special f mem cur q) as [p|] eqn:Hfind.
    2:{ apply post_zero; auto. intros W. now apply Hwf. }
    apply find_special_some in Hfind. destruct Hfind as (Hp & _ & _).
    cbv zeta.
    destruct (Byte.eqb (rd mem p) (qte cp)).
    + destruct (find_special f mem (p + 1) q) as [xp|] eqn:Hfind2.
      2:{ apply post_zero; auto. intros W. now apply Hwf. }
      apply find_special_some in Hfind2. destruct Hfind2 as (Hxp & _ & _).
      destruct (Z.eqb_spec xp (p + 1)) as [Hx|Hx]; cbn [negb].
      * destruct (Byte.eqb (esc cp) (qte cp) && Byte.eqb (rd mem xp) (qte cp)).
        -- split; [|lia]. unfold line_inv; cbn.
           split; [auto|]. split; [auto|]. split; [lia|]. split; [lia|].
           split; [lia|]. split; [auto|]. split; [lia|]. split; [lia|].
           split; [destruct (l_escptr L); lia|]. exact Hwf.
        -- apply lift_inv; [lia | reflexivity|].
           apply FINISH_inv; cbn; auto; try lia.
           ++ rewrite Hqd. split; [lia|]. destruct (l_escptr L); auto. lia.
           ++ intros W. destruct (Hwf W) as (W1 & W2 & W3).
              split; [exact W1|]. split; [exact W2|]. split; [exact W3|].
              intros Hq'. congruence.
      * apply (post_reterr cp); auto. intros W. now apply Hwf.
    + destruct (Byte.eqb (rd mem p) (esc cp)).
      * destruct (Z.geb_spec (p + 2) q).
        -- apply post_zero; auto. intros W. now apply Hwf.
        -- split; [|lia]. unfold line_inv; cbn.
           split; [auto|]. split; [auto|]. split; [lia|]. split; [lia|].
           split; [lia|]. split; [auto|]. split; [lia|]. split; [lia|].
           split; [destruct (l_escptr L); lia|]. exact Hwf.
      * split; [|lia]. unfold line_inv; cbn.
        split; [auto|]. split; [auto|]. split; [lia|]. split; [lia|].
        split; [destruct (Byte.eqb (rd mem p) LF); lia|].
        split; [auto|]. split; [lia|]. split; [lia|].
        split; [destruct (l_escptr L); lia|]. exact Hwf.
Qed.

Lemma arun_post fuel :
  forall l cp L cur r c,
    line_inv buf q cp0 l cp L cur ->
    arun alloc_ok f mem buf q fuel (AGoto l cp L cur) = Some (r, c) ->
    line_post mem buf q cp0 r c.
Proof.
  induction fuel as [|fuel IH]; intros l cp L cur r c Hinv; cbn [arun];
    [discriminate|].
  pose proof (astep_inv l cp L cur Hinv) as Hs.
  destruct (astep alloc_ok f mem buf q l cp L cur) as [r' c'|l' c' L' cur'].
  - destruct fuel; cbn; intros [= <- <-]; exact Hs.
  - destruct Hs as [Hs _]. now apply IH.
Qed.

Lemma arun_total fuel :
  forall l cp L cur,
    line_inv buf q cp0 l cp L cur ->
    Z.of_nat fuel > q - cur ->
    exists r c, arun alloc_ok f mem buf q fuel (AGoto l cp L cur) = Some (r, c).
Proof.
  induction fuel as [|fuel IH]; intros l cp L cur Hinv Hfuel.
  - destruct Hinv as (_ & _ & ? & _). lia.
  - cbn [arun].
    pose proof (astep_inv l cp L cur Hinv) as Hs.
    destruct (astep alloc_ok f mem buf q l cp L cur) as [r' c'|l' c' L' cur'].
    + destruct fuel; cbn; eauto.
    + destruct Hs as [Hs Hlt]. apply IH; auto. lia.
Qed.
End Invariant.

Lemma line_inv_init cp b bufsz :
  0 < bufsz ->
  line_inv b (b + bufsz) cp START_VAL (erase cp)
           {| ppp := b; cno := 0; nline := 0; fldv := b;
              quoted := false; l_escptr := None |} b.
Proof.
  intros Hsz. unfold line_inv; cbn.
  split; [repeat split|]. split; [reflexivity|].
  split; [lia|]. split; [lia|]. split; [lia|]. split; [reflexivity|].
  intros W. split; [exact W|]. destruct W as (W0 & _). split; [lia|]. lia.
Qed.

(** [csv_line] always returns: the fuel it hands out is enough. *)
Lemma csv_line_total alloc_ok cp mem buf bufsz :
  exists r c, csv_line alloc_ok cp mem buf bufsz = Some (r, c).
Proof.
  destruct buf as [b|];
    [|unfold csv_line, reterr; destruct (bufsz =? 0); eauto].
  destruct (Z.leb_spec bufsz 0) as [Hle|Hgt].
  - unfold csv_line, reterr. destruct (Z.leb_spec bufsz 0); [|lia].
    destruct (bufsz =? 0); eauto.
  - pose proof (csv_line_aline alloc_ok cp mem b bufsz Hgt) as Hsim.
    destruct (arun_total alloc_ok (sp_of (scan cp)) mem b (b + bufsz) cp
                (Z.to_nat bufsz + 1) START_VAL (erase cp) _ b
                (line_inv_init cp b bufsz Hgt) ltac:(lia)) as (r & c & Hrun).
    unfold aline in Hsim. rewrite Hrun in Hsim.
    destruct Hsim as (c' & Hc & _). eauto.
Qed.

(** The guarantees of [csv_line] on a non-empty buffer. *)
Lemma csv_line_post alloc_ok cp mem b bufsz r c :
  0 < bufsz ->
  csv_line alloc_ok cp mem (Some b) bufsz = Some (r, c) ->
  line_post mem b (b + bufsz) cp r c.
Proof.
  intros Hgt Hline.
  pose proof (csv_line_aline alloc_ok cp mem b bufsz Hgt) as Hsim.
  destruct (aline alloc_ok cp mem b bufsz) as [[r' ca]|] eqn:Ha.
  - destruct Hsim as (c' & Hc & He). rewrite Hline in Hc.
    injection Hc as <- <-.
    unfold aline in Ha.
    apply (arun_post alloc_ok _ mem b (b + bufsz) cp) in Ha;
      [|now apply line_inv_init].
    subst ca. exact Ha.
  - congruence.
Qed.

(** ** The finalizer: copies, stores and the squeeze loop *)

Lemma first_set_range l : 0 <= first_set l <= zlen l.
Proof.
  unfold zlen; induction l as [|b t IH]; cbn [first_set length]; [lia|].
  destruct b; lia.
Qed.

Lemma first_set_hit l :
  first_set l < zlen l -> nth (Z.to_nat (first_set l)) l false = true.
Proof.
  unfold zlen; induction l as [|b t IH]; cbn [first_set length]; [lia|].
  destruct b; [reflexivity|]. intros H.
  pose proof (first_set_range t).
  replace (Z.to_nat (1 + first_set t)) with (S (Z.to_nat (first_set t))) by lia.
  apply IH. lia.
Qed.

Lemma first_set_before l j :
  0 <= j < first_set l -> nth (Z.to_nat j) l false = false.
Proof.
  revert j; induction l as [|b t IH]; intros j; cbn [first_set]; [lia|].
  destruct b; [lia|]. intros H.
  destruct (Z.eq_dec j 0) as [->|]; [reflexivity|].
  replace (Z.to_nat j) with (S (Z.to_nat (j - 1))) by lia.
  apply IH. lia.
Qed.

(** What [_mm_cmpestri] tells about the window at [p]. *)
Lemma cmpestri_spec a la mem p lb :
  let m := mm_cmpestri a la (mm_loadu_si128 mem p) lb in
  0 <= m <= 16 /\
  (m < 16 -> m < sidd_len lb /\ is_special a la (rd mem (p + m)) = true) /\
  (forall j, 0 <= j < m -> j < sidd_len lb ->
             is_special a la (rd mem (p + j)) = false).
Proof.
  unfold mm_cmpestri.
  set (fl := cmpestr_equal_any a la (mm_loadu_si128 mem p) lb).
  assert (Hlen : zlen fl = 16)
    by (unfold zlen, fl; now rewrite cmpestr_equal_any_length).
  pose proof (first_set_range fl) as Hr. rewrite Hlen in Hr.
  cbv zeta. split; [exact Hr|]. split.
  - intros Hm. pose proof (first_set_hit fl ltac:(lia)) as Hh.
    unfold fl in Hh at 2. rewrite cmpestr_equal_any_nth in Hh by lia.
    rewrite Z2Nat.id in Hh by lia.
    apply andb_true_iff in Hh. destruct Hh as [H1 H2].
    apply Z.ltb_lt in H1. auto.
  - intros j Hj Hjl. pose proof (first_set_before fl j Hj) as Hb.
    unfold fl in Hb at 1. rewrite cmpestr_equal_any_nth in Hb by lia.
    rewrite Z2Nat.id in Hb by lia.
    apply andb_false_iff in Hb. destruct Hb as [Hb|Hb]; auto.
    apply Z.ltb_ge in Hb. lia.
Qed.

Lemma fold_wr_spec (s : Z) (r : m128i) n :
  forall a mem k,
    rd (fold_left (fun m i => wr m (s + Z.of_nat i) (lane r i)) (seq a n) mem) k
    = if (s + Z.of_nat a <=? k) && (k <? s + Z.of_nat a + Z.of_nat n)
         && (0 <=? k) && (k <? zlen mem)
      then lane r (Z.to_nat (k - s)) else rd mem k.
Proof.
  induction n as [|n IH]; intros a mem k; cbn [seq fold_left].
  - destruct (Z.leb_spec (s + Z.of_nat a) k);
      destruct (Z.ltb_spec k (s + Z.of_nat a + Z.of_nat 0)); cbn; auto; lia.
  - rewrite IH, wr_length, rd_wr.
    destruct (Z.leb_spec (s + Z.of_nat (S a)) k);
      destruct (Z.ltb_spec k (s + Z.of_nat (S a) + Z.of_nat n));
      destruct (Z.leb_spec (s + Z.of_nat a) k);
      destruct (Z.ltb_spec k (s + Z.of_nat a + Z.of_nat (S n)));
      destruct (Z.eqb_spec (s + Z.of_nat a) k);
      destruct (Z.leb_spec 0 k); destruct (Z.ltb_spec k (zlen mem));
      destruct (Z.leb_spec 0 (s + Z.of_nat a));
      destruct (Z.ltb_spec (s + Z.of_nat a) (zlen mem));
      cbn; auto; try lia.
    f_equal. lia.
Qed.

Lemma fold_wr_length (s : Z) (r : m128i) l :
  forall mem,
    zlen (fold_left (fun m i => wr m (s + Z.of_nat i) (lane r i)) l mem)
    = zlen mem.
Proof.
  induction l as [|x l IH]; intros mem; cbn [fold_left]; auto.
  now rewrite IH, wr_length.
Qed.

Lemma storeu_length mem s r : zlen (mm_storeu_si128 mem s r) = zlen mem.
Proof. apply fold_wr_length. Qed.

Lemma storeu_spec mem s r k :
  rd (mm_storeu_si128 mem s r) k =
  if (s <=? k) && (k <? s + 16) && (0 <=? k) && (k <? zlen mem)
  then lane r (Z.to_nat (k - s)) else rd mem k.
Proof.
  unfold mm_storeu_si128. rewrite fold_wr_spec.
  replace (s + Z.of_nat 0) with s by lia.
  replace (s + Z.of_nat 16) with (s + 16) by lia. reflexivity.
Qed.

Lemma copy_head_spec m :
  forall mem s p,
    s < p ->
    let '(mem', s', p') := copy_head m mem s p in
    s' = s + Z.of_nat m /\ p' = p + Z.of_nat m /\ zlen mem' = zlen mem /\
    forall k,
      rd mem' k =
      if (s <=? k) && (k <? s + Z.of_nat m) && (0 <=? k) && (k <? zlen mem)
      then rd mem (p + (k - s)) else rd mem k.
Proof.
  induction m as [|m IH]; intros mem s p Hsp; cbn [copy_head].
  - repeat split; try lia. intros k.
    destruct (Z.leb_spec s k); destruct (Z.ltb_spec k (s + Z.of_nat 0));
      cbn; auto; lia.
  - specialize (IH (wr mem s (rd mem p)) (s + 1) (p + 1) ltac:(lia)).
    destruct (copy_head m (wr mem s (rd mem p)) (s + 1) (p + 1))
      as [[mem' s'] p'].
    destruct IH as (-> & -> & Hlen & Hrd).
    rewrite wr_length in Hlen.
    repeat split; try lia. intros k. rewrite Hrd, wr_length, !rd_wr.
    destruct (Z.leb_spec (s + 1) k);
      destruct (Z.ltb_spec k (s + 1 + Z.of_nat m));
      destruct (Z.leb_spec s k);
      destruct (Z.ltb_spec k (s + Z.of_nat (S m)));
      destruct (Z.eqb_spec s k);
      destruct (Z.eqb_spec s (p + 1 + (k - (s + 1))));
      destruct (Z.leb_spec 0 k); destruct (Z.ltb_spec k (zlen mem));
      destruct (Z.leb_spec 0 s); destruct (Z.ltb_spec s (zlen mem));
      cbn; auto; try lia; try (f_equal; lia).
Qed.

Lemma copy_tail_spec fuel :
  forall mem s p,
    s < p -> Z.of_nat fuel > Z.max 0 (zlen mem - p) ->
    exists mem' n,
      copy_tail fuel mem s p = Some (mem', s + n, p + n) /\
      0 <= n /\ zlen mem' = zlen mem /\
      rd mem (p + n) = NUL /\
      (forall j, 0 <= j < n -> rd mem (p + j) <> NUL) /\
      forall k,
        rd mem' k =
        if (s <=? k) && (k <? s + n) && (0 <=? k) && (k <? zlen mem)
        then rd mem (p + (k - s)) else rd mem k.
Proof.
  induction fuel as [|fuel IH]; intros mem s p Hsp Hfuel; [lia|].
  cbn [copy_tail].
  destruct (byte_eqb_spec (rd mem p) NUL) as [Hz|Hnz].
  - exists mem, 0. replace (s + 0) with s by lia. replace (p + 0) with p by lia.
    repeat split; auto; try lia. intros k.
    destruct (Z.leb_spec s k); destruct (Z.ltb_spec k s); cbn; auto; lia.
  - assert (Hin : 0 <= p < zlen mem).
    { destruct (Z.lt_ge_cases p 0); [unfold rd in Hnz; rewrite zget_outside in Hnz by lia; congruence|].
      destruct (Z.lt_ge_cases p (zlen mem)); [lia|].
      unfold rd in Hnz; rewrite zget_outside in Hnz by lia; congruence. }
    destruct (IH (wr mem s (rd mem p)) (s + 1) (p + 1) ltac:(lia))
      as (mem' & n & Hrun & Hn & Hlen & Hend & Hnn & Hrd).
    { rewrite wr_length. lia. }
    rewrite wr_length in Hlen, Hrd.
    exists mem', (n + 1).
    replace (s + (n + 1)) with (s + 1 + n) by lia.
    replace (p + (n + 1)) with (p + 1 + n) by lia.
    split; [exact Hrun|]. split; [lia|]. split; [exact Hlen|].
    split; [rewrite rd_wr_ne in Hend by lia; exact Hend|].
    split.
    + intros j Hj. destruct (Z.eq_dec j 0) as [->|].
      * now replace (p + 0) with p by lia.
      * specialize (Hnn (j - 1) ltac:(lia)).
        rewrite rd_wr_ne in Hnn by lia.
        now replace (p + 1 + (j - 1)) with (p + j) in Hnn by lia.
    + intros k. rewrite Hrd, !rd_wr.
      destruct (Z.leb_spec (s + 1) k);
        destruct (Z.ltb_spec k (s + 1 + n));
        destruct (Z.leb_spec s k);
        destruct (Z.ltb_spec k (s + 1 + n));
        destruct (Z.eqb_spec s k);
        destruct (Z.eqb_spec s (p + 1 + (k - (s + 1))));
        destruct (Z.leb_spec 0 k); destruct (Z.ltb_spec k (zlen mem));
        destruct (Z.leb_spec 0 s); destruct (Z.ltb_spec s (zlen mem));
        cbn; auto; try lia; try (f_equal; lia).
Qed.

(** ** Reading a run of bytes *)

Lemma memcpy_from_length mem p n : length (memcpy_from mem p n) = Z.to_nat n.
Proof. unfold memcpy_from. now rewrite length_map, length_seq. Qed.

Lemma memcpy_from_nil mem p n : n <= 0 -> memcpy_from mem p n = [].
Proof.
  intros H. unfold memcpy_from. now replace (Z.to_nat n) with 0%nat by lia.
Qed.

Lemma memcpy_from_cons mem p n :
  0 < n -> memcpy_from mem p n = rd mem p :: memcpy_from mem (p + 1) (n - 1).
Proof.
  intros H. unfold memcpy_from.
  replace (Z.to_nat n) with (S (Z.to_nat (n - 1))) by lia.
  cbn [seq map]. f_equal; [f_equal; lia|].
  rewrite <- seq_shift, map_map. apply map_ext. intros i. f_equal. lia.
Qed.

Lemma memcpy_from_ext m1 p1 m2 p2 n :
  (forall j, 0 <= j < n -> rd m1 (p1 + j) = rd m2 (p2 + j)) ->
  memcpy_from m1 p1 n = memcpy_from m2 p2 n.
Proof.
  intros H. unfold memcpy_from. apply map_ext_in.
  intros i Hi. apply in_seq in Hi. apply H. lia.
Qed.

Lemma memcpy_from_split mem p a b :
  0 <= a -> 0 <= b ->
  memcpy_from mem p (a + b) = memcpy_from mem p a ++ memcpy_from mem (p + a) b.
Proof.
  intros Ha Hb. remember (Z.to_nat a) as k eqn:Hk.
  revert a p Ha Hk; induction k as [|k IH]; intros a p Ha Hk.
  - replace a with 0 by lia. cbn. f_equal; lia.
  - rewrite (memcpy_from_cons mem p (a + b)) by lia.
    rewrite (memcpy_from_cons mem p a) by lia.
    replace (a + b - 1) with ((a - 1) + b) by lia.
    rewrite (IH (a - 1)) by lia.
    cbn. do 3 f_equal. lia.
Qed.

Lemma memcpy_from_forallb g mem p n :
  forallb g (memcpy_from mem p n) = true <->
  forall j, 0 <= j < n -> g (rd mem (p + j)) = true.
Proof.
  unfold memcpy_from. rewrite forallb_forall. split.
  - intros H j Hj. apply H. apply in_map_iff.
    exists (Z.to_nat j). split; [f_equal; lia|]. apply in_seq. lia.
  - intros H x Hx. apply in_map_iff in Hx. destruct Hx as (i & <- & Hi).
    apply in_seq in Hi. apply H. lia.
Qed.

Lemma memcmp_eq_ext m1 m2 p s2 n :
  (forall k, p <= k < p + n -> rd m1 k = rd m2 k) ->
  memcmp_eq m1 p s2 n = memcmp_eq m2 p s2 n.
Proof.
  intros H. unfold memcmp_eq.
  apply eq_true_iff_eq. rewrite !forallb_forall.
  split; intros Hall i Hi; specialize (Hall i Hi); apply in_seq in Hi.
  - now rewrite <- H by lia.
  - now rewrite H by lia.
Qed.

(** ** The squeeze loop *)

Section Unesc.
Variable qe : byte -> bool.

Lemma unesc_app_plain l1 l2 :
  forallb (fun b => negb (qe b)) l1 = true ->
  unesc qe (l1 ++ l2) = l1 ++ unesc qe l2.
Proof.
  induction l1 as [|b t IH]; cbn [forallb app]; auto.
  intros H. apply andb_true_iff in H. destruct H as [Hb Ht].
  cbn [unesc]. destruct (qe b); [discriminate|]. now rewrite IH.
Qed.

Lemma clean_app_plain l1 l2 :
  forallb (fun b => negb (qe b)) l1 = true ->
  clean qe (l1 ++ l2) = true -> clean qe l2 = true.
Proof.
  induction l1 as [|b t IH]; cbn [forallb app]; auto.
  intros H. apply andb_true_iff in H. destruct H as [Hb Ht].
  cbn [clean]. destruct (qe b); [discriminate|].
  intros Hc. apply andb_true_iff in Hc. destruct Hc as [_ Hc]. auto.
Qed.

Lemma clean_nonul l : clean qe l = true -> forall b, In b l -> b <> NUL.
Proof.
  assert (Hgen : forall n l, (length l <= n)%nat -> clean qe l = true ->
                             forall b, In b l -> b <> NUL).
  { induction n as [|n IH]; intros [|a t] Hl; cbn [clean In length] in *;
      try contradiction; try lia.
    intros Hc b Hb. apply andb_true_iff in Hc. destruct Hc as [Ha Hc].
    destruct Hb as [<-|Hb].
    - intros ->. discriminate.
    - destruct (qe a).
      + destruct t as [|c t']; [discriminate|].
        apply andb_true_iff in Hc. destruct Hc as [Hcn Hc].
        destruct Hb as [<-|Hb].
        * intros ->. discriminate.
        * apply (IH t'); auto. cbn [length] in Hl. lia.
      + apply (IH t); auto. lia. }
  intros; eapply Hgen; eauto.
Qed.
Lemma led_app_plain es l1 l2 :
  forallb (fun b => negb (qe b)) l1 = true ->
  led es qe (l1 ++ l2) = led es qe l2.
Proof.
  induction l1 as [|b t IH]; cbn [forallb app]; auto.
  intros H. apply andb_true_iff in H. destruct H as [Hb Ht].
  cbn [led]. destruct (qe b); [discriminate|]. now apply IH.
Qed.
End Unesc.

Lemma rd_outside mem k : k < 0 \/ zlen mem <= k -> rd mem k = NUL.
Proof. apply zget_outside. Qed.

Lemma rd_wr_nul mem q : rd (wr mem q NUL) q = NUL.
Proof.
  rewrite rd_wr.
  destruct (Z.leb_spec 0 q); destruct (Z.ltb_spec q (zlen mem));
    rewrite Z.eqb_refl; cbn; auto; apply rd_outside; lia.
Qed.

Section Squeeze.
Variable cp : csv_parse_t.
Variable q : Z.

Let qe := qe_of cp.

(** The squeeze loop: what a run that ends has written, and that a run over
    a span of plain bytes and escape pairs ends, with the escape bytes
    gone. *)
Lemma squeeze_spec fuel :
  forall mem s p,
    s < p -> p <= q + 1 -> rd mem q = NUL ->
    (forall mem' s',
        squeeze fuel cp mem s p q = Some (mem', s') ->
        zlen mem' = zlen mem /\ s <= s' <= q /\
        (forall k, k < s \/ q <= k -> rd mem' k = rd mem k)) /\
    (Z.of_nat fuel > Z.max 0 (q - p) ->
     0 <= s -> q <= zlen mem ->
     clean qe (memcpy_from mem p (q - p)) = true ->
     led (esc cp) qe (memcpy_from mem p (q - p)) = true ->
     exists mem' s',
       squeeze fuel cp mem s p q = Some (mem', s') /\
       memcpy_from mem' s (s' - s) = unesc qe (memcpy_from mem p (q - p))).
Proof.
  induction fuel as [|fuel IH]; intros mem s p Hsp Hpq Hnul.
  { split; [cbn [squeeze]; discriminate | lia]. }
  cbn [squeeze].
  destruct (Z.ltb_spec p q) as [Hlt|Hge].
  2:{ split.
      - intros mem' s' [= <- <-]. split; [reflexivity|]. split; [lia|auto].
      - intros _ _ _ _ _. exists mem, s. split; [reflexivity|].
        rewrite !memcpy_from_nil by lia. reflexivity. }
  pose proof (cmpestri_spec (scan_escaped_string cp) 2 mem p (q - p))
    as (Hm & Hhit & Hbefore).
  set (m := mm_cmpestri (scan_escaped_string cp) 2
                        (mm_loadu_si128 mem p) (q - p)) in *.
  assert (Hsidd : sidd_len (q - p) = Z.min (q - p) 16)
    by (unfold sidd_len; lia).
  rewrite Hsidd in Hhit, Hbefore.
  destruct (Z.eqb_spec m 16) as [Hm16|Hm16].
  - destruct (Z.ltb_spec (p + 16) q) as [Hfar|Hnear].
    + (* a window without escapes: store it and go on *)
      set (mem1 := mm_storeu_si128 mem s (mm_loadu_si128 mem p)).
      assert (Hrd1 : forall k, rd mem1 k =
                               if (s <=? k) && (k <? s + 16) && (0 <=? k)
                                  && (k <? zlen mem)
                               then rd mem (p + (k - s)) else rd mem k).
      { intros k. unfold mem1. rewrite storeu_spec.
        destruct ((s <=? k) && (k <? s + 16) && (0 <=? k) && (k <? zlen mem))
                 eqn:E; auto.
        rewrite !andb_true_iff in E. destruct E as [[[E1 E2] E3] E4].
        apply Z.leb_le in E1. apply Z.ltb_lt in E2.
        rewrite lane_loadu by lia. f_equal. lia. }
      assert (Hlen1 : zlen mem1 = zlen mem)
        by (unfold mem1; apply storeu_length).
      assert (Hrest : memcpy_from mem1 (p + 16) (q - (p + 16))
                      = memcpy_from mem (p + 16) (q - p - 16)).
      { replace (q - (p + 16)) with (q - p - 16) by lia.
        apply memcpy_from_ext. intros j Hj. rewrite Hrd1.
        destruct (Z.ltb_spec (p + 16 + j) (s + 16)); [lia|].
        now rewrite andb_false_r. }
      destruct (IH mem1 (s + 16) (p + 16)) as [IHA IHB]; try lia.
      { rewrite Hrd1.
        destruct (Z.ltb_spec q (s + 16)); [lia|].
        now rewrite andb_false_r. }
      assert (HA : forall mem' s',
                 squeeze fuel cp mem1 (s + 16) (p + 16) q = Some (mem', s') ->
                 zlen mem' = zlen mem /\ s + 16 <= s' <= q /\
                 (forall k, k < s \/ q <= k -> rd mem' k = rd mem k) /\
                 (forall k, k < s + 16 \/ q <= k -> rd mem' k = rd mem1 k)).
      { intros mem' s' Hrun. destruct (IHA _ _ Hrun) as (Hlen & Hs' & Hfr).
        split; [congruence|]. split; [lia|]. split; [|exact Hfr].
        intros k Hk. rewrite Hfr by lia. rewrite Hrd1.
        destruct (Z.leb_spec s k); destruct (Z.ltb_spec k (s + 16));
          cbn; auto; lia. }
      split.
      * intros mem' s' Hrun. destruct (HA _ _ Hrun) as (Hlen & Hs' & Hfr & _).
        split; [exact Hlen|]. split; [lia|exact Hfr].
      * intros Hfuel Hs0 Hqz Hclean Hled.
        replace (q - p) with (16 + (q - p - 16)) in Hclean, Hled |- * by lia.
        rewrite memcpy_from_split in Hclean, Hled |- * by lia.
        assert (Hplain : forallb (fun b => negb (qe b))
                                 (memcpy_from mem p 16) = true).
        { apply memcpy_from_forallb. intros j Hj.
          unfold qe, qe_of. rewrite Hbefore by lia. reflexivity. }
        rewrite unesc_app_plain by exact Hplain.
        apply clean_app_plain in Hclean; [|exact Hplain].
        rewrite led_app_plain in Hled by exact Hplain.
        destruct IHB as (mem' & s' & Hrun & Hfun); try lia;
          try (rewrite Hrest; assumption).
        destruct (HA _ _ Hrun) as (Hlen & Hs' & _ & Hfr).
        exists mem', s'. split; [exact Hrun|].
        replace (s' - s) with (16 + (s' - (s + 16))) by lia.
        rewrite memcpy_from_split by lia. f_equal.
        -- apply memcpy_from_ext. intros j Hj.
           rewrite Hfr by lia. rewrite Hrd1.
           destruct (Z.leb_spec s (s + j)); destruct (Z.ltb_spec (s + j) (s + 16));
             destruct (Z.leb_spec 0 (s + j));
             destruct (Z.ltb_spec (s + j) (zlen mem)); try lia.
           cbn. f_equal. lia.
        -- rewrite Hfun, Hrest. reflexivity.
    + (* the tail: copy up to the NUL *)
      destruct (copy_tail_spec (Z.to_nat (zlen mem - p) + 1) mem s p Hsp
                               ltac:(lia))
        as (mem' & n & Hrun & Hn & Hlen & Hend & Hnn & Hrd).
      rewrite Hrun.
      assert (Hnq : n <= q - p).
      { destruct (Z.le_gt_cases n (q - p)); auto.
        specialize (Hnn (q - p) ltac:(lia)).
        replace (p + (q - p)) with q in Hnn by lia. congruence. }
      split.
      * destruct (Z.eqb_spec (p + n) q) as [Heq|Hne]; [|discriminate].
        intros mem2 s2 [= <- <-]. split; [exact Hlen|].
        split; [lia|]. intros k Hk. rewrite Hrd.
        destruct (Z.leb_spec s k); destruct (Z.ltb_spec k (s + n));
          cbn; auto; lia.
      * intros Hfuel Hs0 Hqz Hclean Hled.
        assert (Hplain : forallb (fun b => negb (qe b))
                                 (memcpy_from mem p (q - p)) = true).
        { apply memcpy_from_forallb. intros j Hj.
          unfold qe, qe_of. rewrite Hbefore by lia. reflexivity. }
        assert (Hn' : n = q - p).
        { destruct (Z.eq_dec n (q - p)); auto. exfalso.
          apply (clean_nonul qe _ Hclean (rd mem (p + n))); auto.
          unfold memcpy_from. apply in_map_iff.
          exists (Z.to_nat n). split; [f_equal; lia|]. apply in_seq. lia. }
        destruct (Z.eqb_spec (p + n) q) as [Heq|Hne]; [|lia].
        exists mem', (s + n). split; [reflexivity|].
        rewrite <- (app_nil_r (memcpy_from mem p (q - p))).
        rewrite unesc_app_plain by exact Hplain. cbn [unesc].
        rewrite app_nil_r. replace (s + n - s) with n by lia. subst n.
        apply memcpy_from_ext. intros j Hj. rewrite Hrd.
        destruct (Z.leb_spec s (s + j));
          destruct (Z.ltb_spec (s + j) (s + (q - p)));
          destruct (Z.leb_spec 0 (s + j));
          destruct (Z.ltb_spec (s + j) (zlen mem)); try lia.
        cbn. f_equal. lia.
  - (* a flagged byte at p + m *)
    destruct (Hhit ltac:(lia)) as [Hmq Hqe].
    pose proof (copy_head_spec (Z.to_nat m) mem s p Hsp) as Hch.
    destruct (copy_head (Z.to_nat m) mem s p) as [[mem1 s1] p1].
    destruct Hch as (-> & -> & Hlen1 & Hrd1).
    rewrite Z2Nat.id in * by lia.
    assert (Hat : rd mem1 (p + m) = rd mem (p + m)).
    { rewrite Hrd1. destruct (Z.ltb_spec (p + m) (s + m)); [lia|].
      now rewrite andb_false_r. }
    rewrite Hat.
    set (mem2 := wr mem1 (s + m) (rd mem1 (p + m + 1))).
    assert (Hrd2 : forall k, rd mem2 k =
                             if (s <=? k) && (k <? s + m + 1) && (0 <=? k)
                                && (k <? zlen mem)
                             then rd mem (if k =? s + m then p + m + 1
                                          else p + (k - s))
                             else rd mem k).
    { intros k. unfold mem2. rewrite rd_wr, Hlen1, !Hrd1.
      destruct (Z.eqb_spec (s + m) k) as [<-|Hne].
      - rewrite Z.eqb_refl.
        destruct (Z.leb_spec s (p + m + 1));
          destruct (Z.ltb_spec (p + m + 1) (s + m));
          destruct (Z.leb_spec s (s + m));
          destruct (Z.ltb_spec (s + m) (s + m + 1));
          destruct (Z.ltb_spec (s + m) (s + m));
          destruct (Z.leb_spec 0 (s + m));
          destruct (Z.ltb_spec (s + m) (zlen mem));
          cbn; auto; try lia.
      - destruct (Z.eqb_spec k (s + m)); [lia|].
        cbn [andb].
        destruct (Z.leb_spec s k); destruct (Z.ltb_spec k (s + m));
          destruct (Z.ltb_spec k (s + m + 1));
          destruct (Z.leb_spec 0 k); destruct (Z.ltb_spec k (zlen mem));
          cbn; auto; lia. }
    assert (Hlen2 : zlen mem2 = zlen mem)
      by (unfold mem2; now rewrite wr_length).
    assert (Hrest : memcpy_from mem2 (p + m + 2) (q - (p + m + 2))
                    = memcpy_from mem (p + m + 1 + 1) (q - p - m - 1 - 1)).
    { replace (q - (p + m + 2)) with (q - p - m - 1 - 1) by lia.
      apply memcpy_from_ext. intros j Hj. rewrite Hrd2.
      destruct (Z.ltb_spec (p + m + 2 + j) (s + m + 1)); [lia|].
      rewrite andb_false_r. cbn. f_equal. lia. }
    replace (p + m + 1 + 1) with (p + m + 2) by lia.
    destruct (IH mem2 (s + m + 1) (p + m + 2)) as [IHA IHB]; try lia.
    { rewrite Hrd2.
      destruct (Z.ltb_spec q (s + m + 1)); [lia|].
      now rewrite andb_false_r. }
    assert (HA : forall mem' s',
               squeeze fuel cp mem2 (s + m + 1) (p + m + 2) q
               = Some (mem', s') ->
               zlen mem' = zlen mem /\ s + m + 1 <= s' <= q /\
               (forall k, k < s \/ q <= k -> rd mem' k = rd mem k) /\
               (forall k, k < s + m + 1 \/ q <= k -> rd mem' k = rd mem2 k)).
    { intros mem' s' Hrun. destruct (IHA _ _ Hrun) as (Hlen & Hs' & Hfr).
      split; [congruence|]. split; [lia|]. split; [|exact Hfr].
      intros k Hk. rewrite Hfr by lia. rewrite Hrd2.
      destruct (Z.leb_spec s k); destruct (Z.ltb_spec k (s + m + 1));
        cbn; auto; lia. }
    split.
    + destruct (Byte.eqb (rd mem (p + m)) (esc cp)); cbn [negb];
        [|discriminate].
      intros mem' s' Hrun. destruct (HA _ _ Hrun) as (Hlen & Hs' & Hfr & _).
      split; [exact Hlen|]. split; [lia|exact Hfr].
    + intros Hfuel Hs0 Hqz Hclean Hled.
      replace (q - p) with (m + (q - p - m)) in Hclean, Hled |- * by lia.
      rewrite memcpy_from_split in Hclean, Hled |- * by lia.
      assert (Hplain : forallb (fun b => negb (qe b))
                               (memcpy_from mem p m) = true).
      { apply memcpy_from_forallb. intros j Hj.
        unfold qe, qe_of. rewrite Hbefore by lia. reflexivity. }
      rewrite unesc_app_plain by exact Hplain.
      apply clean_app_plain in Hclean; [|exact Hplain].
      rewrite led_app_plain in Hled by exact Hplain.
      rewrite (memcpy_from_cons mem (p + m)) in Hclean, Hled |- * by lia.
      cbn [clean unesc led] in Hclean, Hled |- *.
      change (is_special (scan_escaped_string cp) 2) with qe in Hqe.
      rewrite Hqe in Hclean, Hled |- *.
      apply andb_true_iff in Hclean. destruct Hclean as [_ Hclean].
      apply andb_true_iff in Hled. destruct Hled as [Hes Hled].
      rewrite Hes. cbn [negb].
      destruct (Z.le_gt_cases (q - p - m - 1) 0) as [Hlone|Hmore].
      { rewrite memcpy_from_nil in Hclean by lia. discriminate. }
      rewrite (memcpy_from_cons mem (p + m + 1)) in Hclean, Hled |- * by lia.
      apply andb_true_iff in Hclean. destruct Hclean as [_ Hclean].
      destruct IHB as (mem' & s' & Hrun & Hfun); try lia;
        try (rewrite Hrest; assumption).
      destruct (HA _ _ Hrun) as (Hlen & Hs' & _ & Hfr).
      exists mem', s'. split; [exact Hrun|].
      replace (s' - s) with (m + (1 + (s' - (s + m + 1)))) by lia.
      rewrite memcpy_from_split by lia.
      rewrite (memcpy_from_split mem' (s + m) 1) by lia.
      rewrite (memcpy_from_cons mem' (s + m) 1), (memcpy_from_nil mem' _ (1 - 1))
        by lia.
      cbn [app].
      f_equal; [|f_equal].
      * apply memcpy_from_ext. intros j Hj.
        rewrite Hfr by lia. rewrite Hrd2.
        destruct (Z.leb_spec s (s + j));
          destruct (Z.ltb_spec (s + j) (s + m + 1));
          destruct (Z.leb_spec 0 (s + j));
          destruct (Z.ltb_spec (s + j) (zlen mem));
          destruct (Z.eqb_spec (s + j) (s + m)); try lia.
        cbn. f_equal. lia.
      * rewrite Hfr by lia. rewrite Hrd2.
        destruct (Z.leb_spec s (s + m));
          destruct (Z.ltb_spec (s + m) (s + m + 1));
          destruct (Z.leb_spec 0 (s + m));
          destruct (Z.ltb_spec (s + m) (zlen mem)); try lia.
        rewrite Z.eqb_refl. reflexivity.
      * rewrite Hfun, Hrest. reflexivity.
Qed.
End Squeeze.

(** ** [touchup], field by field *)

Lemma memcpy_from_zlen mem p n : 0 <= n -> zlen (memcpy_from mem p n) = n.
Proof. intros H. unfold zlen. rewrite memcpy_from_length. lia. Qed.

Lemma zlen_app {A} (l1 l2 : list A) : zlen (l1 ++ l2) = zlen l1 + zlen l2.
Proof. unfold zlen. rewrite length_app. lia. Qed.

Lemma zlen_nonneg {A} (l : list A) : 0 <= zlen l.
Proof. unfold zlen. lia. Qed.

Lemma same_but_fld_refl cp : same_but_fld cp cp.
Proof. unfold same_but_fld. now destruct cp. Qed.

Lemma same_but_fld_set cp f : same_but_fld (set_fld cp f) cp.
Proof. reflexivity. Qed.

Lemma same_but_fld_trans a b c :
  same_but_fld a b -> same_but_fld b c -> same_but_fld a c.
Proof. unfold same_but_fld. intros -> ->. reflexivity. Qed.

Lemma same_but_fld_field cp' cp i :
  same_but_fld cp' cp ->
  snd (fst (field_at cp' i)) = snd (fst (field_at cp i)) /\
  snd (field_at cp' i) = snd (field_at cp i).
Proof. unfold same_but_fld. intros ->. split; reflexivity. Qed.

Section TouchupField.
Variable cp : csv_parse_t.
Variable mem : list byte.
Variable i : Z.

Lemma touchup_field_plain s l :
  field_at cp i = (Some s, l, None) ->
  exists cp' mem',
    touchup_field cp mem i = Some (cp', mem') /\
    mem' = wr mem (s + l) NUL /\
    cp' = if is_null_field cp mem (Some s, l, None)
          then set_fld cp (zset (fld cp) i None) else cp.
Proof.
  unfold field_at. intros [= Hf Hl He]. unfold touchup_field.
  rewrite Hf, He, Hl.
  replace (s + l - s) with l by lia. cbn [is_null_field].
  rewrite (memcmp_eq_ext (wr mem (s + l) NUL) mem)
    by (intros; apply rd_wr_ne; lia).
  destruct ((l =? nullstrsz cp) && memcmp_eq mem s (nullstr cp) l); eauto.
Qed.

Lemma touchup_field_escaped s l e :
  field_at cp i = (Some s, l, Some e) -> s <= e -> e + 1 < s + l ->
  (forall cp' mem',
      touchup_field cp mem i = Some (cp', mem') ->
      cp' = cp /\ zlen mem' = zlen mem /\
      (forall k, k < e \/ s + l < k -> rd mem' k = rd mem k)) /\
  (text_cond cp mem (Some s, l, Some e) ->
   exists mem' txt,
     touchup_field cp mem i = Some (cp, mem') /\
     zlen txt <= l /\
     txt = field_text cp mem (Some s, l, Some e) /\
     field_done mem' s txt).
Proof.
  unfold field_at. intros [= Hf Hl He] Hse Hel. unfold touchup_field.
  rewrite Hf, He, Hl.
  set (q := s + l).
  set (mem0 := wr mem q NUL).
  set (mem1 := wr mem0 e (rd mem0 (e + 1))).
  assert (Hrd0 : forall k, k <> q -> rd mem0 k = rd mem k)
    by (intros; apply rd_wr_ne; lia).
  assert (Hq0 : rd mem0 q = NUL) by apply rd_wr_nul.
  assert (Hrd1 : forall k, k <> e -> rd mem1 k = rd mem0 k)
    by (intros; apply rd_wr_ne; lia).
  assert (Hlen1 : zlen mem1 = zlen mem)
    by (unfold mem1, mem0; now rewrite !wr_length).
  destruct (Z.leb_spec s e); [|lia].
  destruct (Z.ltb_spec e q); [|unfold q in *; lia].
  cbn [andb negb].
  rewrite (Hrd0 e) by (unfold q; lia).
  replace (e + 1 + 1) with (e + 2) by lia.
  destruct (squeeze_spec cp q (Z.to_nat (q - (e + 2)) + 1) mem1 (e + 1) (e + 2))
    as [SA SB]; try lia.
  { rewrite Hrd1 by (unfold q; lia). exact Hq0. }
  assert (HA : forall mem2 s',
             squeeze (Z.to_nat (q - (e + 2)) + 1) cp mem1 (e + 1) (e + 2) q
             = Some (mem2, s') ->
             zlen mem2 = zlen mem /\ e + 1 <= s' <= q /\
             (forall k, k < e + 1 \/ q <= k -> rd mem2 k = rd mem1 k)).
  { intros mem2 s' Hrun. destruct (SA _ _ Hrun) as (Hlen2 & Hs' & Hfr).
    split; [congruence|]. split; [lia|exact Hfr]. }
  split.
  - destruct (Byte.eqb (rd mem e) (esc cp)); cbn [negb]; [|discriminate].
    intros cp' mem'.
    destruct (squeeze _ cp mem1 (e + 1) (e + 2) q) as [[mem2 s']|];
      [|discriminate].
    destruct (HA _ _ eq_refl) as (Hlen2 & Hs' & Hfr).
    intros [= <- <-]. split; [reflexivity|].
    split; [now rewrite wr_length|].
    intros k Hk. rewrite rd_wr_ne by lia.
    rewrite Hfr by (unfold q; lia).
    rewrite Hrd1 by lia. apply Hrd0. unfold q; lia.
  - intros (Hs0 & Hin & Hclean & Hled & Hqe & Hfirst).
    fold q in Hin.
    set (A := memcpy_from mem s (e - s)).
    set (B := memcpy_from mem (e + 2) (q - (e + 2))).
    assert (Hall : memcpy_from mem s l
                   = A ++ rd mem e :: rd mem (e + 1) :: B).
    { unfold A, B.
      replace l with ((e - s) + (1 + (1 + (q - (e + 2)))))
        by (unfold q; lia).
      rewrite !memcpy_from_split by lia.
      rewrite (memcpy_from_cons mem (s + (e - s)) 1) by lia.
      rewrite (memcpy_from_cons mem (s + (e - s) + 1) 1) by lia.
      rewrite !(memcpy_from_nil mem _ (1 - 1)) by lia. cbn [app].
      replace (s + (e - s)) with e by lia.
      replace (e + 1 + 1) with (e + 2) by lia. reflexivity. }
    assert (Hplain : forallb (fun b => negb (qe_of cp b)) A = true).
    { apply memcpy_from_forallb. intros j Hj.
      rewrite Hfirst by lia. reflexivity. }
    assert (Hun : unesc (qe_of cp) (memcpy_from mem s l)
                  = A ++ rd mem (e + 1) :: unesc (qe_of cp) B).
    { rewrite Hall, unesc_app_plain by exact Hplain.
      cbn [unesc]. now rewrite Hqe. }
    assert (HcB : clean (qe_of cp) B = true).
    { rewrite Hall in Hclean.
      apply clean_app_plain in Hclean; [|exact Hplain].
      cbn [clean] in Hclean. rewrite Hqe in Hclean.
      apply andb_true_iff in Hclean. destruct Hclean as [_ Hclean].
      apply andb_true_iff in Hclean. now destruct Hclean. }
    assert (HlB : Byte.eqb (rd mem e) (esc cp) = true /\
                  led (esc cp) (qe_of cp) B = true).
    { rewrite Hall in Hled.
      rewrite led_app_plain in Hled by exact Hplain.
      cbn [led] in Hled. rewrite Hqe in Hled.
      now apply andb_true_iff in Hled. }
    destruct HlB as [Hes HlB]. rewrite Hes. cbn [negb].
    assert (HB1 : memcpy_from mem1 (e + 2) (q - (e + 2)) = B).
    { apply memcpy_from_ext. intros j Hj.
      rewrite Hrd1 by lia. apply Hrd0. lia. }
    destruct SB as (mem2 & s' & Hrun & Hfun); try lia;
      try (rewrite HB1; assumption).
    rewrite HB1 in Hfun.
    destruct (HA _ _ Hrun) as (Hlen2 & Hs' & Hfr).
    rewrite Hrun.
    assert (HlenB : zlen (unesc (qe_of cp) B) = s' - (e + 1))
      by (rewrite <- Hfun; apply memcpy_from_zlen; lia).
    assert (Hlen : zlen (unesc (qe_of cp) (memcpy_from mem s l)) = s' - s).
    { rewrite Hun, zlen_app. unfold A.
      rewrite memcpy_from_zlen by lia.
      unfold zlen in *; cbn [length]; lia. }
    eexists. eexists. split; [reflexivity|].
    split; [|split; [reflexivity|]].
    + cbn [field_text]. rewrite Hlen. unfold q in Hs'. lia.
    + cbn [field_text]. unfold field_done. rewrite Hlen.
      replace (s + (s' - s)) with s' by lia.
      split; [apply rd_wr_nul|].
      rewrite Hun.
      replace (s' - s) with ((e - s) + (1 + (s' - (e + 1)))) by lia.
      rewrite !memcpy_from_split by lia.
      rewrite (memcpy_from_cons _ (s + (e - s)) 1) by lia.
      rewrite (memcpy_from_nil _ _ (1 - 1)) by lia. cbn [app].
      replace (s + (e - s)) with e by lia.
      f_equal; [|f_equal].
      * apply memcpy_from_ext. intros j Hj.
        rewrite rd_wr_ne by lia. rewrite Hfr by lia.
        rewrite Hrd1 by lia. apply Hrd0. unfold q; lia.
      * rewrite rd_wr_ne by lia. rewrite Hfr by lia.
        unfold mem1. rewrite rd_wr_eq
          by (unfold mem0; rewrite wr_length; unfold q in Hin; lia).
        apply Hrd0. unfold q; lia.
      * rewrite <- Hfun. apply memcpy_from_ext. intros j Hj.
        apply rd_wr_ne. lia.
Qed.
End TouchupField.

Lemma zget_zset_default {A} (l : list A) i d : zget (zset l i d) i d = d.
Proof.
  rewrite zget_zset.
  destruct ((i =? i) && (0 <=? i) && (i <? zlen l)) eqn:E; auto.
  apply zget_outside.
  rewrite Z.eqb_refl in E. cbn in E.
  apply andb_false_iff in E. destruct E as [E|E].
  - apply Z.leb_gt in E. lia.
  - apply Z.ltb_ge in E. lia.
Qed.

(** One field: what a finished run has done, and that the run finishes on
    a field that meets [text_cond]. *)
Lemma touchup_field_step cp mem i s l e :
  field_at cp i = (Some s, l, e) -> 0 <= l -> esc_ok s l e ->
  (forall cp1 mem1,
      touchup_field cp mem i = Some (cp1, mem1) ->
      zlen mem1 = zlen mem /\
      (forall k, k < s \/ s + l < k -> rd mem1 k = rd mem k) /\
      same_but_fld cp1 cp /\
      (forall j, j <> i -> zget (fld cp1) j None = zget (fld cp) j None) /\
      zget (fld cp1) i None
      = (if is_null_field cp mem (Some s, l, e) then None else Some s)) /\
  (text_cond cp mem (Some s, l, e) ->
   exists cp1 mem1,
     touchup_field cp mem i = Some (cp1, mem1) /\
     field_done mem1 s (field_text cp mem (Some s, l, e)) /\
     zlen (field_text cp mem (Some s, l, e)) <= l).
Proof.
  intros Hfd Hl Hesc. destruct e as [e|].
  - destruct Hesc as [He1 He2].
    destruct (touchup_field_escaped cp mem i s l e Hfd He1 He2) as [HA HB].
    split.
    + intros cp1 mem1 Hrun. destruct (HA _ _ Hrun) as (-> & Hlen & Hfr).
      split; [exact Hlen|].
      split; [intros k Hk; apply Hfr; lia|].
      split; [apply same_but_fld_refl|]. split; [auto|].
      cbn [is_null_field]. unfold field_at in Hfd. now injection Hfd.
    + intros Htc. destruct (HB Htc) as (mem1 & txt & Hrun & Hle & -> & Hdone).
      eauto.
  - destruct (touchup_field_plain cp mem i s l Hfd)
      as (cp1 & mem1 & Hrun & Hm & Hc).
    assert (Hfi : zget (fld cp) i None = Some s)
      by (unfold field_at in Hfd; now injection Hfd).
    split.
    + intros cp2 mem2 Hrun2. rewrite Hrun in Hrun2.
      injection Hrun2 as <- <-. subst cp1 mem1.
      split; [apply wr_length|].
      split; [intros k Hk; apply rd_wr_ne; lia|].
      destruct (is_null_field cp mem (Some s, l, None)) eqn:Hnull.
      * split; [apply same_but_fld_set|].
        split; [intros j Hj; cbn; now apply zget_zset_ne|].
        apply zget_zset_default.
      * split; [apply same_but_fld_refl|]. split; [auto|]. exact Hfi.
    + intros _. exists cp1, mem1. split; [exact Hrun|]. subst mem1.
      cbn [field_text]. unfold field_done.
      rewrite memcpy_from_zlen by lia.
      split; [|lia]. split; [apply rd_wr_nul|].
      apply memcpy_from_ext. intros j Hj. apply rd_wr_ne. lia.
Qed.

Lemma fields_from_cons cp i n :
  fields_from cp i (S n) = field_at cp i :: fields_from cp (i + 1) n.
Proof.
  unfold fields_from. cbn [seq map].
  f_equal; [f_equal; lia|].
  rewrite <- seq_shift, map_map. apply map_ext. intros k. f_equal. lia.
Qed.

Lemma fields_from_0 cp n : fields_from cp 0 n = fields_of cp n.
Proof. reflexivity. Qed.

Lemma fields_from_nth cp i n k :
  (k < n)%nat ->
  nth k (fields_from cp i n) (None, 0, None) = field_at cp (i + Z.of_nat k).
Proof.
  intros H. unfold fields_from.
  now rewrite (nth_map_seq (fun k => field_at cp (i + Z.of_nat k))).
Qed.

(** Every field of a chain lies inside it. *)
Lemma chain_nth lo fs hi k :
  chain lo fs hi -> (k < length fs)%nat ->
  exists s l e,
    nth k fs (None, 0, None) = (Some s, l, e) /\
    lo <= s /\ 0 <= l /\ s + l < hi /\ esc_ok s l e.
Proof.
  revert lo k; induction fs as [|[[[s|] l] e] t IH]; intros lo k; cbn [chain length];
    try lia; try contradiction.
  intros (H1 & H2 & H3 & H4) Hk. destruct k as [|k].
  - exists s, l, e. pose proof (chain_le _ _ _ H4). repeat split; auto; lia.
  - destruct (IH (s + l + 1) k H4 ltac:(lia)) as (s' & l' & e' & Hn & ? & ? & ? & ?).
    exists s', l', e'. cbn [nth]. repeat split; auto; lia.
Qed.

(** The data of a field is read inside its span only. *)
Lemma field_data_ext cp cp' mem mem' s l e :
  same_but_fld cp' cp -> zlen mem' = zlen mem -> esc_ok s l e ->
  (forall k, s <= k < s + l -> rd mem' k = rd mem k) ->
  is_null_field cp' mem' (Some s, l, e) = is_null_field cp mem (Some s, l, e) /\
  field_text cp' mem' (Some s, l, e) = field_text cp mem (Some s, l, e) /\
  (text_cond cp mem (Some s, l, e) -> text_cond cp' mem' (Some s, l, e)).
Proof.
  unfold same_but_fld. intros -> Hlen Hesc Hrd.
  assert (Hcp : memcpy_from mem' s l = memcpy_from mem s l)
    by (apply memcpy_from_ext; intros; apply Hrd; lia).
  split; [|split].
  - destruct e; cbn [is_null_field]; auto.
    cbn [nullstrsz nullstr set_fld set_arrays]. f_equal.
    now apply memcmp_eq_ext.
  - destruct e; cbn [field_text]; rewrite Hcp; reflexivity.
  - destruct e as [e|]; cbn [text_cond]; auto.
    destruct Hesc as [He1 He2].
    intros (H1 & H2 & H3 & H3' & H4 & H5).
    change (qe_of (set_fld cp (fld cp'))) with (qe_of cp).
    change (esc (set_fld cp (fld cp'))) with (esc cp).
    rewrite Hlen, Hcp, Hrd by lia.
    repeat split; auto. intros k Hk. rewrite Hrd by lia. auto.
Qed.

Lemma field_done_ext mem mem' s txt :
  (forall k, s <= k <= s + zlen txt -> rd mem' k = rd mem k) ->
  field_done mem s txt -> field_done mem' s txt.
Proof.
  intros Hrd [H1 H2]. pose proof (zlen_nonneg txt). split.
  - rewrite Hrd by lia. exact H1.
  - rewrite <- H2 at 2. apply memcpy_from_ext. intros; apply Hrd; lia.
Qed.

Lemma touchup_loop_spec n :
  forall i cp mem lo hi,
    chain lo (fields_from cp i n) hi ->
    (forall cp' mem',
        touchup_loop n i cp mem = Some (cp', mem') ->
        zlen mem' = zlen mem /\
        (forall k, k < lo \/ hi <= k -> rd mem' k = rd mem k) /\
        same_but_fld cp' cp /\
        (forall j, j < i \/ i + Z.of_nat n <= j ->
                   zget (fld cp') j None = zget (fld cp) j None) /\
        (forall k, (k < n)%nat ->
                   let fd := field_at cp (i + Z.of_nat k) in
                   zget (fld cp') (i + Z.of_nat k) None
                   = (if is_null_field cp mem fd then None else fst (fst fd)) /\
                   (text_cond cp mem fd ->
                    forall s, fst (fst fd) = Some s ->
                              field_done mem' s (field_text cp mem fd)))) /\
    ((forall k, (k < n)%nat -> text_cond cp mem (field_at cp (i + Z.of_nat k))) ->
     exists cp' mem', touchup_loop n i cp mem = Some (cp', mem')).
Proof.
  induction n as [|n IH]; intros i cp mem lo hi Hch.
  - cbn [touchup_loop]. split; [|eauto].
    intros cp' mem' [= <- <-]. split; [reflexivity|]. split; [auto|].
    split; [apply same_but_fld_refl|].
    split; [auto|]. intros; lia.
  - rewrite fields_from_cons in Hch. cbn [touchup_loop].
    destruct (field_at cp i) as [[[s|] l] e] eqn:Hfd; cbn [chain] in Hch;
      [|contradiction].
    destruct Hch as (Hlo & Hl & Hesc & Hch).
    destruct (touchup_field_step cp mem i s l e Hfd Hl Hesc) as [FA FB].
    assert (Hnext : forall cp1 mem1,
               touchup_field cp mem i = Some (cp1, mem1) ->
               (forall j, j <> i -> field_at cp1 j = field_at cp j) /\
               fields_from cp1 (i + 1) n = fields_from cp (i + 1) n /\
               forall k, (k < n)%nat ->
                 exists s' l' e',
                   field_at cp (i + 1 + Z.of_nat k) = (Some s', l', e') /\
                   s + l + 1 <= s' /\
                   is_null_field cp1 mem1 (Some s', l', e')
                   = is_null_field cp mem (Some s', l', e') /\
                   field_text cp1 mem1 (Some s', l', e')
                   = field_text cp mem (Some s', l', e') /\
                   (text_cond cp mem (Some s', l', e') ->
                    text_cond cp1 mem1 (Some s', l', e'))).
    { intros cp1 mem1 Hrun.
      destruct (FA _ _ Hrun) as (Hlen1 & Hfr1 & Hsame1 & Hoth1 & Hat1).
      assert (Hfields : forall j, j <> i -> field_at cp1 j = field_at cp j).
      { intros j Hj. pose proof (same_but_fld_field cp1 cp j Hsame1) as [H1 H2].
        unfold field_at in *. cbn [fst snd] in *. now rewrite Hoth1, H1, H2. }
      split; [exact Hfields|].
      split.
      { unfold fields_from. apply map_ext. intros k. apply Hfields. lia. }
      intros k Hk.
      destruct (chain_nth _ _ _ k Hch) as (s' & l' & e' & Hn & Hs' & Hl' & Hh' & He').
      { unfold fields_from. rewrite length_map, length_seq. lia. }
      rewrite fields_from_nth in Hn by lia.
      exists s', l', e'. split; [exact Hn|]. split; [exact Hs'|].
      apply field_data_ext; auto.
      intros j Hj. apply Hfr1. lia. }
    split.
    + intros cp' mem'.
      destruct (touchup_field cp mem i) as [[cp1 mem1]|] eqn:Hrun;
        [|discriminate].
      intros Hrun'.
      destruct (FA _ _ eq_refl) as (Hlen1 & Hfr1 & Hsame1 & Hoth1 & Hat1).
      destruct (Hnext _ _ eq_refl) as (Hfields & Hff & Hdata).
      rewrite <- Hff in Hch.
      destruct (IH (i + 1) cp1 mem1 (s + l + 1) hi Hch) as [IHA _].
      destruct (IHA _ _ Hrun') as (Hlen' & Hfr' & Hsame' & Hoth' & Hper').
      pose proof (chain_le _ _ _ Hch) as Hhi.
      split; [congruence|].
      split; [intros k Hk; rewrite Hfr' by lia; apply Hfr1; lia|].
      split; [eapply same_but_fld_trans; eauto|].
      split; [intros j Hj; rewrite Hoth' by lia; apply Hoth1; lia|].
      intros k Hk. destruct k as [|k].
      * replace (i + Z.of_nat 0) with i by lia. rewrite Hfd. cbn [fst snd].
        split.
        -- rewrite Hoth' by lia. exact Hat1.
        -- intros Htc s0 [= <-]. destruct (FB Htc) as (cp2 & mem2 & Hrun2 & Hdone & Hle).
           injection Hrun2 as <- <-.
           apply (field_done_ext mem1); auto.
           intros j Hj. apply Hfr'. lia.
      * replace (i + Z.of_nat (S k)) with (i + 1 + Z.of_nat k) by lia.
        destruct (Hper' k ltac:(lia)) as [Hz Ht]. cbv zeta in Hz, Ht.
        rewrite Hfields in Hz, Ht by lia.
        destruct (Hdata k ltac:(lia)) as (s' & l' & e' & Hn & _ & Hnull & Htext & Hcond).
        rewrite Hn in Hz, Ht |- *. cbn [fst snd] in *.
        rewrite Hnull, Htext in *.
        split; [exact Hz|]. intros Htc s0 Hs0. apply Ht; auto.
    + intros Hall.
      destruct FB as (cp1 & mem1 & Hrun & _).
      { specialize (Hall 0%nat ltac:(lia)).
        replace (i + Z.of_nat 0) with i in Hall by lia.
        now rewrite Hfd in Hall. }
      rewrite Hrun.
      destruct (Hnext _ _ Hrun) as (Hfields & Hff & Hdata).
      rewrite <- Hff in Hch.
      destruct (IH (i + 1) cp1 mem1 (s + l + 1) hi Hch) as [_ IHB].
      apply IHB. intros k Hk.
      destruct (Hdata k Hk) as (s' & l' & e' & Hn & _ & _ & _ & Hcond).
      rewrite Hfields by lia. rewrite Hn. apply Hcond. rewrite <- Hn.
      specialize (Hall (S k) ltac:(lia)).
      now replace (i + Z.of_nat (S k)) with (i + 1 + Z.of_nat k) in Hall by lia.
Qed.

(** ** [csv_feed]: one row, parsed and finalized *)

Lemma touchup_field_same cp mem i cp1 mem1 :
  touchup_field cp mem i = Some (cp1, mem1) -> same_but_fld cp1 cp.
Proof.
  unfold touchup_field.
  destruct (zget (fld cp) i None) as [p|]; [|discriminate].
  destruct (zget (escptr cp) i None) as [e|].
  - destruct (negb _); [discriminate|]. destruct (negb _); [discriminate|].
    destruct (squeeze _ _ _ _ _ _) as [[m s]|]; [|discriminate].
    intros [= <- _]. apply same_but_fld_refl.
  - destruct (_ && _); intros [= <- _];
      [apply same_but_fld_set | apply same_but_fld_refl].
Qed.

Lemma touchup_loop_same n :
  forall i cp mem cp' mem',
    touchup_loop n i cp mem = Some (cp', mem') -> same_but_fld cp' cp.
Proof.
  induction n as [|n IH]; intros i cp mem cp' mem'; cbn [touchup_loop].
  - intros [= <- _]. apply same_but_fld_refl.
  - destruct (touchup_field cp mem i) as [[cp1 mem1]|] eqn:E; [|discriminate].
    intros H. apply IH in H. apply touchup_field_same in E.
    eapply same_but_fld_trans; eauto.
Qed.

Lemma same_but_fld_fldtop cp' cp : same_but_fld cp' cp -> fldtop cp' = fldtop cp.
Proof. unfold same_but_fld. now intros ->. Qed.

(** A completed row, as [csv_feed] delivers it when [touchup] comes
    back. *)
Lemma csv_feed_row_inv alloc_ok cp mem b bufsz r c1 c2 mem' :
  cp_wf cp -> 0 < bufsz ->
  csv_line alloc_ok cp mem (Some b) bufsz = Some (r, c1) -> 0 < r ->
  touchup c1 mem = Some (c2, mem') ->
  csv_feed alloc_ok cp mem (Some b) bufsz
  = Some {| f_ret := r; f_cp := c2; f_mem := mem'; f_fldmem := mem';
            f_field := Some (fld c2); f_nfield := fldtop c2 |} /\
  fldtop c2 = fldtop c1 /\
  zlen mem' = zlen mem /\
  (forall k, k < b \/ b + r <= k -> rd mem' k = rd mem k) /\
  same_but_fld c2 c1 /\
  forall i, 0 <= i < fldtop c1 ->
            let fd := field_at c1 i in
            zget (fld c2) i None
            = (if is_null_field c1 mem fd then None else fst (fst fd)) /\
            (text_cond c1 mem fd ->
             forall s, fst (fst fd) = Some s ->
                       field_done mem' s (field_text c1 mem fd)).
Proof.
  intros Hwf Hsz Hline Hr Hrun.
  pose proof (csv_line_post alloc_ok cp mem b bufsz r c1 Hsz Hline)
    as (_ & _ & _ & _ & _ & Hpost).
  destruct (Hpost Hwf) as [Hwf1 Hch]. specialize (Hch Hr).
  rewrite <- fields_from_0 in Hch.
  destruct (touchup_loop_spec _ 0 c1 mem b (b + r) Hch) as [HA _].
  destruct (HA _ _ Hrun) as (Hlen & Hfr & Hsame & Hoth & Hper).
  split.
  { unfold csv_feed. rewrite Hline.
    destruct (Z.leb_spec r 0); [lia|].
    now rewrite Hrun. }
  split; [now apply same_but_fld_fldtop|].
  split; [exact Hlen|]. split; [exact Hfr|]. split; [exact Hsame|].
  intros i Hi. specialize (Hper (Z.to_nat i) ltac:(lia)).
  rewrite Z2Nat.id in Hper by lia. exact Hper.
Qed.

(** [touchup] comes back when every field of the row meets [text_cond]. *)
Lemma touchup_runs alloc_ok cp mem b bufsz r c1 :
  cp_wf cp -> 0 < bufsz ->
  csv_line alloc_ok cp mem (Some b) bufsz = Some (r, c1) -> 0 < r ->
  (forall i, 0 <= i < fldtop c1 -> text_cond c1 mem (field_at c1 i)) ->
  exists c2 mem', touchup c1 mem = Some (c2, mem').
Proof.
  intros Hwf Hsz Hline Hr Htc.
  pose proof (csv_line_post alloc_ok cp mem b bufsz r c1 Hsz Hline)
    as (_ & _ & _ & _ & _ & Hpost).
  destruct (Hpost Hwf) as [Hwf1 Hch]. specialize (Hch Hr).
  rewrite <- fields_from_0 in Hch.
  destruct (touchup_loop_spec _ 0 c1 mem b (b + r) Hch) as [_ HB].
  apply HB. intros k Hk. apply Htc. lia.
Qed.

Lemma csv_feed_row alloc_ok cp mem b bufsz r c1 :
  cp_wf cp -> 0 < bufsz ->
  csv_line alloc_ok cp mem (Some b) bufsz = Some (r, c1) -> 0 < r ->
  (forall i, 0 <= i < fldtop c1 -> text_cond c1 mem (field_at c1 i)) ->
  exists c2 mem',
    touchup c1 mem = Some (c2, mem') /\
    csv_feed alloc_ok cp mem (Some b) bufsz
    = Some {| f_ret := r; f_cp := c2; f_mem := mem'; f_fldmem := mem';
              f_field := Some (fld c2); f_nfield := fldtop c2 |} /\
    fldtop c2 = fldtop c1 /\
    zlen mem' = zlen mem /\
    (forall k, k < b \/ b + r <= k -> rd mem' k = rd mem k) /\
    same_but_fld c2 c1 /\
    forall i, 0 <= i < fldtop c1 ->
              let fd := field_at c1 i in
              zget (fld c2) i None
              = (if is_null_field c1 mem fd then None else fst (fst fd)) /\
              (text_cond c1 mem fd ->
               forall s, fst (fst fd) = Some s ->
                         field_done mem' s (field_text c1 mem fd)).
Proof.
  intros Hwf Hsz Hline Hr Htc.
  destruct (touchup_runs alloc_ok cp mem b bufsz r c1 Hwf Hsz Hline Hr Htc)
    as (c2 & mem' & Hrun).
  exists c2, mem'. split; [exact Hrun|].
  now apply csv_feed_row_inv.
Qed.

(** What [csv_feed] hands back is a result of [csv_line] and, behind a
    completed row, of [touchup]. *)
Lemma csv_feed_inv alloc_ok cp mem buf bufsz r :
  csv_feed alloc_ok cp mem buf bufsz = Some r ->
  exists rowsz c1,
    csv_line alloc_ok cp mem buf bufsz = Some (rowsz, c1) /\
    f_ret r = rowsz /\
    (rowsz <= 0 ->
     r = {| f_ret := rowsz; f_cp := c1; f_mem := mem; f_fldmem := mem;
            f_field := None; f_nfield := 0 |}) /\
    (0 < rowsz -> touchup c1 mem = Some (f_cp r, f_mem r)).
Proof.
  unfold csv_feed.
  destruct (csv_line alloc_ok cp mem buf bufsz) as [[rowsz c1]|]; [|discriminate].
  destruct (Z.leb_spec rowsz 0) as [Hle|Hgt].
  - intros [= <-]. exists rowsz, c1. cbn.
    split; [reflexivity|]. split; [reflexivity|].
    split; [reflexivity|]. intros; lia.
  - destruct (touchup c1 mem) as [[c2 mem']|] eqn:Ht; [|discriminate].
    intros [= <-]. exists rowsz, c1. cbn.
    split; [reflexivity|]. split; [reflexivity|].
    split; [intros; lia|]. intros _. exact Ht.
Qed.

(** A call that gives a row has a non-empty buffer. *)
Lemma csv_line_row_bufsz alloc_ok cp mem b bufsz r c :
  csv_line alloc_ok cp mem b bufsz = Some (r, c) -> 0 < r -> 0 < bufsz.
Proof.
  intros Hline Hr.
  destruct (Z.leb_spec bufsz 0) as [Hb|]; auto.
  unfold csv_line, reterr in Hline. destruct b.
  - destruct (Z.leb_spec bufsz 0); [|lia].
    destruct (bufsz =? 0); injection Hline; lia.
  - destruct (bufsz =? 0); injection Hline; lia.
Qed.

(** ** C strings *)

Lemma cstr_of_nonul l : forall b, In b (cstr_of l) -> b <> NUL.
Proof.
  induction l as [|a t IH]; cbn [cstr_of]; [contradiction|].
  destruct (byte_eqb_spec a NUL) as [->|Hne]; [contradiction|].
  intros b [<-|Hb]; auto.
Qed.

Lemma skipn_rd mem s :
  0 <= s < zlen mem ->
  skipn (Z.to_nat s) mem = rd mem s :: skipn (Z.to_nat (s + 1)) mem.
Proof.
  unfold zlen, rd, zget. intros Hs.
  destruct (Z.ltb_spec s 0); [lia|].
  replace (Z.to_nat (s + 1)) with (S (Z.to_nat s)) by lia.
  assert (Hn : (Z.to_nat s < length mem)%nat) by lia.
  revert Hn. generalize (Z.to_nat s). clear.
  induction mem as [|a t IH]; intros [|n] Hn; cbn in *; try lia; auto.
  apply IH. lia.
Qed.

(** The C string at [s] is the run of bytes up to the first NUL. *)
Lemma cstring_spec mem s n :
  0 <= s -> 0 <= n ->
  (forall j, 0 <= j < n -> rd mem (s + j) <> NUL) ->
  rd mem (s + n) = NUL ->
  cstring mem s = memcpy_from mem s n.
Proof.
  intros Hs Hn. remember (Z.to_nat n) as k eqn:Hk.
  revert s n Hs Hn Hk; induction k as [|k IH]; intros s n Hs Hn Hk Hnz Hz.
  - replace n with 0 in * by lia. replace (s + 0) with s in Hz by lia.
    rewrite memcpy_from_nil by lia. unfold cstring.
    destruct (Z.lt_ge_cases s (zlen mem)).
    + rewrite skipn_rd by lia. cbn [cstr_of]. rewrite Hz. reflexivity.
    + rewrite skipn_all2 by (unfold zlen in *; lia). reflexivity.
  - assert (Hin : s < zlen mem).
    { destruct (Z.lt_ge_cases s (zlen mem)); auto.
      specialize (Hnz 0 ltac:(lia)). replace (s + 0) with s in Hnz by lia.
      rewrite rd_outside in Hnz by lia. congruence. }
    pose proof (Hnz 0 ltac:(lia)) as H0. replace (s + 0) with s in H0 by lia.
    unfold cstring. rewrite skipn_rd by lia. cbn [cstr_of].
    destruct (byte_eqb_spec (rd mem s) NUL); [congruence|].
    rewrite memcpy_from_cons by lia. f_equal.
    apply (IH (s + 1) (n - 1)); try lia.
    + intros j Hj. replace (s + 1 + j) with (s + (j + 1)) by lia.
      apply Hnz. lia.
    + now replace (s + 1 + (n - 1)) with (s + n) by lia.
Qed.

Lemma cstr_of_cstring l : cstr_of l = cstring l 0.
Proof. reflexivity. Qed.

Lemma memcpy_from_In mem p n b :
  In b (memcpy_from mem p n) <-> exists j, 0 <= j < n /\ b = rd mem (p + j).
Proof.
  unfold memcpy_from. rewrite in_map_iff. split.
  - intros (i & <- & Hi). apply in_seq in Hi. exists (Z.of_nat i). split; [lia|auto].
  - intros (j & Hj & ->). exists (Z.to_nat j). split; [f_equal; lia|].
    apply in_seq. lia.
Qed.

(** A finished field reads as its text when the text has no NUL byte. *)
Lemma field_done_cstring mem s t :
  0 <= s -> field_done mem s t -> (forall b, In b t -> b <> NUL) ->
  cstring mem s = t.
Proof.
  intros Hs [Hz Hcp] Hnn.
  transitivity (memcpy_from mem s (zlen t)); [|exact Hcp].
  apply cstring_spec; auto; [apply zlen_nonneg|].
  intros j Hj. apply Hnn. rewrite <- Hcp. apply memcpy_from_In. eauto.
Qed.

Lemma memcpy_from_self l : memcpy_from l 0 (zlen l) = l.
Proof.
  induction l as [|a t IH]; [reflexivity|].
  rewrite memcpy_from_cons by (unfold zlen; cbn [length]; lia).
  replace (zlen (a :: t) - 1) with (zlen t) by (unfold zlen; cbn [length]; lia).
  change (rd (a :: t) 0) with a. f_equal.
  transitivity (memcpy_from t 0 (zlen t)); [|exact IH].
  apply memcpy_from_ext. intros j Hj.
  unfold rd. rewrite zget_cons_pos by lia. f_equal. lia.
Qed.

Lemma memcpy_from_firstn l n :
  0 <= n <= zlen l -> memcpy_from l 0 n = firstn (Z.to_nat n) l.
Proof.
  intros Hn. rewrite <- (firstn_skipn (Z.to_nat n) l) at 1.
  set (a := firstn (Z.to_nat n) l).
  assert (Ha : zlen a = n)
    by (unfold a, zlen in *; rewrite length_firstn; lia).
  transitivity (memcpy_from a 0 n); [|rewrite <- Ha; apply memcpy_from_self].
  apply memcpy_from_ext. intros j Hj. unfold rd.
  apply zget_app_l. lia.
Qed.

Lemma cstr_of_prefix l : memcpy_from l 0 (zlen (cstr_of l)) = cstr_of l.
Proof.
  induction l as [|a t IH]; [reflexivity|]. cbn [cstr_of].
  destruct (byte_eqb_spec a NUL); [reflexivity|].
  rewrite memcpy_from_cons by (unfold zlen; cbn [length]; lia).
  replace (zlen (a :: cstr_of t) - 1) with (zlen (cstr_of t))
    by (unfold zlen; cbn [length]; lia).
  change (rd (a :: t) 0) with a. f_equal.
  transitivity (memcpy_from t 0 (zlen (cstr_of t))); [|exact IH].
  apply memcpy_from_ext. intros j Hj.
  unfold rd. rewrite zget_cons_pos by lia. f_equal. lia.
Qed.

Lemma forallb_map_eq (f g : nat -> byte) l :
  forallb (fun i => Byte.eqb (f i) (g i)) l = true <-> map f l = map g l.
Proof.
  induction l as [|a t IH]; cbn [forallb map]; [tauto|].
  rewrite andb_true_iff, IH. split.
  - intros [H1 H2]. apply Byte.byte_dec_bl in H1. congruence.
  - intros [= H1 H2]. split; auto. rewrite H1. apply byte_eqb_refl.
Qed.

Lemma memcmp_eq_iff mem p s2 n :
  memcmp_eq mem p s2 n = true <-> memcpy_from mem p n = memcpy_from s2 0 n.
Proof.
  unfold memcmp_eq, memcpy_from.
  apply (forallb_map_eq (fun i => rd mem (p + Z.of_nat i))
                        (fun i => rd s2 (0 + Z.of_nat i))).
Qed.

(** The null test of [touchup], in terms of the marker string. *)
Lemma is_null_field_iff cp mem s l e :
  0 <= l -> nullstrsz cp = strlen (nullstr cp) ->
  is_null_field cp mem (Some s, l, e) = true <->
  e = None /\ memcpy_from mem s l = cstr_of (nullstr cp).
Proof.
  intros Hl Hsz. unfold strlen in Hsz. destruct e as [e|]; cbn [is_null_field].
  - split; [discriminate | intros [? _]; discriminate].
  - rewrite andb_true_iff, Z.eqb_eq, memcmp_eq_iff, Hsz. split.
    + intros [-> H]. now rewrite H, cstr_of_prefix.
    + intros [_ H].
      assert (Hlen : l = zlen (cstr_of (nullstr cp)))
        by (rewrite <- H; now rewrite memcpy_from_zlen).
      split; [exact Hlen|]. rewrite H, Hlen.
      symmetry. apply cstr_of_prefix.
Qed.

Lemma rd_in l j : 0 <= j < zlen l -> In (rd l j) l.
Proof.
  intros Hj. unfold rd, zget, zlen in *. destruct (Z.ltb_spec j 0); [lia|].
  apply nth_In. lia.
Qed.


(** ** Reading back a written row *)

Lemma sp_std cp b : cfg_std cp -> sp_of (scan cp) b = is_std_special cp b.
Proof.
  intros (He & _ & Hm & Hl & _). unfold sp_of, is_special, is_std_special.
  rewrite Hm, Hl, He. cbn -[Byte.eqb].
  rewrite (byte_eqb_sym (qte cp) b), (byte_eqb_sym (delim cp) b),
    (byte_eqb_sym CR b), (byte_eqb_sym LF b).
  destruct (Byte.eqb b (qte cp)), (Byte.eqb b (delim cp)),
    (Byte.eqb b CR), (Byte.eqb b LF); reflexivity.
Qed.

Lemma qe_std cp b : cfg_std cp -> qe_of cp b = Byte.eqb b (qte cp).
Proof.
  intros (He & Hs & _). unfold qe_of, is_special.
  rewrite Hs, He. cbn -[Byte.eqb].
  rewrite (byte_eqb_sym (qte cp) b).
  destruct (Byte.eqb b (qte cp)); reflexivity.
Qed.

Lemma rd_memcpy_from mem p n j :
  0 <= j < n -> rd (memcpy_from mem p n) j = rd mem (p + j).
Proof.
  intros Hj. unfold rd at 1, zget, memcpy_from.
  destruct (Z.ltb_spec j 0); [lia|].
  rewrite (nth_map_seq (fun i => rd mem (p + Z.of_nat i))) by lia.
  f_equal. lia.
Qed.

Lemma mem_has_rd mem pos l j :
  mem_has mem pos l -> 0 <= j < zlen l -> rd mem (pos + j) = rd l j.
Proof.
  unfold mem_has. intros H Hj.
  transitivity (rd (memcpy_from mem pos (zlen l)) j);
    [symmetry; now apply rd_memcpy_from | now rewrite H].
Qed.

Lemma mem_has_intro mem pos l :
  (forall j, 0 <= j < zlen l -> rd mem (pos + j) = rd l j) -> mem_has mem pos l.
Proof.
  intros H. unfold mem_has.
  transitivity (memcpy_from l 0 (zlen l)); [|apply memcpy_from_self].
  apply memcpy_from_ext. intros j Hj. now rewrite H.
Qed.

Lemma mem_has_app mem pos l1 l2 :
  mem_has mem pos (l1 ++ l2) ->
  mem_has mem pos l1 /\ mem_has mem (pos + zlen l1) l2.
Proof.
  intros H. pose proof (zlen_nonneg l1). pose proof (zlen_nonneg l2).
  split; apply mem_has_intro; intros j Hj.
  - rewrite (mem_has_rd _ _ _ _ H) by (rewrite zlen_app; lia).
    unfold rd. apply zget_app_l. lia.
  - replace (pos + zlen l1 + j) with (pos + (zlen l1 + j)) by lia.
    rewrite (mem_has_rd _ _ _ _ H) by (rewrite zlen_app; lia).
    unfold rd. rewrite zget_app_r by lia. f_equal. lia.
Qed.

Lemma mem_has_cons mem pos b l :
  mem_has mem pos (b :: l) -> rd mem pos = b /\ mem_has mem (pos + 1) l.
Proof.
  intros H. change (b :: l) with ([b] ++ l) in H.
  apply mem_has_app in H. destruct H as [H1 H2]. split; [|exact H2].
  pose proof (mem_has_rd _ _ _ 0 H1 ltac:(unfold zlen; cbn; lia)) as H.
  now replace (pos + 0) with pos in H by lia.
Qed.

Lemma mem_has_middle pre l rest : mem_has (pre ++ l ++ rest) (zlen pre) l.
Proof.
  apply mem_has_intro. intros j Hj. unfold rd.
  rewrite zget_app_r by lia. replace (zlen pre + j - zlen pre) with j by lia.
  apply zget_app_l. lia.
Qed.

Lemma byte_eqb_neq a b : a <> b -> Byte.eqb a b = false.
Proof. intros H. destruct (byte_eqb_spec a b); congruence. Qed.

Lemma zlen_cons {A} (x : A) l : zlen (x :: l) = 1 + zlen l.
Proof. unfold zlen. cbn [length]. lia. Qed.

Lemma rd_Forall (P : byte -> Prop) l j :
  Forall P l -> 0 <= j < zlen l -> P (rd l j).
Proof.
  intros H Hj. rewrite Forall_forall in H. apply H. now apply rd_in.
Qed.

Section Reach.
Variable alloc_ok : Z -> bool.
Variable f : byte -> bool.
Variable mem : list byte.
Variables buf q : Z.

Notation "'reach'" := (reaches alloc_ok f mem buf q).
Notation "'run'" := (arun alloc_ok f mem buf q).

Lemma reaches_refl j : reach j j.
Proof. exists 0%nat. reflexivity. Qed.

Lemma reaches_trans j1 j2 j3 : reach j1 j2 -> reach j2 j3 -> reach j1 j3.
Proof.
  intros [k1 H1] [k2 H2]. exists (k1 + k2)%nat. intros fuel.
  rewrite <- Nat.add_assoc, H1. apply H2.
Qed.

Lemma reaches_step l cp L cur :
  reach (AGoto l cp L cur) (astep alloc_ok f mem buf q l cp L cur).
Proof. exists 1%nat. reflexivity. Qed.

Lemma arun_return fuel r c : run fuel (AReturn r c) = Some (r, c).
Proof. destruct fuel; reflexivity. Qed.

Lemma arun_mono fuel d :
  forall j x, run fuel j = Some x -> run (fuel + d) j = Some x.
Proof.
  induction fuel as [|fuel IH]; intros [r c|l c L cur] x;
    rewrite ?arun_return; auto; cbn [arun Nat.add]; try discriminate.
  apply IH.
Qed.

Lemma reaches_result j r c fuel x :
  reach j (AReturn r c) -> run fuel j = Some x -> x = (r, c).
Proof.
  intros [k Hk] Hrun. specialize (Hk fuel). rewrite arun_return in Hk.
  apply (arun_mono _ k) in Hrun. rewrite Nat.add_comm in Hrun. congruence.
Qed.

Lemma reaches_quoted_skip cp L cur cur' :
  find_special f mem cur q = find_special f mem cur' q ->
  reach (AGoto QUOTED_VAL cp L cur) (AGoto QUOTED_VAL cp L cur').
Proof.
  intros H. exists 0%nat. intros [|fuel]; cbn [arun Nat.add]; auto.
  unfold astep. now rewrite H.
Qed.

Lemma find_special_here cur :
  cur < q -> f (rd mem cur) = true -> find_special f mem cur q = Some cur.
Proof. intros; apply find_special_intro; auto; lia. Qed.

Lemma find_special_next cur :
  f (rd mem cur) = false ->
  find_special f mem cur q = find_special f mem (cur + 1) q.
Proof.
  intros H. apply find_special_skip; [lia|].
  intros j Hj _. now replace j with cur by lia.
Qed.

End Reach.

Ltac reach_eq :=
  match goal with
  | |- reaches _ _ _ _ _ ?a ?b =>
      replace b with a; [apply reaches_refl | repeat (f_equal; try lia)]
  end.

Section Run.
Variable alloc_ok : Z -> bool.
Variable f : byte -> bool.
Variable mem : list byte.
Variables buf q : Z.

Notation "'reach'" := (reaches alloc_ok f mem buf q).

Variables qt dl : byte.
Hypothesis Hf : forall b, f b = Byte.eqb b qt || Byte.eqb b dl
                              || Byte.eqb b CR || Byte.eqb b LF.
Hypothesis Hqd : qt <> dl.
Hypothesis Hqc : qt <> CR.
Hypothesis Hql : qt <> LF.


Lemma f_qt : f qt = true.
Proof. now rewrite Hf, byte_eqb_refl. Qed.

Lemma eqb_qt_false b : b <> qt -> Byte.eqb b qt = false.
Proof. intros H. destruct (byte_eqb_spec b qt); congruence. Qed.

Lemma f_false_lf b : f b = false -> Byte.eqb b LF = false.
Proof.
  rewrite Hf. destruct (Byte.eqb b LF); auto. now rewrite !orb_true_r.
Qed.

Lemma f_false_qt b : f b = false -> Byte.eqb b qt = false.
Proof. rewrite Hf. destruct (Byte.eqb b qt); auto. Qed.

(** The QUOTED_VAL loop runs over a doubled content up to the closing
    quote and hands the field to FINISH. *)
Lemma quoted_loop c :
  forall pos cp L t,
    cfg_run qt dl cp ->
    mem_has mem pos (dbl qt c ++ [qt; t]) ->
    f t = true -> t <> qt ->
    pos + zlen (dbl qt c) + 2 <= q ->
    let xp := pos + zlen (dbl qt c) + 1 in
    reach (AGoto QUOTED_VAL cp L pos)
          (lift (xp + 1)
                (FINISH mem buf q cp
                        {| ppp := xp; cno := cno L;
                           nline := nline L + count_lf c;
                           fldv := fldv L; quoted := quoted L;
                           l_escptr := or_else (l_escptr L)
                                               (first_esc qt pos c) |})).
Proof.
  induction c as [|b c IH]; intros pos cp L t Hcfg Hmem Ht Htq Hq; cbv zeta.
  - (* the closing quote *)
    cbn [dbl flat_map app] in Hmem. cbn [dbl flat_map] in *.
    change (zlen []) with 0 in *.
    apply mem_has_cons in Hmem. destruct Hmem as [Hb0 Hmem].
    apply mem_has_cons in Hmem. destruct Hmem as [Hb1 _].
    destruct Hcfg as (Cq & Ce & Cd).
    eapply reaches_trans; [apply reaches_step|].
    unfold astep.
    rewrite (find_special_here f mem q pos) by (rewrite ?Hb0; auto using f_qt; lia).
    rewrite Hb0, Cq, byte_eqb_refl.
    rewrite (find_special_here f mem q (pos + 1)) by (rewrite ?Hb1; auto; lia).
    rewrite Z.eqb_refl. cbn [negb].
    rewrite Hb1, Ce, byte_eqb_refl, (eqb_qt_false t Htq). cbn [andb].
    replace (pos + 0 + 1) with (pos + 1) by lia.
    cbn [count_lf first_esc]. replace (nline L + 0) with (nline L) by lia.
    destruct (l_escptr L); apply reaches_refl.
  - cbn [dbl flat_map] in Hmem, Hq |- *. fold (dbl qt c) in Hmem, Hq |- *.
    destruct Hcfg as (Cq & Ce & Cd).
    destruct (byte_eqb_spec b qt) as [->|Hne].
    + (* a doubled quote *)
      cbn [app] in Hmem, Hq |- *. rewrite !zlen_cons in Hq |- *.
      apply mem_has_cons in Hmem. destruct Hmem as [Hb0 Hmem].
      apply mem_has_cons in Hmem. destruct Hmem as [Hb1 Hmem].
      pose proof (zlen_nonneg (dbl qt c)).
      eapply reaches_trans; [apply reaches_step|].
      unfold astep.
      rewrite (find_special_here f mem q pos) by (rewrite ?Hb0; auto using f_qt; lia).
      rewrite Hb0, Cq, byte_eqb_refl.
      rewrite (find_special_here f mem q (pos + 1)) by (rewrite ?Hb1; auto using f_qt; lia).
      rewrite Z.eqb_refl. cbn [negb].
      rewrite Hb1, Ce, !byte_eqb_refl. cbn [andb].
      replace (pos + 1 + 1) with (pos + 2) in * by lia.
      eapply reaches_trans.
      { apply (IH (pos + 2) cp _ t); auto; [repeat split; auto | lia]. }
      cbn [ppp cno nline fldv quoted l_escptr count_lf first_esc].
      rewrite byte_eqb_refl, (byte_eqb_neq qt LF) by congruence.
      destruct (l_escptr L); cbn [or_else]; reach_eq.
    + (* any other byte *)
      cbn [app] in Hmem, Hq |- *. rewrite zlen_cons in Hq |- *.
      apply mem_has_cons in Hmem. destruct Hmem as [Hb0 Hmem].
      pose proof (zlen_nonneg (dbl qt c)).
      destruct (f b) eqn:Hfb.
      * (* a delimiter or line-ending byte inside the quotes *)
        eapply reaches_trans; [apply reaches_step|].
        unfold astep.
        rewrite (find_special_here f mem q pos) by (rewrite ?Hb0; auto; lia).
        rewrite Hb0, Cq, Ce, (eqb_qt_false b Hne).
        eapply reaches_trans.
        { apply (IH (pos + 1) cp _ t); auto; [repeat split; auto | lia]. }
        cbn [ppp cno nline fldv quoted l_escptr count_lf first_esc].
        rewrite (eqb_qt_false b Hne). reach_eq.
      * (* a plain byte: the scanner passes over it *)
        eapply reaches_trans.
        { apply (reaches_quoted_skip alloc_ok f mem buf q cp L pos (pos + 1)).
          apply find_special_next. now rewrite Hb0. }
        eapply reaches_trans.
        { apply (IH (pos + 1) cp L t); auto; [repeat split; auto | lia]. }
        cbn [count_lf first_esc].
        rewrite (eqb_qt_false b Hne), (f_false_lf b Hfb). reach_eq.
Qed.

Hypothesis Hdc : dl <> CR.
Hypothesis Hdl : dl <> LF.
Hypothesis Halloc : forall n, alloc_ok n = true.

Lemma f_dl : f dl = true.
Proof. rewrite Hf, byte_eqb_refl. now rewrite orb_true_r. Qed.

Lemma f_cr : f CR = true.
Proof. rewrite Hf. cbn. now rewrite !orb_true_r. Qed.

Lemma f_lf : f LF = true.
Proof. rewrite Hf. cbn. now rewrite !orb_true_r. Qed.

Lemma cfg_run_fin cp L : cfg_run qt dl cp -> cfg_run qt dl (fin_arrays cp L).
Proof.
  intros (Cq & Ce & Cd).
  destruct (fin_arrays_frame cp L) as ((Fq & Fe & Fd & _) & _).
  repeat split; congruence.
Qed.

Lemma finish_delim cp L :
  cfg_run qt dl cp -> rd mem (ppp L) = dl ->
  FINISH mem buf q cp L =
  Goto START_VAL (fin_arrays cp L)
       {| ppp := ppp L + 1; cno := cno L + 1; nline := nline L;
          fldv := fldv L; quoted := quoted L; l_escptr := l_escptr L |}.
Proof.
  intros Hcfg Hrd. rewrite FINISH_unfold. cbv zeta.
  destruct (cfg_run_fin cp L Hcfg) as (_ & _ & Cd).
  now rewrite Hrd, Cd, byte_eqb_refl.
Qed.

Lemma finish_lf cp L :
  cfg_run qt dl cp -> rd mem (ppp L) = LF ->
  FINISH mem buf q cp L =
  FINROW (set_fldtop (fin_arrays cp L) (cno L + 1)) buf (ppp L + 1) (nline L).
Proof.
  intros Hcfg Hrd. rewrite FINISH_unfold. cbv zeta.
  destruct (cfg_run_fin cp L Hcfg) as (_ & _ & Cd).
  rewrite Hrd, Cd, (byte_eqb_neq LF dl) by congruence.
  now rewrite byte_eqb_refl.
Qed.

Lemma finish_crlf cp L :
  cfg_run qt dl cp -> rd mem (ppp L) = CR -> rd mem (ppp L + 1) = LF ->
  ppp L + 1 < q ->
  FINISH mem buf q cp L =
  FINROW (set_fldtop (fin_arrays cp L) (cno L + 1)) buf (ppp L + 1 + 1) (nline L).
Proof.
  intros Hcfg Hrd Hrd2 Hlt. rewrite FINISH_unfold. cbv zeta.
  destruct (cfg_run_fin cp L Hcfg) as (_ & _ & Cd).
  rewrite Hrd, Hrd2, Cd, (byte_eqb_neq CR dl) by congruence.
  destruct (Z.ltb_spec (ppp L + 1) q); [|lia].
  reflexivity.
Qed.

Lemma ensure_ok cp k :
  cp_wf cp -> 0 <= k <= fldmax cp ->
  cp_wf (ensure alloc_ok cp k) /\ k < fldmax (ensure alloc_ok cp k) /\
  (forall i, field_at (ensure alloc_ok cp k) i = field_at cp i) /\
  (cfg_run qt dl cp -> cfg_run qt dl (ensure alloc_ok cp k)).
Proof.
  intros Hwf Hk. unfold ensure.
  destruct (Z.geb_spec k (fldmax cp)) as [Hge|Hlt].
  - destruct (expand alloc_ok cp) as [r c] eqn:He. cbn [snd].
    pose proof He as He'. apply expand_ok in He'.
    destruct He' as ((Eq & Ee & Ed & _) & _ & _ & Efld & Er & Ewf).
    assert (r = 0).
    { unfold expand in He. rewrite !Halloc in He. cbn [negb] in He.
      now injection He. }
    destruct Er as [[_ Emax]|[Er _]]; [|lia].
    split; [auto|]. split; [lia|]. split; [exact Efld|].
    intros (Cq & Ce & Cd). repeat split; congruence.
  - split; [auto|]. split; [lia|]. split; auto.
Qed.

Lemma start_grown cp L :
  (if cno L >=? fldmax cp
   then let '(r, cp') := expand alloc_ok cp in
        if r =? 0 then inr cp'
        else inl (reterr cp' CSV_EOUTOFMEMORY "out of memory"
                         (cno L) (nline L) (ppp L - buf))
   else inr cp)
  = inr (ensure alloc_ok cp (cno L)).
Proof.
  unfold ensure. destruct (cno L >=? fldmax cp); [|reflexivity].
  unfold expand. rewrite !Halloc. reflexivity.
Qed.


(** START_VAL and, for a quoted field, the QUOTED_VAL loop: the machine
    runs over one written field up to its terminator [t]. *)
Lemma field_run cp L pos fd t :
  cfg_run qt dl cp -> cp_wf cp -> 0 <= cno L <= fldmax cp -> ppp L = pos ->
  mem_has mem pos (enc_field qt fd ++ [t]) ->
  (fst fd = false -> Forall (fun b => f b = false) (snd fd)) ->
  f t = true -> t <> qt ->
  pos + zlen (enc_field qt fd) < q ->
  exists nl,
    reaches alloc_ok f mem buf q (AGoto START_VAL cp L pos)
      (lift (pos + zlen (enc_field qt fd) + 1)
            (FINISH mem buf q (started alloc_ok cp (cno L) pos)
                    {| ppp := pos + zlen (enc_field qt fd); cno := cno L;
                       nline := nl; fldv := pos; quoted := fst fd;
                       l_escptr := snd (desc qt pos fd) |})).
Proof.
  intros Hcfg Hwf Hk Hppp Hmem Hplain Ht Htq Hq.
  destruct (ensure_ok cp (cno L) Hwf Hk) as (Ewf & Emax & Efld & Ecfg).
  specialize (Ecfg Hcfg). destruct Ecfg as (Cq & Ce & Cd).
  destruct fd as [[|] c]; cbn [fst snd enc_field desc] in *.
  - (* quoted *)
    rewrite zlen_cons, zlen_app in *. change (zlen [qt]) with 1 in *.
    pose proof (zlen_nonneg (dbl qt c)).
    cbn [app] in Hmem. rewrite <- app_assoc in Hmem. cbn [app] in Hmem.
    apply mem_has_cons in Hmem. destruct Hmem as [Hb0 Hmem].
    exists (nline L + count_lf c).
    eapply reaches_trans; [apply reaches_step|].
    unfold astep. rewrite start_grown.
    rewrite (find_special_here f mem q pos) by (rewrite ?Hb0; auto using f_qt; lia).
    rewrite Hppp, Z.eqb_refl, Hb0.
    cbn [qte set_fld set_arrays]. rewrite Cq, byte_eqb_refl. cbn [andb].
    eapply reaches_trans.
    { apply (quoted_loop c (pos + 1) _ _ t); auto; [repeat split; auto | lia]. }
    cbn [ppp cno nline fldv quoted l_escptr or_else]. unfold started.
    reach_eq.
  - (* plain *)
    specialize (Hplain eq_refl). pose proof (zlen_nonneg c).
    apply mem_has_app in Hmem. destruct Hmem as [Hc Hmt].
    apply mem_has_cons in Hmt. destruct Hmt as [Hbt _].
    exists (nline L).
    eapply reaches_trans; [apply reaches_step|].
    unfold astep. rewrite start_grown.
    rewrite (find_special_intro f mem pos q (pos + zlen c)); auto; try lia.
    2:{ now rewrite Hbt. }
    2:{ intros j Hj. replace j with (pos + (j - pos)) by lia.
        rewrite (mem_has_rd _ _ _ _ Hc) by lia.
        apply (rd_Forall (fun b => f b = false)); auto. lia. }
    rewrite Hbt. cbn [qte set_fld set_arrays]. rewrite Cq.
    rewrite (eqb_qt_false t Htq), andb_false_r.
    rewrite Hppp. unfold started. apply reaches_refl.
Qed.

(** The arrays after FINISH has recorded the field. *)
Lemma field_fin cp k pos nl fd :
  cfg_run qt dl cp -> cp_wf cp -> 0 <= k <= fldmax cp ->
  let c := fin_arrays (started alloc_ok cp k pos)
             {| ppp := pos + zlen (enc_field qt fd); cno := k;
                nline := nl; fldv := pos; quoted := fst fd;
                l_escptr := snd (desc qt pos fd) |} in
  cfg_run qt dl c /\ cp_wf c /\ k + 1 <= fldmax c /\
  field_at c k = desc qt pos fd /\
  (forall i, i <> k -> field_at c i = field_at cp i).
Proof.
  intros Hcfg Hwf Hk.
  destruct (ensure_ok cp k Hwf Hk) as (Ewf & Emax & Efld & Ecfg).
  specialize (Ecfg Hcfg).
  set (L := {| ppp := pos + zlen (enc_field qt fd); cno := k;
               nline := nl; fldv := pos; quoted := fst fd;
               l_escptr := snd (desc qt pos fd) |}).
  assert (Swf : cp_wf (started alloc_ok cp k pos)).
  { unfold started, cp_wf in *. cbn. now rewrite zlen_zset. }
  assert (Scfg : cfg_run qt dl (started alloc_ok cp k pos)).
  { exact Ecfg. }
  assert (Smax : fldmax (started alloc_ok cp k pos)
                 = fldmax (ensure alloc_ok cp k)) by reflexivity.
  cbv zeta.
  destruct (fin_arrays_frame (started alloc_ok cp k pos) L)
    as (_ & _ & _ & Fmax & Fwf & Foth).
  split; [now apply cfg_run_fin|]. split; [auto|].
  split; [rewrite Fmax, Smax; lia|]. split.
  - change k with (cno L) at 2.
    rewrite fin_arrays_field; auto.
    + unfold L, desc. cbn [ppp fldv quoted l_escptr cno].
      destruct fd as [[|] c]; cbn [fst snd enc_field].
      * rewrite zlen_cons, zlen_app. change (zlen [qt]) with 1.
        repeat (f_equal; try lia).
      * repeat (f_equal; try lia).
    + cbn [cno L]. rewrite Smax. lia.
    + intros _. cbn [cno fldv L]. unfold started. cbn [fld set_fld set_arrays].
      destruct Ewf as (? & ? & _).
      apply zget_zset_eq. lia.
  - intros i Hi. rewrite Foth by (cbn [cno L]; auto).
    rewrite <- Efld. unfold field_at, started. cbn.
    now rewrite zget_zset_ne by auto.
Qed.

Lemma enc_row_cons fd fd' more crlf :
  enc_row qt dl fd (fd' :: more) crlf
  = enc_field qt fd ++ dl :: enc_row qt dl fd' more crlf.
Proof.
  unfold enc_row, enc_more. cbn [flat_map app].
  now rewrite <- !app_assoc.
Qed.

Lemma mem_has_snoc pos l t rest :
  mem_has mem pos (l ++ t :: rest) ->
  mem_has mem pos (l ++ [t]) /\ rd mem (pos + zlen l) = t /\
  mem_has mem (pos + zlen l + 1) rest.
Proof.
  intros H. split.
  - change (t :: rest) with ([t] ++ rest) in H. rewrite app_assoc in H.
    now apply mem_has_app in H.
  - apply mem_has_app in H. destruct H as [_ H].
    now apply mem_has_cons in H.
Qed.

(** The machine reads a whole written row and returns its size, with the
    descriptors of its fields in the arrays. *)
Lemma row_run crlf more :
  forall fd pos cp L,
    cfg_run qt dl cp -> cp_wf cp -> 0 <= cno L <= fldmax cp -> ppp L = pos ->
    mem_has mem pos (enc_row qt dl fd more crlf) ->
    Forall (fun fd => fst fd = false -> Forall (fun b => f b = false) (snd fd))
           (fd :: more) ->
    pos + zlen (enc_row qt dl fd more crlf) <= q ->
    exists c,
      reach (AGoto START_VAL cp L pos)
            (AReturn (pos + zlen (enc_row qt dl fd more crlf) - buf) c) /\
      fldtop c = cno L + 1 + zlen more /\
      fldtop c <= fldmax c /\
      (forall i, i < cno L -> field_at c i = field_at cp i) /\
      fields_from c (cno L) (S (length more)) = descs qt pos (fd :: more).
Proof.
  induction more as [|fd' more IH]; intros fd pos cp L Hcfg Hwf Hk Hppp Hmem Hok Hq.
  - pose proof (zlen_nonneg (enc_field qt fd)) as Hnn.
    inversion Hok as [|? ? Hfd _]; subst.
    destruct (field_fin cp (cno L) (ppp L) (nline L) fd Hcfg Hwf Hk)
      as (_ & _ & _ & _ & _).
    unfold enc_row, enc_more in *. cbn [flat_map app] in *.
    destruct crlf; cbn [eol] in *.
    + (* CR LF *)
      apply mem_has_snoc in Hmem. destruct Hmem as (Hm1 & Hrcr & Hm2).
      apply mem_has_cons in Hm2. destruct Hm2 as [Hrlf _].
      rewrite zlen_app in *. change (zlen [CR; LF]) with 2 in *.
      destruct (field_run cp L (ppp L) fd CR Hcfg Hwf Hk eq_refl Hm1 Hfd f_cr)
        as (nl & Hrun); [congruence | lia |].
      destruct (field_fin cp (cno L) (ppp L) nl fd Hcfg Hwf Hk)
        as (Fcfg & Fwf & Fmax & Ffld & Foth).
      rewrite finish_crlf in Hrun; auto; [| |cbn [ppp]; lia].
      2:{ unfold started. apply (ensure_ok cp (cno L) Hwf Hk). exact Hcfg. }
      unfold FINROW in Hrun. cbn [lift ppp cno] in Hrun.
      eexists. split; [|split; [|split; [|split]]].
      * eapply reaches_trans; [exact Hrun|]. reach_eq.
      * cbn. unfold zlen. cbn. lia.
      * cbn. exact Fmax.
      * intros i Hi. cbn. apply Foth. lia.
      * rewrite fields_from_cons. cbn [fields_from seq map descs length].
        f_equal. exact Ffld.
    + (* LF *)
      apply mem_has_snoc in Hmem. destruct Hmem as (Hm1 & Hrlf & _).
      rewrite zlen_app in *. change (zlen [LF]) with 1 in *.
      destruct (field_run cp L (ppp L) fd LF Hcfg Hwf Hk eq_refl Hm1 Hfd f_lf)
        as (nl & Hrun); [congruence | lia |].
      destruct (field_fin cp (cno L) (ppp L) nl fd Hcfg Hwf Hk)
        as (Fcfg & Fwf & Fmax & Ffld & Foth).
      rewrite finish_lf in Hrun; auto.
      2:{ unfold started. apply (ensure_ok cp (cno L) Hwf Hk). exact Hcfg. }
      unfold FINROW in Hrun. cbn [lift ppp cno] in Hrun.
      eexists. split; [|split; [|split; [|split]]].
      * eapply reaches_trans; [exact Hrun|]. reach_eq.
      * cbn. unfold zlen. cbn. lia.
      * cbn. exact Fmax.
      * intros i Hi. cbn. apply Foth. lia.
      * rewrite fields_from_cons. cbn [fields_from seq map descs length].
        f_equal. exact Ffld.
  - pose proof (zlen_nonneg (enc_field qt fd)) as Hnn.
    pose proof (zlen_nonneg (enc_row qt dl fd' more crlf)) as Hnn'.
    inversion Hok as [|? ? Hfd Hok']; subst.
    rewrite enc_row_cons in *.
    apply mem_has_snoc in Hmem. destruct Hmem as (Hm1 & Hrdl & Hm2).
    rewrite zlen_app, zlen_cons in *.
    destruct (field_run cp L (ppp L) fd dl Hcfg Hwf Hk eq_refl Hm1 Hfd f_dl)
      as (nl & Hrun); [congruence | lia |].
    destruct (field_fin cp (cno L) (ppp L) nl fd Hcfg Hwf Hk)
      as (Fcfg & Fwf & Fmax & Ffld & Foth).
    rewrite finish_delim in Hrun; auto.
    2:{ unfold started. apply (ensure_ok cp (cno L) Hwf Hk). exact Hcfg. }
    cbn [lift ppp cno nline fldv quoted l_escptr] in Hrun.
    match type of Hrun with
    | reaches _ _ _ _ _ _ (AGoto _ ?c2 ?L2 _) =>
        destruct (IH fd' (ppp L + zlen (enc_field qt fd) + 1) c2 L2 Fcfg Fwf)
        as (c & Hr & Htop & Hmax & Hof & Hfs);
        [cbn [cno]; lia | reflexivity | exact Hm2 | exact Hok' | lia |]
    end.
    cbn [cno] in *.
    exists c. split; [|split; [|split; [|split]]].
    + eapply reaches_trans; [exact Hrun|].
      eapply reaches_trans; [exact Hr|]. reach_eq.
    + rewrite Htop, !zlen_cons. lia.
    + exact Hmax.
    + intros i Hi. rewrite Hof by lia. apply Foth. lia.
    + rewrite fields_from_cons. cbn [descs]. f_equal.
      * rewrite Hof by lia. exact Ffld.
      * exact Hfs.
Qed.
End Run.

(** ** Doubling the quotes, and squeezing them out again *)

Lemma unesc_ext qe qe' l :
  (forall b, qe b = qe' b) -> unesc qe l = unesc qe' l.
Proof.
  intros H. remember (length l) as n eqn:Hn.
  revert l Hn. induction n as [n IH] using lt_wf_ind. intros l Hn.
  destruct l as [|b t]; [reflexivity|]. cbn [unesc]. rewrite <- H.
  destruct (qe b).
  - destruct t as [|c t']; [reflexivity|]. f_equal.
    apply (IH (length t')); cbn in *; auto; lia.
  - f_equal. apply (IH (length t)); cbn in *; auto; lia.
Qed.

Lemma clean_ext qe qe' l :
  (forall b, qe b = qe' b) -> clean qe l = clean qe' l.
Proof.
  intros H. remember (length l) as n eqn:Hn.
  revert l Hn. induction n as [n IH] using lt_wf_ind. intros l Hn.
  destruct l as [|b t]; [reflexivity|]. cbn [clean]. rewrite <- H.
  f_equal. destruct (qe b).
  - destruct t as [|c t']; [reflexivity|]. f_equal.
    apply (IH (length t')); cbn in *; auto; lia.
  - apply (IH (length t)); cbn in *; auto; lia.
Qed.

Lemma led_ext es qe qe' l :
  (forall b, qe b = qe' b) -> led es qe l = led es qe' l.
Proof.
  intros H. remember (length l) as n eqn:Hn.
  revert l Hn. induction n as [n IH] using lt_wf_ind. intros l Hn.
  destruct l as [|b t]; [reflexivity|]. cbn [led]. rewrite <- H.
  destruct (qe b).
  - f_equal. destruct t as [|c t']; [reflexivity|].
    apply (IH (length t')); cbn in *; auto; lia.
  - apply (IH (length t)); cbn in *; auto; lia.
Qed.

Section Doubling.
Variable qt : byte.

Notation "'isq'" := (fun b => Byte.eqb b qt).

Lemma dbl_cons b c :
  dbl qt (b :: c) = (if Byte.eqb b qt then [qt; qt] else [b]) ++ dbl qt c.
Proof. reflexivity. Qed.

Lemma dbl_noquote c : existsb isq c = false -> dbl qt c = c.
Proof.
  induction c as [|b c IH]; [reflexivity|]. cbn [existsb]. rewrite dbl_cons.
  intros H. apply orb_false_iff in H. destruct H as [Hb Hc].
  rewrite Hb. cbn [app]. now rewrite IH.
Qed.

Lemma first_esc_none c : forall p,
  first_esc qt p c = None <-> existsb isq c = false.
Proof.
  induction c as [|b c IH]; intros p; cbn [first_esc existsb]; [tauto|].
  destruct (Byte.eqb b qt); cbn [orb]; [split; discriminate | apply IH].
Qed.

Lemma unesc_dbl c : unesc isq (dbl qt c) = c.
Proof.
  induction c as [|b c IH]; [reflexivity|]. rewrite dbl_cons.
  destruct (byte_eqb_spec b qt) as [->|Hne]; cbn [app unesc].
  - rewrite byte_eqb_refl. now rewrite IH.
  - rewrite (byte_eqb_neq b qt Hne). now rewrite IH.
Qed.

Lemma clean_dbl c :
  Forall (fun b => b <> NUL) c -> clean isq (dbl qt c) = true.
Proof.
  induction 1 as [|b c Hb Hc IH]; [reflexivity|]. rewrite dbl_cons.
  destruct (byte_eqb_spec b qt) as [->|Hne]; cbn [app clean].
  - rewrite byte_eqb_refl, (byte_eqb_neq qt NUL Hb). cbn. exact IH.
  - rewrite (byte_eqb_neq b qt Hne), (byte_eqb_neq b NUL Hb). cbn. exact IH.
Qed.

Lemma led_dbl c : led qt isq (dbl qt c) = true.
Proof.
  induction c as [|b c IH]; [reflexivity|]. rewrite dbl_cons.
  destruct (byte_eqb_spec b qt) as [->|Hne]; cbn [app led].
  - rewrite byte_eqb_refl. cbn. exact IH.
  - rewrite (byte_eqb_neq b qt Hne). exact IH.
Qed.

Lemma zlen_dbl_ge c : zlen c <= zlen (dbl qt c).
Proof.
  induction c as [|b c IH]; [reflexivity|]. rewrite dbl_cons, zlen_app, zlen_cons.
  destruct (Byte.eqb b qt); unfold zlen in *; cbn [length]; lia.
Qed.

(** The recorded escape position is the first quote of the written content. *)
Lemma first_esc_spec c : forall s e,
  first_esc qt s c = Some e ->
  s <= e < s + zlen (dbl qt c) /\
  rd (dbl qt c) (e - s) = qt /\
  forall k, s <= k < e -> Byte.eqb (rd (dbl qt c) (k - s)) qt = false.
Proof.
  induction c as [|b c IH]; intros s e; cbn [first_esc]; [discriminate|].
  rewrite dbl_cons. pose proof (zlen_nonneg (dbl qt c)) as Hnn.
  destruct (byte_eqb_spec b qt) as [->|Hne].
  - intros [= <-]. rewrite zlen_app. change (zlen [qt; qt]) with 2.
    split; [lia|]. split; [|intros; lia].
    now replace (s - s) with 0 by lia.
  - intros H. apply IH in H. destruct H as (Hr & Hq & Hbef).
    rewrite zlen_app. change (zlen [b]) with 1. split; [lia|].
    split.
    + unfold rd in *. rewrite (zget_app_r [b]) by (change (zlen [b]) with 1; lia).
      change (zlen [b]) with 1. now replace (e - s - 1) with (e - (s + 1)) by lia.
    + intros k Hk. destruct (Z.eq_dec k s) as [->|Hks].
      * replace (s - s) with 0 by lia. cbn. now apply byte_eqb_neq.
      * unfold rd in *. rewrite (zget_app_r [b]) by (change (zlen [b]) with 1; lia).
        change (zlen [b]) with 1.
        replace (k - s - 1) with (k - (s + 1)) by lia. apply Hbef. lia.
Qed.
End Doubling.

Lemma bytes_eqb_eq a : forall b, bytes_eqb a b = true <-> a = b.
Proof.
  induction a as [|x a IH]; intros [|y b]; cbn [bytes_eqb];
    try (split; [discriminate | discriminate]); [tauto|].
  rewrite andb_true_iff, IH. split.
  - intros [H ->]. destruct (byte_eqb_spec x y); congruence.
  - intros [= -> ->]. now rewrite byte_eqb_refl.
Qed.

(** ** What [touchup] makes of a written field *)

Lemma qe_of_cfg c1 cp : cfg_eq c1 cp -> qe_of c1 = qe_of cp.
Proof. intros (_ & _ & _ & _ & _ & _ & H). unfold qe_of. now rewrite H. Qed.

Lemma field_value_none cp fd :
  field_value cp fd = None <->
  existsb (fun b => Byte.eqb b (qte cp)) (snd fd) = false /\
  snd fd = cstr_of (nullstr cp).
Proof.
  unfold field_value.
  destruct (existsb _ (snd fd)).
  - split; [discriminate | intros [? _]; discriminate].
  - destruct (bytes_eqb (snd fd) (cstr_of (nullstr cp))) eqn:E.
    + apply bytes_eqb_eq in E. tauto.
    + split; [discriminate|]. intros [_ H]. apply bytes_eqb_eq in H. congruence.
Qed.

Lemma plain_noquote cp c :
  Forall (fun b => is_std_special cp b = false) c ->
  existsb (fun b => Byte.eqb b (qte cp)) c = false.
Proof.
  induction 1 as [|b c Hb _ IH]; [reflexivity|]. cbn [existsb]. rewrite IH.
  unfold is_std_special in Hb. apply orb_false_iff in Hb. destruct Hb as [Hb _].
  apply orb_false_iff in Hb. destruct Hb as [Hb _].
  apply orb_false_iff in Hb. destruct Hb as [Hb _]. now rewrite Hb.
Qed.

Lemma field_read cp c1 mem p fd :
  cfg_std cp -> cfg_eq c1 cp -> nullstrsz cp = strlen (nullstr cp) ->
  valid_field cp fd -> 0 <= p ->
  mem_has mem p (enc_field (qte cp) fd) ->
  p + zlen (enc_field (qte cp) fd) <= zlen mem ->
  let d := desc (qte cp) p fd in
  (is_null_field c1 mem d = true <-> field_value cp fd = None) /\
  text_cond c1 mem d /\
  field_text c1 mem d = snd fd /\
  exists s, fst (fst d) = Some s /\ 0 <= s.
Proof.
  intros Hstd Hcfg Hsz (Hnn & Hpl) Hp Hmem Hin. cbv zeta.
  pose proof (qe_of_cfg c1 cp Hcfg) as Hqe.
  assert (Hsz1 : nullstrsz c1 = strlen (nullstr c1)).
  { destruct Hcfg as (_ & _ & _ & -> & -> & _). exact Hsz. }
  assert (Hns : nullstr c1 = nullstr cp) by apply Hcfg.
  rewrite field_value_none.
  destruct fd as [[|] c]; unfold desc; cbn [fst snd enc_field] in *.
  - (* quoted *)
    apply mem_has_cons in Hmem. destruct Hmem as [_ Hmem].
    apply mem_has_app in Hmem. destruct Hmem as [Hmem _].
    rewrite zlen_cons, zlen_app in Hin. change (zlen [qte cp]) with 1 in Hin.
    pose proof (zlen_nonneg (dbl (qte cp) c)) as Hdn.
    split; [|split; [|split]].
    + rewrite is_null_field_iff by auto. rewrite first_esc_none, Hns.
      unfold mem_has in Hmem. rewrite Hmem.
      split; intros [Hq He]; (split; [exact Hq|]);
        rewrite (dbl_noquote _ _ Hq) in *; auto.
    + destruct (first_esc (qte cp) (p + 1) c) as [e|] eqn:He; cbn [text_cond]; auto.
      apply first_esc_spec in He. destruct He as (Hr & Hq & Hbef).
      split; [lia|]. split; [lia|].
      unfold mem_has in Hmem. rewrite Hmem, Hqe.
      split; [|split; [|split]].
      * rewrite (clean_ext _ (fun b => Byte.eqb b (qte cp)))
          by (intros; now apply qe_std).
        now apply clean_dbl.
      * rewrite (led_ext _ _ (fun b => Byte.eqb b (qte cp)))
          by (intros; now apply qe_std).
        replace (esc c1) with (qte cp)
          by (destruct Hcfg as (_ & -> & _); symmetry; apply Hstd).
        apply led_dbl.
      * rewrite qe_std by auto.
        replace e with (p + 1 + (e - (p + 1))) by lia.
        rewrite (mem_has_rd mem (p + 1) (dbl (qte cp) c)) by (auto; lia).
        rewrite Hq. apply byte_eqb_refl.
      * intros k Hk. rewrite qe_std by auto.
        replace k with (p + 1 + (k - (p + 1))) by lia.
        rewrite (mem_has_rd mem (p + 1) (dbl (qte cp) c)) by (auto; lia).
        apply Hbef. lia.
    + unfold mem_has in Hmem.
      destruct (first_esc (qte cp) (p + 1) c) as [e|] eqn:He; cbn [field_text];
        rewrite Hmem.
      * rewrite Hqe.
        rewrite (unesc_ext _ (fun b => Byte.eqb b (qte cp)))
          by (intros; now apply qe_std).
        apply unesc_dbl.
      * apply first_esc_none in He. now apply dbl_noquote.
    + exists (p + 1). split; [reflexivity | lia].
  - (* plain *)
    specialize (Hpl eq_refl). pose proof (plain_noquote cp c Hpl) as Hq.
    unfold mem_has in Hmem.
    split; [|split; [|split]].
    + rewrite is_null_field_iff by (auto; apply zlen_nonneg).
      rewrite Hmem, Hns. split; [intros [_ H]; auto | intros [_ H]; auto].
    + exact I.
    + cbn [field_text]. exact Hmem.
    + exists p. split; [reflexivity | lia].
Qed.

Lemma field_value_cases cp fd :
  field_value cp fd = None \/ field_value cp fd = Some (snd fd).
Proof.
  unfold field_value. destruct (existsb _ _); auto.
  destruct (bytes_eqb _ _); auto.
Qed.

(** Where the fields of a written row lie. *)
Lemma row_descs cp mem hi crlf more :
  forall fd pos,
    0 <= pos ->
    mem_has mem pos (enc_row (qte cp) (delim cp) fd more crlf) ->
    pos + zlen (enc_row (qte cp) (delim cp) fd more crlf) <= hi ->
    Forall (valid_field cp) (fd :: more) ->
    Forall2 (fun fd d =>
               exists p, 0 <= p /\ d = desc (qte cp) p fd /\
                         valid_field cp fd /\
                         mem_has mem p (enc_field (qte cp) fd) /\
                         p + zlen (enc_field (qte cp) fd) <= hi)
            (fd :: more) (descs (qte cp) pos (fd :: more)).
Proof.
  induction more as [|fd' more IH]; intros fd pos Hpos Hmem Hhi Hv;
    inversion Hv as [|? ? Hfd Hv']; subst;
    pose proof (zlen_nonneg (enc_field (qte cp) fd)) as Hnn.
  - cbn [descs]. constructor; [|constructor].
    unfold enc_row in *. apply mem_has_app in Hmem. destruct Hmem as [Hm _].
    rewrite zlen_app in Hhi.
    pose proof (zlen_nonneg (enc_more (qte cp) (delim cp) [] ++ eol crlf)).
    exists pos. repeat (split; auto). lia.
  - rewrite enc_row_cons in *. cbn [descs].
    pose proof (zlen_nonneg (enc_row (qte cp) (delim cp) fd' more crlf)).
    apply mem_has_snoc in Hmem. destruct Hmem as (Hm1 & _ & Hm2).
    apply mem_has_app in Hm1. destruct Hm1 as [Hm1 _].
    rewrite zlen_app, zlen_cons in Hhi.
    constructor.
    + exists pos. repeat (split; auto). lia.
    + apply IH; auto; lia.
Qed.

Lemma Forall2_nth_r {A B} (R : A -> B -> Prop) l1 l2 :
  Forall2 R l1 l2 ->
  forall k d, (k < length l2)%nat -> exists a, R a (nth k l2 d).
Proof.
  induction 1 as [|a b l1 l2 Hab _ IH]; intros k d Hk; cbn [length] in Hk;
    [lia|].
  destruct k as [|k]; cbn [nth]; [eauto|]. apply IH. lia.
Qed.

Lemma descs_length qt : forall fds pos, length (descs qt pos fds) = length fds.
Proof.
  induction fds as [|fd fds IH]; intros pos; cbn [descs length]; auto.
Qed.

(** Every field of a written row meets [text_cond]. *)
Lemma row_text_cond cp c1 mem crlf more fd b :
  cfg_std cp -> cfg_eq c1 cp -> nullstrsz cp = strlen (nullstr cp) ->
  Forall (valid_field cp) (fd :: more) -> 0 <= b ->
  mem_has mem b (enc_row (qte cp) (delim cp) fd more crlf) ->
  b + zlen (enc_row (qte cp) (delim cp) fd more crlf) <= zlen mem ->
  fields_from c1 0 (S (length more)) = descs (qte cp) b (fd :: more) ->
  fldtop c1 = 1 + zlen more ->
  forall i, 0 <= i < fldtop c1 -> text_cond c1 mem (field_at c1 i).
Proof.
  intros Hstd Hcfg Hsz Hv Hb Hmem Hin Hfs Htop i Hi.
  pose proof (row_descs cp mem (zlen mem) crlf more fd b Hb Hmem Hin Hv) as HF.
  assert (Hk : (Z.to_nat i < S (length more))%nat)
    by (unfold zlen in Htop; lia).
  pose proof (fields_from_nth c1 0 _ _ Hk) as Hn.
  rewrite Hfs, Z2Nat.id in Hn by lia. cbn [Z.add] in Hn.
  destruct (Forall2_nth_r _ _ _ HF (Z.to_nat i) (None, 0, None))
    as (a & p & Hp & Hd & Ha & Hm & Hle).
  { rewrite descs_length. cbn [length]. exact Hk. }
  rewrite <- Hn, Hd.
  now destruct (field_read cp c1 mem p a Hstd Hcfg Hsz Ha Hp Hm Hle)
    as (_ & Htc & _).
Qed.

(** ** Reading the row through the field array *)

Lemma firstn_zget {A} (d : A) (l : list A) : forall n,
  (n <= length l)%nat ->
  firstn n l = map (fun i => zget l (Z.of_nat i) d) (seq 0 n).
Proof.
  induction l as [|x l IH]; intros [|n] Hn; cbn [length] in Hn;
    try reflexivity; [lia|].
  cbn [firstn seq map]. f_equal.
  rewrite IH by lia. rewrite <- seq_shift, map_map. apply map_ext.
  intros i. unfold zget.
  destruct (Z.ltb_spec (Z.of_nat i) 0); [lia|].
  destruct (Z.ltb_spec (Z.of_nat (S i)) 0); [lia|].
  rewrite !Nat2Z.id. reflexivity.
Qed.

Lemma map_seq_eq {A B C} (R : A -> C -> Prop) (G : nat -> B) (V : A -> B)
      (D : nat -> C) (n : nat) (fds : list A) :
  forall i,
    Forall2 R fds (map D (seq i (length fds))) ->
    (forall k a, R a (D k) -> (k < n)%nat -> G k = V a) ->
    (i + length fds <= n)%nat ->
    map G (seq i (length fds)) = map V fds.
Proof.
  induction fds as [|a fds IH]; intros i HR HG Hn; [reflexivity|].
  cbn [length seq map] in *. inversion HR; subst.
  f_equal; [apply HG; auto; lia|]. apply IH; auto. lia.
Qed.

Lemma touchup_field_fldlen cp mem i cp1 mem1 :
  touchup_field cp mem i = Some (cp1, mem1) -> zlen (fld cp1) = zlen (fld cp).
Proof.
  unfold touchup_field.
  destruct (zget (fld cp) i None) as [p|]; [|discriminate].
  destruct (zget (escptr cp) i None) as [e|].
  - destruct (negb _); [discriminate|]. destruct (negb _); [discriminate|].
    destruct (squeeze _ _ _ _ _ _) as [[m s]|]; [|discriminate].
    now intros [= <- _].
  - destruct (_ && _); intros [= <- _]; [|reflexivity].
    cbn. apply zlen_zset.
Qed.

Lemma touchup_loop_fldlen n :
  forall i cp mem cp' mem',
    touchup_loop n i cp mem = Some (cp', mem') -> zlen (fld cp') = zlen (fld cp).
Proof.
  induction n as [|n IH]; intros i cp mem cp' mem'; cbn [touchup_loop].
  - now intros [= <- _].
  - destruct (touchup_field cp mem i) as [[cp1 mem1]|] eqn:E; [|discriminate].
    intros H. apply IH in H. apply touchup_field_fldlen in E. congruence.
Qed.

Lemma zlen_enc_row qt dl fd more crlf : 0 < zlen (enc_row qt dl fd more crlf).
Proof.
  unfold enc_row. rewrite !zlen_app.
  pose proof (zlen_nonneg (enc_field qt fd)).
  pose proof (zlen_nonneg (enc_more qt dl more)).
  destruct crlf; unfold zlen at 3; cbn; lia.
Qed.

(** ** [csv_line] on a written row *)

Lemma csv_line_row alloc_ok cp mem b bufsz fd more crlf :
  cfg_std cp -> cp_wf cp -> (forall n, alloc_ok n = true) ->
  Forall (valid_field cp) (fd :: more) ->
  mem_has mem b (enc_row (qte cp) (delim cp) fd more crlf) ->
  zlen (enc_row (qte cp) (delim cp) fd more crlf) <= bufsz ->
  exists c1,
    csv_line alloc_ok cp mem (Some b) bufsz
    = Some (zlen (enc_row (qte cp) (delim cp) fd more crlf), c1) /\
    fldtop c1 = 1 + zlen more /\
    fldtop c1 <= fldmax c1 /\
    fields_from c1 0 (S (length more))
    = descs (qte cp) b (fd :: more).
Proof.
  intros Hstd Hwf Halloc Hv Hmem Hsz.
  pose proof (zlen_enc_row (qte cp) (delim cp) fd more crlf) as Hpos.
  assert (Hgt : 0 < bufsz) by lia.
  pose proof Hstd as (He & _ & _ & _ & Hqd & Hqc & Hql & Hdc & Hdl).
  destruct (row_run alloc_ok (sp_of (scan cp)) mem b (b + bufsz)
              (qte cp) (delim cp)
              ltac:(intros x; rewrite sp_std by auto; reflexivity)
              Hqd Hqc Hql Hdc Hdl Halloc crlf more fd b (erase cp)
              {| ppp := b; cno := 0; nline := 0; fldv := b;
                 quoted := false; l_escptr := None |})
    as (c & Hr & Htop & Hmax & _ & Hfs); auto.
  { repeat split; auto. }
  { cbn [cno]. change (fldmax (erase cp)) with (fldmax cp). destruct Hwf. lia. }
  { eapply Forall_impl; [|exact Hv]. intros a [_ Ha] Hq.
    eapply Forall_impl; [|exact (Ha Hq)]. intros x Hx.
    now rewrite sp_std. }
  { lia. }
  cbn [cno] in *.
  pose proof (csv_line_aline alloc_ok cp mem b bufsz Hgt) as Hsim.
  destruct (csv_line_total alloc_ok cp mem (Some b) bufsz) as (r' & c' & Hline).
  destruct (aline alloc_ok cp mem b bufsz) as [[r ca]|] eqn:Ha;
    [|congruence].
  destruct Hsim as (c1 & Hc1 & Her).
  unfold aline in Ha.
  pose proof (reaches_result _ _ _ _ _ _ _ _ _ _ Hr Ha) as Hx.
  injection Hx as -> ->.
  exists c1. split; [rewrite Hc1; f_equal; f_equal; lia|].
  rewrite <- Her in Htop, Hmax, Hfs.
  split; [exact Htop|]. split; [exact Hmax|]. exact Hfs.
Qed.

(** * The claims *)

Lemma open_default_eq : open_default = Some default_cp.
Proof. reflexivity. Qed.

Lemma default_cp_wf : cp_wf default_cp.
Proof. unfold cp_wf; cbn. lia. Qed.

(** ** Running counters *)

(** C6: every call of [csv_line] returns; the running counters (line
    number, character offset, row number, field number) change exactly when
    the call reports a completed row ([r > 0]), in which case the row number
    grows by one, the character offset by [r] and the line number by at
    least one; a call that returns 0 leaves the whole [state] record as it
    was. *)
Theorem csv_line_counters alloc_ok cp mem buf bufsz :
  exists r c,
    csv_line alloc_ok cp mem buf bufsz = Some (r, c) /\
    (r = 0 -> state c = state cp) /\
    (r <= 0 -> counters c = counters cp) /\
    (0 < r ->
     rownum (state c) = rownum (state cp) + 1 /\
     charnum (state c) = charnum (state cp) + r /\
     linenum (state cp) < linenum (state c) /\
     fldnum (state c) = fldnum (state cp)) /\
    (0 < r <-> counters c <> counters cp).
Proof.
  destruct (csv_line_total alloc_ok cp mem buf bufsz) as (r & c & Hline).
  exists r, c. split; [exact Hline|].
  assert (Hcases :
            (r <= 0 /\ counters c = counters cp /\ (r = 0 -> state c = state cp))
            \/ (0 < r /\ exists nl, 0 <= nl /\ state c = advance (state cp) nl r)).
  { assert (Hbad : forall z,
               Some (if z =? 0 then (0, cp)
                     else reterr cp CSV_EPARAM "bad bufsz" 0 0 0) = Some (r, c) ->
               r <= 0 /\ counters c = counters cp /\ (r = 0 -> state c = state cp)).
    { intros z. unfold reterr. destruct (z =? 0); intros [= <- <-].
      - repeat split; auto; lia.
      - repeat split; auto; try lia. }
    destruct buf as [b|]; [|left; exact (Hbad _ Hline)].
    destruct (Z.leb_spec bufsz 0) as [Hle|Hgt].
    - unfold csv_line in Hline. destruct (Z.leb_spec bufsz 0); [|lia].
      left; exact (Hbad _ Hline).
    - pose proof (csv_line_post alloc_ok cp mem b bufsz r c Hgt Hline)
        as (_ & Hr & H0 & Hm1 & Hpos & _).
      destruct Hr as [->|[->|Hr]].
      + left. rewrite (H0 eq_refl). unfold counters.
        rewrite (H0 eq_refl). repeat split; auto; lia.
      + left. destruct (Hm1 eq_refl) as [Hc _]. repeat split; auto; lia.
      + right. split; [lia|]. apply Hpos. lia. }
  destruct Hcases as [(Hle & Hc & H0)|(Hgt & nl & Hnl & Hst)].
  - split; [exact H0|]. split; [auto|]. split; [intros; lia|].
    split; [intros; lia | intros Hne; congruence].
  - split; [intros; lia|]. split; [intros; lia|].
    unfold counters. rewrite Hst. unfold advance; cbn.
    split; [intros _; repeat split; lia|].
    split; [intros _|auto].
    intros [= H1 H2 H3]. lia.
Qed.

(** ** Field count *)

(** C10: whenever [csv_feed] returns a positive byte count, the field count
    it hands back is at least 1, and it is the parser's [fldtop]. *)
Theorem csv_feed_nfield alloc_ok cp mem buf bufsz r
        (Hfeed : csv_feed alloc_ok cp mem buf bufsz = Some r)
        (Hpos : 0 < f_ret r) :
  1 <= f_nfield r /\ f_nfield r = fldtop (f_cp r) /\
  f_field r = Some (fld (f_cp r)).
Proof.
  unfold csv_feed in Hfeed.
  destruct (csv_line alloc_ok cp mem buf bufsz) as [[rowsz c1]|] eqn:Hline;
    [|discriminate].
  destruct (Z.leb_spec rowsz 0) as [Hle|Hgt].
  - injection Hfeed as <-. cbn in Hpos. lia.
  - destruct (touchup c1 mem) as [[c2 mem']|] eqn:Ht; [|discriminate].
    injection Hfeed as <-. cbn [f_nfield f_cp f_field].
    split; [|auto].
    apply touchup_loop_same in Ht. rewrite (same_but_fld_fldtop _ _ Ht).
    destruct buf as [b|].
    + destruct (Z.leb_spec bufsz 0) as [Hb|Hb].
      * unfold csv_line, reterr in Hline. destruct (Z.leb_spec bufsz 0); [|lia].
        destruct (bufsz =? 0); injection Hline; lia.
      * pose proof (csv_line_post alloc_ok cp mem b bufsz rowsz c1 Hb Hline)
          as (_ & _ & _ & _ & Hp & _).
        now apply Hp.
    + unfold csv_line, reterr in Hline.
      destruct (bufsz =? 0); injection Hline; lia.
Qed.

(** The row made of a lone LF: one field, of length zero. *)
Lemma csv_feed_nfield_witness :
  exists r,
    csv_feed always_ok default_cp [LF] (Some 0) 1 = Some r /\
    f_ret r = 1 /\ 1 <= f_nfield r /\ f_nfield r = 1 /\
    zget (len (f_cp r)) 0 0 = 0.
Proof.
  eexists. split; [vm_compute; reflexivity|].
  split; [reflexivity|].
  split; [|split; reflexivity].
  refine (proj1 (csv_feed_nfield always_ok default_cp [LF] (Some 0) 1 _ _ _)).
  - vm_compute; reflexivity.
  - vm_compute; reflexivity.
Defined.

(** ** The buffer is written by [touchup] only *)

(** What [csv_feed] does with the caller's block. *)
Lemma csv_feed_block alloc_ok cp mem b bufsz r
        (Hwf : cp_wf cp)
        (Hfeed : csv_feed alloc_ok cp mem (Some b) bufsz = Some r) :
  exists rowsz c1,
    csv_line alloc_ok cp mem (Some b) bufsz = Some (rowsz, c1) /\
    f_ret r = rowsz /\
    (rowsz <= 0 -> f_mem r = mem /\ f_cp r = c1) /\
    (0 < rowsz -> touchup c1 mem = Some (f_cp r, f_mem r)) /\
    zlen (f_mem r) = zlen mem /\
    (forall k, k < b \/ b + rowsz <= k -> rd (f_mem r) k = rd mem k).
Proof.
  destruct (csv_line_total alloc_ok cp mem (Some b) bufsz) as (rowsz & c1 & Hline).
  exists rowsz, c1. split; [exact Hline|].
  destruct (Z.leb_spec rowsz 0) as [Hle|Hgt].
  - unfold csv_feed in Hfeed. rewrite Hline in Hfeed.
    destruct (Z.leb_spec rowsz 0); [|lia].
    injection Hfeed as <-. cbn. repeat split; auto; lia.
  - pose proof (csv_line_row_bufsz _ _ _ _ _ _ _ Hline Hgt) as Hsz.
    destruct (csv_feed_inv _ _ _ _ _ _ Hfeed) as (r' & c' & Hline' & _ & _ & Ht).
    rewrite Hline in Hline'. injection Hline' as <- <-.
    specialize (Ht Hgt).
    destruct (csv_feed_row_inv alloc_ok cp mem b bufsz rowsz c1 _ _
                               Hwf Hsz Hline Hgt Ht)
      as (Hf & _ & Hlen & Hfr & _).
    rewrite Hf in Hfeed. injection Hfeed as <-. cbn.
    repeat split; auto; lia.
Qed.

(** C7: [csv_line] takes the buffer as an input only; [csv_feed] hands the
    caller's block to [touchup] exactly as it received it, returns it
    untouched when no row was completed (Incomplete or error), and after a
    completed row of [rowsz] bytes every byte outside [[buf, buf+rowsz)] is
    as before. *)
Theorem csv_feed_buffer alloc_ok cp mem b bufsz r
        (Hwf : cp_wf cp)
        (Hfeed : csv_feed alloc_ok cp mem (Some b) bufsz = Some r) :
  exists rowsz c1,
    csv_line alloc_ok cp mem (Some b) bufsz = Some (rowsz, c1) /\
    f_ret r = rowsz /\
    (rowsz <= 0 -> f_mem r = mem /\ f_cp r = c1) /\
    (0 < rowsz -> touchup c1 mem = Some (f_cp r, f_mem r)) /\
    zlen (f_mem r) = zlen mem /\
    (forall k, k < b \/ b + rowsz <= k -> rd (f_mem r) k = rd mem k).
Proof. exact (csv_feed_block alloc_ok cp mem b bufsz r Hwf Hfeed). Qed.

(** The row [a,b] is finalized in place: both terminators become NULs. *)
Lemma csv_feed_buffer_witness :
  exists r,
    csv_feed always_ok default_cp (txt "a,b" ++ [LF]) (Some 0) 4 = Some r /\
    f_mem r = txt "a" ++ [NUL] ++ txt "b" ++ [NUL] /\
    exists rowsz c1,
      csv_line always_ok default_cp (txt "a,b" ++ [LF]) (Some 0) 4
      = Some (rowsz, c1) /\
      f_ret r = rowsz /\
      (rowsz <= 0 -> f_mem r = txt "a,b" ++ [LF] /\ f_cp r = c1) /\
      (0 < rowsz -> touchup c1 (txt "a,b" ++ [LF]) = Some (f_cp r, f_mem r)) /\
      zlen (f_mem r) = zlen (txt "a,b" ++ [LF]) /\
      (forall k, k < 0 \/ 0 + rowsz <= k ->
                 rd (f_mem r) k = rd (txt "a,b" ++ [LF]) k).
Proof.
  eexists. split; [vm_compute; reflexivity|].
  split; [reflexivity|].
  refine (csv_feed_buffer always_ok default_cp (txt "a,b" ++ [LF]) 0 4 _
                          default_cp_wf _).
  vm_compute; reflexivity.
Defined.

(** ** The null marker *)

(** C3 (as amended): after [csv_feed] has finalized a row, field [i] is the
    null value exactly when no escape position was recorded for it and its
    bytes equal the configured null marker; otherwise it still points at its
    first byte.  With an empty marker this makes the null fields exactly the
    empty fields without escape position: every non-empty field is a
    non-null string, every such empty field is null. *)
Theorem touchup_null_marker alloc_ok cp mem b bufsz r
        (Hwf : cp_wf cp)
        (Hsz : nullstrsz cp = strlen (nullstr cp))
        (Hfeed : csv_feed alloc_ok cp mem (Some b) bufsz = Some r)
        (Hpos : 0 < f_ret r) :
  exists c1,
    csv_line alloc_ok cp mem (Some b) bufsz = Some (f_ret r, c1) /\
    f_nfield r = fldtop c1 /\ f_field r = Some (fld (f_cp r)) /\
    forall i, 0 <= i < f_nfield r ->
      exists s l,
        zget (fld c1) i None = Some s /\ zget (len c1) i 0 = l /\ 0 <= l /\
        (zget (fld (f_cp r)) i None = None <->
         zget (escptr c1) i None = None /\
         memcpy_from mem s l = cstr_of (nullstr cp)) /\
        (zget (fld (f_cp r)) i None <> None ->
         zget (fld (f_cp r)) i None = Some s) /\
        (cstr_of (nullstr cp) = [] ->
         (zget (fld (f_cp r)) i None = None <->
          zget (escptr c1) i None = None /\ l = 0)).
Proof.
  destruct (csv_feed_block alloc_ok cp mem b bufsz r Hwf Hfeed)
    as (rowsz & c1 & Hline & Hret & _).
  subst rowsz. exists c1. split; [exact Hline|].
  assert (Hbsz : 0 < bufsz).
  { destruct (Z.leb_spec bufsz 0) as [Hb|]; auto.
    unfold csv_line, reterr in Hline. destruct (Z.leb_spec bufsz 0); [|lia].
    destruct (bufsz =? 0); injection Hline; lia. }
  destruct (csv_feed_inv _ _ _ _ _ _ Hfeed) as (r' & c' & Hline' & _ & _ & Ht).
  rewrite Hline in Hline'. injection Hline' as <- <-.
  specialize (Ht Hpos).
  destruct (csv_feed_row_inv alloc_ok cp mem b bufsz _ c1 _ _
                             Hwf Hbsz Hline Hpos Ht)
    as (Hf & Htop & Hlen & Hfr & Hsame & Hper).
  rewrite Hf in Hfeed. injection Hfeed as Hr.
  pose proof (csv_line_post alloc_ok cp mem b bufsz _ c1 Hbsz Hline)
    as (Hcfg & _ & _ & _ & _ & Hpost).
  destruct (Hpost Hwf) as [Hwf1 Hch]. specialize (Hch Hpos).
  destruct Hcfg as (_ & _ & _ & Hns & Hnsz & _).
  rewrite <- Hr. cbn [f_nfield f_field f_cp].
  split; [exact Htop|]. split; [reflexivity|].
  intros i Hi. rewrite Htop in Hi.
  destruct (chain_nth _ _ _ (Z.to_nat i) Hch) as (s & l & e & Hn & Hs & Hl & Hh & He).
  { rewrite fields_of_length. lia. }
  unfold fields_of in Hn.
  rewrite (nth_map_seq (fun k => field_at c1 (Z.of_nat k))) in Hn by lia.
  rewrite Z2Nat.id in Hn by lia.
  destruct (Hper i Hi) as [Hz _]. cbv zeta in Hz. rewrite Hn in Hz.
  cbn [fst] in Hz.
  unfold field_at in Hn. injection Hn as Hfs Hfl Hfe.
  assert (Hnull : is_null_field c1 mem (Some s, l, e) = true <->
                  e = None /\ memcpy_from mem s l = cstr_of (nullstr cp)).
  { rewrite <- Hns. apply is_null_field_iff; auto. congruence. }
  exists s, l. split; [exact Hfs|]. split; [exact Hfl|]. split; [exact Hl|].
  rewrite Hfe, Hz.
  destruct (is_null_field c1 mem (Some s, l, e)) eqn:E.
  - destruct (proj1 Hnull eq_refl) as [He0 Hm].
    split; [tauto|]. split; [congruence|].
    intros Hemp. split; [|tauto]. intros _. split; [exact He0|].
    rewrite Hemp in Hm.
    apply (f_equal (@length _)) in Hm. rewrite memcpy_from_length in Hm.
    cbn in Hm. lia.
  - split; [|split; [auto|]].
    + split; [discriminate|]. intros H. apply Hnull in H. discriminate.
    + intros Hemp. split; [discriminate|]. intros [He0 Hl0].
      assert (Habs : false = true); [|discriminate].
      apply Hnull. split; [exact He0|]. rewrite Hemp, Hl0.
      now rewrite memcpy_from_nil by lia.
Qed.

Lemma null_cp_wf : cp_wf null_cp.
Proof. unfold cp_wf; cbn. lia. Qed.

(** With the marker [NULL], the row [NULL,x] has a null first field. *)
Lemma touchup_null_marker_witness :
  exists r,
    csv_feed always_ok null_cp (txt "NULL,x" ++ [LF]) (Some 0) 7 = Some r /\
    feed_row r = [None; Some (txt "x")] /\
    exists c1,
      csv_line always_ok null_cp (txt "NULL,x" ++ [LF]) (Some 0) 7
      = Some (f_ret r, c1) /\
      f_nfield r = fldtop c1 /\ f_field r = Some (fld (f_cp r)) /\
      forall i, 0 <= i < f_nfield r ->
        exists s l,
          zget (fld c1) i None = Some s /\ zget (len c1) i 0 = l /\ 0 <= l /\
          (zget (fld (f_cp r)) i None = None <->
           zget (escptr c1) i None = None /\
           memcpy_from (txt "NULL,x" ++ [LF]) s l = cstr_of (nullstr null_cp)) /\
          (zget (fld (f_cp r)) i None <> None ->
           zget (fld (f_cp r)) i None = Some s) /\
          (cstr_of (nullstr null_cp) = [] ->
           (zget (fld (f_cp r)) i None = None <->
            zget (escptr c1) i None = None /\ l = 0)).
Proof.
  eexists. split; [vm_compute; reflexivity|].
  split; [reflexivity|].
  refine (touchup_null_marker always_ok null_cp (txt "NULL,x" ++ [LF]) 0 7 _
                              null_cp_wf _ _ _).
  - reflexivity.
  - vm_compute; reflexivity.
  - reflexivity.
Defined.

(** With the empty marker of the default configuration, the empty middle
    field of [a,,b] is the null value, not a string. *)
Lemma empty_marker_null_field :
  cstr_of (nullstr default_cp) = [] /\
  feed_view (csv_feed always_ok default_cp (txt "a,,b" ++ [LF]) (Some 0) 5)
  = Some (5, [Some (txt "a"); None; Some (txt "b")]).
Proof. split; reflexivity. Qed.

(** ** The end-of-stream path *)

Lemma set_lastbuf_wf cp b : cp_wf cp -> cp_wf (set_lastbuf cp b).
Proof. unfold cp_wf; cbn; auto. Qed.

Lemma csv_feed_fldmem alloc_ok cp mem buf bufsz r :
  csv_feed alloc_ok cp mem buf bufsz = Some r -> f_fldmem r = f_mem r.
Proof.
  unfold csv_feed.
  destruct (csv_line alloc_ok cp mem buf bufsz) as [[rowsz c1]|]; [|discriminate].
  destruct (rowsz <=? 0); [now intros [= <-]|].
  destruct (touchup c1 mem) as [[c2 mem']|]; [|discriminate].
  now intros [= <-].
Qed.

(** ** [csv_open] and the null marker *)

Lemma rd_firstn n l j : 0 <= j < Z.of_nat n -> rd (firstn n l) j = rd l j.
Proof.
  intros Hj. unfold rd, zget. destruct (Z.ltb_spec j 0); [lia|].
  rewrite nth_firstn. destruct (Nat.ltb_spec (Z.to_nat j) n); [reflexivity|lia].
Qed.

Lemma rd_repeat_nul k j : rd (repeat NUL k) j = NUL.
Proof.
  unfold rd, zget. destruct (j <? 0); auto. apply nth_repeat.
Qed.

Lemma rd_strncpy src j :
  0 <= j < 20 -> rd (strncpy src 20) j = rd (cstr_of src) j.
Proof.
  intros Hj. unfold strncpy.
  set (c := cstr_of src).
  assert (Hlen : zlen (firstn 20 c) = Z.min 20 (zlen c))
    by (unfold zlen; rewrite length_firstn; lia).
  destruct (Z.lt_ge_cases j (zlen (firstn 20 c))) as [Hlt|Hge].
  - unfold rd at 1. rewrite zget_app_l by lia. apply rd_firstn. lia.
  - unfold rd at 1. rewrite zget_app_r by lia.
    fold (rd (repeat NUL (20 - length (firstn 20 c))) (j - zlen (firstn 20 c))).
    rewrite rd_repeat_nul. symmetry. apply rd_outside. lia.
Qed.

Lemma strncpy_length src : zlen (strncpy src 20) = 20.
Proof.
  unfold strncpy, zlen. rewrite length_app, repeat_length, length_firstn. lia.
Qed.

(** C9: the parser [csv_open] returns stores the first 19 bytes of the
    null-marker argument (read as a C string) at most: its 20-byte array
    ends in a NUL, the string it holds is the argument cut to 19 bytes, and
    [nullstrsz] is the length of that stored string. *)
Theorem csv_open_nullstr alloc_ok q e d arg cp
        (Hopen : csv_open alloc_ok q e d arg = Some cp) :
  let src := match arg with Some s => s | None => [] end in
  zlen (nullstr cp) = 20 /\
  rd (nullstr cp) 19 = NUL /\
  cstr_of (nullstr cp) = firstn 19 (cstr_of src) /\
  nullstrsz cp = zlen (cstr_of (nullstr cp)) /\
  nullstrsz cp <= 19 /\
  (zlen (cstr_of src) <= 19 -> cstr_of (nullstr cp) = cstr_of src).
Proof.
  intros src. unfold csv_open in Hopen.
  destruct (negb (alloc_ok sizeof_csv_parse_t)); [discriminate|].
  injection Hopen as <-. cbn [nullstr nullstrsz].
  fold src. set (ns := zset (strncpy src 20) 19 NUL).
  set (c := cstr_of src).
  assert (Hlen : zlen ns = 20) by (unfold ns; now rewrite zlen_zset, strncpy_length).
  assert (Hrd : forall j, 0 <= j < 20 ->
                          rd ns j = if j =? 19 then NUL else rd c j).
  { intros j Hj. unfold ns, rd at 1. rewrite zget_zset, strncpy_length.
    destruct (Z.eqb_spec 19 j) as [<-|Hne]; cbn.
    - reflexivity.
    - destruct (Z.eqb_spec j 19); [lia|]. now apply rd_strncpy. }
  set (n := Z.min 19 (zlen c)).
  pose proof (zlen_nonneg c) as Hc0.
  assert (Hstr : cstr_of ns = firstn 19 c).
  { rewrite cstr_of_cstring.
    rewrite (cstring_spec ns 0 n); try lia.
    - transitivity (memcpy_from c 0 n).
      + apply memcpy_from_ext. intros j Hj. rewrite Hrd by lia.
        destruct (Z.eqb_spec (0 + j) 19); [lia|reflexivity].
      + rewrite memcpy_from_firstn by lia.
        destruct (Z.le_gt_cases (zlen c) 19).
        * rewrite !firstn_all2; auto; unfold zlen in *; lia.
        * f_equal. lia.
    - intros j Hj. rewrite Hrd by lia.
      destruct (Z.eqb_spec (0 + j) 19); [lia|].
      apply (cstr_of_nonul src). apply rd_in. fold c. lia.
    - rewrite Hrd by lia. destruct (Z.eqb_spec (0 + n) 19); [reflexivity|].
      apply rd_outside. lia. }
  split; [exact Hlen|].
  split; [rewrite Hrd by lia; reflexivity|].
  split; [exact Hstr|].
  split; [reflexivity|].
  split.
  - unfold strlen. rewrite Hstr. unfold zlen. rewrite length_firstn. lia.
  - intros Hle. rewrite Hstr. apply firstn_all2. unfold zlen in Hle. lia.
Qed.

(** A 24-byte marker is cut to its first 19 bytes. *)
Lemma csv_open_nullstr_witness :
  exists cp,
    csv_open always_ok 0 0 0 (Some (txt "abcdefghijklmnopqrstuvwx")) = Some cp /\
    cstr_of (nullstr cp) = txt "abcdefghijklmnopqrs" /\
    nullstrsz cp = 19 /\
    let src := txt "abcdefghijklmnopqrstuvwx" in
    zlen (nullstr cp) = 20 /\
    rd (nullstr cp) 19 = NUL /\
    cstr_of (nullstr cp) = firstn 19 (cstr_of src) /\
    nullstrsz cp = zlen (cstr_of (nullstr cp)) /\
    nullstrsz cp <= 19 /\
    (zlen (cstr_of src) <= 19 -> cstr_of (nullstr cp) = cstr_of src).
Proof.
  eexists. split; [vm_compute; reflexivity|].
  split; [reflexivity|]. split; [reflexivity|].
  refine (csv_open_nullstr always_ok 0 0 0
                           (Some (txt "abcdefghijklmnopqrstuvwx")) _ _).
  vm_compute; reflexivity.
Defined.

(** ** A CR at the end of the buffer *)

(** C2 (the code at the failing input): the buffer [a] CR holds no complete
    row, its CR is the last available byte -- yet [csv_line] does not return
    0: it returns -1 with [CSV_ECRLF], the error offset just past the CR. *)
Theorem csv_line_cr_at_end :
  line_view (csv_line always_ok default_cp (txt "a" ++ [CR]) (Some 0) 2)
  = Some (-1, Some CSV_ECRLF, 2) /\
  line_view (csv_line always_ok default_cp (txt "a" ++ [CR; LF]) (Some 0) 3)
  = Some (3, None, 0) /\
  line_view (csv_line always_ok default_cp (txt "a") (Some 0) 1)
  = Some (0, None, 0).
Proof. repeat split; reflexivity. Qed.

(** C1 (the code at the failing input): the two rows [a] CRLF [b,c] CRLF fed
    in one chunk come out as two rows; split after the first CR, the driver
    stops with [CSV_ECRLF] and delivers no row; split elsewhere it delivers
    both. *)
Theorem csv_scan_split_at_cr :
  let input := txt "a" ++ [CR; LF] ++ txt "b,c" ++ [CR; LF] in
  scan_view (scan_chunks always_ok [input])
  = Some (0, [[Some (txt "a")]; [Some (txt "b"); Some (txt "c")]], []) /\
  scan_view (scan_chunks always_ok [firstn 2 input; skipn 2 input])
  = Some (-1, [], [Some CSV_ECRLF]) /\
  scan_view (scan_chunks always_ok [firstn 4 input; skipn 4 input])
  = Some (0, [[Some (txt "a")]; [Some (txt "b"); Some (txt "c")]], []).
Proof. repeat split; vm_compute; reflexivity. Qed.

(** ** Writing a row and reading it back *)

(** C8 (amended).  With the escape equal to the quote, a row written with
    [enc_row] (each field plain or between quotes with its quote bytes
    doubled, the contents free of NUL bytes and the plain ones free of
    special bytes) is read back by [csv_feed] in one call: the call consumes
    exactly the row, and every field comes back as its original content,
    doubled quotes collapsed and delimiters and line ends inside quotes
    kept, except that a content without quote byte that equals the null
    marker comes back as the null value. *)
Theorem csv_feed_roundtrip alloc_ok cp pre rest bufsz fd more crlf :
  cfg_std cp -> cp_wf cp -> nullstrsz cp = strlen (nullstr cp) ->
  (forall n, alloc_ok n = true) ->
  Forall (valid_field cp) (fd :: more) ->
  let row := enc_row (qte cp) (delim cp) fd more crlf in
  zlen row <= bufsz <= zlen row + zlen rest ->
  exists r,
    csv_feed alloc_ok cp (pre ++ row ++ rest) (Some (zlen pre)) bufsz = Some r /\
    f_ret r = zlen row /\
    feed_row r = map (field_value cp) (fd :: more).
Proof.
  intros Hstd Hwf Hsz Halloc Hv row Hb.
  set (mem := pre ++ row ++ rest).
  pose proof (mem_has_middle pre row rest) as Hmem. fold mem in Hmem.
  pose proof (zlen_enc_row (qte cp) (delim cp) fd more crlf) as Hpos.
  fold row in Hpos.
  assert (Hgt : 0 < bufsz) by lia.
  destruct (csv_line_row alloc_ok cp mem (zlen pre) bufsz fd more crlf
              Hstd Hwf Halloc Hv Hmem ltac:(fold row; lia))
    as (c1 & Hline & Htop & Hmax & Hfs).
  fold row in Hline.
  pose proof (csv_line_post alloc_ok cp mem (zlen pre) bufsz (zlen row) c1 Hgt Hline)
    as (Hcfg & _ & _ & _ & _ & Hpost).
  destruct (Hpost Hwf) as [(_ & Hwf1 & _) _].
  assert (Hin : zlen pre + zlen row <= zlen mem).
  { unfold mem. rewrite !zlen_app. pose proof (zlen_nonneg rest). lia. }
  destruct (csv_feed_row alloc_ok cp mem (zlen pre) bufsz (zlen row) c1
              Hwf Hgt Hline Hpos)
    as (c2 & mem' & Htu & Hfeed & Htop2 & Hlen & Hfr & Hsame & Hper).
  { apply (row_text_cond cp c1 mem crlf more fd (zlen pre)); auto.
    apply zlen_nonneg. }
  clear Hin.
  eexists. split; [exact Hfeed|]. split; [reflexivity|].
  unfold feed_row, row_of. cbn [f_fldmem f_field f_nfield].
  pose proof (zlen_nonneg more) as Hmn.
  assert (Hn : Z.to_nat (fldtop c2) = length (fd :: more)).
  { rewrite Htop2, Htop. unfold zlen. cbn [length]. lia. }
  rewrite Hn.
  unfold touchup in Htu. apply touchup_loop_fldlen in Htu.
  rewrite (firstn_zget None)
    by (unfold zlen in *; cbn [length] in *; lia).
  rewrite map_map.
  apply (map_seq_eq
           (fun a d => exists p, 0 <= p /\ d = desc (qte cp) p a /\
                                 valid_field cp a /\
                                 mem_has mem p (enc_field (qte cp) a) /\
                                 p + zlen (enc_field (qte cp) a) <= zlen mem)
           _ (field_value cp)
           (fun k => field_at c1 (0 + Z.of_nat k))
           (length (fd :: more))).
  - change (map (fun k => field_at c1 (0 + Z.of_nat k))
                (seq 0 (length (fd :: more))))
      with (fields_from c1 0 (S (length more))).
    rewrite Hfs.
    apply (row_descs cp mem (zlen mem) crlf more fd (zlen pre));
      auto; [apply zlen_nonneg|].
    fold row. unfold mem. rewrite !zlen_app.
    pose proof (zlen_nonneg rest). lia.
  - intros k a (p & Hp & Hd & Ha & Hm & Hin) Hk.
    destruct (Hper (Z.of_nat k)) as [Hfld Htxt].
    { rewrite Htop. unfold zlen. cbn [length] in *. lia. }
    cbv zeta in Hfld, Htxt. cbn [Z.add] in Hd. rewrite Hd in Hfld, Htxt.
    destruct (field_read cp c1 mem p a Hstd Hcfg Hsz Ha Hp Hm Hin)
      as (Hnull & Htc & Hft & s & Hs & Hs0).
    cbv zeta in Hnull, Htc, Hft, Hs. rewrite Hfld.
    destruct (is_null_field c1 mem (desc (qte cp) p a)) eqn:En.
    + symmetry. now apply Hnull.
    + rewrite Hs. cbn [option_map].
      destruct (field_value_cases cp a) as [Hv0|Hv1].
      * apply Hnull in Hv0. congruence.
      * rewrite Hv1. f_equal.
        specialize (Htxt Htc s Hs). rewrite Hft in Htxt.
        apply field_done_cstring; auto.
        destruct Ha as [Hnn _]. rewrite Forall_forall in Hnn. exact Hnn.
  - cbn [Nat.add]. lia.
Qed.

(** The row of the spec, a quoted [a], quote, [b] followed by a plain [c]:
    nine bytes, read back as the two contents. *)
Lemma csv_feed_roundtrip_witness :
  let fd := (true, txt "a" ++ [DQUOTE] ++ txt "b") in
  let more := [(false, txt "c")] in
  let row := enc_row (qte default_cp) (delim default_cp) fd more false in
  row = [DQUOTE] ++ txt "a" ++ [DQUOTE; DQUOTE] ++ txt "b" ++ [DQUOTE]
        ++ txt ",c" ++ [LF] /\
  map (field_value default_cp) (fd :: more)
  = [Some (txt "a" ++ [DQUOTE] ++ txt "b"); Some (txt "c")] /\
  exists r,
    csv_feed always_ok default_cp ([] ++ row ++ [])
             (Some (zlen (@nil byte))) 9 = Some r /\
    f_ret r = zlen row /\
    feed_row r = map (field_value default_cp) (fd :: more).
Proof.
  cbv zeta. split; [reflexivity|]. split; [reflexivity|].
  refine (csv_feed_roundtrip always_ok default_cp [] [] 9
            (true, txt "a" ++ [DQUOTE] ++ txt "b") [(false, txt "c")] false
            _ default_cp_wf _ _ _ _).
  - repeat split; try reflexivity; discriminate.
  - reflexivity.
  - reflexivity.
  - repeat constructor; try discriminate; try reflexivity.
  - vm_compute. split; discriminate.
Defined.

(** With the default configuration a quoted empty field does not come back
    as the empty string but as the null value; with the marker [NULL] the
    quoted content [NULL] does not come back either; and a NUL byte between
    the quotes cuts the content short. *)
Lemma quoted_field_not_read_back :
  enc_row DQUOTE COMMA (true, []) [] false = [DQUOTE; DQUOTE; LF] /\
  feed_view (csv_feed always_ok default_cp [DQUOTE; DQUOTE; LF] (Some 0) 3)
  = Some (3, [None]) /\
  feed_view (csv_feed always_ok null_cp
                      (enc_row DQUOTE COMMA (true, txt "NULL") [] false)
                      (Some 0) 7)
  = Some (7, [None]) /\
  feed_view (csv_feed always_ok default_cp
                      (enc_row DQUOTE COMMA (true, txt "a" ++ [NUL] ++ txt "b")
                               [] false)
                      (Some 0) 6)
  = Some (6, [Some (txt "a")]).
Proof. repeat split; reflexivity. Qed.

(** * Further properties of the code *)

(** ** The scanner *)

(** X1: bit [k] of the bitmap [fillbmap] computes is set exactly when lane
    [k] lies within the stated length (its absolute value, at most 16) and
    the byte at [p + k] is one of the first [matchlen] bytes of [match]; the
    bitmap fits 16 bits. *)
Theorem fillbmap_bits mem p plen m ml k :
  0 <= k < 16 ->
  0 <= fillbmap mem p plen m ml < 65536 /\
  (Z.testbit (fillbmap mem p plen m ml) k = true <->
   k < Z.min (Z.abs plen) 16 /\
   exists i, 0 <= i < Z.min (Z.abs ml) 16 /\ rd m i = rd mem (p + k)).
Proof.
  intros Hk. split; [apply fillbmap_range|].
  rewrite fillbmap_testbit by lia. rewrite andb_true_iff, Z.ltb_lt.
  unfold sidd_len, is_special. rewrite existsb_exists.
  split; intros [H1 H2]; (split; [exact H1|]).
  - destruct H2 as (i & Hi & Hb). apply in_seq in Hi.
    apply andb_true_iff in Hb. destruct Hb as [Hl He].
    apply Z.ltb_lt in Hl. unfold sidd_len in Hl.
    exists (Z.of_nat i). split; [lia|].
    destruct (byte_eqb_spec (lane m i) (rd mem (p + k))) as [E|]; [|discriminate].
    rewrite <- E. unfold rd, zget, lane.
    destruct (Z.ltb_spec (Z.of_nat i) 0); [lia|]. now rewrite Nat2Z.id.
  - destruct H2 as (i & Hi & Hb). exists (Z.to_nat i). split.
    + apply in_seq. lia.
    + apply andb_true_iff. split.
      * apply Z.ltb_lt. unfold sidd_len. lia.
      * unfold rd at 1, zget in Hb. destruct (Z.ltb_spec i 0); [lia|].
        unfold lane. rewrite Hb. apply byte_eqb_refl.
Qed.

Lemma fillbmap_bits_witness :
  0 <= fillbmap (txt "ab,c") 0 4 (smatch (scan default_cp)) 5 < 65536 /\
  (Z.testbit (fillbmap (txt "ab,c") 0 4 (smatch (scan default_cp)) 5) 2 = true <->
   2 < Z.min (Z.abs 4) 16 /\
   exists i, 0 <= i < Z.min (Z.abs 5) 16 /\
             rd (smatch (scan default_cp)) i = rd (txt "ab,c") (0 + 2)).
Proof. apply (fillbmap_bits (txt "ab,c") 0 4 _ 5 2). lia. Defined.

Lemma specials_nil f mem p q : q <= p -> specials f mem p q = [].
Proof.
  intros H. unfold specials. now replace (Z.to_nat (q - p)) with 0%nat by lia.
Qed.

Lemma specials_step f mem p q :
  p < q ->
  specials f mem p q
  = (if f (rd mem p) then [p] else []) ++ specials f mem (p + 1) q.
Proof.
  intros H. unfold specials.
  replace (Z.to_nat (q - p)) with (S (Z.to_nat (q - (p + 1)))) by lia.
  cbn [seq map filter]. replace (p + Z.of_nat 0) with p by lia.
  rewrite <- seq_shift, map_map.
  rewrite (map_ext (fun x => p + Z.of_nat (S x)) (fun i => p + 1 + Z.of_nat i))
    by (intros; lia).
  destruct (f (rd mem p)); reflexivity.
Qed.

Lemma specials_skip f mem q : forall n p,
  (forall j, p <= j < p + Z.of_nat n -> f (rd mem j) = false) ->
  p + Z.of_nat n <= q ->
  specials f mem p q = specials f mem (p + Z.of_nat n) q.
Proof.
  induction n as [|n IH]; intros p Hno Hq.
  - now replace (p + Z.of_nat 0) with p by lia.
  - rewrite specials_step by lia. rewrite Hno by lia. cbn [app].
    rewrite IH by (try (intros; apply Hno); lia). f_equal. lia.
Qed.

Lemma scan_collect_ok mem q fuel : forall sc cur,
  scan_ok mem sc cur q ->
  (Z.to_nat (q - cur) < fuel)%nat ->
  scan_collect fuel mem sc = Some (specials (sp_of sc) mem cur q).
Proof.
  induction fuel as [|fuel IH]; intros sc cur Hok Hfuel; [lia|].
  cbn [scan_collect].
  destruct (scan_next_ok mem sc cur q Hok) as (sc' & Hn & Hsp & Hnext).
  rewrite Hn.
  destruct (find_special (sp_of sc) mem cur q) as [i|] eqn:Hf.
  - pose proof (find_special_some _ _ _ _ _ Hf) as (Hr & Hfi & Hbef).
    rewrite (IH sc' (i + 1) (Hnext i eq_refl)) by lia.
    cbn [option_map]. f_equal.
    rewrite Hsp.
    rewrite (specials_skip _ mem q (Z.to_nat (i - cur)) cur)
      by (try (intros; apply Hbef); lia).
    replace (cur + Z.of_nat (Z.to_nat (i - cur))) with i by lia.
    rewrite (specials_step _ mem i q) by lia. now rewrite Hfi.
  - destruct (Z.le_gt_cases q cur); [now rewrite specials_nil|].
    rewrite (specials_skip _ mem q (Z.to_nat (q - cur)) cur).
    + rewrite specials_nil; auto. lia.
    + intros j Hj. apply (find_special_none _ _ _ _ Hf). lia.
    + lia.
Qed.

(** X2: after [scan_reset (sp, p, q)], repeated [scan_next] calls deliver
    exactly the positions of [[p, q)] that hold one of the bytes the scanner
    looks for, each once and in increasing order, and then return 0. *)
Theorem scan_next_enumerates mem sc p q fuel :
  p <= q -> (Z.to_nat (q - p) < fuel)%nat ->
  scan_collect fuel mem (scan_reset mem sc p q)
  = Some (specials (sp_of sc) mem p q).
Proof.
  intros Hpq Hfuel.
  rewrite (scan_collect_ok mem q fuel _ p) by auto using scan_reset_ok.
  now rewrite scan_reset_sp.
Qed.

Lemma scan_next_enumerates_witness :
  scan_collect 40 (txt "ab,cdefghijklmnopqrstuvw,xy" ++ [LF]) 
               (scan_reset (txt "ab,cdefghijklmnopqrstuvw,xy" ++ [LF])
                           (scan default_cp) 0 28)
  = Some (specials (sp_of (scan default_cp))
                   (txt "ab,cdefghijklmnopqrstuvw,xy" ++ [LF]) 0 28) /\
  specials (sp_of (scan default_cp))
           (txt "ab,cdefghijklmnopqrstuvw,xy" ++ [LF]) 0 28 = [2; 24; 27].
Proof.
  split; [|reflexivity].
  apply (scan_next_enumerates _ (scan default_cp) 0 28 40); [lia|].
  vm_compute. lia.
Defined.

(** ** Growing the field arrays *)

(** X3: [expand] returns 0 exactly when its reallocations are served, and
    then the parser has 64 more slots; otherwise it returns -1 and the slot
    count is as before.  Either way the arrays stay at least [fldmax] long,
    the descriptors of the slots in use are kept, and the configuration,
    the counters and the field count are untouched. *)
Theorem expand_grows alloc_ok cp :
  cp_wf cp ->
  let r := fst (expand alloc_ok cp) in
  let cp' := snd (expand alloc_ok cp) in
  (r = 0 <-> alloc_ok (8 * (fldmax cp + 64)) = true /\
             alloc_ok (4 * (fldmax cp + 64)) = true) /\
  (r = 0 -> fldmax cp' = fldmax cp + 64) /\
  (r <> 0 -> r = -1 /\ fldmax cp' = fldmax cp) /\
  cp_wf cp' /\
  (forall i, 0 <= i < fldmax cp -> field_at cp' i = field_at cp i) /\
  cfg_eq cp' cp /\ state cp' = state cp /\ fldtop cp' = fldtop cp.
Proof.
  intros Hwf. cbv zeta.
  destruct (expand alloc_ok cp) as [r cp'] eqn:He. cbn [fst snd].
  pose proof (expand_ok alloc_ok cp r cp' He)
    as (Hcfg & Hst & Htop & Hfld & Hr & Hwf').
  split.
  { unfold expand in He.
    destruct (alloc_ok (8 * (fldmax cp + 64)));
      destruct (alloc_ok (4 * (fldmax cp + 64)));
      cbn [negb] in He; injection He as <- _;
      split; try lia; try tauto; intros [? ?]; discriminate. }
  split; [intros ->; destruct Hr as [[_ H]|[H _]]; [exact H | lia]|].
  split; [intros Hne; destruct Hr as [[H _]|[H1 H2]]; [contradiction | auto]|].
  split; [auto|]. split; [intros i _; apply Hfld|]. auto.
Qed.

Lemma expand_grows_witness :
  let r := fst (expand always_ok default_cp) in
  let cp' := snd (expand always_ok default_cp) in
  (r = 0 <-> always_ok (8 * (fldmax default_cp + 64)) = true /\
             always_ok (4 * (fldmax default_cp + 64)) = true) /\
  (r = 0 -> fldmax cp' = fldmax default_cp + 64) /\
  (r <> 0 -> r = -1 /\ fldmax cp' = fldmax default_cp) /\
  cp_wf cp' /\
  (forall i, 0 <= i < fldmax default_cp ->
             field_at cp' i = field_at default_cp i) /\
  cfg_eq cp' default_cp /\ state cp' = state default_cp /\
  fldtop cp' = fldtop default_cp.
Proof. exact (expand_grows always_ok default_cp default_cp_wf). Defined.

(** ** The shape of a completed row *)

Lemma chain_sorted lo fs hi i j :
  chain lo fs hi -> (i < j < length fs)%nat ->
  exists s l e s' l' e',
    nth i fs (None, 0, None) = (Some s, l, e) /\
    nth j fs (None, 0, None) = (Some s', l', e') /\
    s + l < s'.
Proof.
  revert lo i j; induction fs as [|[[[s|] l] e] t IH]; intros lo i j;
    cbn [chain length]; try lia; try contradiction.
  intros (H1 & H2 & H3 & H4) Hij. destruct j as [|j]; [lia|].
  destruct i as [|i].
  - destruct (chain_nth _ _ _ j H4 ltac:(lia))
      as (s' & l' & e' & Hn & ? & ? & ? & ?).
    exists s, l, e, s', l', e'. cbn [nth]. repeat split; auto. lia.
  - destruct (IH (s + l + 1) i j H4 ltac:(lia))
      as (s1 & l1 & e1 & s2 & l2 & e2 & Ha & Hb & Hlt).
    exists s1, l1, e1, s2, l2, e2. cbn [nth]. auto.
Qed.

(** X4: on a non-empty buffer [csv_line] returns 0, -1 or the size [r] of a
    row, [0 < r <= bufsz]; a row ends with the byte LF at [buf + r - 1] and
    has at least one field.  So a buffer without LF never yields a row. *)
Theorem csv_line_row_end alloc_ok cp mem b bufsz :
  0 < bufsz ->
  exists r c,
    csv_line alloc_ok cp mem (Some b) bufsz = Some (r, c) /\
    (r = 0 \/ r = -1 \/ 0 < r <= bufsz) /\
    (0 < r -> rd mem (b + r - 1) = LF /\ 1 <= fldtop c) /\
    ((forall k, b <= k < b + bufsz -> rd mem k <> LF) -> r = 0 \/ r = -1).
Proof.
  intros Hsz.
  destruct (csv_line_total alloc_ok cp mem (Some b) bufsz) as (r & c & Hline).
  exists r, c. split; [exact Hline|].
  pose proof (csv_line_post alloc_ok cp mem b bufsz r c Hsz Hline)
    as (_ & Hr & _ & _ & Hpos & _).
  split; [lia|]. split; [intros H; destruct (Hpos H) as (_ & ? & ?); auto|].
  intros Hno. destruct Hr as [?|[?|Hr]]; auto.
  destruct (Hpos ltac:(lia)) as (_ & _ & Hlf).
  exfalso. apply (Hno (b + r - 1)); [lia | exact Hlf].
Qed.

Lemma csv_line_row_end_witness :
  exists r c,
    csv_line always_ok default_cp (txt "a,b" ++ [LF] ++ txt "c") (Some 0) 5
    = Some (r, c) /\
    (r = 0 \/ r = -1 \/ 0 < r <= 5) /\
    (0 < r -> rd (txt "a,b" ++ [LF] ++ txt "c") (0 + r - 1) = LF /\
              1 <= fldtop c) /\
    ((forall k, 0 <= k < 0 + 5 -> rd (txt "a,b" ++ [LF] ++ txt "c") k <> LF) ->
     r = 0 \/ r = -1).
Proof.
  apply (csv_line_row_end always_ok default_cp
                          (txt "a,b" ++ [LF] ++ txt "c") 0 5).
  lia.
Defined.

(** X5: when [csv_line] returns a row of [r] bytes, every field [i] below
    [fldtop] has a start inside the row, a length that is not negative and
    at least one byte of the row behind its end (the place of its NUL); a
    recorded escape position lies inside the field together with the byte
    it escapes; and the fields follow each other without overlap. *)
Theorem csv_line_fields_layout alloc_ok cp mem b bufsz r c :
  cp_wf cp -> 0 < bufsz ->
  csv_line alloc_ok cp mem (Some b) bufsz = Some (r, c) -> 0 < r ->
  (forall i, 0 <= i < fldtop c ->
             exists s l e,
               field_at c i = (Some s, l, e) /\
               b <= s /\ 0 <= l /\ s + l < b + r /\
               match e with
               | Some x => s <= x /\ x + 1 < s + l
               | None => True
               end) /\
  (forall i j, 0 <= i < j -> j < fldtop c ->
               exists s l e s' l' e',
                 field_at c i = (Some s, l, e) /\
                 field_at c j = (Some s', l', e') /\
                 s + l < s').
Proof.
  intros Hwf Hsz Hline Hr.
  pose proof (csv_line_post alloc_ok cp mem b bufsz r c Hsz Hline)
    as (_ & _ & _ & _ & _ & Hpost).
  destruct (Hpost Hwf) as [_ Hch]. specialize (Hch Hr).
  assert (Hnth : forall k, (k < Z.to_nat (fldtop c))%nat ->
                           nth k (fields_of c (Z.to_nat (fldtop c)))
                               (None, 0, None) = field_at c (Z.of_nat k)).
  { intros k Hk. rewrite <- fields_from_0, fields_from_nth by lia.
    f_equal. }
  split.
  - intros i Hi.
    destruct (chain_nth _ _ _ (Z.to_nat i) Hch)
      as (s & l & e & Hn & H1 & H2 & H3 & H4).
    { rewrite fields_of_length. lia. }
    rewrite Hnth, Z2Nat.id in Hn by lia.
    exists s, l, e. repeat split; auto.
  - intros i j Hi Hj.
    destruct (chain_sorted _ _ _ (Z.to_nat i) (Z.to_nat j) Hch)
      as (s & l & e & s' & l' & e' & Ha & Hb & Hlt).
    { rewrite fields_of_length. lia. }
    rewrite Hnth, Z2Nat.id in Ha, Hb by lia.
    exists s, l, e, s', l', e'. auto.
Qed.

Lemma csv_line_fields_layout_witness :
  exists c,
    csv_line always_ok default_cp (txt "ab,c" ++ [LF]) (Some 0) 5
    = Some (5, c) /\
    field_at c 0 = (Some 0, 2, None) /\ field_at c 1 = (Some 3, 1, None) /\
    (forall i, 0 <= i < fldtop c ->
               exists s l e,
                 field_at c i = (Some s, l, e) /\
                 0 <= s /\ 0 <= l /\ s + l < 0 + 5 /\
                 match e with
                 | Some x => s <= x /\ x + 1 < s + l
                 | None => True
                 end) /\
    (forall i j, 0 <= i < j -> j < fldtop c ->
                 exists s l e s' l' e',
                   field_at c i = (Some s, l, e) /\
                   field_at c j = (Some s', l', e') /\
                   s + l < s').
Proof.
  eexists. split; [vm_compute; reflexivity|].
  split; [reflexivity|]. split; [reflexivity|].
  refine (csv_line_fields_layout always_ok default_cp (txt "ab,c" ++ [LF])
                                 0 5 5 _ default_cp_wf _ _ _).
  - lia.
  - vm_compute; reflexivity.
  - lia.
Defined.

(** ** Rows that do not complete: errors and missing data *)

(** What the machine returns is what [csv_line] returns. *)
Lemma csv_line_reaches alloc_ok cp mem b bufsz r ca :
  0 < bufsz ->
  reaches alloc_ok (sp_of (scan cp)) mem b (b + bufsz)
          (AGoto START_VAL (erase cp)
                 {| ppp := b; cno := 0; nline := 0; fldv := b;
                    quoted := false; l_escptr := None |} b)
          (AReturn r ca) ->
  exists c, csv_line alloc_ok cp mem (Some b) bufsz = Some (r, c) /\
            erase c = ca.
Proof.
  intros Hgt Hr.
  pose proof (csv_line_aline alloc_ok cp mem b bufsz Hgt) as Hsim.
  destruct (csv_line_total alloc_ok cp mem (Some b) bufsz) as (r' & c' & Hline).
  destruct (aline alloc_ok cp mem b bufsz) as [[r0 ca0]|] eqn:Ha;
    [|congruence].
  destruct Hsim as (c1 & Hc1 & Her).
  unfold aline in Ha.
  pose proof (reaches_result _ _ _ _ _ _ _ _ _ _ Hr Ha) as Hx.
  injection Hx as -> ->.
  exists c1. auto.
Qed.

Lemma csv_feed_no_row alloc_ok cp mem buf bufsz r c :
  csv_line alloc_ok cp mem buf bufsz = Some (r, c) -> r <= 0 ->
  csv_feed alloc_ok cp mem buf bufsz
  = Some {| f_ret := r; f_cp := c; f_mem := mem; f_fldmem := mem;
            f_field := None; f_nfield := 0 |}.
Proof.
  intros Hline Hr. unfold csv_feed. rewrite Hline.
  destruct (Z.leb_spec r 0); [reflexivity | lia].
Qed.

Lemma csv_line_run_return alloc_ok fuel mem buf q r c :
  csv_line_run alloc_ok fuel mem buf q (Return r c) = Some (r, c).
Proof. destruct fuel; reflexivity. Qed.

(** X6: on a parser without field slots (as [csv_open] returns it), when
    the allocator refuses to grow the arrays, [csv_line] on any non-empty
    buffer returns -1 with the error [CSV_EOUTOFMEMORY] recorded for field
    0 at the current offsets; the counters stay, and [csv_feed] hands back
    no row and leaves the block alone. *)
Theorem csv_line_out_of_memory alloc_ok cp mem b bufsz :
  0 < bufsz -> fldmax cp <= 0 ->
  alloc_ok (8 * (fldmax cp + 64)) = false \/
  alloc_ok (4 * (fldmax cp + 64)) = false ->
  exists c,
    csv_line alloc_ok cp mem (Some b) bufsz = Some (-1, c) /\
    errnum (state c) = Some CSV_EOUTOFMEMORY /\
    efldnum (state c) = 0 /\
    echarnum (state c) = charnum (state cp) /\
    elinenum (state c) = linenum (state cp) /\
    erownum (state c) = rownum (state cp) + 1 /\
    counters c = counters cp /\ fldmax c = fldmax cp /\
    feed_view (csv_feed alloc_ok cp mem (Some b) bufsz) = Some (-1, []) /\
    option_map f_mem (csv_feed alloc_ok cp mem (Some b) bufsz) = Some mem.
Proof.
  intros Hsz Hmax Hno.
  assert (Hline : exists c,
             csv_line alloc_ok cp mem (Some b) bufsz = Some (-1, c) /\
             state c = {| linenum := linenum (state cp);
                          charnum := charnum (state cp);
                          rownum := rownum (state cp);
                          fldnum := fldnum (state cp);
                          errnum := Some CSV_EOUTOFMEMORY;
                          errmsg := Some "out of memory"%string;
                          elinenum := linenum (state cp) + 0;
                          echarnum := charnum (state cp) + (b - b);
                          erownum := rownum (state cp) + 1;
                          efldnum := 0 |} /\
             fldmax c = fldmax cp).
  { unfold csv_line. destruct (Z.leb_spec bufsz 0); [lia|].
    replace (Z.to_nat bufsz + 1)%nat with (S (Z.to_nat bufsz)) by lia.
    cbn [csv_line_run csv_line_step cno fldmax set_scan ppp nline].
    destruct (Z.geb_spec 0 (fldmax cp)); [|lia].
    unfold expand. cbn [fldmax set_scan].
    destruct Hno as [Hno|Hno].
    - rewrite Hno. cbn -[csv_line_run]. rewrite csv_line_run_return.
      eexists. split; [reflexivity|]. split; reflexivity.
    - destruct (alloc_ok (8 * (fldmax cp + 64)));
        rewrite ?Hno; cbn -[csv_line_run]; rewrite csv_line_run_return;
        eexists; (split; [reflexivity|]); split; reflexivity. }
  destruct Hline as (c & Hline & Hst & Hfm).
  exists c. split; [exact Hline|].
  rewrite (csv_feed_no_row _ _ _ _ _ _ _ Hline) by lia.
  unfold counters. rewrite Hst. cbn.
  repeat split; auto; lia.
Qed.

Lemma csv_line_out_of_memory_witness :
  exists c,
    csv_line (fun _ => false) default_cp (txt "a,b" ++ [LF]) (Some 0) 4
    = Some (-1, c) /\
    errnum (state c) = Some CSV_EOUTOFMEMORY /\
    efldnum (state c) = 0 /\
    echarnum (state c) = charnum (state default_cp) /\
    elinenum (state c) = linenum (state default_cp) /\
    erownum (state c) = rownum (state default_cp) + 1 /\
    counters c = counters default_cp /\ fldmax c = fldmax default_cp /\
    feed_view (csv_feed (fun _ => false) default_cp (txt "a,b" ++ [LF])
                        (Some 0) 4) = Some (-1, []) /\
    option_map f_mem (csv_feed (fun _ => false) default_cp
                               (txt "a,b" ++ [LF]) (Some 0) 4)
    = Some (txt "a,b" ++ [LF]).
Proof.
  apply (csv_line_out_of_memory (fun _ => false) default_cp
                                (txt "a,b" ++ [LF]) 0 4).
  - lia.
  - vm_compute. discriminate.
  - left. reflexivity.
Defined.

Lemma or_else_none a : or_else a None = a.
Proof. now destruct a. Qed.

Lemma or_else_assoc a b c : or_else (or_else a b) c = or_else a (or_else b c).
Proof. now destruct a. Qed.

Section Cut.
Variable alloc_ok : Z -> bool.
Variable f : byte -> bool.
Variable mem : list byte.
Variables buf q : Z.

Notation "'reach'" := (reaches alloc_ok f mem buf q).

Variables qt dl : byte.
Hypothesis Hf : forall b, f b = Byte.eqb b qt || Byte.eqb b dl
                              || Byte.eqb b CR || Byte.eqb b LF.
Hypothesis Hqd : qt <> dl.
Hypothesis Hqc : qt <> CR.
Hypothesis Hql : qt <> LF.

(** The QUOTED_VAL loop runs over a doubled content and stands behind it,
    whatever follows. *)
Lemma quoted_body c :
  forall pos cp L,
    cfg_run qt dl cp ->
    mem_has mem pos (dbl qt c) ->
    pos + zlen (dbl qt c) <= q ->
    exists pp,
      reach (AGoto QUOTED_VAL cp L pos)
            (AGoto QUOTED_VAL cp
                   {| ppp := pp; cno := cno L;
                      nline := nline L + count_lf c;
                      fldv := fldv L; quoted := quoted L;
                      l_escptr := or_else (l_escptr L) (first_esc qt pos c) |}
                   (pos + zlen (dbl qt c))).
Proof.
  pose proof (f_qt f qt dl Hf) as Hfq.
  induction c as [|b c IH]; intros pos cp L Hcfg Hmem Hq.
  - exists (ppp L). cbn [dbl flat_map count_lf first_esc].
    change (zlen []) with 0. rewrite or_else_none.
    destruct L; cbn. reach_eq.
  - rewrite dbl_cons in *. rewrite zlen_app in *.
    pose proof (zlen_nonneg (dbl qt c)).
    destruct Hcfg as (Cq & Ce & Cd).
    destruct (byte_eqb_spec b qt) as [->|Hne].
    + (* a doubled quote *)
      change (zlen [qt; qt]) with 2 in *. cbn [app] in Hmem.
      apply mem_has_cons in Hmem. destruct Hmem as [Hb0 Hmem].
      apply mem_has_cons in Hmem. destruct Hmem as [Hb1 Hmem].
      replace (pos + 1 + 1) with (pos + 2) in Hmem by lia.
      destruct (IH (pos + 2) cp
                   {| ppp := pos; cno := cno L; nline := nline L;
                      fldv := fldv L; quoted := quoted L;
                      l_escptr := match l_escptr L with
                                  | Some e => Some e
                                  | None => Some pos
                                  end |})
        as (pp & Hr); [repeat split; auto | exact Hmem | lia |].
      exists pp.
      eapply reaches_trans; [apply reaches_step|].
      unfold astep.
      rewrite (find_special_here f mem q pos) by (rewrite ?Hb0; auto; lia).
      rewrite Hb0, Cq, byte_eqb_refl.
      rewrite (find_special_here f mem q (pos + 1)) by (rewrite ?Hb1; auto; lia).
      rewrite Z.eqb_refl. cbn [negb].
      rewrite Hb1, Ce, !byte_eqb_refl. cbn [andb].
      replace (pos + 1 + 1) with (pos + 2) by lia.
      eapply reaches_trans; [exact Hr|].
      cbn [ppp cno nline fldv quoted l_escptr count_lf first_esc].
      rewrite byte_eqb_refl, (byte_eqb_neq qt LF) by congruence.
      destruct (l_escptr L); cbn [or_else]; reach_eq.
    + (* any other byte *)
      change (zlen [b]) with 1 in *. cbn [app] in Hmem.
      apply mem_has_cons in Hmem. destruct Hmem as [Hb0 Hmem].
      destruct (f b) eqn:Hfb.
      * destruct (IH (pos + 1) cp
                     {| ppp := pos; cno := cno L;
                        nline := nline L + (if Byte.eqb b LF then 1 else 0);
                        fldv := fldv L; quoted := quoted L;
                        l_escptr := l_escptr L |})
          as (pp & Hr); [repeat split; auto | exact Hmem | lia |].
        exists pp.
        eapply reaches_trans; [apply reaches_step|].
        unfold astep.
        rewrite (find_special_here f mem q pos) by (rewrite ?Hb0; auto; lia).
        rewrite Hb0, Cq, Ce, (eqb_qt_false qt b Hne).
        eapply reaches_trans; [exact Hr|].
        cbn [ppp cno nline fldv quoted l_escptr count_lf first_esc].
        rewrite (eqb_qt_false qt b Hne). reach_eq.
      * destruct (IH (pos + 1) cp L) as (pp & Hr);
          [repeat split; auto | exact Hmem | lia |].
        exists pp.
        eapply reaches_trans.
        { apply (reaches_quoted_skip alloc_ok f mem buf q cp L pos (pos + 1)).
          apply find_special_next. now rewrite Hb0. }
        eapply reaches_trans; [exact Hr|].
        cbn [count_lf first_esc].
        rewrite (eqb_qt_false qt b Hne), (f_false_lf f qt dl Hf b Hfb). reach_eq.
Qed.

(** Out of data behind the content, or behind a quote that may yet turn
    out to be doubled: the machine asks for more. *)
Lemma quoted_cut c pos cp L :
  cfg_run qt dl cp ->
  (mem_has mem pos (dbl qt c) /\ q = pos + zlen (dbl qt c)) \/
  (mem_has mem pos (dbl qt c ++ [qt]) /\ q = pos + zlen (dbl qt c) + 1) ->
  reach (AGoto QUOTED_VAL cp L pos) (AReturn 0 cp).
Proof.
  intros Hcfg [[Hmem Hq]|[Hmem Hq]].
  - destruct (quoted_body c pos cp L Hcfg Hmem ltac:(lia)) as (pp & Hr).
    eapply reaches_trans; [exact Hr|].
    eapply reaches_trans; [apply reaches_step|].
    unfold astep. rewrite find_special_none_intro by (intros; lia).
    apply reaches_refl.
  - apply mem_has_app in Hmem. destruct Hmem as [Hm1 Hm2].
    apply mem_has_cons in Hm2. destruct Hm2 as [Hb _].
    destruct (quoted_body c pos cp L Hcfg Hm1 ltac:(lia)) as (pp & Hr).
    eapply reaches_trans; [exact Hr|].
    eapply reaches_trans; [apply reaches_step|].
    unfold astep. destruct Hcfg as (Cq & _).
    pose proof (f_qt f qt dl Hf) as Hfq.
    rewrite (find_special_here f mem q) by (rewrite ?Hb; auto; lia).
    rewrite Hb, Cq, byte_eqb_refl.
    rewrite find_special_none_intro by (intros; lia).
    apply reaches_refl.
Qed.

(** A cut through a quoted content and its closing quote. *)
Lemma dbl_prefix c : forall m,
  (m <= length (dbl qt c) + 1)%nat ->
  exists c1,
    firstn m (dbl qt c ++ [qt]) = dbl qt c1 \/
    firstn m (dbl qt c ++ [qt]) = dbl qt c1 ++ [qt].
Proof.
  induction c as [|b c IH]; intros m Hm.
  - exists []. destruct m as [|[|m]]; cbn in *; auto; lia.
  - rewrite dbl_cons in *. rewrite length_app in Hm.
    destruct (byte_eqb_spec b qt) as [->|Hne]; cbn [app length] in *.
    + destruct m as [|[|m]].
      * exists []. auto.
      * exists []. auto.
      * destruct (IH m ltac:(lia)) as (c1 & H).
        exists (qt :: c1). rewrite dbl_cons, byte_eqb_refl. cbn [firstn app].
        destruct H as [-> | ->]; auto.
    + destruct m as [|m].
      * exists []. auto.
      * destruct (IH m ltac:(lia)) as (c1 & H).
        exists (b :: c1). rewrite dbl_cons, (eqb_qt_false qt b Hne).
        cbn [firstn app]. destruct H as [-> | ->]; auto.
Qed.

Hypothesis Hdc : dl <> CR.
Hypothesis Hdl : dl <> LF.
Hypothesis Halloc : forall n, alloc_ok n = true.

Lemma mem_has_join pos l1 l2 :
  mem_has mem pos l1 -> mem_has mem (pos + zlen l1) l2 ->
  mem_has mem pos (l1 ++ l2).
Proof.
  intros H1 H2. apply mem_has_intro. intros j Hj. rewrite zlen_app in Hj.
  pose proof (zlen_nonneg l1). unfold rd at 2.
  destruct (Z.ltb_spec j (zlen l1)).
  - rewrite zget_app_l by lia. now apply mem_has_rd.
  - rewrite zget_app_r by lia.
    replace (pos + j) with (pos + zlen l1 + (j - zlen l1)) by lia.
    apply (mem_has_rd _ _ _ _ H2). lia.
Qed.

Lemma mem_has_firstn_rd pos l n j :
  mem_has mem pos (firstn n l) -> (n <= length l)%nat ->
  0 <= j < Z.of_nat n -> rd mem (pos + j) = rd l j.
Proof.
  intros H Hn Hj.
  rewrite (mem_has_rd _ _ _ _ H) by (unfold zlen; rewrite firstn_length_le; lia).
  now apply rd_firstn.
Qed.

Lemma mem_has_firstn_app pos l1 l2 n :
  mem_has mem pos (firstn n (l1 ++ l2)) -> (length l1 <= n)%nat ->
  mem_has mem pos l1 /\
  mem_has mem (pos + zlen l1) (firstn (n - length l1) l2).
Proof.
  intros H Hn. rewrite firstn_app, (firstn_all2 l1) in H by lia.
  now apply mem_has_app.
Qed.

(** START_VAL over a plain content that stops at a special byte. *)
Lemma plain_stop cp L pos c t :
  cfg_run qt dl cp -> cp_wf cp -> 0 <= cno L <= fldmax cp -> ppp L = pos ->
  mem_has mem pos (c ++ [t]) ->
  Forall (fun b => f b = false) c -> f t = true ->
  (c = [] -> t <> qt) ->
  pos + zlen c < q ->
  reach (AGoto START_VAL cp L pos)
        (lift (pos + zlen c + 1)
              (FINISH mem buf q (started alloc_ok cp (cno L) pos)
                      {| ppp := pos + zlen c; cno := cno L;
                         nline := nline L; fldv := pos; quoted := false;
                         l_escptr := None |})).
Proof.
  intros Hcfg Hwf Hk Hppp Hmem Hplain Ht Htq Hq.
  destruct (ensure_ok alloc_ok qt dl Halloc cp (cno L) Hwf Hk)
    as (Ewf & Emax & Efld & Ecfg).
  specialize (Ecfg Hcfg). destruct Ecfg as (Cq & Ce & Cd).
  pose proof (zlen_nonneg c).
  apply mem_has_app in Hmem. destruct Hmem as [Hc Hmt].
  apply mem_has_cons in Hmt. destruct Hmt as [Hbt _].
  eapply reaches_trans; [apply reaches_step|].
  unfold astep. rewrite (start_grown alloc_ok buf Halloc).
  rewrite (find_special_intro f mem pos q (pos + zlen c)); auto; try lia.
  2:{ now rewrite Hbt. }
  2:{ intros j Hj. replace j with (pos + (j - pos)) by lia.
      rewrite (mem_has_rd _ _ _ _ Hc) by lia.
      apply (rd_Forall (fun b => f b = false)); auto. lia. }
  rewrite Hbt. cbn [qte set_fld set_arrays]. rewrite Cq.
  assert (Hqd0 : (pos + zlen c =? ppp L) && Byte.eqb t qt = false).
  { destruct c as [|b c'].
    - rewrite (eqb_qt_false qt t (Htq eq_refl)). apply andb_false_r.
    - rewrite zlen_cons in *. pose proof (zlen_nonneg c').
      destruct (Z.eqb_spec (pos + (1 + zlen c')) (ppp L)); [lia|reflexivity]. }
  rewrite Hqd0, Hppp. unfold started. apply reaches_refl.
Qed.

Lemma finish_err cp L t :
  cfg_run qt dl cp -> rd mem (ppp L) = t -> t <> dl -> t <> LF ->
  (t = CR -> ppp L + 1 < q -> rd mem (ppp L + 1) <> LF) ->
  FINISH mem buf q cp L
  = Return (-1)
           (snd (reterr (set_fldtop (fin_arrays cp L) (cno L + 1))
                        CSV_ECRLF "CRLF expected" (cno L + 1) (nline L)
                        (ppp L + 1 - buf))).
Proof.
  intros Hcfg Hrd Htd Htl Hcr. rewrite FINISH_unfold. cbv zeta.
  destruct (cfg_run_fin qt dl cp L Hcfg) as (_ & _ & Cd).
  rewrite Hrd, Cd, (byte_eqb_neq t dl), (byte_eqb_neq t LF) by congruence.
  destruct (byte_eqb_spec t CR) as [E|E]; cbn [andb]; [|reflexivity].
  destruct (Z.ltb_spec (ppp L + 1) q); cbn [andb]; [|reflexivity].
  rewrite (byte_eqb_neq _ LF) by auto. reflexivity.
Qed.

(** A cut inside a field, or right behind it: the machine asks for more. *)
Lemma field_cut cp L pos fd n :
  cfg_run qt dl cp -> cp_wf cp -> 0 <= cno L <= fldmax cp -> ppp L = pos ->
  (n <= length (enc_field qt fd))%nat ->
  mem_has mem pos (firstn n (enc_field qt fd)) ->
  q = pos + Z.of_nat n ->
  (fst fd = false -> Forall (fun b => f b = false) (snd fd)) ->
  exists c, reach (AGoto START_VAL cp L pos) (AReturn 0 c).
Proof.
  intros Hcfg Hwf Hk Hppp Hn Hmem Hq Hplain.
  destruct (ensure_ok alloc_ok qt dl Halloc cp (cno L) Hwf Hk)
    as (Ewf & Emax & Efld & Ecfg).
  specialize (Ecfg Hcfg). pose proof Ecfg as (Cq & Ce & Cd).
  pose proof (f_qt f qt dl Hf) as Hfq.
  destruct fd as [[|] c]; cbn [fst snd enc_field] in *.
  - (* quoted *)
    destruct n as [|m].
    + eexists. eapply reaches_trans; [apply reaches_step|].
      unfold astep. rewrite (start_grown alloc_ok buf Halloc).
      rewrite find_special_none_intro by (intros; lia).
      apply reaches_refl.
    + cbn [firstn length] in *. rewrite length_app in Hn. cbn [length] in Hn.
      apply mem_has_cons in Hmem. destruct Hmem as [Hb0 Hmem].
      destruct (dbl_prefix c m ltac:(lia)) as (c1 & Hpre).
      assert (Hlen : length (firstn m (dbl qt c ++ [qt])) = m).
      { apply firstn_length_le. rewrite length_app. cbn [length]. lia. }
      eexists. eapply reaches_trans; [apply reaches_step|].
      unfold astep. rewrite (start_grown alloc_ok buf Halloc).
      rewrite (find_special_here f mem q pos) by (rewrite ?Hb0; auto; lia).
      rewrite Hppp, Z.eqb_refl, Hb0.
      cbn [qte set_fld set_arrays]. rewrite Cq, byte_eqb_refl. cbn [andb].
      apply (quoted_cut c1); [exact Ecfg|].
      destruct Hpre as [Hpre|Hpre]; rewrite Hpre in Hmem, Hlen; [left|right];
        (split; [exact Hmem|]).
      * unfold zlen. lia.
      * rewrite length_app in Hlen. cbn [length] in Hlen. unfold zlen. lia.
  - (* plain *)
    specialize (Hplain eq_refl).
    eexists. eapply reaches_trans; [apply reaches_step|].
    unfold astep. rewrite (start_grown alloc_ok buf Halloc).
    rewrite find_special_none_intro; [apply reaches_refl|].
    intros j Hj. replace j with (pos + (j - pos)) by lia.
    rewrite (mem_has_firstn_rd pos c n) by (auto; lia).
    apply (rd_Forall (fun b => f b = false)); auto. unfold zlen. lia.
Qed.

(** A strict prefix of a written row, the one that ends behind the CR of
    a CR LF apart: the machine asks for more. *)
Lemma prefix_run crlf more :
  forall fd pos cp L n,
    cfg_run qt dl cp -> cp_wf cp -> 0 <= cno L <= fldmax cp -> ppp L = pos ->
    (n < length (enc_row qt dl fd more crlf))%nat ->
    (crlf = true -> S n <> length (enc_row qt dl fd more crlf)) ->
    mem_has mem pos (firstn n (enc_row qt dl fd more crlf)) ->
    q = pos + Z.of_nat n ->
    Forall (fun fd => fst fd = false -> Forall (fun b => f b = false) (snd fd))
           (fd :: more) ->
    exists c, reach (AGoto START_VAL cp L pos) (AReturn 0 c).
Proof.
  induction more as [|fd' more IH];
    intros fd pos cp L n Hcfg Hwf Hk Hppp Hn Hcr Hmem Hq Hok;
    apply Forall_cons_iff in Hok; destruct Hok as [Hfd Hok']; subst pos.
  - unfold enc_row, enc_more in *. cbn [flat_map app] in *.
    rewrite length_app in *.
    destruct (le_lt_dec n (length (enc_field qt fd))) as [Hle|Hgt].
    + rewrite firstn_app in Hmem.
      replace (n - length (enc_field qt fd))%nat with 0%nat in Hmem by lia.
      cbn [firstn] in Hmem. rewrite app_nil_r in Hmem.
      now apply (field_cut cp L (ppp L) fd n).
    + exfalso. destruct crlf; cbn [eol length] in *; [|lia].
      specialize (Hcr eq_refl). lia.
  - rewrite enc_row_cons in *. rewrite length_app in *. cbn [length] in *.
    destruct (le_lt_dec n (length (enc_field qt fd))) as [Hle|Hgt].
    + rewrite firstn_app in Hmem.
      replace (n - length (enc_field qt fd))%nat with 0%nat in Hmem by lia.
      cbn [firstn] in Hmem. rewrite app_nil_r in Hmem.
      now apply (field_cut cp L (ppp L) fd n).
    + apply mem_has_firstn_app in Hmem; [|lia]. destruct Hmem as [Hm1 Hm2].
      destruct (n - length (enc_field qt fd))%nat as [|k] eqn:Ek; [lia|].
      cbn [firstn] in Hm2. apply mem_has_cons in Hm2.
      destruct Hm2 as [Hrd Hm2].
      assert (Hm : mem_has mem (ppp L) (enc_field qt fd ++ [dl])).
      { apply mem_has_join; auto. apply mem_has_intro. intros j Hj.
        change (zlen [dl]) with 1 in Hj. replace j with 0 by lia.
        now replace (ppp L + zlen (enc_field qt fd) + 0)
          with (ppp L + zlen (enc_field qt fd)) by lia. }
      destruct (field_run alloc_ok f mem buf q qt dl Hf
                          Hql Halloc cp L (ppp L) fd dl
                          Hcfg Hwf Hk eq_refl Hm Hfd (f_dl f qt dl Hf))
        as (nl & Hrun); [congruence | unfold zlen; lia |].
      destruct (field_fin alloc_ok qt dl Halloc cp (cno L) (ppp L) nl fd
                          Hcfg Hwf Hk)
        as (Fcfg & Fwf & Fmax & Ffld & Foth).
      rewrite (finish_delim mem buf _ qt dl) in Hrun; auto.
      2:{ unfold started.
          apply (ensure_ok alloc_ok qt dl Halloc cp (cno L) Hwf Hk). exact Hcfg. }
      cbn [lift ppp cno nline fldv quoted l_escptr] in Hrun.
      match type of Hrun with
      | reaches _ _ _ _ _ _ (AGoto _ ?c2 ?L2 _) =>
          destruct (IH fd' (ppp L + zlen (enc_field qt fd) + 1) c2 L2 k
                       Fcfg Fwf)
          as (c & Hr);
          [cbn [cno]; lia | reflexivity | lia | intros H; specialize (Hcr H); lia
           | exact Hm2 | unfold zlen; lia | exact Hok' |]
      end.
      exists c. eapply reaches_trans; [exact Hrun|]. exact Hr.
Qed.

(** START_VAL and QUOTED_VAL over a quoted field whose closing quote is
    followed by bytes that are not special: the quote error. *)
Lemma quoted_junk cp L pos c j t :
  cfg_run qt dl cp -> cp_wf cp -> 0 <= cno L <= fldmax cp -> ppp L = pos ->
  mem_has mem pos (qt :: dbl qt c ++ [qt] ++ j ++ [t]) ->
  j <> [] -> Forall (fun b => f b = false) j -> f t = true ->
  pos + 1 + zlen (dbl qt c) + 1 + zlen j < q ->
  reach (AGoto START_VAL cp L pos)
        (AReturn (-1)
           (snd (reterr (started alloc_ok cp (cno L) pos) CSV_EQUOTE
                        "bad value after quote" (cno L)
                        (nline L + count_lf c)
                        (pos + 1 + zlen (dbl qt c) - buf)))).
Proof.
  intros Hcfg Hwf Hk Hppp Hmem Hj Hjf Ht Hq.
  destruct (ensure_ok alloc_ok qt dl Halloc cp (cno L) Hwf Hk)
    as (Ewf & Emax & Efld & Ecfg).
  specialize (Ecfg Hcfg). pose proof Ecfg as (Cq & Ce & Cd).
  pose proof (f_qt f qt dl Hf) as Hfq.
  pose proof (zlen_nonneg (dbl qt c)). pose proof (zlen_nonneg j).
  apply mem_has_cons in Hmem. destruct Hmem as [Hb0 Hmem].
  apply mem_has_app in Hmem. destruct Hmem as [Hbody Hmem].
  cbn [app] in Hmem. apply mem_has_cons in Hmem. destruct Hmem as [Hcl Hmem].
  pose proof (mem_has_snoc _ _ _ _ _ Hmem) as (_ & Hrt & _).
  apply mem_has_app in Hmem. destruct Hmem as [Hjm _].
  eapply reaches_trans; [apply reaches_step|].
  unfold astep. rewrite (start_grown alloc_ok buf Halloc).
  rewrite (find_special_here f mem q pos) by (rewrite ?Hb0; auto; lia).
  rewrite Hppp, Z.eqb_refl, Hb0.
  cbn [qte set_fld set_arrays]. rewrite Cq, byte_eqb_refl. cbn [andb].
  match goal with
  | |- reaches _ _ _ _ _ (AGoto _ ?c1 ?L1 _) _ =>
      destruct (quoted_body c (pos + 1) c1 L1 Ecfg Hbody ltac:(lia))
      as (pp & Hr)
  end.
  eapply reaches_trans; [exact Hr|].
  eapply reaches_trans; [apply reaches_step|].
  unfold astep.
  rewrite (find_special_here f mem q) by (rewrite ?Hcl; auto; lia).
  rewrite Hcl. cbn [qte set_fld set_arrays]. rewrite Cq, byte_eqb_refl.
  rewrite (find_special_intro f mem _ q
             (pos + 1 + zlen (dbl qt c) + 1 + zlen j)); auto; try lia.
  2:{ now rewrite Hrt. }
  2:{ intros i Hi.
      replace i with (pos + 1 + zlen (dbl qt c) + 1
                      + (i - (pos + 1 + zlen (dbl qt c) + 1))) by lia.
      rewrite (mem_has_rd _ _ _ _ Hjm) by lia.
      apply (rd_Forall (fun b => f b = false)); auto. lia. }
  assert (Hzj : 0 < zlen j).
  { destruct j; [congruence|]. rewrite zlen_cons. pose proof (zlen_nonneg j). lia. }
  destruct (Z.eqb_spec (pos + 1 + zlen (dbl qt c) + 1 + zlen j)
                       (pos + 1 + zlen (dbl qt c) + 1)); [lia|].
  cbn [negb reterr snd ppp cno nline fldv quoted l_escptr or_else first_esc].
  unfold started. apply reaches_refl.
Qed.
End Cut.

Lemma started_state alloc_ok cp k pos :
  state (started alloc_ok cp k pos) = state cp.
Proof.
  unfold started, ensure. cbn [state set_fld set_arrays].
  destruct (k >=? fldmax cp); [|reflexivity].
  destruct (expand alloc_ok cp) as [r c] eqn:E. cbn [snd].
  apply (expand_ok alloc_ok cp r c E).
Qed.

Lemma fin_arrays_state cp L : state (fin_arrays cp L) = state cp.
Proof. apply (fin_arrays_frame cp L). Qed.

Lemma std_run cp :
  cfg_std cp ->
  (forall x, sp_of (scan cp) x
             = Byte.eqb x (qte cp) || Byte.eqb x (delim cp)
               || Byte.eqb x CR || Byte.eqb x LF) /\
  cfg_run (qte cp) (delim cp) (erase cp).
Proof.
  intros Hstd. split.
  - intros x. now rewrite sp_std.
  - destruct Hstd as (He & _). repeat split; auto.
Qed.

(** Discharges the leading premises of [H] from the context. *)
Ltac premises H :=
  repeat match type of H with
         | ?P -> _ =>
             match type of P with
             | Prop => specialize (H ltac:(assumption))
             end
         end.

(** X7: an unquoted first field that runs into a quote byte, or into a CR
    that is followed by a byte other than LF, makes [csv_line] return -1
    with [CSV_ECRLF]; the error record names field 1 and the offset just
    behind the offending byte, and the counters stay. *)
Theorem csv_line_crlf_expected alloc_ok cp mem b bufsz c t :
  cfg_std cp -> cp_wf cp -> (forall n, alloc_ok n = true) ->
  mem_has mem b (c ++ [t]) ->
  Forall (fun x => is_std_special cp x = false) c ->
  (t = qte cp /\ c <> []) \/
  (t = CR /\ zlen c + 1 < bufsz /\ rd mem (b + zlen c + 1) <> LF) ->
  zlen c < bufsz ->
  exists c',
    csv_line alloc_ok cp mem (Some b) bufsz = Some (-1, c') /\
    errnum (state c') = Some CSV_ECRLF /\
    efldnum (state c') = 1 /\
    echarnum (state c') = charnum (state cp) + zlen c + 1 /\
    counters c' = counters cp.
Proof.
  intros Hstd Hwf Halloc Hmem Hc Ht Hsz.
  pose proof (zlen_nonneg c) as Hnn.
  destruct (std_run cp Hstd) as [Hf Hcfg].
  pose proof Hstd as (He & _ & _ & _ & Hqd & Hqc & Hql & Hdc & Hdl).
  set (L0 := {| ppp := b; cno := 0; nline := 0; fldv := b;
                quoted := false; l_escptr := None |}).
  assert (Hk : 0 <= cno L0 <= fldmax (erase cp))
    by (cbn; destruct Hwf; lia).
  assert (Hft : sp_of (scan cp) t = true).
  { rewrite Hf. destruct Ht as [[-> _]|[-> _]].
    - now rewrite byte_eqb_refl.
    - cbn. now rewrite !orb_true_r. }
  pose proof (mem_has_snoc _ _ _ _ _ Hmem) as (_ & Hrt & _).
  pose proof (plain_stop alloc_ok (sp_of (scan cp)) mem b (b + bufsz)
                         (qte cp) (delim cp)) as Hrun.
  premises Hrun.
  specialize (Hrun (erase cp) L0 b c t Hcfg Hwf Hk eq_refl Hmem).
  pose proof (finish_err mem b (b + bufsz) (qte cp) (delim cp)) as Hfin.
  premises Hfin.
  rewrite (Hfin _ _ t) in Hrun.
  - destruct (csv_line_reaches alloc_ok cp mem b bufsz _ _ ltac:(lia)
                (Hrun ltac:(eapply Forall_impl; [|exact Hc];
                            intros x Hx; now rewrite sp_std)
                      Hft
                      ltac:(intros ->; destruct Ht as [[_ ?]|[-> _]];
                            congruence)
                      ltac:(lia)))
      as (c' & Hline & Her).
    exists c'. split; [exact Hline|].
    assert (Hst : state c' = state (erase c')) by reflexivity.
    unfold counters. rewrite Hst, Her.
    cbn [reterr snd state set_state set_fldtop].
    rewrite fin_arrays_state, started_state. cbn.
    repeat split; try reflexivity. lia.
  - apply (ensure_ok alloc_ok (qte cp) (delim cp) Halloc (erase cp) 0 Hwf Hk).
    exact Hcfg.
  - exact Hrt.
  - destruct Ht as [[-> _]|[-> _]]; congruence.
  - destruct Ht as [[-> _]|[-> _]]; [congruence | discriminate].
  - cbn [ppp]. intros -> _. destruct Ht as [[Hq _]|(_ & _ & Hne)]; [congruence|].
    exact Hne.
Qed.

Lemma default_cp_std : cfg_std default_cp.
Proof. repeat split; try reflexivity; discriminate. Qed.

Lemma csv_line_crlf_expected_witness :
  line_view (csv_line always_ok default_cp
                      (txt "ab" ++ [DQUOTE] ++ txt "c,d" ++ [LF]) (Some 0) 7)
  = Some (-1, Some CSV_ECRLF, 3) /\
  exists c',
    csv_line always_ok default_cp
             (txt "ab" ++ [DQUOTE] ++ txt "c,d" ++ [LF]) (Some 0) 7
    = Some (-1, c') /\
    errnum (state c') = Some CSV_ECRLF /\
    efldnum (state c') = 1 /\
    echarnum (state c') = charnum (state default_cp) + zlen (txt "ab") + 1 /\
    counters c' = counters default_cp.
Proof.
  split; [reflexivity|].
  apply (csv_line_crlf_expected always_ok default_cp _ 0 7 (txt "ab") DQUOTE
                                default_cp_std default_cp_wf).
  - reflexivity.
  - reflexivity.
  - repeat constructor.
  - left. split; [reflexivity | discriminate].
  - vm_compute. reflexivity.
Defined.

(** X8: a quoted first field whose closing quote is followed by ordinary
    bytes before the next special byte makes [csv_line] return -1 with
    [CSV_EQUOTE]; the error record names field 0 and the offset of the
    closing quote, and the counters stay. *)
Theorem csv_line_bad_quote alloc_ok cp mem b bufsz c j t :
  cfg_std cp -> cp_wf cp -> (forall n, alloc_ok n = true) ->
  mem_has mem b (qte cp :: dbl (qte cp) c ++ [qte cp] ++ j ++ [t]) ->
  j <> [] -> Forall (fun x => is_std_special cp x = false) j ->
  is_std_special cp t = true ->
  1 + zlen (dbl (qte cp) c) + 1 + zlen j < bufsz ->
  exists c',
    csv_line alloc_ok cp mem (Some b) bufsz = Some (-1, c') /\
    errnum (state c') = Some CSV_EQUOTE /\
    efldnum (state c') = 0 /\
    echarnum (state c') = charnum (state cp) + 1 + zlen (dbl (qte cp) c) /\
    counters c' = counters cp.
Proof.
  intros Hstd Hwf Halloc Hmem Hj Hjf Ht Hsz.
  pose proof (zlen_nonneg (dbl (qte cp) c)) as Hnn.
  pose proof (zlen_nonneg j) as Hnj.
  destruct (std_run cp Hstd) as [Hf Hcfg].
  pose proof Hstd as (He & _ & _ & _ & Hqd & Hqc & Hql & Hdc & Hdl).
  set (L0 := {| ppp := b; cno := 0; nline := 0; fldv := b;
                quoted := false; l_escptr := None |}).
  assert (Hk : 0 <= cno L0 <= fldmax (erase cp))
    by (cbn; destruct Hwf; lia).
  pose proof (quoted_junk alloc_ok (sp_of (scan cp)) mem b (b + bufsz)
                          (qte cp) (delim cp)) as Hrun.
  premises Hrun.
  specialize (Hrun (erase cp) L0 b c j t Hcfg Hwf Hk eq_refl Hmem Hj).
  destruct (csv_line_reaches alloc_ok cp mem b bufsz _ _ ltac:(lia)
              (Hrun ltac:(eapply Forall_impl; [|exact Hjf];
                          intros x Hx; now rewrite sp_std)
                    ltac:(now rewrite sp_std)
                    ltac:(lia)))
    as (c' & Hline & Her).
  exists c'. split; [exact Hline|].
  assert (Hst : state c' = state (erase c')) by reflexivity.
  unfold counters. rewrite Hst, Her.
  cbn [reterr snd state set_state].
  rewrite started_state. cbn.
  repeat split; try reflexivity. lia.
Qed.

Lemma csv_line_bad_quote_witness :
  line_view (csv_line always_ok default_cp
                      ([DQUOTE] ++ txt "a" ++ [DQUOTE] ++ txt "bc,d" ++ [LF])
                      (Some 0) 8)
  = Some (-1, Some CSV_EQUOTE, 2) /\
  exists c',
    csv_line always_ok default_cp
             ([DQUOTE] ++ txt "a" ++ [DQUOTE] ++ txt "bc,d" ++ [LF])
             (Some 0) 8
    = Some (-1, c') /\
    errnum (state c') = Some CSV_EQUOTE /\
    efldnum (state c') = 0 /\
    echarnum (state c')
    = charnum (state default_cp) + 1 + zlen (dbl (qte default_cp) (txt "a")) /\
    counters c' = counters default_cp.
Proof.
  split; [reflexivity|].
  apply (csv_line_bad_quote always_ok default_cp _ 0 8 (txt "a") (txt "bc")
                            COMMA default_cp_std default_cp_wf).
  - reflexivity.
  - reflexivity.
  - discriminate.
  - repeat constructor.
  - reflexivity.
  - vm_compute. reflexivity.
Defined.

(** A strict prefix of a written row in the buffer: [csv_line] asks for
    more. *)
Lemma csv_line_prefix_zero alloc_ok cp mem b fd more crlf n :
  cfg_std cp -> cp_wf cp -> (forall n, alloc_ok n = true) ->
  Forall (fun fd => fst fd = false ->
                    Forall (fun x => is_std_special cp x = false) (snd fd))
         (fd :: more) ->
  (n < length (enc_row (qte cp) (delim cp) fd more crlf))%nat ->
  (crlf = true -> S n <> length (enc_row (qte cp) (delim cp) fd more crlf)) ->
  mem_has mem b (firstn n (enc_row (qte cp) (delim cp) fd more crlf)) ->
  exists c,
    csv_line alloc_ok cp mem (Some b) (Z.of_nat n) = Some (0, c) /\
    state c = state cp.
Proof.
  intros Hstd Hwf Halloc Hv Hn Hcr Hmem.
  destruct n as [|m].
  - exists cp. split; reflexivity.
  - destruct (std_run cp Hstd) as [Hf Hcfg].
    pose proof Hstd as (He & _ & _ & _ & Hqd & Hqc & Hql & Hdc & Hdl).
    set (L0 := {| ppp := b; cno := 0; nline := 0; fldv := b;
                  quoted := false; l_escptr := None |}).
    assert (Hk : 0 <= cno L0 <= fldmax (erase cp))
      by (cbn; destruct Hwf; lia).
    pose proof (prefix_run alloc_ok (sp_of (scan cp)) mem b
                           (b + Z.of_nat (S m)) (qte cp) (delim cp)) as Hrun.
    premises Hrun.
    destruct (Hrun crlf more fd b (erase cp) L0 (S m) Hcfg Hwf Hk eq_refl
                   Hn Hcr Hmem eq_refl) as (ca & Hr).
    { eapply Forall_impl; [|exact Hv]. intros a Ha Hq.
      eapply Forall_impl; [|exact (Ha Hq)]. intros x Hx.
      now rewrite sp_std. }
    destruct (csv_line_reaches alloc_ok cp mem b (Z.of_nat (S m)) _ _
                               ltac:(lia) Hr) as (c & Hline & _).
    exists c. split; [exact Hline|].
    pose proof (csv_line_post alloc_ok cp mem b (Z.of_nat (S m)) 0 c
                              ltac:(lia) Hline) as (_ & _ & H0 & _).
    now apply H0.
Qed.

(** X9: the incremental contract for rows that end in LF, and for rows
    that end in CR LF except at one cut.  When the buffer holds a strict
    prefix of a written row -- cut inside a field, inside quotes, behind a
    closing quote or behind a delimiter, but not between the CR and the LF
    of the line end -- [csv_line] returns 0 and leaves the [state] record
    as it was, and [csv_feed] hands back no row and leaves the block
    alone. *)
Theorem csv_line_prefix_incomplete alloc_ok cp mem b fd more crlf n :
  cfg_std cp -> cp_wf cp -> (forall n, alloc_ok n = true) ->
  Forall (fun fd => fst fd = false ->
                    Forall (fun x => is_std_special cp x = false) (snd fd))
         (fd :: more) ->
  (n < length (enc_row (qte cp) (delim cp) fd more crlf))%nat ->
  (crlf = true -> S n <> length (enc_row (qte cp) (delim cp) fd more crlf)) ->
  mem_has mem b (firstn n (enc_row (qte cp) (delim cp) fd more crlf)) ->
  exists c,
    csv_line alloc_ok cp mem (Some b) (Z.of_nat n) = Some (0, c) /\
    state c = state cp /\
    feed_view (csv_feed alloc_ok cp mem (Some b) (Z.of_nat n)) = Some (0, []) /\
    option_map f_mem (csv_feed alloc_ok cp mem (Some b) (Z.of_nat n))
    = Some mem.
Proof.
  intros Hstd Hwf Halloc Hv Hn Hcr Hmem.
  destruct (csv_line_prefix_zero alloc_ok cp mem b fd more crlf n
                                 Hstd Hwf Halloc Hv Hn Hcr Hmem)
    as (c & Hline & Hst).
  exists c. split; [exact Hline|]. split; [exact Hst|].
  rewrite (csv_feed_no_row _ _ _ _ _ _ _ Hline) by lia.
  split; reflexivity.
Qed.

Lemma csv_line_prefix_incomplete_witness :
  let fd := (true, txt "a" ++ [DQUOTE] ++ txt ",b") in
  let more := [(false, txt "cd")] in
  firstn 6 (enc_row (qte default_cp) (delim default_cp) fd more true)
  = [DQUOTE] ++ txt "a" ++ [DQUOTE; DQUOTE] ++ txt ",b" /\
  exists c,
    csv_line always_ok default_cp
             (firstn 6 (enc_row (qte default_cp) (delim default_cp)
                                fd more true))
             (Some 0) (Z.of_nat 6)
    = Some (0, c) /\
    state c = state default_cp /\
    feed_view (csv_feed always_ok default_cp
                        (firstn 6 (enc_row (qte default_cp) (delim default_cp)
                                           fd more true))
                        (Some 0) (Z.of_nat 6)) = Some (0, []) /\
    option_map f_mem
               (csv_feed always_ok default_cp
                         (firstn 6 (enc_row (qte default_cp)
                                            (delim default_cp) fd more true))
                         (Some 0) (Z.of_nat 6))
    = Some (firstn 6 (enc_row (qte default_cp) (delim default_cp)
                              fd more true)).
Proof.
  cbv zeta. split; [reflexivity|].
  apply (csv_line_prefix_incomplete
           always_ok default_cp _ 0 (true, txt "a" ++ [DQUOTE] ++ txt ",b")
           [(false, txt "cd")] true 6 default_cp_std default_cp_wf).
  - reflexivity.
  - repeat constructor; try discriminate.
  - vm_compute. lia.
  - intros _. vm_compute. discriminate.
  - reflexivity.
Defined.

(** ** The parser after a row: ready for the next one *)

Lemma scan_forward_loop_cfg mem fuel :
  forall sp b r sp',
    scan_forward_loop fuel mem sp b = Some (r, sp') ->
    scan_cfg sp' = scan_cfg sp.
Proof.
  induction fuel as [|fuel IH]; intros sp b r sp'; cbn [scan_forward_loop];
    [discriminate|].
  destruct (bmap sp =? 0).
  - destruct (b + 16 >=? sq sp); [now intros [= _ <-]|].
    intros H. apply IH in H. exact H.
  - now intros [= _ <-].
Qed.

Lemma scan_next_cfg mem sp o sp' :
  scan_next mem sp = Some (o, sp') -> scan_cfg sp' = scan_cfg sp.
Proof.
  unfold scan_next. destruct (bmap sp =? 0).
  - unfold scan_forward.
    destruct (scan_forward_loop _ mem sp (base sp)) as [[r s1]|] eqn:E;
      [|discriminate].
    apply scan_forward_loop_cfg in E.
    destruct (r =? 0); intros [= _ <-]; exact E.
  - now intros [= _ <-].
Qed.

Section LineCfg.
Variable alloc_ok : Z -> bool.
Variable mem : list byte.
Variables buf q : Z.

Lemma FINISH_cfg cp L :
  match FINISH mem buf q cp L with
  | Return _ c => scan_cfg (scan c) = scan_cfg (scan cp)
  | Goto _ c _ => scan_cfg (scan c) = scan_cfg (scan cp)
  end.
Proof.
  pose proof (FINISH_scan mem buf q cp L) as H.
  destruct (FINISH mem buf q cp L); now rewrite H.
Qed.

Lemma step_cfg l cp L j :
  csv_line_step alloc_ok mem buf q l cp L = Some j ->
  match j with
  | Return _ c => scan_cfg (scan c) = scan_cfg (scan cp)
  | Goto _ c _ => scan_cfg (scan c) = scan_cfg (scan cp)
  end.
Proof.
  destruct l; unfold csv_line_step.
  - assert (Hg : forall cp1, scan cp1 = scan cp ->
       match scan_next mem (scan (set_fld cp1 (zset (fld cp1) (cno L)
                                                    (Some (ppp L))))) with
       | Some (Some p, sc) =>
           if (p =? ppp L)
              && Byte.eqb (rd mem p)
                          (qte (set_scan (set_fld cp1 (zset (fld cp1) (cno L)
                                                            (Some (ppp L)))) sc))
           then Some (Goto QUOTED_VAL
                           (set_scan (set_fld cp1 (zset (fld cp1) (cno L)
                                                        (Some (ppp L)))) sc)
                           {| ppp := p; cno := cno L; nline := nline L;
                              fldv := ppp L;
                              quoted := (p =? ppp L)
                                        && Byte.eqb (rd mem p)
                                             (qte (set_scan (set_fld cp1 (zset (fld cp1) (cno L) (Some (ppp L)))) sc));
                              l_escptr := None |})
           else Some (FINISH mem buf q
                             (set_scan (set_fld cp1 (zset (fld cp1) (cno L)
                                                          (Some (ppp L)))) sc)
                             {| ppp := p; cno := cno L; nline := nline L;
                                fldv := ppp L;
                                quoted := (p =? ppp L)
                                          && Byte.eqb (rd mem p)
                                               (qte (set_scan (set_fld cp1 (zset (fld cp1) (cno L) (Some (ppp L)))) sc));
                                l_escptr := None |})
       | Some (None, sc) =>
           Some (Return 0 (set_scan (set_fld cp1 (zset (fld cp1) (cno L)
                                                       (Some (ppp L)))) sc))
       | None => None
       end = Some j ->
       match j with
       | Return _ c => scan_cfg (scan c) = scan_cfg (scan cp)
       | Goto _ c _ => scan_cfg (scan c) = scan_cfg (scan cp)
       end).
    { intros cp1 Hs. cbn [scan set_fld set_arrays]. rewrite Hs.
      destruct (scan_next mem (scan cp)) as [[[p|] sc]|] eqn:En;
        [| |discriminate].
      - apply scan_next_cfg in En.
        destruct (_ && _).
        + intros [= <-]. exact En.
        + intros [= <-].
          match goal with
          | |- context [FINISH mem buf q ?c ?l] =>
              pose proof (FINISH_cfg c l) as Hf;
              destruct (FINISH mem buf q c l); rewrite Hf; exact En
          end.
      - apply scan_next_cfg in En. intros [= <-]. exact En. }
    destruct (cno L >=? fldmax cp).
    + pose proof (expand_scan alloc_ok cp) as He.
      destruct (expand alloc_ok cp) as [r cp1]. cbn [snd] in He.
      destruct (r =? 0).
      * apply Hg. exact He.
      * intros [= <-]. cbn. now rewrite He.
    + apply Hg. reflexivity.
  - destruct (scan_next mem (scan cp)) as [[[p|] sc]|] eqn:En;
      [| |discriminate].
    2:{ apply scan_next_cfg in En. intros [= <-]. exact En. }
    apply scan_next_cfg in En. cbn [qte esc scan set_scan].
    destruct (Byte.eqb (rd mem p) (qte cp)).
    + destruct (scan_next mem sc) as [[[xp|] sc2]|] eqn:En2; [| |discriminate].
      2:{ apply scan_next_cfg in En2. intros [= <-]. cbn. congruence. }
      apply scan_next_cfg in En2.
      destruct (negb (xp =? p + 1)); [intros [= <-]; cbn; congruence|].
      destruct (_ && _); [intros [= <-]; cbn; congruence|].
      intros [= <-].
      match goal with
      | |- context [FINISH mem buf q ?c ?l] =>
          pose proof (FINISH_cfg c l) as Hf;
          destruct (FINISH mem buf q c l); rewrite Hf; cbn; congruence
      end.
    + destruct (Byte.eqb (rd mem p) (esc cp)).
      * destruct (p + 2 >=? q); intros [= <-]; cbn; exact En.
      * intros [= <-]. exact En.
Qed.

Lemma run_cfg fuel :
  forall j r c,
    csv_line_run alloc_ok fuel mem buf q j = Some (r, c) ->
    match j with
    | Return _ c0 => scan_cfg (scan c) = scan_cfg (scan c0)
    | Goto _ c0 _ => scan_cfg (scan c) = scan_cfg (scan c0)
    end.
Proof.
  induction fuel as [|fuel IH]; intros [r0 c0|l c0 L] r c; cbn [csv_line_run];
    try discriminate; try (now intros [= _ <-]).
  destruct (csv_line_step alloc_ok mem buf q l c0 L) as [j'|] eqn:Es;
    [|discriminate].
  intros H. apply IH in H. apply step_cfg in Es.
  destruct j'; congruence.
Qed.
End LineCfg.

Lemma csv_line_scan_cfg alloc_ok cp mem buf bufsz r c :
  csv_line alloc_ok cp mem buf bufsz = Some (r, c) ->
  scan_cfg (scan c) = scan_cfg (scan cp).
Proof.
  unfold csv_line. destruct buf as [b|].
  - destruct (bufsz <=? 0).
    + unfold reterr. destruct (bufsz =? 0); now intros [= _ <-].
    + intros H. apply run_cfg in H. exact H.
  - unfold reterr. destruct (bufsz =? 0); now intros [= _ <-].
Qed.

Lemma same_but_fld_wf c2 c1 :
  same_but_fld c2 c1 -> zlen (fld c2) = zlen (fld c1) -> cp_wf c1 -> cp_wf c2.
Proof.
  unfold same_but_fld, cp_wf. intros -> Hl. cbn in *. rewrite Hl. auto.
Qed.

Lemma cfg_std_next cp c :
  cfg_std cp -> cfg_eq c cp -> scan_cfg (scan c) = scan_cfg (scan cp) ->
  cfg_std c.
Proof.
  intros (He & Hs & Hm & Hl & Hrest) (Cq & Ce & Cd & _ & _ & _ & Cs) Hsc.
  unfold scan_cfg in Hsc. injection Hsc as Hsm Hsl.
  unfold cfg_std. rewrite Cq, Ce, Cd, Cs, Hsm, Hsl. auto.
Qed.

(** [csv_feed] on a block that holds a written row at [b]: the row comes
    back, the block changes inside the row only, and the parser is ready
    for the next row. *)
Lemma csv_feed_written alloc_ok cp mem b bufsz fd more crlf :
  cfg_std cp -> cp_wf cp -> nullstrsz cp = strlen (nullstr cp) ->
  (forall n, alloc_ok n = true) ->
  Forall (valid_field cp) (fd :: more) ->
  0 <= b ->
  mem_has mem b (enc_row (qte cp) (delim cp) fd more crlf) ->
  b + zlen (enc_row (qte cp) (delim cp) fd more crlf) <= zlen mem ->
  zlen (enc_row (qte cp) (delim cp) fd more crlf) <= bufsz ->
  exists r,
    csv_feed alloc_ok cp mem (Some b) bufsz = Some r /\
    f_ret r = zlen (enc_row (qte cp) (delim cp) fd more crlf) /\
    feed_row r = map (field_value cp) (fd :: more) /\
    f_fldmem r = f_mem r /\
    zlen (f_mem r) = zlen mem /\
    (forall k, k < b \/
               b + zlen (enc_row (qte cp) (delim cp) fd more crlf) <= k ->
               rd (f_mem r) k = rd mem k) /\
    cfg_std (f_cp r) /\ cp_wf (f_cp r) /\ cfg_eq (f_cp r) cp /\
    rownum (state (f_cp r)) = rownum (state cp) + 1.
Proof.
  intros Hstd Hwf Hsz Halloc Hv Hb0 Hmem Hin Hb.
  set (row := enc_row (qte cp) (delim cp) fd more crlf) in *.
  pose proof (zlen_enc_row (qte cp) (delim cp) fd more crlf) as Hpos.
  fold row in Hpos.
  assert (Hgt : 0 < bufsz) by lia.
  destruct (csv_line_row alloc_ok cp mem b bufsz fd more crlf
              Hstd Hwf Halloc Hv Hmem ltac:(fold row; lia))
    as (c1 & Hline & Htop & Hmax & Hfs).
  fold row in Hline.
  pose proof (csv_line_post alloc_ok cp mem b bufsz (zlen row) c1 Hgt Hline)
    as (Hcfg & _ & _ & _ & Hadv & Hpost).
  destruct (Hpost Hwf) as [Hwf1 _].
  destruct (csv_feed_row alloc_ok cp mem b bufsz (zlen row) c1
              Hwf Hgt Hline Hpos
              (row_text_cond cp c1 mem crlf more fd b Hstd Hcfg Hsz Hv Hb0
                             Hmem Hin Hfs Htop))
    as (c2 & mem' & Htu & Hfeed & Htop2 & Hlen & Hfr & Hsame & Hper).
  pose proof (csv_line_scan_cfg _ _ _ _ _ _ _ Hline) as Hsc.
  unfold touchup in Htu. pose proof (touchup_loop_fldlen _ _ _ _ _ _ Htu) as Hfl.
  assert (Hc2 : c2 = set_fld c1 (fld c2)) by exact Hsame.
  eexists. split; [exact Hfeed|]. split; [reflexivity|].
  cbn [f_fldmem f_mem f_cp].
  split.
  { unfold feed_row, row_of. cbn [f_fldmem f_field f_nfield].
    pose proof (zlen_nonneg more) as Hmn.
    assert (Hn : Z.to_nat (fldtop c2) = length (fd :: more)).
    { rewrite Htop2, Htop. unfold zlen. cbn [length]. lia. }
    rewrite Hn.
    rewrite (firstn_zget None)
      by (destruct Hwf1 as (_ & ? & _); unfold zlen in *;
          cbn [length] in *; lia).
    rewrite map_map.
    apply (map_seq_eq
             (fun a d => exists p, 0 <= p /\ d = desc (qte cp) p a /\
                                   valid_field cp a /\
                                   mem_has mem p (enc_field (qte cp) a) /\
                                   p + zlen (enc_field (qte cp) a) <= zlen mem)
             _ (field_value cp)
             (fun k => field_at c1 (0 + Z.of_nat k))
             (length (fd :: more))).
    - change (map (fun k => field_at c1 (0 + Z.of_nat k))
                  (seq 0 (length (fd :: more))))
        with (fields_from c1 0 (S (length more))).
      rewrite Hfs.
      apply (row_descs cp mem (zlen mem) crlf more fd b); auto.
    - intros k a (p & Hp & Hd & Ha & Hm & Hin') Hk.
      destruct (Hper (Z.of_nat k)) as [Hfld Htxt].
      { rewrite Htop. unfold zlen. cbn [length] in *. lia. }
      cbv zeta in Hfld, Htxt. cbn [Z.add] in Hd. rewrite Hd in Hfld, Htxt.
      destruct (field_read cp c1 mem p a Hstd Hcfg Hsz Ha Hp Hm Hin')
        as (Hnull & Htc & Hft & s & Hs & Hs0).
      cbv zeta in Hnull, Htc, Hft, Hs. rewrite Hfld.
      destruct (is_null_field c1 mem (desc (qte cp) p a)) eqn:En.
      + symmetry. now apply Hnull.
      + rewrite Hs. cbn [option_map].
        destruct (field_value_cases cp a) as [Hv0|Hv1].
        * apply Hnull in Hv0. congruence.
        * rewrite Hv1. f_equal.
          specialize (Htxt Htc s Hs). rewrite Hft in Htxt.
          apply field_done_cstring; auto.
          destruct Ha as [Hnn _]. rewrite Forall_forall in Hnn. exact Hnn.
    - cbn [Nat.add]. lia. }
  split; [reflexivity|]. split; [exact Hlen|]. split; [exact Hfr|].
  assert (Hcfg2 : cfg_eq c2 cp).
  { rewrite Hc2. exact Hcfg. }
  split.
  { apply (cfg_std_next cp c2 Hstd Hcfg2). rewrite Hc2. exact Hsc. }
  split; [apply (same_but_fld_wf c2 c1); auto|].
  split; [exact Hcfg2|].
  destruct (Hadv Hpos) as ((nl & _ & Hst) & _).
  rewrite Hc2. cbn [state set_fld set_arrays]. rewrite Hst. reflexivity.
Qed.

(** ** The last row of a stream, written without its line end *)

Lemma last_app_cons {A} (X : list A) a Y d :
  last (X ++ a :: Y) d = last (a :: Y) d.
Proof.
  induction X as [|x X IH]; [reflexivity|].
  cbn [app]. rewrite <- IH. cbn [last].
  destruct (X ++ a :: Y) eqn:E; [destruct X; discriminate | reflexivity].
Qed.

Lemma last_in {A} (l : list A) d : l <> [] -> In (last l d) l.
Proof.
  induction l as [|x l IH]; [congruence|]. intros _.
  destruct l as [|y l]; [now left|].
  right. apply IH. discriminate.
Qed.

Lemma rd_last l : l <> [] -> rd l (zlen l - 1) = last l NUL.
Proof.
  induction l as [|x l IH]; [congruence|]. intros _.
  destruct l as [|y l]; [reflexivity|].
  rewrite zlen_cons. pose proof (zlen_nonneg l) as Hl.
  assert (0 < zlen (y :: l)) by (rewrite zlen_cons; lia).
  unfold rd in *. rewrite zget_cons_pos by lia.
  replace (1 + zlen (y :: l) - 1 - 1) with (zlen (y :: l) - 1) by lia.
  rewrite IH by discriminate. reflexivity.
Qed.

Lemma enc_body_cons qt dl fd fd' more :
  enc_body qt dl fd (fd' :: more)
  = enc_field qt fd ++ dl :: enc_body qt dl fd' more.
Proof. reflexivity. Qed.

Lemma enc_row_body qt dl fd more crlf :
  enc_row qt dl fd more crlf = enc_body qt dl fd more ++ eol crlf.
Proof. unfold enc_row, enc_body. now rewrite app_assoc. Qed.

Lemma enc_body_last cp fd more :
  cfg_std cp ->
  Forall (fun fd => fst fd = false ->
                    Forall (fun x => is_std_special cp x = false) (snd fd))
         (fd :: more) ->
  enc_body (qte cp) (delim cp) fd more <> [] ->
  last (enc_body (qte cp) (delim cp) fd more) NUL <> LF.
Proof.
  intros (_ & _ & _ & _ & _ & _ & Hql & _ & Hdl).
  revert fd. induction more as [|fd' more IH]; intros fd Hv Hne;
    apply Forall_cons_iff in Hv; destruct Hv as [Hfd Hv].
  - unfold enc_body, enc_more in *. cbn [flat_map] in *.
    rewrite app_nil_r in *.
    destruct fd as [[|] c]; cbn [enc_field fst snd] in *.
    + change (qte cp :: dbl (qte cp) c ++ [qte cp])
        with ((qte cp :: dbl (qte cp) c) ++ [qte cp]).
      rewrite last_last. exact Hql.
    + pose proof (last_in c NUL Hne) as Hin.
      specialize (Hfd eq_refl). rewrite Forall_forall in Hfd.
      specialize (Hfd _ Hin). intros E. rewrite E in Hfd.
      unfold is_std_special in Hfd. cbn in Hfd.
      now rewrite !orb_true_r in Hfd.
  - rewrite enc_body_cons, last_app_cons.
    remember (enc_body (qte cp) (delim cp) fd' more) as Y eqn:E.
    destruct Y as [|y Y'].
    + exact Hdl.
    + change (last (delim cp :: y :: Y') NUL) with (last (y :: Y') NUL).
      rewrite E. apply IH; auto. rewrite <- E. discriminate.
Qed.

(** [csv_feed_last] on a written row that lacks its line end. *)
Lemma csv_feed_last_written alloc_ok cp mem b fd more :
  cfg_std cp -> cp_wf cp -> nullstrsz cp = strlen (nullstr cp) ->
  (forall n, alloc_ok n = true) ->
  Forall (valid_field cp) (fd :: more) ->
  0 < zlen (enc_body (qte cp) (delim cp) fd more) ->
  mem_has mem b (enc_body (qte cp) (delim cp) fd more) ->
  exists r,
    csv_feed_last alloc_ok cp mem b
                  (zlen (enc_body (qte cp) (delim cp) fd more)) = Some r /\
    f_ret r = zlen (enc_body (qte cp) (delim cp) fd more) /\
    feed_row r = map (field_value cp) (fd :: more) /\
    f_mem r = mem /\
    lastbuf (f_cp r) = Some (f_fldmem r).
Proof.
  intros Hstd Hwf Hsz Halloc Hv Hpos Hmem.
  set (body := enc_body (qte cp) (delim cp) fd more) in *.
  assert (Hne : body <> []) by (intros E; rewrite E in Hpos; cbn in Hpos; lia).
  assert (Hlast : rd mem (b + zlen body - 1) <> LF).
  { replace (b + zlen body - 1) with (b + (zlen body - 1)) by lia.
    rewrite (mem_has_rd _ _ _ _ Hmem) by lia.
    rewrite rd_last by exact Hne.
    apply enc_body_last; auto.
    eapply Forall_impl; [|exact Hv]. intros a [_ Ha]. exact Ha. }
  set (lb := memcpy_from mem b (zlen body) ++ [LF; NUL]).
  assert (Hlb : lb = [] ++ enc_row (qte cp) (delim cp) fd more false ++ [NUL]).
  { unfold lb. rewrite enc_row_body. fold body. unfold mem_has in Hmem.
    rewrite Hmem. cbn [app eol]. now rewrite <- app_assoc. }
  assert (Hrow : zlen (enc_row (qte cp) (delim cp) fd more false)
                 = zlen body + 1).
  { rewrite enc_row_body. fold body. now rewrite zlen_app. }
  assert (Hm' : mem_has lb 0 (enc_row (qte cp) (delim cp) fd more false)).
  { rewrite Hlb. apply (mem_has_middle [] _ [NUL]). }
  assert (Hin' : 0 + zlen (enc_row (qte cp) (delim cp) fd more false)
                 <= zlen lb).
  { rewrite Hlb, !zlen_app.
    change (zlen (@nil byte)) with 0. change (zlen [NUL]) with 1. lia. }
  destruct (csv_feed_written alloc_ok (set_lastbuf cp (Some lb)) lb 0
                             (zlen body + 1) fd more false
                             Hstd (set_lastbuf_wf cp _ Hwf) Hsz Halloc Hv
                             (Z.le_refl 0) Hm' Hin' ltac:(cbn; lia))
    as (r0 & Hfeed & Hret & Hrows & Hfm & _).
  cbn [qte delim set_lastbuf] in Hret.
  eexists. split.
  { unfold csv_feed_last.
    destruct (Z.ltb_spec (zlen body) 0); [lia|].
    destruct (Z.eqb_spec (zlen body) 0); [lia|].
    rewrite (byte_eqb_neq _ LF Hlast). cbn [negb].
    rewrite Halloc. cbn [negb]. fold lb. rewrite Hfeed. reflexivity. }
  cbn [f_ret f_mem f_cp f_fldmem lastbuf set_lastbuf].
  split.
  { rewrite Hret, Hrow. destruct (Z.ltb_spec 0 (zlen body + 1)); lia. }
  split; [|split; reflexivity].
  unfold feed_row. cbn [f_fldmem f_field f_nfield].
  rewrite <- Hfm. exact Hrows.
Qed.

(** X10: the last row of a stream, written without its line end, is read
    by [csv_feed_last]: the call consumes exactly the bytes given and hands
    back the fields of the row.  The caller's block is left as it was: the
    fields point into the copy the parser keeps in [lastbuf]. *)
Theorem csv_feed_last_unterminated alloc_ok cp mem b fd more :
  cfg_std cp -> cp_wf cp -> nullstrsz cp = strlen (nullstr cp) ->
  (forall n, alloc_ok n = true) ->
  Forall (valid_field cp) (fd :: more) ->
  0 < zlen (enc_body (qte cp) (delim cp) fd more) ->
  mem_has mem b (enc_body (qte cp) (delim cp) fd more) ->
  exists r,
    csv_feed_last alloc_ok cp mem b
                  (zlen (enc_body (qte cp) (delim cp) fd more)) = Some r /\
    f_ret r = zlen (enc_body (qte cp) (delim cp) fd more) /\
    feed_row r = map (field_value cp) (fd :: more) /\
    f_mem r = mem /\
    lastbuf (f_cp r) = Some (f_fldmem r).
Proof. exact (csv_feed_last_written alloc_ok cp mem b fd more). Qed.

Lemma csv_feed_last_unterminated_witness :
  let fd := (false, txt "ab") in
  let more := [(true, txt "c,d")] in
  enc_body (qte default_cp) (delim default_cp) fd more
  = txt "ab," ++ [DQUOTE] ++ txt "c,d" ++ [DQUOTE] /\
  exists r,
    csv_feed_last always_ok default_cp
                  (enc_body (qte default_cp) (delim default_cp) fd more) 0
                  (zlen (enc_body (qte default_cp) (delim default_cp) fd more))
    = Some r /\
    f_ret r = zlen (enc_body (qte default_cp) (delim default_cp) fd more) /\
    feed_row r = map (field_value default_cp) (fd :: more) /\
    f_mem r = enc_body (qte default_cp) (delim default_cp) fd more /\
    lastbuf (f_cp r) = Some (f_fldmem r).
Proof.
  cbv zeta. split; [reflexivity|].
  apply (csv_feed_last_unterminated always_ok default_cp _ 0
           (false, txt "ab") [(true, txt "c,d")]
           default_cp_std default_cp_wf).
  - reflexivity.
  - reflexivity.
  - repeat constructor; try discriminate; try reflexivity.
  - vm_compute. reflexivity.
  - reflexivity.
Defined.

(** ** Opening a parser *)

(** X11: [csv_open] fails exactly when its allocation is refused.  Opened
    with escape 0 or with the escape equal to the quote, it returns a parser
    in the doubling convention ([esc = qte]) with the defaults filled in
    (quote 34 and delimiter 44 for 0), no field slots, zeroed counters and
    no error; when quote and delimiter differ and neither is CR or LF, this
    parser meets everything the row theorems above ask of a parser. *)
Theorem csv_open_config alloc_ok q0 e0 d0 ns :
  let q := char_of_int (if q0 =? 0 then 34 else q0) in
  let d := char_of_int (if d0 =? 0 then 44 else d0) in
  (csv_open alloc_ok q0 e0 d0 ns = None <->
   alloc_ok sizeof_csv_parse_t = false) /\
  (e0 = 0 \/ e0 = q0 ->
   forall cp, csv_open alloc_ok q0 e0 d0 ns = Some cp ->
     qte cp = q /\ esc cp = q /\ delim cp = d /\
     cp_wf cp /\ fldmax cp = 0 /\ fldtop cp = 0 /\
     nullstrsz cp = strlen (nullstr cp) /\
     counters cp = (0, 0, 0, 0) /\ errnum (state cp) = None /\
     lastbuf cp = None /\
     (q <> d -> q <> CR -> q <> LF -> d <> CR -> d <> LF -> cfg_std cp)).
Proof.
  cbv zeta. unfold csv_open.
  destruct (alloc_ok sizeof_csv_parse_t); cbn [negb].
  - split; [split; discriminate|].
    intros He cp [= <-].
    assert (Hesc : (if e0 =? 0 then if q0 =? 0 then 34 else q0 else e0)
                   = (if q0 =? 0 then 34 else q0)).
    { destruct He as [->| ->]; [reflexivity|].
      destruct (Z.eqb_spec q0 0) as [->|]; reflexivity. }
    rewrite Hesc.
    split; [reflexivity|]. split; [reflexivity|]. split; [reflexivity|].
    split; [unfold cp_wf, zlen; cbn [fldmax fld escptr len length]; lia|].
    split; [reflexivity|]. split; [reflexivity|]. split; [reflexivity|].
    split; [reflexivity|]. split; [reflexivity|]. split; [reflexivity|].
    intros H1 H2 H3 H4 H5. unfold cfg_std.
    cbn [esc qte delim scan_escaped_string scan smatch matchlen].
    repeat split; auto.
  - split; [split; auto|]. intros _ cp. discriminate.
Qed.

Lemma csv_open_config_witness :
  exists cp,
    csv_open always_ok 39 0 59 (Some (txt "NA")) = Some cp /\
    qte cp = char_of_int 39 /\ esc cp = char_of_int 39 /\
    delim cp = char_of_int 59 /\
    cp_wf cp /\ fldmax cp = 0 /\ fldtop cp = 0 /\
    nullstrsz cp = strlen (nullstr cp) /\
    counters cp = (0, 0, 0, 0) /\ errnum (state cp) = None /\
    lastbuf cp = None /\ cfg_std cp.
Proof.
  eexists. split; [reflexivity|].
  destruct (proj2 (csv_open_config always_ok 39 0 59 (Some (txt "NA")))
                  (or_introl eq_refl) _ eq_refl)
    as (H1 & H2 & H3 & H4 & H5 & H6 & H7 & H8 & H9 & H10 & H11).
  repeat (split; [assumption|]).
  apply H11; discriminate.
Defined.

(** ** The driver over a stream of written rows *)

Lemma valid_field_cfg c cp fd :
  cfg_eq c cp -> valid_field cp fd -> valid_field c fd.
Proof.
  intros (Cq & _ & Cd & _) [H1 H2]. split; [exact H1|].
  intros Hq. specialize (H2 Hq). eapply Forall_impl; [|exact H2].
  intros x Hx. unfold is_std_special in *. now rewrite Cq, Cd.
Qed.

Lemma field_value_cfg c cp fd :
  cfg_eq c cp -> field_value c fd = field_value cp fd.
Proof.
  intros (Cq & _ & _ & Cn & _). unfold field_value. now rewrite Cq, Cn.
Qed.

Lemma ready_refl cp :
  cfg_std cp -> cp_wf cp -> nullstrsz cp = strlen (nullstr cp) -> ready cp cp.
Proof. intros. split; [auto|]. split; [auto|]. split; [apply cfg_eq_refl | auto]. Qed.

Lemma mem_has_ext mem mem' pos l :
  mem_has mem pos l ->
  (forall k, pos <= k -> rd mem' k = rd mem k) ->
  mem_has mem' pos l.
Proof.
  intros H Hext. apply mem_has_intro. intros j Hj.
  rewrite Hext by lia. now apply mem_has_rd.
Qed.

(** [csv_feed] on the bytes of a row that is not complete yet. *)
Lemma csv_feed_pending alloc_ok cp0 cp mem p lo r :
  ready cp0 cp -> (forall n, alloc_ok n = true) ->
  valid_row cp0 r ->
  (length lo < length (enc_src_row (qte cp0) (delim cp0) r))%nat ->
  lo = firstn (length lo) (enc_src_row (qte cp0) (delim cp0) r) ->
  (snd r = true -> S (length lo) <> length (enc_src_row (qte cp0) (delim cp0) r)) ->
  mem_has mem p lo ->
  exists c,
    csv_feed alloc_ok cp mem (Some p) (zlen lo)
    = Some {| f_ret := 0; f_cp := c; f_mem := mem; f_fldmem := mem;
              f_field := None; f_nfield := 0 |} /\
    ready cp0 c /\ state c = state cp.
Proof.
  intros (Hstd & Hwf & Hcfg & Hsz) Halloc Hv Hn Hlo Hcr Hmem.
  pose proof Hcfg as (Cq & _ & Cd & _).
  destruct r as [[fd more] crlf]. unfold enc_src_row in *.
  cbn [fst snd] in *. rewrite <- Cq, <- Cd in *.
  destruct (csv_line_prefix_zero alloc_ok cp mem p fd more crlf (length lo)
                                 Hstd Hwf Halloc)
    as (c & Hline & Hst); auto.
  { eapply Forall_impl; [|exact Hv]. intros a Ha.
    apply (valid_field_cfg cp cp0 a Hcfg) in Ha. apply Ha. }
  { now rewrite <- Hlo. }
  exists c. split; [apply csv_feed_no_row; [exact Hline | lia]|].
  split; [|exact Hst].
  destruct (Z.eq_dec (zlen lo) 0) as [Hz|Hz].
  - unfold zlen in Hline. unfold csv_line in Hline.
    replace (Z.of_nat (length lo)) with 0 in Hline by (unfold zlen in Hz; lia).
    cbn in Hline. injection Hline as <-.
    exact (conj Hstd (conj Hwf (conj Hcfg Hsz))).
  - pose proof (zlen_nonneg lo).
    pose proof (csv_line_post alloc_ok cp mem p (zlen lo) 0 c ltac:(lia) Hline)
      as (Hc & _ & _ & _ & _ & Hpost).
    destruct (Hpost Hwf) as [Hwf1 _].
    pose proof (csv_line_scan_cfg _ _ _ _ _ _ _ Hline) as Hsc.
    split; [apply (cfg_std_next cp c); auto|].
    split; [exact Hwf1|].
    split; [eapply cfg_eq_trans; eauto|].
    destruct Hc as (_ & _ & _ & -> & -> & _). exact Hsz.
Qed.

Lemma enc_rows_cons qt dl r rs :
  enc_rows qt dl (r :: rs) = enc_src_row qt dl r ++ enc_rows qt dl rs.
Proof. reflexivity. Qed.

Lemma zlen_enc_src_row qt dl r : 0 < zlen (enc_src_row qt dl r).
Proof. destruct r as [[fd more] crlf]. apply zlen_enc_row. Qed.

(** The inner loop of the driver: it hands every complete row of the
    buffer to [on_row] and stops at the start of the row that is not
    complete. *)
Lemma feed_rows_stream alloc_ok cp0 :
  (forall n, alloc_ok n = true) ->
  forall rs1 fuel cp mem p q h lo rs2,
    ready cp0 cp ->
    Forall (valid_row cp0) rs1 -> Forall (valid_row cp0) rs2 ->
    pending (qte cp0) (delim cp0) lo rs2 ->
    0 <= p ->
    mem_has mem p (enc_rows (qte cp0) (delim cp0) rs1 ++ lo) ->
    q = p + zlen (enc_rows (qte cp0) (delim cp0) rs1 ++ lo) ->
    q <= zlen mem ->
    (length rs1 < fuel)%nat ->
    exists cp' mem' h',
      feed_rows alloc_ok tape tape_row tape_error fuel cp mem p q h
      = Some (RowsDone tape cp' mem'
                       (p + zlen (enc_rows (qte cp0) (delim cp0) rs1)) h') /\
      ready cp0 cp' /\
      mem_has mem' (p + zlen (enc_rows (qte cp0) (delim cp0) rs1)) lo /\
      zlen mem' = zlen mem /\
      chunks h' = chunks h /\ errors h' = errors h /\
      map snd (rows h') = map snd (rows h) ++ map (row_values cp0) rs1.
Proof.
  intros Halloc.
  induction rs1 as [|r rs1 IH];
    intros fuel cp mem p q h lo rs2 Hready Hv1 Hv2 Hpend Hp Hmem Hq Hin Hfuel;
    (destruct fuel as [|fuel]; [cbn in Hfuel; lia|]); cbn [feed_rows].
  - cbn [enc_rows flat_map app] in *. change (zlen (@nil byte)) with 0.
    replace (p + 0) with p by lia.
    pose proof (zlen_nonneg lo) as Hlo.
    destruct (Z.ltb_spec p q) as [Hlt|Hge].
    + destruct Hpend as [->|(r & rs' & -> & Hn & Hfirst & Hcr)];
        [change (zlen (@nil byte)) with 0 in Hq; lia|].
      apply Forall_cons_iff in Hv2. destruct Hv2 as [Hvr _].
      destruct (csv_feed_pending alloc_ok cp0 cp mem p lo r
                                 Hready Halloc Hvr Hn Hfirst Hcr Hmem)
        as (c & Hfeed & Hrc & _).
      replace (q - p) with (zlen lo) by lia. rewrite Hfeed.
      cbn [f_ret f_cp f_mem]. cbn [Z.leb Z.eqb Z.compare].
      exists c, mem, h. rewrite app_nil_r.
      split; [reflexivity|]. split; [exact Hrc|]. split; [exact Hmem|].
      repeat split; reflexivity.
    + exists cp, mem, h. rewrite app_nil_r.
      split; [reflexivity|]. split; [exact Hready|]. split; [exact Hmem|].
      repeat split; reflexivity.
  - rewrite enc_rows_cons in *. rewrite <- app_assoc in Hmem, Hq.
    rewrite zlen_app in *.
    apply Forall_cons_iff in Hv1. destruct Hv1 as [Hvr Hv1].
    pose proof (zlen_enc_src_row (qte cp0) (delim cp0) r) as Hrpos.
    pose proof (zlen_nonneg (enc_rows (qte cp0) (delim cp0) rs1)) as Hn1.
    pose proof (zlen_nonneg (enc_rows (qte cp0) (delim cp0) rs1 ++ lo)) as Hn2.
    pose proof (zlen_nonneg lo) as Hlo.
    destruct Hready as (Hstd & Hwf & Hcfg & Hsz).
    pose proof Hcfg as (Cq & _ & Cd & _).
    destruct r as [[fd more] crlf]. unfold enc_src_row in *.
    cbn [fst snd] in *. unfold valid_row, row_fields in Hvr. cbn [fst snd] in Hvr.
    apply mem_has_app in Hmem. destruct Hmem as [Hm1 Hm2].
    rewrite <- Cq, <- Cd in Hm1.
    destruct (csv_feed_written alloc_ok cp mem p (q - p) fd more crlf
                               Hstd Hwf Hsz Halloc)
      as (r0 & Hfeed & Hret & Hrow & Hfm & Hlen & Hfr & Hstd' & Hwf' & Hcfg'
          & Hrn); auto.
    { eapply Forall_impl; [|exact Hvr]. intros a. apply valid_field_cfg. exact Hcfg. }
    { rewrite Cq, Cd. lia. }
    { rewrite Cq, Cd. lia. }
    rewrite Cq, Cd in Hret, Hfr.
    destruct (Z.ltb_spec p q); [|lia].
    rewrite Hfeed.
    destruct (Z.leb_spec (f_ret r0) 0); [lia|].
    unfold tape_row at 1.
    destruct (IH fuel (f_cp r0) (f_mem r0) (p + f_ret r0) q
                 {| chunks := chunks h;
                    rows := rows h ++ [(rownum (state (f_cp r0)), feed_row r0)];
                    errors := errors h |} lo rs2)
      as (cp' & mem' & h' & Hrun & Hready' & Hmem' & Hlen' & Hch & Her & Hrows);
      auto.
    { split; [exact Hstd'|]. split; [exact Hwf'|].
      split; [eapply cfg_eq_trans; eauto|].
      destruct Hcfg' as (_ & _ & _ & -> & -> & _). exact Hsz. }
    { lia. }
    { rewrite Hret. apply (mem_has_ext mem); [exact Hm2|].
      intros k Hk. apply Hfr. lia. }
    { rewrite Hret. lia. }
    { lia. }
    { cbn in Hfuel. lia. }
    exists cp', mem', h'. rewrite Hrun.
    rewrite Hret in *.
    split; [f_equal; f_equal; lia|].
    split; [exact Hready'|].
    split; [replace (p + (zlen (enc_row (qte cp0) (delim cp0) fd more crlf)
                          + zlen (enc_rows (qte cp0) (delim cp0) rs1)))
              with (p + zlen (enc_row (qte cp0) (delim cp0) fd more crlf)
                    + zlen (enc_rows (qte cp0) (delim cp0) rs1)) by lia;
            exact Hmem'|].
    split; [lia|]. split; [exact Hch|]. split; [exact Her|].
    rewrite Hrows. cbn [rows]. rewrite map_app. cbn [map snd].
    rewrite <- app_assoc. cbn [app]. f_equal. f_equal.
    unfold row_values, row_fields. cbn [fst snd].
    rewrite Hrow. apply map_ext. intros a. now apply field_value_cfg.
Qed.

Lemma enc_rows_app qt dl rs1 rs2 :
  enc_rows qt dl (rs1 ++ rs2) = enc_rows qt dl rs1 ++ enc_rows qt dl rs2.
Proof. unfold enc_rows. apply flat_map_app. Qed.

Lemma length_le_enc_rows qt dl rs :
  Z.of_nat (length rs) <= zlen (enc_rows qt dl rs).
Proof.
  induction rs as [|r rs IH]; [reflexivity|].
  rewrite enc_rows_cons, zlen_app. cbn [length].
  pose proof (zlen_enc_src_row qt dl r). lia.
Qed.

(** What has arrived splits into complete rows and the start of the next
    one. *)
Lemma split_stream qt dl :
  forall rs B X,
    B ++ X = enc_rows qt dl rs ->
    exists rs1 rs2 lo,
      rs = rs1 ++ rs2 /\ B = enc_rows qt dl rs1 ++ lo /\
      lo ++ X = enc_rows qt dl rs2 /\
      (lo = [] \/
       exists r rs', rs2 = r :: rs' /\
                     (length lo < length (enc_src_row qt dl r))%nat /\
                     lo = firstn (length lo) (enc_src_row qt dl r)).
Proof.
  induction rs as [|r rs IH]; intros B X H.
  - cbn in H. apply app_eq_nil in H. destruct H as [-> ->].
    exists [], [], []. repeat split; auto.
  - rewrite enc_rows_cons in H.
    destruct (app_eq_app _ _ _ _ H) as (l & [[HB HX]|[HB HX]]).
    + destruct (IH l X (eq_sym HX)) as (rs1 & rs2 & lo & -> & -> & Hlo & Hp).
      exists (r :: rs1), rs2, lo. rewrite enc_rows_cons, <- app_assoc.
      repeat split; auto.
    + destruct l as [|y l].
      * rewrite app_nil_r in HB. cbn [app] in HX. subst X.
        exists [r], rs, []. cbn [enc_rows flat_map app].
        rewrite !app_nil_r. repeat split; auto.
      * exists [], (r :: rs), B. cbn [enc_rows flat_map app].
        split; [reflexivity|]. split; [reflexivity|].
        split; [rewrite H; reflexivity|]. right.
        exists r, rs. split; [reflexivity|].
        rewrite HB, length_app. cbn [length]. split; [lia|].
        rewrite firstn_app, firstn_all, Nat.sub_diag. cbn [firstn].
        now rewrite app_nil_r.
Qed.

Lemma last_app_r {A} (X Y : list A) d : Y <> [] -> last (X ++ Y) d = last Y d.
Proof.
  destruct Y as [|y Y]; [congruence|]. intros _. apply last_app_cons.
Qed.

(** A start of a CR LF row that lacks only the LF ends in CR. *)
Lemma cut_before_lf qt dl r lo :
  snd r = true ->
  S (length lo) = length (enc_src_row qt dl r) ->
  lo = firstn (length lo) (enc_src_row qt dl r) ->
  last lo NUL = CR.
Proof.
  destruct r as [[fd more] crlf]. unfold enc_src_row. cbn [fst snd].
  intros -> Hlen Hlo. rewrite enc_row_body in *. cbn [eol] in *.
  rewrite length_app in Hlen. cbn [length] in Hlen.
  rewrite Hlo.
  replace (length lo) with (length (enc_body qt dl fd more) + 1)%nat by lia.
  rewrite firstn_app, firstn_all2 by lia.
  replace (length (enc_body qt dl fd more) + 1
           - length (enc_body qt dl fd more))%nat with 1%nat by lia.
  cbn [firstn]. apply last_last.
Qed.

Lemma pending_intro qt dl lo rs2 :
  (lo = [] \/
   exists r rs', rs2 = r :: rs' /\
                 (length lo < length (enc_src_row qt dl r))%nat /\
                 lo = firstn (length lo) (enc_src_row qt dl r)) ->
  (lo <> [] -> last lo NUL <> CR) ->
  pending qt dl lo rs2.
Proof.
  intros [->|(r & rs' & -> & Hn & Hlo)] Hcr; [now left|].
  destruct lo as [|x lo]; [now left|]. right.
  exists r, rs'. repeat split; auto.
  intros Hs Hl. apply Hcr; [discriminate|].
  now apply (cut_before_lf qt dl r).
Qed.

Lemma scan_loop_shift alloc_ok fuel bufsz cp mem p q h :
  0 <= p <= q ->
  scan_loop alloc_ok tape tape_fill tape_row tape_error fuel bufsz cp mem p q h
  = scan_loop alloc_ok tape tape_fill tape_row tape_error fuel bufsz cp
              (memcpy_from mem p (q - p)) 0 (q - p) h.
Proof.
  intros Hpq. destruct (Z.eq_dec p 0) as [->|Hne].
  - replace (q - 0) with q by lia.
    destruct fuel as [|fuel]; [reflexivity|]. cbn [scan_loop Z.eqb negb].
    replace (memcpy_from (memcpy_from mem 0 q) 0 q) with (memcpy_from mem 0 q);
      [reflexivity|].
    transitivity (memcpy_from (memcpy_from mem 0 q) 0
                              (zlen (memcpy_from mem 0 q))).
    + now rewrite memcpy_from_self.
    + f_equal. apply memcpy_from_zlen. lia.
  - destruct fuel as [|fuel]; [reflexivity|]. cbn [scan_loop].
    destruct (Z.eqb_spec p 0); [contradiction|]. cbn [Z.eqb negb]. reflexivity.
Qed.

(** No row is left once the bytes still due are none. *)
Lemma pending_done qt dl lo rs :
  lo = enc_rows qt dl rs -> pending qt dl lo rs -> lo = [] /\ rs = [].
Proof.
  intros Hstream [->|(r & rs' & -> & Hn & Hfirst & _)].
  - split; [reflexivity|]. destruct rs as [|r rs]; [reflexivity|].
    rewrite enc_rows_cons in Hstream.
    pose proof (zlen_enc_src_row qt dl r) as Hp.
    apply (f_equal (@length byte)) in Hstream.
    rewrite length_app in Hstream. unfold zlen in Hp. cbn in Hstream. lia.
  - rewrite enc_rows_cons in Hstream.
    apply (f_equal (@length byte)) in Hstream.
    rewrite length_app in Hstream. lia.
Qed.

(** The outer loop of the driver over the chunks still to come: every
    complete row of the stream reaches [on_row], in order, whatever the
    chunking; [X] is what the stream lacks to end with a complete row. *)
Lemma scan_loop_stream alloc_ok cp0 bufsz :
  (forall n, alloc_ok n = true) ->
  forall cs fuel cp lo h rs X,
    ready cp0 cp -> chunks h = cs ->
    lo ++ concat cs ++ X = enc_rows (qte cp0) (delim cp0) rs ->
    pending (qte cp0) (delim cp0) lo rs ->
    Forall (valid_row cp0) rs ->
    Forall (fun c => c <> []) cs ->
    Forall (fun c => last c NUL <> CR) cs ->
    zlen lo + zlen (concat cs) < bufsz ->
    (length cs < fuel)%nat ->
    exists cp' h' rsA rsB lo',
      rs = rsA ++ rsB /\
      scan_loop alloc_ok tape tape_fill tape_row tape_error fuel bufsz
                cp lo 0 (zlen lo) h
      = Some (LoopEof tape cp' lo' 0 (zlen lo') h') /\
      ready cp0 cp' /\
      lo' ++ X = enc_rows (qte cp0) (delim cp0) rsB /\
      pending (qte cp0) (delim cp0) lo' rsB /\
      errors h' = errors h /\
      map snd (rows h') = map snd (rows h) ++ map (row_values cp0) rsA.
Proof.
  intros Halloc.
  induction cs as [|c cs IH];
    intros fuel cp lo h rs X Hready Hch Hstream Hpend Hv Hne Hcr Hsz Hfuel;
    (destruct fuel as [|fuel]; [cbn in Hfuel; lia|]);
    pose proof (zlen_nonneg lo) as Hlo0.
  - (* the source is exhausted *)
    cbn [concat app] in *. change (zlen (@nil byte)) with 0 in Hsz.
    cbn [scan_loop Z.eqb negb]. replace (zlen lo - 0) with (zlen lo) by lia.
    destruct (Z.eqb_spec (zlen lo) bufsz); [lia|].
    unfold tape_fill at 1. rewrite Hch.
    change (0 <? 0) with false. cbn iota.
    change (0 =? 0) with true. cbn iota.
    rewrite memcpy_from_self. change (memcpy_from [] 0 0) with (@nil byte).
    rewrite app_nil_r. replace (zlen lo + 0) with (zlen lo) by lia.
    destruct (feed_rows_stream alloc_ok cp0 Halloc []
                (Z.to_nat (zlen lo - 0) + 1) cp lo 0 (zlen lo) h lo rs
                Hready (Forall_nil _) Hv Hpend (Z.le_refl 0))
      as (cp' & mem' & h' & Hrun & Hready' & Hmem' & Hlen' & Hch' & Her'
          & Hrows').
    { apply memcpy_from_self. }
    { reflexivity. }
    { lia. }
    { cbn [length]. lia. }
    rewrite Hrun. cbn [enc_rows flat_map] in *.
    change (zlen (@nil byte)) with 0 in *. change (0 + 0) with 0 in *.
    assert (Hm : mem' = lo).
    { unfold mem_has in Hmem'. rewrite <- Hlen' in Hmem'.
      now rewrite memcpy_from_self in Hmem'. }
    subst mem'.
    exists cp', h', [], rs, lo. split; [reflexivity|].
    split; [reflexivity|]. split; [exact Hready'|]. split; [exact Hstream|].
    split; [exact Hpend|]. split; [exact Her'|].
    rewrite Hrows'. reflexivity.
  - (* one more chunk *)
    apply Forall_cons_iff in Hne. destruct Hne as [Hc Hne].
    apply Forall_cons_iff in Hcr. destruct Hcr as [Hccr Hcr].
    cbn [concat] in Hstream, Hsz. rewrite zlen_app in Hsz.
    pose proof (zlen_nonneg c) as Hc0.
    pose proof (zlen_nonneg (concat cs)) as Hcs0.
    assert (Hcpos : 0 < zlen c).
    { destruct c; [congruence|]. rewrite zlen_cons.
      pose proof (zlen_nonneg c). lia. }
    cbn [scan_loop Z.eqb negb]. replace (zlen lo - 0) with (zlen lo) by lia.
    destruct (Z.eqb_spec (zlen lo) bufsz); [lia|].
    unfold tape_fill at 1. rewrite Hch.
    destruct (Z.ltb_spec (zlen c) 0); [lia|].
    destruct (Z.eqb_spec (zlen c) 0); [lia|].
    rewrite !memcpy_from_self.
    rewrite <- app_assoc in Hstream. rewrite app_assoc in Hstream.
    destruct (split_stream (qte cp0) (delim cp0) rs (lo ++ c) (concat cs ++ X)
                           Hstream)
      as (rs1 & rs2 & lo' & -> & HB & Hrest & Hp).
    apply Forall_app in Hv. destruct Hv as [Hv1 Hv2].
    assert (Hpend' : pending (qte cp0) (delim cp0) lo' rs2).
    { apply pending_intro; [exact Hp|]. intros Hlo'.
      replace (last lo' NUL) with (last (lo ++ c) NUL).
      - now rewrite last_app_r.
      - rewrite HB. now apply last_app_r. }
    set (h1 := {| chunks := cs; rows := rows h; errors := errors h |}).
    pose proof (zlen_nonneg (enc_rows (qte cp0) (delim cp0) rs1)) as Hr1.
    pose proof (zlen_nonneg lo') as Hlo'0.
    assert (Hlen : zlen lo + zlen c
                   = zlen (enc_rows (qte cp0) (delim cp0) rs1) + zlen lo').
    { rewrite <- !zlen_app. now rewrite HB. }
    destruct (feed_rows_stream alloc_ok cp0 Halloc rs1
                (Z.to_nat (zlen lo + zlen c - 0) + 1) cp (lo ++ c) 0
                (zlen lo + zlen c) h1 lo' rs2 Hready Hv1 Hv2 Hpend')
      as (cp' & mem' & h' & Hrun & Hready' & Hmem' & Hlen' & Hch' & Her'
          & Hrows'); try lia.
    { rewrite <- HB. apply memcpy_from_self. }
    { rewrite zlen_app. lia. }
    { rewrite zlen_app. lia. }
    { pose proof (length_le_enc_rows (qte cp0) (delim cp0) rs1). lia. }
    rewrite Hrun.
    rewrite scan_loop_shift by lia.
    replace (zlen lo + zlen c
             - (0 + zlen (enc_rows (qte cp0) (delim cp0) rs1)))
      with (zlen lo') by lia.
    unfold mem_has in Hmem'. rewrite Hmem'.
    destruct (IH fuel cp' lo' h' rs2 X Hready' Hch' Hrest Hpend' Hv2 Hne Hcr)
      as (cp2 & h2 & rsA & rsB & lo2 & -> & Hloop & Hready2 & Hrest2 & Hpend2
          & Her2 & Hrows2).
    { assert (Hle : zlen lo' <= zlen lo + zlen c) by lia. lia. }
    { cbn in Hfuel. lia. }
    exists cp2, h2, (rs1 ++ rsA), rsB, lo2.
    split; [now rewrite app_assoc|]. split; [exact Hloop|].
    split; [exact Hready2|]. split; [exact Hrest2|]. split; [exact Hpend2|].
    split; [rewrite Her2, Her'; reflexivity|].
    rewrite Hrows2, Hrows'. cbn [rows h1].
    now rewrite map_app, app_assoc.
Qed.

(** X12: the driver [csv_scan] with the default configuration, over a
    stream of written rows that arrives in chunks of any sizes: when no
    chunk is empty, none ends in a CR byte and the stream is shorter than
    the buffer, the driver returns 0, reports no error, and has called
    [on_row] once for each row of the stream, in order, with the fields of
    that row -- the same rows as when the stream arrives in one piece. *)
Theorem csv_scan_stream cs rs :
  Forall (valid_row default_cp) rs ->
  Forall (fun c => c <> []) cs ->
  Forall (fun c => last c NUL <> CR) cs ->
  concat cs = enc_rows DQUOTE COMMA rs ->
  zlen (concat cs) < 1024 * 1024 ->
  scan_view (scan_chunks always_ok cs)
  = Some (0, map (row_values default_cp) rs, []).
Proof.
  intros Hv Hne Hcr Hstream Hsz.
  unfold scan_chunks, csv_scan.
  cbn [always_ok negb].
  change (csv_open always_ok 0 0 0 None) with open_default.
  rewrite open_default_eq.
  set (h0 := {| chunks := cs; rows := []; errors := [] |}).
  assert (Hready : ready default_cp default_cp).
  { apply ready_refl; [apply default_cp_std | apply default_cp_wf | reflexivity]. }
  assert (Hsz' : zlen (@nil byte) + zlen (concat cs) < 1024 * 1024).
  { change (zlen (@nil byte)) with 0. lia. }
  assert (Hs : [] ++ concat cs ++ [] = enc_rows (qte default_cp)
                                                (delim default_cp) rs).
  { cbn [app]. rewrite app_nil_r. exact Hstream. }
  destruct (scan_loop_stream always_ok default_cp (1024 * 1024)
              (fun _ => eq_refl) cs (length cs + 1) default_cp [] h0 rs []
              Hready eq_refl Hs (or_introl eq_refl) Hv Hne Hcr Hsz'
              ltac:(lia))
    as (cp' & h' & rsA & rsB & lo' & -> & Hloop & _ & Hrest & Hpend & Her
        & Hrows).
  rewrite app_nil_r in Hrest.
  destruct (pending_done _ _ _ _ Hrest Hpend) as [-> ->].
  change (zlen (@nil byte)) with 0 in Hloop. rewrite Hloop.
  rewrite Z.ltb_irrefl, Z.eqb_refl. cbn [negb scan_view option_map].
  rewrite Hrows, Her, app_nil_r. reflexivity.
Qed.

(** The stream [a] CR LF [b,c] CR LF of two rows, cut behind the first
    byte and behind the first LF. *)
Lemma csv_scan_stream_witness :
  let rs := [((false, txt "a"), [], true);
             ((false, txt "b"), [(false, txt "c")], true)] in
  let cs := [txt "a"; [CR; LF]; txt "b,c" ++ [CR; LF]] in
  map (row_values default_cp) rs
  = [[Some (txt "a")]; [Some (txt "b"); Some (txt "c")]] /\
  scan_view (scan_chunks always_ok cs)
  = Some (0, map (row_values default_cp) rs, []).
Proof.
  cbv zeta. split; [reflexivity|].
  apply (csv_scan_stream
           [txt "a"; [CR; LF]; txt "b,c" ++ [CR; LF]]
           [((false, txt "a"), [], true);
            ((false, txt "b"), [(false, txt "c")], true)]).
  - repeat constructor; try discriminate; try reflexivity.
  - repeat constructor; discriminate.
  - repeat constructor; discriminate.
  - reflexivity.
  - vm_compute. reflexivity.
Defined.

(** X13: a source that has nothing to deliver.  When the first call of
    [on_bufempty] returns 0, [csv_scan] returns 0, and when it returns a
    negative value, [csv_scan] returns -1; either way the handle comes back
    as [on_bufempty] left it: neither [on_row] nor [on_error] has been
    called. *)
Theorem csv_scan_no_input alloc_ok (handle : Type)
        (on_bufempty : handle -> Z -> Z * list byte * handle)
        (on_row : handle -> Z -> list (option (list byte)) -> bool * handle)
        (on_error : handle -> option csv_errno -> option string ->
                    option csv_parse_t -> handle)
        fuel h q0 e0 d0 ns nb data h' :
  alloc_ok (1024 * 1024) = true -> alloc_ok sizeof_csv_parse_t = true ->
  on_bufempty h (1024 * 1024) = (nb, data, h') -> nb <= 0 ->
  csv_scan alloc_ok handle on_bufempty on_row on_error (S fuel) h q0 e0 d0 ns
  = Some (if nb =? 0 then 0 else -1, h').
Proof.
  intros Ha1 Ha2 Hfill Hnb. unfold csv_scan. rewrite Ha1. cbn [negb].
  unfold csv_open. rewrite Ha2. cbn [negb scan_loop].
  change (0 =? 0) with true. cbn [negb]. change (0 - 0) with 0.
  destruct (Z.eqb_spec 0 (1024 * 1024)) as [E|_]; [discriminate E|].
  replace (1024 * 1024 - 0) with (1024 * 1024) by reflexivity.
  rewrite Hfill.
  destruct (Z.ltb_spec nb 0) as [Hneg|Hpos].
  - destruct (Z.eqb_spec nb 0); [lia | reflexivity].
  - assert (nb = 0) by lia. subst nb.
    change (0 + 0 - 0) with 0. change (Z.to_nat 0 + 1)%nat with 1%nat.
    cbn [feed_rows]. change (0 <? 0 + 0) with false. cbn iota.
    change (0 =? 0) with true. cbn iota.
    change (0 <? 0 + 0) with false. cbn iota.
    change (0 =? 0 + 0) with true. cbn [negb]. reflexivity.
Qed.

Lemma csv_scan_no_input_witness :
  csv_scan always_ok tape tape_fill tape_row tape_error 1
           {| chunks := []; rows := []; errors := [] |} 0 0 0 None
  = Some (if 0 =? 0 then 0 else -1,
          {| chunks := []; rows := []; errors := [] |}).
Proof.
  apply (csv_scan_no_input always_ok tape tape_fill tape_row tape_error 0
                           _ 0 0 0 None 0 []).
  - reflexivity.
  - reflexivity.
  - reflexivity.
  - lia.
Defined.

Lemma enc_rows_nil_inv qt dl rs : enc_rows qt dl rs = [] -> rs = [].
Proof.
  destruct rs as [|r rs]; [reflexivity|]. rewrite enc_rows_cons.
  pose proof (zlen_enc_src_row qt dl r) as Hp. intros H.
  apply (f_equal (@length byte)) in H. rewrite length_app in H.
  unfold zlen in Hp. cbn in H. lia.
Qed.

(** At the end of a stream whose last row lacks its LF, what is left in
    the buffer is that row. *)
Lemma pending_last qt dl lo rsA rsB rs fd more :
  rs ++ [(fd, more, false)] = rsA ++ rsB ->
  lo ++ [LF] = enc_rows qt dl rsB ->
  pending qt dl lo rsB ->
  enc_body qt dl fd more <> [] ->
  rsA = rs /\ rsB = [(fd, more, false)] /\ lo = enc_body qt dl fd more.
Proof.
  intros Hsplit Hrest Hpend Hne.
  assert (Hone : exists r, rsB = [r]).
  { destruct Hpend as [->|(r & rs' & -> & Hn & Hfirst & _)].
    - destruct rsB as [|r rsB]; [discriminate|]. exists r. f_equal.
      rewrite enc_rows_cons in Hrest.
      pose proof (zlen_enc_src_row qt dl r) as Hp.
      apply enc_rows_nil_inv with (qt := qt) (dl := dl).
      apply length_zero_iff_nil.
      apply (f_equal (@length byte)) in Hrest.
      rewrite !length_app in Hrest. unfold zlen in Hp. cbn in Hrest. lia.
    - exists r. f_equal.
      rewrite enc_rows_cons in Hrest.
      apply enc_rows_nil_inv with (qt := qt) (dl := dl).
      apply length_zero_iff_nil.
      apply (f_equal (@length byte)) in Hrest.
      rewrite !length_app in Hrest. cbn in Hrest. lia. }
  destruct Hone as (r & ->).
  apply app_inj_tail in Hsplit. destruct Hsplit as [-> <-].
  split; [reflexivity|]. split; [reflexivity|].
  cbn [enc_rows flat_map] in Hrest. rewrite app_nil_r in Hrest.
  unfold enc_src_row in Hrest. cbn [fst snd] in Hrest.
  rewrite enc_row_body in Hrest. cbn [eol] in Hrest.
  now apply app_inj_tail in Hrest.
Qed.

(** X14: the same driver over a stream whose last row lacks its line end:
    with the same conditions on the chunks, [csv_scan] returns 0, reports
    no error, and has called [on_row] for every row, the last one read
    through [csv_feed_last]. *)
Theorem csv_scan_unterminated_stream cs rs fd more :
  Forall (valid_row default_cp) rs ->
  Forall (valid_field default_cp) (fd :: more) ->
  enc_body DQUOTE COMMA fd more <> [] ->
  Forall (fun c => c <> []) cs ->
  Forall (fun c => last c NUL <> CR) cs ->
  concat cs = enc_rows DQUOTE COMMA rs ++ enc_body DQUOTE COMMA fd more ->
  zlen (concat cs) < 1024 * 1024 ->
  scan_view (scan_chunks always_ok cs)
  = Some (0, map (row_values default_cp) rs
             ++ [map (field_value default_cp) (fd :: more)], []).
Proof.
  intros Hv Hvl Hbody Hne Hcr Hstream Hsz.
  unfold scan_chunks, csv_scan.
  cbn [always_ok negb].
  change (csv_open always_ok 0 0 0 None) with open_default.
  rewrite open_default_eq.
  set (h0 := {| chunks := cs; rows := []; errors := [] |}).
  assert (Hready : ready default_cp default_cp).
  { apply ready_refl; [apply default_cp_std | apply default_cp_wf | reflexivity]. }
  assert (Hsz' : zlen (@nil byte) + zlen (concat cs) < 1024 * 1024).
  { change (zlen (@nil byte)) with 0. lia. }
  assert (Hs : [] ++ concat cs ++ [LF]
               = enc_rows (qte default_cp) (delim default_cp)
                          (rs ++ [(fd, more, false)])).
  { cbn [app]. rewrite Hstream, enc_rows_app, <- app_assoc. f_equal.
    cbn [enc_rows flat_map]. rewrite app_nil_r.
    unfold enc_src_row. cbn [fst snd]. now rewrite enc_row_body. }
  assert (Hvall : Forall (valid_row default_cp) (rs ++ [(fd, more, false)])).
  { apply Forall_app. split; [exact Hv|]. constructor; [exact Hvl | constructor]. }
  destruct (scan_loop_stream always_ok default_cp (1024 * 1024)
              (fun _ => eq_refl) cs (length cs + 1) default_cp [] h0 _ [LF]
              Hready eq_refl Hs (or_introl eq_refl) Hvall Hne Hcr Hsz'
              ltac:(lia))
    as (cp' & h' & rsA & rsB & lo' & Hsplit & Hloop & Hready' & Hrest & Hpend
        & Her & Hrows).
  destruct (pending_last _ _ _ _ _ _ _ _ Hsplit Hrest Hpend Hbody)
    as (-> & -> & ->).
  change (zlen (@nil byte)) with 0 in Hloop. rewrite Hloop.
  change (enc_body DQUOTE COMMA fd more)
    with (enc_body (qte default_cp) (delim default_cp) fd more) in Hbody.
  set (body := enc_body (qte default_cp) (delim default_cp) fd more) in *.
  assert (Hpos : 0 < zlen body).
  { destruct body; [congruence|]. rewrite zlen_cons.
    pose proof (zlen_nonneg body). lia. }
  destruct (Z.ltb_spec 0 (zlen body)); [|lia].
  replace (zlen body - 0) with (zlen body) by lia.
  destruct Hready' as (Hstd' & Hwf' & Hcfg' & Hsz2).
  pose proof Hcfg' as (Cq & _ & Cd & _).
  destruct (csv_feed_last_written always_ok cp' body 0 fd more Hstd' Hwf' Hsz2
                                  (fun _ => eq_refl))
    as (r & Hlast & Hret & Hrow & _).
  { eapply Forall_impl; [|exact Hvl]. intros a. now apply valid_field_cfg. }
  { rewrite Cq, Cd. exact Hpos. }
  { rewrite Cq, Cd. apply memcpy_from_self. }
  rewrite Cq, Cd in Hlast, Hret. fold body in Hlast, Hret.
  rewrite Hlast. rewrite Hret.
  destruct (Z.ltb_spec (zlen body) 0); [lia|].
  unfold tape_row. replace (0 + zlen body) with (zlen body) by lia.
  rewrite Z.eqb_refl. cbn [negb scan_view option_map rows errors].
  rewrite map_app, Hrows, Her. cbn [map snd rows errors h0 app].
  rewrite Hrow.
  rewrite (map_ext (field_value cp') (field_value default_cp))
    by (intros a; now apply field_value_cfg).
  reflexivity.
Qed.

(** The stream [a,b] LF [c] in the chunks [a,] and [b] LF [c]. *)
Lemma csv_scan_unterminated_stream_witness :
  scan_view (scan_chunks always_ok [txt "a,"; txt "b" ++ [LF] ++ txt "c"])
  = Some (0, map (row_values default_cp)
                 [((false, txt "a"), [(false, txt "b")], false)]
             ++ [map (field_value default_cp) [(false, txt "c")]], []) /\
  map (row_values default_cp) [((false, txt "a"), [(false, txt "b")], false)]
  ++ [map (field_value default_cp) [(false, txt "c")]]
  = [[Some (txt "a"); Some (txt "b")]; [Some (txt "c")]].
Proof.
  split; [|reflexivity].
  apply (csv_scan_unterminated_stream
           [txt "a,"; txt "b" ++ [LF] ++ txt "c"]
           [((false, txt "a"), [(false, txt "b")], false)]
           (false, txt "c") []).
  - repeat constructor; try discriminate; try reflexivity.
  - repeat constructor; try discriminate; try reflexivity.
  - discriminate.
  - repeat constructor; discriminate.
  - repeat constructor; discriminate.
  - reflexivity.
  - vm_compute. reflexivity.
Defined.

(** ** An escape byte that is not the quote *)

Lemma sp_bs cp b : cfg_bs cp -> sp_of (scan cp) b = is_bs_special cp b.
Proof.
  intros (_ & _ & Hm & Hl & _). unfold sp_of, is_special, is_bs_special.
  rewrite Hm, Hl. cbn -[Byte.eqb].
  rewrite (byte_eqb_sym (qte cp) b), (byte_eqb_sym (esc cp) b),
    (byte_eqb_sym (delim cp) b), (byte_eqb_sym CR b), (byte_eqb_sym LF b).
  destruct (Byte.eqb b (qte cp)), (Byte.eqb b (esc cp)),
    (Byte.eqb b (delim cp)), (Byte.eqb b CR), (Byte.eqb b LF); reflexivity.
Qed.

Lemma qe_bs cp b : cfg_bs cp -> qe_of cp b = is_esc (qte cp) (esc cp) b.
Proof.
  intros (_ & Hs & _). unfold qe_of, is_special, is_esc.
  rewrite Hs. cbn -[Byte.eqb].
  rewrite (byte_eqb_sym (qte cp) b), (byte_eqb_sym (esc cp) b).
  destruct (Byte.eqb b (qte cp)), (Byte.eqb b (esc cp)); reflexivity.
Qed.

Lemma benc_cons qt es b c :
  benc qt es (b :: c) = (if is_esc qt es b then [es; b] else [b]) ++ benc qt es c.
Proof. reflexivity. Qed.

Section BsRun.
Variable alloc_ok : Z -> bool.
Variable f : byte -> bool.
Variable mem : list byte.
Variables buf q : Z.

Notation "'reach'" := (reaches alloc_ok f mem buf q).

Variables qt es dl : byte.
Hypothesis Hf : forall b, f b = Byte.eqb b qt || Byte.eqb b es
                              || Byte.eqb b dl || Byte.eqb b CR
                              || Byte.eqb b LF.
Hypothesis Heq : es <> qt.
Hypothesis Hqd : qt <> dl.
Hypothesis Hqc : qt <> CR.
Hypothesis Hql : qt <> LF.
Hypothesis Hel : es <> LF.
Hypothesis Hdc : dl <> CR.
Hypothesis Hdl : dl <> LF.
Hypothesis Halloc : forall n, alloc_ok n = true.

Lemma bs_f_qt : f qt = true.
Proof. now rewrite Hf, byte_eqb_refl. Qed.

Lemma bs_f_es : f es = true.
Proof. rewrite Hf, (byte_eqb_refl es). now rewrite orb_true_r. Qed.

Lemma bs_f_false b :
  f b = false ->
  Byte.eqb b qt = false /\ Byte.eqb b es = false /\ Byte.eqb b LF = false.
Proof.
  rewrite Hf. destruct (Byte.eqb b qt), (Byte.eqb b es), (Byte.eqb b LF);
    rewrite ?orb_true_r; cbn; auto; discriminate.
Qed.

Lemma is_esc_lf b : is_esc qt es b = true -> Byte.eqb b LF = false.
Proof.
  unfold is_esc. intros H.
  destruct (byte_eqb_spec b LF) as [E|]; [|reflexivity]. exfalso.
  rewrite E in H.
  rewrite (byte_eqb_neq LF qt), (byte_eqb_neq LF es) in H by congruence.
  discriminate.
Qed.

(** The QUOTED_VAL loop over an escaped content, up to the closing quote. *)
Lemma bs_loop c :
  forall pos cp L t,
    cfg_run3 qt es dl cp ->
    mem_has mem pos (benc qt es c ++ [qt; t]) ->
    f t = true ->
    pos + zlen (benc qt es c) + 2 <= q ->
    let xp := pos + zlen (benc qt es c) + 1 in
    reach (AGoto QUOTED_VAL cp L pos)
          (lift (xp + 1)
                (FINISH mem buf q cp
                        {| ppp := xp; cno := cno L;
                           nline := nline L + count_lf c;
                           fldv := fldv L; quoted := quoted L;
                           l_escptr := or_else (l_escptr L)
                                               (first_bs qt es pos c) |})).
Proof.
  pose proof bs_f_qt as Hfq. pose proof bs_f_es as Hfe.
  induction c as [|b c IH]; intros pos cp L t Hcfg Hmem Ht Hq; cbv zeta;
    destruct Hcfg as (Cq & Ce & Cd).
  - (* the closing quote *)
    cbn [benc flat_map app] in *. change (zlen (@nil byte)) with 0 in *.
    apply mem_has_cons in Hmem. destruct Hmem as [Hb0 Hmem].
    apply mem_has_cons in Hmem. destruct Hmem as [Hb1 _].
    eapply reaches_trans; [apply reaches_step|].
    unfold astep.
    rewrite (find_special_here f mem q pos) by (rewrite ?Hb0; auto; lia).
    rewrite Hb0, Cq, byte_eqb_refl.
    rewrite (find_special_here f mem q (pos + 1)) by (rewrite ?Hb1; auto; lia).
    rewrite Z.eqb_refl. cbn [negb].
    rewrite Ce, (byte_eqb_neq es qt Heq). cbn [andb].
    replace (pos + 0 + 1) with (pos + 1) by lia.
    cbn [count_lf first_bs]. replace (nline L + 0) with (nline L) by lia.
    rewrite or_else_none. apply reaches_refl.
  - rewrite benc_cons in *. rewrite zlen_app in *.
    pose proof (zlen_nonneg (benc qt es c)).
    cbn [count_lf first_bs].
    destruct (is_esc qt es b) eqn:Hesc.
    + (* an escaped byte *)
      change (zlen [es; b]) with 2 in *. cbn [app] in Hmem.
      apply mem_has_cons in Hmem. destruct Hmem as [Hb0 Hmem].
      apply mem_has_cons in Hmem. destruct Hmem as [Hb1 Hmem].
      replace (pos + 1 + 1) with (pos + 2) in Hmem by lia.
      eapply reaches_trans; [apply reaches_step|].
      unfold astep.
      rewrite (find_special_here f mem q pos) by (rewrite ?Hb0; auto; lia).
      rewrite Hb0, Cq, Ce, (byte_eqb_neq es qt Heq), byte_eqb_refl.
      destruct (Z.geb_spec (pos + 2) q); [lia|].
      eapply reaches_trans.
      { apply (IH (pos + 2) cp _ t); auto; [repeat split; auto | lia]. }
      cbn [ppp cno nline fldv quoted l_escptr].
      rewrite (is_esc_lf b Hesc).
      destruct (l_escptr L); cbn [or_else]; reach_eq.
    + (* any other byte *)
      change (zlen [b]) with 1 in *. cbn [app] in Hmem.
      apply mem_has_cons in Hmem. destruct Hmem as [Hb0 Hmem].
      unfold is_esc in Hesc. apply orb_false_iff in Hesc.
      destruct Hesc as [Hbq Hbe].
      destruct (f b) eqn:Hfb.
      * eapply reaches_trans; [apply reaches_step|].
        unfold astep.
        rewrite (find_special_here f mem q pos) by (rewrite ?Hb0; auto; lia).
        rewrite Hb0, Cq, Ce, Hbq, Hbe.
        eapply reaches_trans.
        { apply (IH (pos + 1) cp _ t); auto; [repeat split; auto | lia]. }
        cbn [ppp cno nline fldv quoted l_escptr]. reach_eq.
      * eapply reaches_trans.
        { apply (reaches_quoted_skip alloc_ok f mem buf q cp L pos (pos + 1)).
          apply find_special_next. now rewrite Hb0. }
        eapply reaches_trans.
        { apply (IH (pos + 1) cp L t); auto; [repeat split; auto | lia]. }
        destruct (bs_f_false b Hfb) as (_ & _ & Hlf). rewrite Hlf. reach_eq.
Qed.

Lemma bs_f_dl : f dl = true.
Proof. rewrite Hf, byte_eqb_refl. now rewrite orb_true_r. Qed.

Lemma bs_f_cr : f CR = true.
Proof. rewrite Hf. cbn. now rewrite !orb_true_r. Qed.

Lemma bs_f_lf : f LF = true.
Proof. rewrite Hf. cbn. now rewrite !orb_true_r. Qed.

Lemma bs_fin_cfg cp L : cfg_run3 qt es dl cp -> cfg_run3 qt es dl (fin_arrays cp L).
Proof.
  intros (Cq & Ce & Cd).
  destruct (fin_arrays_frame cp L) as ((Fq & Fe & Fd & _) & _).
  repeat split; congruence.
Qed.

Lemma bs_finish_delim cp L :
  cfg_run3 qt es dl cp -> rd mem (ppp L) = dl ->
  FINISH mem buf q cp L =
  Goto START_VAL (fin_arrays cp L)
       {| ppp := ppp L + 1; cno := cno L + 1; nline := nline L;
          fldv := fldv L; quoted := quoted L; l_escptr := l_escptr L |}.
Proof.
  intros Hcfg Hrd. rewrite FINISH_unfold. cbv zeta.
  destruct (bs_fin_cfg cp L Hcfg) as (_ & _ & Cd).
  now rewrite Hrd, Cd, byte_eqb_refl.
Qed.

Lemma bs_finish_lf cp L :
  cfg_run3 qt es dl cp -> rd mem (ppp L) = LF ->
  FINISH mem buf q cp L =
  FINROW (set_fldtop (fin_arrays cp L) (cno L + 1)) buf (ppp L + 1) (nline L).
Proof.
  intros Hcfg Hrd. rewrite FINISH_unfold. cbv zeta.
  destruct (bs_fin_cfg cp L Hcfg) as (_ & _ & Cd).
  rewrite Hrd, Cd, (byte_eqb_neq LF dl) by congruence.
  now rewrite byte_eqb_refl.
Qed.

Lemma bs_finish_crlf cp L :
  cfg_run3 qt es dl cp -> rd mem (ppp L) = CR -> rd mem (ppp L + 1) = LF ->
  ppp L + 1 < q ->
  FINISH mem buf q cp L =
  FINROW (set_fldtop (fin_arrays cp L) (cno L + 1)) buf (ppp L + 1 + 1) (nline L).
Proof.
  intros Hcfg Hrd Hrd2 Hlt. rewrite FINISH_unfold. cbv zeta.
  destruct (bs_fin_cfg cp L Hcfg) as (_ & _ & Cd).
  rewrite Hrd, Hrd2, Cd, (byte_eqb_neq CR dl) by congruence.
  destruct (Z.ltb_spec (ppp L + 1) q); [|lia].
  reflexivity.
Qed.

Lemma bs_ensure_ok cp k :
  cp_wf cp -> 0 <= k <= fldmax cp ->
  cp_wf (ensure alloc_ok cp k) /\ k < fldmax (ensure alloc_ok cp k) /\
  (forall i, field_at (ensure alloc_ok cp k) i = field_at cp i) /\
  (cfg_run3 qt es dl cp -> cfg_run3 qt es dl (ensure alloc_ok cp k)).
Proof.
  intros Hwf Hk. unfold ensure.
  destruct (Z.geb_spec k (fldmax cp)) as [Hge|Hlt].
  - destruct (expand alloc_ok cp) as [r c] eqn:He. cbn [snd].
    pose proof He as He'. apply expand_ok in He'.
    destruct He' as ((Eq & Ee & Ed & _) & _ & _ & Efld & Er & Ewf).
    assert (r = 0).
    { unfold expand in He. rewrite !Halloc in He. cbn [negb] in He.
      now injection He. }
    destruct Er as [[_ Emax]|[Er _]]; [|lia].
    split; [auto|]. split; [lia|]. split; [exact Efld|].
    intros (Cq & Ce & Cd). repeat split; congruence.
  - split; [auto|]. split; [lia|]. split; auto.
Qed.

(** START_VAL and, for a quoted field, the QUOTED_VAL loop: the machine
    runs over one written field up to its terminator [t]. *)
Lemma bs_field_run cp L pos fd t :
  cfg_run3 qt es dl cp -> cp_wf cp -> 0 <= cno L <= fldmax cp -> ppp L = pos ->
  mem_has mem pos (benc_field qt es fd ++ [t]) ->
  (fst fd = false -> Forall (fun b => f b = false) (snd fd)) ->
  f t = true -> t <> qt ->
  pos + zlen (benc_field qt es fd) < q ->
  exists nl,
    reaches alloc_ok f mem buf q (AGoto START_VAL cp L pos)
      (lift (pos + zlen (benc_field qt es fd) + 1)
            (FINISH mem buf q (started alloc_ok cp (cno L) pos)
                    {| ppp := pos + zlen (benc_field qt es fd); cno := cno L;
                       nline := nl; fldv := pos; quoted := fst fd;
                       l_escptr := snd (bdesc qt es pos fd) |})).
Proof.
  intros Hcfg Hwf Hk Hppp Hmem Hplain Ht Htq Hq.
  pose proof bs_f_qt as Hfq.
  destruct (bs_ensure_ok cp (cno L) Hwf Hk) as (Ewf & Emax & Efld & Ecfg).
  specialize (Ecfg Hcfg). destruct Ecfg as (Cq & Ce & Cd).
  destruct fd as [[|] c]; cbn [fst snd benc_field bdesc] in *.
  - (* quoted *)
    rewrite zlen_cons, zlen_app in *. change (zlen [qt]) with 1 in *.
    pose proof (zlen_nonneg (benc qt es c)).
    cbn [app] in Hmem. rewrite <- app_assoc in Hmem. cbn [app] in Hmem.
    apply mem_has_cons in Hmem. destruct Hmem as [Hb0 Hmem].
    exists (nline L + count_lf c).
    eapply reaches_trans; [apply reaches_step|].
    unfold astep. rewrite (start_grown alloc_ok buf Halloc).
    rewrite (find_special_here f mem q pos) by (rewrite ?Hb0; auto; lia).
    rewrite Hppp, Z.eqb_refl, Hb0.
    cbn [qte set_fld set_arrays]. rewrite Cq, byte_eqb_refl. cbn [andb].
    eapply reaches_trans.
    { apply (bs_loop c (pos + 1) _ _ t); auto; [repeat split; auto | lia]. }
    cbn [ppp cno nline fldv quoted l_escptr or_else]. unfold started.
    reach_eq.
  - (* plain *)
    specialize (Hplain eq_refl). pose proof (zlen_nonneg c).
    apply mem_has_app in Hmem. destruct Hmem as [Hc Hmt].
    apply mem_has_cons in Hmt. destruct Hmt as [Hbt _].
    exists (nline L).
    eapply reaches_trans; [apply reaches_step|].
    unfold astep. rewrite (start_grown alloc_ok buf Halloc).
    rewrite (find_special_intro f mem pos q (pos + zlen c)); auto; try lia.
    2:{ now rewrite Hbt. }
    2:{ intros j Hj. replace j with (pos + (j - pos)) by lia.
        rewrite (mem_has_rd _ _ _ _ Hc) by lia.
        apply (rd_Forall (fun b => f b = false)); auto. lia. }
    rewrite Hbt. cbn [qte set_fld set_arrays]. rewrite Cq.
    rewrite (eqb_qt_false qt t Htq), andb_false_r.
    rewrite Hppp. unfold started. apply reaches_refl.
Qed.

(** The arrays after FINISH has recorded the field. *)
Lemma bs_field_fin cp k pos nl fd :
  cfg_run3 qt es dl cp -> cp_wf cp -> 0 <= k <= fldmax cp ->
  let c := fin_arrays (started alloc_ok cp k pos)
             {| ppp := pos + zlen (benc_field qt es fd); cno := k;
                nline := nl; fldv := pos; quoted := fst fd;
                l_escptr := snd (bdesc qt es pos fd) |} in
  cfg_run3 qt es dl c /\ cp_wf c /\ k + 1 <= fldmax c /\
  field_at c k = bdesc qt es pos fd /\
  (forall i, i <> k -> field_at c i = field_at cp i).
Proof.
  intros Hcfg Hwf Hk.
  destruct (bs_ensure_ok cp k Hwf Hk) as (Ewf & Emax & Efld & Ecfg).
  specialize (Ecfg Hcfg).
  set (L := {| ppp := pos + zlen (benc_field qt es fd); cno := k;
               nline := nl; fldv := pos; quoted := fst fd;
               l_escptr := snd (bdesc qt es pos fd) |}).
  assert (Swf : cp_wf (started alloc_ok cp k pos)).
  { unfold started, cp_wf in *. cbn. now rewrite zlen_zset. }
  assert (Scfg : cfg_run3 qt es dl (started alloc_ok cp k pos)).
  { exact Ecfg. }
  assert (Smax : fldmax (started alloc_ok cp k pos)
                 = fldmax (ensure alloc_ok cp k)) by reflexivity.
  cbv zeta.
  destruct (fin_arrays_frame (started alloc_ok cp k pos) L)
    as (_ & _ & _ & Fmax & Fwf & Foth).
  split; [now apply bs_fin_cfg|]. split; [auto|].
  split; [rewrite Fmax, Smax; lia|]. split.
  - change k with (cno L) at 2.
    rewrite fin_arrays_field; auto.
    + unfold L, bdesc. cbn [ppp fldv quoted l_escptr cno].
      destruct fd as [[|] c]; cbn [fst snd benc_field].
      * rewrite zlen_cons, zlen_app. change (zlen [qt]) with 1.
        repeat (f_equal; try lia).
      * repeat (f_equal; try lia).
    + cbn [cno L]. rewrite Smax. lia.
    + intros _. cbn [cno fldv L]. unfold started. cbn [fld set_fld set_arrays].
      destruct Ewf as (? & ? & _).
      apply zget_zset_eq. lia.
  - intros i Hi. rewrite Foth by (cbn [cno L]; auto).
    rewrite <- Efld. unfold field_at, started. cbn.
    now rewrite zget_zset_ne by auto.
Qed.

Lemma benc_row_cons fd fd' more crlf :
  benc_row qt es dl fd (fd' :: more) crlf
  = benc_field qt es fd ++ dl :: benc_row qt es dl fd' more crlf.
Proof.
  unfold benc_row, benc_more. cbn [flat_map app].
  now rewrite <- !app_assoc.
Qed.



(** The machine reads a whole written row and returns its size, with the
    descriptors of its fields in the arrays. *)
Lemma bs_row_run crlf more :
  forall fd pos cp L,
    cfg_run3 qt es dl cp -> cp_wf cp -> 0 <= cno L <= fldmax cp -> ppp L = pos ->
    mem_has mem pos (benc_row qt es dl fd more crlf) ->
    Forall (fun fd => fst fd = false -> Forall (fun b => f b = false) (snd fd))
           (fd :: more) ->
    pos + zlen (benc_row qt es dl fd more crlf) <= q ->
    exists c,
      reach (AGoto START_VAL cp L pos)
            (AReturn (pos + zlen (benc_row qt es dl fd more crlf) - buf) c) /\
      fldtop c = cno L + 1 + zlen more /\
      fldtop c <= fldmax c /\
      (forall i, i < cno L -> field_at c i = field_at cp i) /\
      fields_from c (cno L) (S (length more)) = bdescs qt es pos (fd :: more).
Proof.
  induction more as [|fd' more IH]; intros fd pos cp L Hcfg Hwf Hk Hppp Hmem Hok Hq.
  - pose proof (zlen_nonneg (benc_field qt es fd)) as Hnn.
    inversion Hok as [|? ? Hfd _]; subst.
    destruct (bs_field_fin cp (cno L) (ppp L) (nline L) fd Hcfg Hwf Hk)
      as (_ & _ & _ & _ & _).
    unfold benc_row, benc_more in *. cbn [flat_map app] in *.
    destruct crlf; cbn [eol] in *.
    + (* CR LF *)
      apply mem_has_snoc in Hmem. destruct Hmem as (Hm1 & Hrcr & Hm2).
      apply mem_has_cons in Hm2. destruct Hm2 as [Hrlf _].
      rewrite zlen_app in *. change (zlen [CR; LF]) with 2 in *.
      destruct (bs_field_run cp L (ppp L) fd CR Hcfg Hwf Hk eq_refl Hm1 Hfd bs_f_cr)
        as (nl & Hrun); [congruence | lia |].
      destruct (bs_field_fin cp (cno L) (ppp L) nl fd Hcfg Hwf Hk)
        as (Fcfg & Fwf & Fmax & Ffld & Foth).
      rewrite bs_finish_crlf in Hrun; auto; [| |cbn [ppp]; lia].
      2:{ unfold started. apply (bs_ensure_ok cp (cno L) Hwf Hk). exact Hcfg. }
      unfold FINROW in Hrun. cbn [lift ppp cno] in Hrun.
      eexists. split; [|split; [|split; [|split]]].
      * eapply reaches_trans; [exact Hrun|]. reach_eq.
      * cbn. unfold zlen. cbn. lia.
      * cbn. exact Fmax.
      * intros i Hi. cbn. apply Foth. lia.
      * rewrite fields_from_cons. cbn [fields_from seq map bdescs length].
        f_equal. exact Ffld.
    + (* LF *)
      apply mem_has_snoc in Hmem. destruct Hmem as (Hm1 & Hrlf & _).
      rewrite zlen_app in *. change (zlen [LF]) with 1 in *.
      destruct (bs_field_run cp L (ppp L) fd LF Hcfg Hwf Hk eq_refl Hm1 Hfd bs_f_lf)
        as (nl & Hrun); [congruence | lia |].
      destruct (bs_field_fin cp (cno L) (ppp L) nl fd Hcfg Hwf Hk)
        as (Fcfg & Fwf & Fmax & Ffld & Foth).
      rewrite bs_finish_lf in Hrun; auto.
      2:{ unfold started. apply (bs_ensure_ok cp (cno L) Hwf Hk). exact Hcfg. }
      unfold FINROW in Hrun. cbn [lift ppp cno] in Hrun.
      eexists. split; [|split; [|split; [|split]]].
      * eapply reaches_trans; [exact Hrun|]. reach_eq.
      * cbn. unfold zlen. cbn. lia.
      * cbn. exact Fmax.
      * intros i Hi. cbn. apply Foth. lia.
      * rewrite fields_from_cons. cbn [fields_from seq map bdescs length].
        f_equal. exact Ffld.
  - pose proof (zlen_nonneg (benc_field qt es fd)) as Hnn.
    pose proof (zlen_nonneg (benc_row qt es dl fd' more crlf)) as Hnn'.
    inversion Hok as [|? ? Hfd Hok']; subst.
    rewrite benc_row_cons in *.
    apply mem_has_snoc in Hmem. destruct Hmem as (Hm1 & Hrdl & Hm2).
    rewrite zlen_app, zlen_cons in *.
    destruct (bs_field_run cp L (ppp L) fd dl Hcfg Hwf Hk eq_refl Hm1 Hfd bs_f_dl)
      as (nl & Hrun); [congruence | lia |].
    destruct (bs_field_fin cp (cno L) (ppp L) nl fd Hcfg Hwf Hk)
      as (Fcfg & Fwf & Fmax & Ffld & Foth).
    rewrite bs_finish_delim in Hrun; auto.
    2:{ unfold started. apply (bs_ensure_ok cp (cno L) Hwf Hk). exact Hcfg. }
    cbn [lift ppp cno nline fldv quoted l_escptr] in Hrun.
    match type of Hrun with
    | reaches _ _ _ _ _ _ (AGoto _ ?c2 ?L2 _) =>
        destruct (IH fd' (ppp L + zlen (benc_field qt es fd) + 1) c2 L2 Fcfg Fwf)
        as (c & Hr & Htop & Hmax & Hof & Hfs);
        [cbn [cno]; lia | reflexivity | exact Hm2 | exact Hok' | lia |]
    end.
    cbn [cno] in *.
    exists c. split; [|split; [|split; [|split]]].
    + eapply reaches_trans; [exact Hrun|].
      eapply reaches_trans; [exact Hr|]. reach_eq.
    + rewrite Htop, !zlen_cons. lia.
    + exact Hmax.
    + intros i Hi. rewrite Hof by lia. apply Foth. lia.
    + rewrite fields_from_cons. cbn [bdescs]. f_equal.
      * rewrite Hof by lia. exact Ffld.
      * exact Hfs.
Qed.

End BsRun.

(** ** Escaping a content, and squeezing the escape bytes out again *)

Section Escaping.
Variables qt es : byte.

Notation "'ise'" := (is_esc qt es).

Lemma is_esc_es : is_esc qt es es = true.
Proof. unfold is_esc. rewrite (byte_eqb_refl es). apply orb_true_r. Qed.

Lemma benc_noesc c : existsb ise c = false -> benc qt es c = c.
Proof.
  induction c as [|b c IH]; [reflexivity|]. cbn [existsb]. rewrite benc_cons.
  intros H. apply orb_false_iff in H. destruct H as [Hb Hc].
  rewrite Hb. cbn [app]. now rewrite IH.
Qed.

Lemma first_bs_none c : forall p,
  first_bs qt es p c = None <-> existsb ise c = false.
Proof.
  induction c as [|b c IH]; intros p; cbn [first_bs existsb]; [tauto|].
  destruct (is_esc qt es b); cbn [orb]; [split; discriminate | apply IH].
Qed.

Lemma unesc_benc c : unesc ise (benc qt es c) = c.
Proof.
  induction c as [|b c IH]; [reflexivity|]. rewrite benc_cons.
  destruct (is_esc qt es b) eqn:E; cbn [app unesc].
  - rewrite is_esc_es. now rewrite IH.
  - rewrite E. now rewrite IH.
Qed.

Lemma clean_benc c :
  es <> NUL -> Forall (fun b => b <> NUL) c -> clean ise (benc qt es c) = true.
Proof.
  intros He. induction 1 as [|b c Hb Hc IH]; [reflexivity|]. rewrite benc_cons.
  destruct (is_esc qt es b) eqn:E; cbn [app clean].
  - rewrite is_esc_es, (byte_eqb_neq es NUL He), (byte_eqb_neq b NUL Hb).
    cbn. exact IH.
  - rewrite E, (byte_eqb_neq b NUL Hb). cbn. exact IH.
Qed.

Lemma led_benc c : led es ise (benc qt es c) = true.
Proof.
  induction c as [|b c IH]; [reflexivity|]. rewrite benc_cons.
  destruct (is_esc qt es b) eqn:E; cbn [app led].
  - rewrite is_esc_es, (byte_eqb_refl es). cbn. exact IH.
  - rewrite E. exact IH.
Qed.

(** The recorded escape position is the first escape byte of the written
    content. *)
Lemma first_bs_spec c : forall s e,
  first_bs qt es s c = Some e ->
  s <= e < s + zlen (benc qt es c) /\
  is_esc qt es (rd (benc qt es c) (e - s)) = true /\
  forall k, s <= k < e -> is_esc qt es (rd (benc qt es c) (k - s)) = false.
Proof.
  induction c as [|b c IH]; intros s e; cbn [first_bs]; [discriminate|].
  rewrite benc_cons. pose proof (zlen_nonneg (benc qt es c)) as Hnn.
  destruct (is_esc qt es b) eqn:E.
  - intros [= <-]. rewrite zlen_app. change (zlen [es; b]) with 2.
    split; [lia|]. split; [|intros; lia].
    replace (s - s) with 0 by lia. cbn [app]. apply is_esc_es.
  - intros H. apply IH in H. destruct H as (Hr & Hq & Hbef).
    rewrite zlen_app. change (zlen [b]) with 1. split; [lia|].
    split.
    + unfold rd in *. rewrite (zget_app_r [b]) by (change (zlen [b]) with 1; lia).
      change (zlen [b]) with 1. now replace (e - s - 1) with (e - (s + 1)) by lia.
    + intros k Hk. destruct (Z.eq_dec k s) as [->|Hks].
      * replace (s - s) with 0 by lia. exact E.
      * unfold rd in *. rewrite (zget_app_r [b]) by (change (zlen [b]) with 1; lia).
        change (zlen [b]) with 1.
        replace (k - s - 1) with (k - (s + 1)) by lia. apply Hbef. lia.
Qed.
End Escaping.

Lemma zlen_benc_row qt es dl fd more crlf :
  0 < zlen (benc_row qt es dl fd more crlf).
Proof.
  unfold benc_row. rewrite !zlen_app.
  pose proof (zlen_nonneg (benc_field qt es fd)).
  pose proof (zlen_nonneg (benc_more qt es dl more)).
  destruct crlf; unfold zlen at 3; cbn; lia.
Qed.

Lemma bs_value_none cp fd :
  bs_value cp fd = None <->
  existsb (is_esc (qte cp) (esc cp)) (snd fd) = false /\
  snd fd = cstr_of (nullstr cp).
Proof.
  unfold bs_value.
  destruct (existsb _ (snd fd)).
  - split; [discriminate | intros [? _]; discriminate].
  - destruct (bytes_eqb (snd fd) (cstr_of (nullstr cp))) eqn:E.
    + apply bytes_eqb_eq in E. tauto.
    + split; [discriminate|]. intros [_ H]. apply bytes_eqb_eq in H. congruence.
Qed.

Lemma bs_value_cases cp fd :
  bs_value cp fd = None \/ bs_value cp fd = Some (snd fd).
Proof.
  unfold bs_value. destruct (existsb _ _); auto.
  destruct (bytes_eqb _ _); auto.
Qed.

Lemma plain_noesc cp c :
  Forall (fun b => is_bs_special cp b = false) c ->
  existsb (is_esc (qte cp) (esc cp)) c = false.
Proof.
  induction 1 as [|b c Hb _ IH]; [reflexivity|]. cbn [existsb]. rewrite IH.
  unfold is_bs_special in Hb. unfold is_esc.
  destruct (Byte.eqb b (qte cp)), (Byte.eqb b (esc cp)); cbn in *;
    auto; discriminate.
Qed.

Lemma bs_field_read cp c1 mem p fd :
  cfg_bs cp -> cfg_eq c1 cp -> nullstrsz cp = strlen (nullstr cp) ->
  valid_bs_field cp fd -> 0 <= p ->
  mem_has mem p (benc_field (qte cp) (esc cp) fd) ->
  p + zlen (benc_field (qte cp) (esc cp) fd) <= zlen mem ->
  let d := bdesc (qte cp) (esc cp) p fd in
  (is_null_field c1 mem d = true <-> bs_value cp fd = None) /\
  text_cond c1 mem d /\
  field_text c1 mem d = snd fd /\
  exists s, fst (fst d) = Some s /\ 0 <= s.
Proof.
  intros Hstd Hcfg Hsz (Hnn & Hpl) Hp Hmem Hin. cbv zeta.
  pose proof (qe_of_cfg c1 cp Hcfg) as Hqe.
  assert (Hsz1 : nullstrsz c1 = strlen (nullstr c1)).
  { destruct Hcfg as (_ & _ & _ & -> & -> & _). exact Hsz. }
  assert (Hns : nullstr c1 = nullstr cp) by apply Hcfg.
  assert (Hen : esc cp <> NUL) by apply Hstd.
  rewrite bs_value_none.
  destruct fd as [[|] c]; unfold bdesc; cbn [fst snd benc_field] in *.
  - (* quoted *)
    apply mem_has_cons in Hmem. destruct Hmem as [_ Hmem].
    apply mem_has_app in Hmem. destruct Hmem as [Hmem _].
    rewrite zlen_cons, zlen_app in Hin. change (zlen [qte cp]) with 1 in Hin.
    pose proof (zlen_nonneg (benc (qte cp) (esc cp) c)) as Hdn.
    split; [|split; [|split]].
    + rewrite is_null_field_iff by auto. rewrite first_bs_none, Hns.
      unfold mem_has in Hmem. rewrite Hmem.
      split; intros [Hq He]; (split; [exact Hq|]);
        rewrite (benc_noesc _ _ _ Hq) in *; auto.
    + destruct (first_bs (qte cp) (esc cp) (p + 1) c) as [e|] eqn:He;
        cbn [text_cond]; auto.
      apply first_bs_spec in He. destruct He as (Hr & Hq & Hbef).
      split; [lia|]. split; [lia|].
      unfold mem_has in Hmem. rewrite Hmem, Hqe.
      split; [|split; [|split]].
      * rewrite (clean_ext _ (is_esc (qte cp) (esc cp)))
          by (intros; now apply qe_bs).
        now apply clean_benc.
      * rewrite (led_ext _ _ (is_esc (qte cp) (esc cp)))
          by (intros; now apply qe_bs).
        replace (esc c1) with (esc cp) by (symmetry; apply Hcfg).
        apply led_benc.
      * rewrite qe_bs by auto.
        replace e with (p + 1 + (e - (p + 1))) by lia.
        rewrite (mem_has_rd mem (p + 1) (benc (qte cp) (esc cp) c))
          by (auto; lia).
        exact Hq.
      * intros k Hk. rewrite qe_bs by auto.
        replace k with (p + 1 + (k - (p + 1))) by lia.
        rewrite (mem_has_rd mem (p + 1) (benc (qte cp) (esc cp) c))
          by (auto; lia).
        apply Hbef. lia.
    + unfold mem_has in Hmem.
      destruct (first_bs (qte cp) (esc cp) (p + 1) c) as [e|] eqn:He;
        cbn [field_text]; rewrite Hmem.
      * rewrite Hqe.
        rewrite (unesc_ext _ (is_esc (qte cp) (esc cp)))
          by (intros; now apply qe_bs).
        apply unesc_benc.
      * apply first_bs_none in He. now apply benc_noesc.
    + exists (p + 1). split; [reflexivity | lia].
  - (* plain *)
    specialize (Hpl eq_refl). pose proof (plain_noesc cp c Hpl) as Hq.
    unfold mem_has in Hmem.
    split; [|split; [|split]].
    + rewrite is_null_field_iff by (auto; apply zlen_nonneg).
      rewrite Hmem, Hns. split; [intros [_ H]; auto | intros [_ H]; auto].
    + exact I.
    + cbn [field_text]. exact Hmem.
    + exists p. split; [reflexivity | lia].
Qed.

(** Where the fields of a row written with escape bytes lie. *)
Lemma bs_row_descs cp mem hi crlf more :
  forall fd pos,
    0 <= pos ->
    mem_has mem pos (benc_row (qte cp) (esc cp) (delim cp) fd more crlf) ->
    pos + zlen (benc_row (qte cp) (esc cp) (delim cp) fd more crlf) <= hi ->
    Forall (valid_bs_field cp) (fd :: more) ->
    Forall2 (fun fd d =>
               exists p, 0 <= p /\ d = bdesc (qte cp) (esc cp) p fd /\
                         valid_bs_field cp fd /\
                         mem_has mem p (benc_field (qte cp) (esc cp) fd) /\
                         p + zlen (benc_field (qte cp) (esc cp) fd) <= hi)
            (fd :: more) (bdescs (qte cp) (esc cp) pos (fd :: more)).
Proof.
  induction more as [|fd' more IH]; intros fd pos Hpos Hmem Hhi Hv;
    inversion Hv as [|? ? Hfd Hv']; subst;
    pose proof (zlen_nonneg (benc_field (qte cp) (esc cp) fd)) as Hnn.
  - cbn [bdescs]. constructor; [|constructor].
    unfold benc_row in *. apply mem_has_app in Hmem. destruct Hmem as [Hm _].
    rewrite zlen_app in Hhi.
    pose proof (zlen_nonneg (benc_more (qte cp) (esc cp) (delim cp) [] ++ eol crlf)).
    exists pos. repeat (split; auto). lia.
  - rewrite benc_row_cons in *. cbn [bdescs].
    pose proof (zlen_nonneg (benc_row (qte cp) (esc cp) (delim cp) fd' more crlf)).
    apply mem_has_snoc in Hmem. destruct Hmem as (Hm1 & _ & Hm2).
    apply mem_has_app in Hm1. destruct Hm1 as [Hm1 _].
    rewrite zlen_app, zlen_cons in Hhi.
    constructor.
    + exists pos. repeat (split; auto). lia.
    + apply IH; auto; lia.
Qed.

(** [csv_line] on a row written with escape bytes. *)

Lemma bdescs_length qt es :
  forall fds pos, length (bdescs qt es pos fds) = length fds.
Proof.
  induction fds as [|fd fds IH]; intros pos; cbn [bdescs length]; auto.
Qed.

(** Every field of a row written with escape bytes meets [text_cond]. *)
Lemma bs_row_text_cond cp c1 mem crlf more fd b :
  cfg_bs cp -> cfg_eq c1 cp -> nullstrsz cp = strlen (nullstr cp) ->
  Forall (valid_bs_field cp) (fd :: more) -> 0 <= b ->
  mem_has mem b (benc_row (qte cp) (esc cp) (delim cp) fd more crlf) ->
  b + zlen (benc_row (qte cp) (esc cp) (delim cp) fd more crlf) <= zlen mem ->
  fields_from c1 0 (S (length more)) = bdescs (qte cp) (esc cp) b (fd :: more) ->
  fldtop c1 = 1 + zlen more ->
  forall i, 0 <= i < fldtop c1 -> text_cond c1 mem (field_at c1 i).
Proof.
  intros Hstd Hcfg Hsz Hv Hb Hmem Hin Hfs Htop i Hi.
  pose proof (bs_row_descs cp mem (zlen mem) crlf more fd b Hb Hmem Hin Hv)
    as HF.
  assert (Hk : (Z.to_nat i < S (length more))%nat)
    by (unfold zlen in Htop; lia).
  pose proof (fields_from_nth c1 0 _ _ Hk) as Hn.
  rewrite Hfs, Z2Nat.id in Hn by lia. cbn [Z.add] in Hn.
  destruct (Forall2_nth_r _ _ _ HF (Z.to_nat i) (None, 0, None))
    as (a & p & Hp & Hd & Ha & Hm & Hle).
  { rewrite bdescs_length. cbn [length]. exact Hk. }
  rewrite <- Hn, Hd.
  now destruct (bs_field_read cp c1 mem p a Hstd Hcfg Hsz Ha Hp Hm Hle)
    as (_ & Htc & _).
Qed.

Lemma bs_csv_line_row alloc_ok cp mem b bufsz fd more crlf :
  cfg_bs cp -> cp_wf cp -> (forall n, alloc_ok n = true) ->
  Forall (valid_bs_field cp) (fd :: more) ->
  mem_has mem b (benc_row (qte cp) (esc cp) (delim cp) fd more crlf) ->
  zlen (benc_row (qte cp) (esc cp) (delim cp) fd more crlf) <= bufsz ->
  exists c1,
    csv_line alloc_ok cp mem (Some b) bufsz
    = Some (zlen (benc_row (qte cp) (esc cp) (delim cp) fd more crlf), c1) /\
    fldtop c1 = 1 + zlen more /\
    fldtop c1 <= fldmax c1 /\
    fields_from c1 0 (S (length more))
    = bdescs (qte cp) (esc cp) b (fd :: more).
Proof.
  intros Hstd Hwf Halloc Hv Hmem Hsz.
  pose proof (zlen_benc_row (qte cp) (esc cp) (delim cp) fd more crlf) as Hpos.
  assert (Hgt : 0 < bufsz) by lia.
  pose proof Hstd as (Heq & _ & _ & _ & Hqd & Hqc & Hql & Hed & Hec & Hel
                      & Hen & Hdc & Hdl).
  assert (Hf : forall x, sp_of (scan cp) x
                         = Byte.eqb x (qte cp) || Byte.eqb x (esc cp)
                           || Byte.eqb x (delim cp) || Byte.eqb x CR
                           || Byte.eqb x LF)
    by (intros x; now rewrite sp_bs).
  pose proof (bs_row_run alloc_ok (sp_of (scan cp)) mem b (b + bufsz)
                         (qte cp) (esc cp) (delim cp)) as Hrun.
  premises Hrun.
  destruct (Hrun crlf more fd b (erase cp)
                 {| ppp := b; cno := 0; nline := 0; fldv := b;
                    quoted := false; l_escptr := None |})
    as (c & Hr & Htop & Hmax & _ & Hfs); auto.
  { repeat split; auto. }
  { cbn [cno]. change (fldmax (erase cp)) with (fldmax cp). destruct Hwf. lia. }
  { eapply Forall_impl; [|exact Hv]. intros a [_ Ha] Hq.
    eapply Forall_impl; [|exact (Ha Hq)]. intros x Hx.
    now rewrite sp_bs. }
  { lia. }
  cbn [cno] in *.
  pose proof (csv_line_aline alloc_ok cp mem b bufsz Hgt) as Hsim.
  destruct (csv_line_total alloc_ok cp mem (Some b) bufsz) as (r' & c' & Hline).
  destruct (aline alloc_ok cp mem b bufsz) as [[r ca]|] eqn:Ha;
    [|congruence].
  destruct Hsim as (c1 & Hc1 & Her).
  unfold aline in Ha.
  pose proof (reaches_result _ _ _ _ _ _ _ _ _ _ Hr Ha) as Hx.
  injection Hx as -> ->.
  exists c1. split; [rewrite Hc1; f_equal; f_equal; lia|].
  rewrite <- Her in Htop, Hmax, Hfs.
  split; [exact Htop|]. split; [exact Hmax|]. exact Hfs.
Qed.

(** X15: with an escape byte that is not the quote (the backslash
    convention), a row written with [benc_row] -- each field plain, or
    between quotes with the escape byte in front of every quote and escape
    byte of its content -- is read back by [csv_feed] in one call: the call
    consumes exactly the row, and every field comes back as its original
    content, except that a content that needed no escape byte and equals
    the null marker comes back as the null value. *)
Theorem csv_feed_escape_roundtrip alloc_ok cp pre rest bufsz fd more crlf :
  cfg_bs cp -> cp_wf cp -> nullstrsz cp = strlen (nullstr cp) ->
  (forall n, alloc_ok n = true) ->
  Forall (valid_bs_field cp) (fd :: more) ->
  let row := benc_row (qte cp) (esc cp) (delim cp) fd more crlf in
  zlen row <= bufsz <= zlen row + zlen rest ->
  exists r,
    csv_feed alloc_ok cp (pre ++ row ++ rest) (Some (zlen pre)) bufsz = Some r /\
    f_ret r = zlen row /\
    feed_row r = map (bs_value cp) (fd :: more).
Proof.
  intros Hstd Hwf Hsz Halloc Hv row Hb.
  set (mem := pre ++ row ++ rest).
  pose proof (mem_has_middle pre row rest) as Hmem. fold mem in Hmem.
  pose proof (zlen_benc_row (qte cp) (esc cp) (delim cp) fd more crlf) as Hpos.
  fold row in Hpos.
  assert (Hgt : 0 < bufsz) by lia.
  destruct (bs_csv_line_row alloc_ok cp mem (zlen pre) bufsz fd more crlf
              Hstd Hwf Halloc Hv Hmem ltac:(fold row; lia))
    as (c1 & Hline & Htop & Hmax & Hfs).
  fold row in Hline.
  pose proof (csv_line_post alloc_ok cp mem (zlen pre) bufsz (zlen row) c1 Hgt Hline)
    as (Hcfg & _ & _ & _ & _ & Hpost).
  destruct (Hpost Hwf) as [(_ & Hwf1 & _) _].
  assert (Hin : zlen pre + zlen row <= zlen mem).
  { unfold mem. rewrite !zlen_app. pose proof (zlen_nonneg rest). lia. }
  destruct (csv_feed_row alloc_ok cp mem (zlen pre) bufsz (zlen row) c1
              Hwf Hgt Hline Hpos)
    as (c2 & mem' & Htu & Hfeed & Htop2 & Hlen & Hfr & Hsame & Hper).
  { apply (bs_row_text_cond cp c1 mem crlf more fd (zlen pre)); auto.
    apply zlen_nonneg. }
  clear Hin.
  eexists. split; [exact Hfeed|]. split; [reflexivity|].
  unfold feed_row, row_of. cbn [f_fldmem f_field f_nfield].
  pose proof (zlen_nonneg more) as Hmn.
  assert (Hn : Z.to_nat (fldtop c2) = length (fd :: more)).
  { rewrite Htop2, Htop. unfold zlen. cbn [length]. lia. }
  rewrite Hn.
  unfold touchup in Htu. apply touchup_loop_fldlen in Htu.
  rewrite (firstn_zget None)
    by (unfold zlen in *; cbn [length] in *; lia).
  rewrite map_map.
  apply (map_seq_eq
           (fun a d => exists p, 0 <= p /\ d = bdesc (qte cp) (esc cp) p a /\
                                 valid_bs_field cp a /\
                                 mem_has mem p (benc_field (qte cp) (esc cp) a) /\
                                 p + zlen (benc_field (qte cp) (esc cp) a) <= zlen mem)
           _ (bs_value cp)
           (fun k => field_at c1 (0 + Z.of_nat k))
           (length (fd :: more))).
  - change (map (fun k => field_at c1 (0 + Z.of_nat k))
                (seq 0 (length (fd :: more))))
      with (fields_from c1 0 (S (length more))).
    rewrite Hfs.
    apply (bs_row_descs cp mem (zlen mem) crlf more fd (zlen pre));
      auto; [apply zlen_nonneg|].
    fold row. unfold mem. rewrite !zlen_app.
    pose proof (zlen_nonneg rest). lia.
  - intros k a (p & Hp & Hd & Ha & Hm & Hin) Hk.
    destruct (Hper (Z.of_nat k)) as [Hfld Htxt].
    { rewrite Htop. unfold zlen. cbn [length] in *. lia. }
    cbv zeta in Hfld, Htxt. cbn [Z.add] in Hd. rewrite Hd in Hfld, Htxt.
    destruct (bs_field_read cp c1 mem p a Hstd Hcfg Hsz Ha Hp Hm Hin)
      as (Hnull & Htc & Hft & s & Hs & Hs0).
    cbv zeta in Hnull, Htc, Hft, Hs. rewrite Hfld.
    destruct (is_null_field c1 mem (bdesc (qte cp) (esc cp) p a)) eqn:En.
    + symmetry. now apply Hnull.
    + rewrite Hs. cbn [option_map].
      destruct (bs_value_cases cp a) as [Hv0|Hv1].
      * apply Hnull in Hv0. congruence.
      * rewrite Hv1. f_equal.
        specialize (Htxt Htc s Hs). rewrite Hft in Htxt.
        apply field_done_cstring; auto.
        destruct Ha as [Hnn _]. rewrite Forall_forall in Hnn. exact Hnn.
  - cbn [Nat.add]. lia.
Qed.

Lemma bs_cp_cfg : cfg_bs bs_cp.
Proof. repeat split; try reflexivity; discriminate. Qed.

Lemma bs_cp_wf : cp_wf bs_cp.
Proof. unfold cp_wf; cbn. lia. Qed.

(** A quoted [a], quote, [b], backslash, [c,d] and a plain [e]. *)
Lemma csv_feed_escape_roundtrip_witness :
  let fd := (true, txt "a" ++ [DQUOTE] ++ txt "b" ++ [BSLASH] ++ txt "c,d") in
  let more := [(false, txt "e")] in
  let row := benc_row (qte bs_cp) (esc bs_cp) (delim bs_cp) fd more false in
  row = [DQUOTE] ++ txt "a" ++ [BSLASH; DQUOTE] ++ txt "b"
        ++ [BSLASH; BSLASH] ++ txt "c,d" ++ [DQUOTE] ++ txt ",e" ++ [LF] /\
  map (bs_value bs_cp) (fd :: more)
  = [Some (txt "a" ++ [DQUOTE] ++ txt "b" ++ [BSLASH] ++ txt "c,d");
     Some (txt "e")] /\
  exists r,
    csv_feed always_ok bs_cp ([] ++ row ++ [])
             (Some (zlen (@nil byte))) 14 = Some r /\
    f_ret r = zlen row /\
    feed_row r = map (bs_value bs_cp) (fd :: more).
Proof.
  cbv zeta. split; [reflexivity|]. split; [reflexivity|].
  refine (csv_feed_escape_roundtrip always_ok bs_cp [] [] 14
            (true, txt "a" ++ [DQUOTE] ++ txt "b" ++ [BSLASH] ++ txt "c,d")
            [(false, txt "e")] false
            bs_cp_cfg bs_cp_wf _ _ _ _).
  - reflexivity.
  - reflexivity.
  - repeat constructor; try discriminate; try reflexivity.
  - vm_compute. split; discriminate.
Defined.

(** * Rows of any content

    On a buffer without NUL bytes, every field [csv_line] records for a
    completed row meets [text_cond]: the [assert]s of [touchup] hold, and
    [csv_feed] comes back. *)

Section Spans.
Variable qe : byte -> bool.
Variable es : byte.

Lemma clean_plain l :
  forallb (fun b => negb (qe b)) l = true ->
  (forall b, In b l -> b <> NUL) -> clean qe l = true.
Proof.
  induction l as [|b t IH]; cbn [forallb clean]; auto.
  intros H Hn. apply andb_true_iff in H. destruct H as [Hb Ht].
  destruct (qe b); [discriminate|].
  rewrite (byte_eqb_neq b NUL) by (apply Hn; now left). cbn.
  apply IH; auto. intros x Hx. apply Hn. now right.
Qed.

Lemma led_plain l :
  forallb (fun b => negb (qe b)) l = true -> led es qe l = true.
Proof.
  intros H. rewrite <- (app_nil_r l). now rewrite led_app_plain.
Qed.

(** A clean span can be extended. *)
Lemma span_app l1 l2 :
  clean qe l1 = true ->
  clean qe (l1 ++ l2) = clean qe l2 /\
  (led es qe l1 = true -> led es qe (l1 ++ l2) = led es qe l2).
Proof.
  remember (length l1) as n eqn:Hn.
  revert l1 Hn. induction n as [n IH] using lt_wf_ind. intros l1 Hn.
  destruct l1 as [|b t]; [auto|]. cbn [clean led app].
  destruct (qe b) eqn:Eb.
  - destruct t as [|c t']; [rewrite andb_false_r; discriminate|].
    intros H. apply andb_true_iff in H. destruct H as [Hb H].
    apply andb_true_iff in H. destruct H as [Hc H].
    destruct (IH (length t') ltac:(cbn in Hn; lia) t' eq_refl H) as [IH1 IH2].
    cbn [app]. rewrite Hb, Hc, IH1. split; [reflexivity|].
    intros Hl. apply andb_true_iff in Hl. destruct Hl as [He Hl].
    rewrite He. cbn. now apply IH2.
  - intros H. apply andb_true_iff in H. destruct H as [Hb H].
    destruct (IH (length t) ltac:(cbn in Hn; lia) t eq_refl H) as [IH1 IH2].
    rewrite Hb, IH1. split; [reflexivity|]. exact IH2.
Qed.
End Spans.

Lemma memcpy_from_join mem a b c :
  a <= b <= c ->
  memcpy_from mem a (c - a)
  = memcpy_from mem a (b - a) ++ memcpy_from mem b (c - b).
Proof.
  intros H. replace (c - a) with ((b - a) + (c - b)) by lia.
  rewrite memcpy_from_split by lia. f_equal. f_equal. lia.
Qed.

Lemma text_cond_cfg c c' mem fd :
  scan_escaped_string c' = scan_escaped_string c -> esc c' = esc c ->
  text_cond c mem fd -> text_cond c' mem fd.
Proof.
  intros Hs He. destruct fd as [[[s|] l] [e|]]; cbn [text_cond]; auto.
  unfold qe_of. now rewrite Hs, He.
Qed.

Lemma text_cond_none c mem o l : text_cond c mem (o, l, None).
Proof. destruct o; exact I. Qed.

Lemma fields_ok_ext c c' mem n :
  scan_escaped_string c' = scan_escaped_string c -> esc c' = esc c ->
  (forall i, 0 <= i < n -> field_at c' i = field_at c i) ->
  fields_ok c mem n -> fields_ok c' mem n.
Proof.
  intros Hs He Hf H i Hi. rewrite Hf by exact Hi.
  apply (text_cond_cfg c); auto.
Qed.

Section SpanOk.
Variable cp : csv_parse_t.
Variable mem : list byte.

Lemma span_ok_nil a : span_ok cp mem a a None.
Proof.
  unfold span_ok. replace (a - a) with 0 by lia.
  split; [reflexivity|]. split; [reflexivity|]. intros; lia.
Qed.

(** Plain bytes behind the span. *)
Lemma span_plain a cur p e :
  a <= cur <= p -> span_ok cp mem a cur e ->
  (forall k, cur <= k < p -> qe_of cp (rd mem k) = false) ->
  nul_free mem cur p ->
  (match e with Some e => e < cur | None => True end) ->
  span_ok cp mem a p e.
Proof.
  intros Hr (Hc & Hl & He) Hplain Hnn Hecur.
  assert (Hp : forallb (fun b => negb (qe_of cp b))
                       (memcpy_from mem cur (p - cur)) = true).
  { apply memcpy_from_forallb. intros j Hj. rewrite Hplain by lia. reflexivity. }
  destruct (span_app (qe_of cp) (esc cp) _ (memcpy_from mem cur (p - cur)) Hc)
    as [H1 H2].
  unfold span_ok. rewrite (memcpy_from_join mem a cur p) by lia.
  rewrite H1, (H2 Hl).
  split.
  { apply clean_plain; [exact Hp|]. intros b Hb.
    apply memcpy_from_In in Hb. destruct Hb as (j & Hj & ->).
    apply Hnn. lia. }
  split; [now apply led_plain|].
  destruct e as [e|]; [exact He|].
  intros k Hk. destruct (Z.lt_ge_cases k cur); [apply He | apply Hplain]; lia.
Qed.

(** An escape pair behind the span. *)
Lemma span_pair a cur e :
  a <= cur -> span_ok cp mem a cur e ->
  rd mem cur = esc cp -> qe_of cp (esc cp) = true ->
  rd mem cur <> NUL -> rd mem (cur + 1) <> NUL ->
  span_ok cp mem a (cur + 2)
          (match e with Some e => Some e | None => Some cur end).
Proof.
  intros Hr (Hc & Hl & He) Hes Hq Hn0 Hn1.
  destruct (span_app (qe_of cp) (esc cp) _ (memcpy_from mem cur (cur + 2 - cur)) Hc)
    as [H1 H2].
  unfold span_ok. rewrite (memcpy_from_join mem a cur (cur + 2)) by lia.
  rewrite H1, (H2 Hl).
  replace (cur + 2 - cur) with 2 by lia.
  rewrite (memcpy_from_cons mem cur 2), (memcpy_from_cons mem (cur + 1) (2 - 1)),
    (memcpy_from_nil mem _ (2 - 1 - 1)) by lia.
  cbn [clean led]. rewrite Hes, Hq, byte_eqb_refl.
  rewrite <- Hes at 1.
  rewrite (byte_eqb_neq _ NUL Hn0), (byte_eqb_neq _ NUL Hn1). cbn.
  split; [reflexivity|]. split; [reflexivity|].
  destruct e as [e|]; [exact He|].
  split; [now rewrite Hes | exact He].
Qed.

(** The field a closing quote ends. *)
Lemma span_text a p e :
  0 <= a -> a <= p <= zlen mem -> span_ok cp mem a p (Some e) ->
  text_cond cp mem (Some a, p - a, Some e).
Proof.
  intros Ha Hp (Hc & Hl & Hq & Hf). cbn [text_cond].
  split; [exact Ha|]. split; [lia|]. auto.
Qed.
End SpanOk.

Lemma span_ok_cfg c c' mem a cur e :
  scan_escaped_string c' = scan_escaped_string c -> esc c' = esc c ->
  span_ok c mem a cur e -> span_ok c' mem a cur e.
Proof. intros Hs He. unfold span_ok, qe_of. now rewrite Hs, He. Qed.

Section TextInv.
Variable alloc_ok : Z -> bool.
Variable f : byte -> bool.
Variable mem : list byte.
Variables buf q : Z.
Variable cp0 : csv_parse_t.

Hypothesis Hqe : forall b, qe_of cp0 b
                           = Byte.eqb b (qte cp0) || Byte.eqb b (esc cp0).
Hypothesis Hf : forall b, qe_of cp0 b = true -> f b = true.
Hypothesis Hb0 : 0 <= buf.
Hypothesis Hqz : q <= zlen mem.
Hypothesis Hnul : nul_free mem buf q.
Hypothesis Hwf0 : cp_wf cp0.

Lemma cfg_qe cp :
  cfg_eq cp cp0 ->
  scan_escaped_string cp = scan_escaped_string cp0 /\
  (forall b, qe_of cp b = Byte.eqb b (qte cp) || Byte.eqb b (esc cp)) /\
  (forall b, f b = false -> qe_of cp b = false).
Proof.
  intros (Cq & Ce & _ & _ & _ & _ & Cs).
  split; [exact Cs|]. unfold qe_of. rewrite Cs, Cq, Ce.
  split; [exact Hqe|].
  intros b Hb. destruct (is_special (scan_escaped_string cp0) 2 b) eqn:E; auto.
  apply Hf in E. congruence.
Qed.

Lemma FINISH_text cp L :
  cp_wf cp -> 0 <= cno L < fldmax cp ->
  fields_ok cp mem (cno L) ->
  match l_escptr L with
  | None => True
  | Some e =>
      quoted L = true /\
      text_cond cp mem (Some (fldv L + 1), ppp L - fldv L - 2, Some e)
  end ->
  match FINISH mem buf q cp L with
  | Return r c => 0 < r -> fields_ok c mem (fldtop c)
  | Goto l c L' => fields_ok c mem (cno L')
  end.
Proof.
  intros Hwf Hk Hok Hnew. rewrite FINISH_unfold.
  destruct (fin_arrays_frame cp L) as (Fcfg & _ & _ & _ & _ & Fother).
  assert (Fs : scan_escaped_string (fin_arrays cp L) = scan_escaped_string cp)
    by apply Fcfg.
  assert (Fe : esc (fin_arrays cp L) = esc cp) by apply Fcfg.
  assert (Hall : fields_ok (fin_arrays cp L) mem (cno L + 1)).
  { intros i Hi. destruct (Z.eq_dec i (cno L)) as [->|Hne].
    - destruct (l_escptr L) as [e|] eqn:El.
      + destruct Hnew as [Hq Htc].
        rewrite fin_arrays_field by (auto; congruence).
        rewrite Hq, El. apply (text_cond_cfg cp); auto.
      + assert (Hnone : snd (field_at (fin_arrays cp L) (cno L)) = None).
        { unfold fin_arrays, field_at. destruct (quoted L); cbn;
            rewrite El; apply zget_zset_default. }
        destruct (field_at (fin_arrays cp L) (cno L)) as [[o l] e].
        cbn [snd] in Hnone. subst e. apply text_cond_none.
    - rewrite Fother by exact Hne. apply (text_cond_cfg cp); auto.
      apply Hok. lia. }
  cbv zeta.
  destruct (Byte.eqb (rd mem (ppp L)) (delim (fin_arrays cp L))).
  - exact Hall.
  - destruct (Byte.eqb (rd mem (ppp L)) LF).
    + intros _. exact Hall.
    + destruct (Byte.eqb (rd mem (ppp L)) CR && _).
      * intros _. exact Hall.
      * cbn. intros; lia.
Qed.

Lemma lift_text cur cp L :
  match FINISH mem buf q cp L with
  | Return r c => 0 < r -> fields_ok c mem (fldtop c)
  | Goto l c L' => fields_ok c mem (cno L')
  end ->
  match FINISH mem buf q cp L with
  | Return _ _ => True
  | Goto l _ _ => l = START_VAL
  end ->
  match lift cur (FINISH mem buf q cp L) with
  | AReturn r c => 0 < r -> fields_ok c mem (fldtop c)
  | AGoto l' c L' cur' => text_inv mem l' c L' cur'
  end.
Proof.
  destruct (FINISH mem buf q cp L) as [r c|l c L']; cbn [lift]; auto.
  intros H ->. split; [exact H | exact I].
Qed.

Lemma FINISH_label cp L :
  match FINISH mem buf q cp L with
  | Return _ _ => True
  | Goto l _ _ => l = START_VAL
  end.
Proof.
  rewrite FINISH_unfold. cbv zeta.
  destruct (Byte.eqb _ (delim _)); [reflexivity|].
  destruct (Byte.eqb _ LF); [exact I|].
  destruct (_ && _); exact I.
Qed.

Lemma astep_text l cp L cur :
  line_inv buf q cp0 l cp L cur -> text_inv mem l cp L cur ->
  match astep alloc_ok f mem buf q l cp L cur with
  | AReturn r c => 0 < r -> fields_ok c mem (fldtop c)
  | AGoto l' c L' cur' => text_inv mem l' c L' cur'
  end.
Proof.
  intros (Hcfg & Hst & Hcur & Hcno & Hnl & Hl) [Hok Hsp].
  destruct l; unfold astep.
  - (* START_VAL *)
    destruct Hl as [Hppp Hwf]. subst cur.
    destruct (Hwf Hwf0) as (W1 & W2 & _).
    set (grown := if cno L >=? fldmax cp then _ else _).
    assert (Hg : match grown with
                 | inl (r, c) => r = -1
                 | inr c =>
                     cfg_eq c cp0 /\ cp_wf c /\ cno L < fldmax c /\
                     fields_ok c mem (cno L)
                 end).
    { subst grown. destruct (Z.geb_spec (cno L) (fldmax cp)) as [Hge|Hlt].
      - destruct (expand alloc_ok cp) as [r c] eqn:He.
        apply expand_ok in He.
        destruct He as (Ecfg & Est & Etop & Efld & Er & Ewf).
        destruct Er as [[-> Emax]|[-> Emax]]; cbn [Z.eqb].
        + split; [eapply cfg_eq_trans; eauto|]. split; [auto|].
          split; [lia|].
          apply (fields_ok_ext cp); auto; apply Ecfg.
        + reflexivity.
      - split; [auto|]. split; [auto|]. split; [lia|exact Hok]. }
    destruct grown as [[r c]|c]; [intros; lia|].
    destruct Hg as (Gcfg & Gwf & Gmax & Gok).
    set (c2 := set_fld c (zset (fld c) (cno L) (Some (ppp L)))).
    assert (Hwf2 : cp_wf c2).
    { subst c2. unfold cp_wf in *. cbn. now rewrite zlen_zset. }
    assert (Hok2 : fields_ok c2 mem (cno L)).
    { apply (fields_ok_ext c); auto.
      intros i Hi. unfold field_at, c2; cbn. now rewrite zget_zset_ne by lia. }
    destruct (find_special f mem (ppp L) q) as [p|] eqn:Hfind;
      [|intros; lia].
    apply find_special_some in Hfind. destruct Hfind as (Hp & _ & _).
    destruct ((p =? ppp L) && Byte.eqb (rd mem p) (qte c2)) eqn:Hqd.
    + apply andb_true_iff in Hqd. destruct Hqd as [Hqd _].
      apply Z.eqb_eq in Hqd. subst p.
      split; [exact Hok2|]. cbn [fldv l_escptr]. apply span_ok_nil.
    + apply lift_text; [|apply FINISH_label].
      apply FINISH_text; cbn [cno l_escptr].
      * exact Hwf2.
      * change (fldmax c2) with (fldmax c). lia.
      * exact Hok2.
      * exact I.
  - (* QUOTED_VAL *)
    destruct Hl as (Hqd & Hfv & Hfc & Hesc & Hwf).
    destruct (Hwf Hwf0) as (W1 & W2 & _).
    destruct (cfg_qe cp Hcfg) as (Cs & Cqe & Cf).
    destruct (find_special f mem cur q) as [p|] eqn:Hfind;
      [|intros; lia].
    apply find_special_some in Hfind. destruct Hfind as (Hp & Hfp & Hbef).
    cbv zeta.
    assert (Hsp1 : span_ok cp mem (fldv L + 1) p (l_escptr L)).
    { apply (span_plain cp mem (fldv L + 1) cur p (l_escptr L)
                        ltac:(lia) Hsp).
      - intros k Hk. apply Cf. apply Hbef. lia.
      - intros k Hk. apply Hnul. lia.
      - destruct (l_escptr L); [lia|exact I]. }
    destruct (byte_eqb_spec (rd mem p) (qte cp)) as [Eq|Nq].
    + destruct (find_special f mem (p + 1) q) as [xp|] eqn:Hfind2;
        [|intros; lia].
      apply find_special_some in Hfind2. destruct Hfind2 as (Hxp & _ & _).
      destruct (Z.eqb_spec xp (p + 1)) as [Hx|Hx]; cbn [negb];
        [|cbn; intros; lia].
      subst xp.
      destruct (Byte.eqb (esc cp) (qte cp) && Byte.eqb (rd mem (p + 1)) (qte cp))
               eqn:Edq.
      * apply andb_true_iff in Edq. destruct Edq as [Ee _].
        destruct (byte_eqb_spec (esc cp) (qte cp)) as [Ee'|]; [|discriminate].
        split; [exact Hok|]. cbn [fldv l_escptr].
        replace (p + 1 + 1) with (p + 2) by lia.
        apply (span_pair cp mem (fldv L + 1) p (l_escptr L) ltac:(lia) Hsp1).
        -- congruence.
        -- rewrite Cqe, byte_eqb_refl. apply orb_true_r.
        -- apply Hnul. lia.
        -- apply Hnul. lia.
      * apply lift_text; [|apply FINISH_label].
        apply FINISH_text; cbn [cno l_escptr ppp fldv quoted].
        -- exact W1.
        -- lia.
        -- exact Hok.
        -- destruct (l_escptr L) as [e|] eqn:El; [|exact I].
           split; [exact Hqd|].
           replace (p + 1 - fldv L - 2) with (p - (fldv L + 1)) by lia.
           apply span_text; [lia | lia | exact Hsp1].
    + destruct (byte_eqb_spec (rd mem p) (esc cp)) as [Ee|Ne].
      * destruct (Z.geb_spec (p + 2) q); [intros; lia|].
        split; [exact Hok|]. cbn [fldv l_escptr].
        apply (span_pair cp mem (fldv L + 1) p (l_escptr L) ltac:(lia) Hsp1).
        -- exact Ee.
        -- rewrite Cqe, byte_eqb_refl. apply orb_true_r.
        -- apply Hnul. lia.
        -- apply Hnul. lia.
      * split; [exact Hok|]. cbn [fldv l_escptr].
        apply (span_plain cp mem (fldv L + 1) p (p + 1) (l_escptr L)
                          ltac:(lia) Hsp1).
        -- intros k Hk. replace k with p by lia.
           rewrite Cqe, (byte_eqb_neq _ _ Nq), (byte_eqb_neq _ _ Ne).
           reflexivity.
        -- intros k Hk. apply Hnul. lia.
        -- destruct (l_escptr L); [lia|exact I].
Qed.

Lemma arun_text fuel :
  forall l cp L cur r c,
    line_inv buf q cp0 l cp L cur -> text_inv mem l cp L cur ->
    arun alloc_ok f mem buf q fuel (AGoto l cp L cur) = Some (r, c) ->
    0 < r -> fields_ok c mem (fldtop c).
Proof.
  induction fuel as [|fuel IH]; intros l cp L cur r c Hinv Htx; cbn [arun];
    [discriminate|].
  pose proof (astep_inv alloc_ok f mem buf q cp0 l cp L cur Hinv) as Hs.
  pose proof (astep_text l cp L cur Hinv Htx) as Ht.
  destruct (astep alloc_ok f mem buf q l cp L cur) as [r' c'|l' c' L' cur'].
  - destruct fuel; cbn; intros [= <- <-]; exact Ht.
  - destruct Hs as [Hs _]. now apply IH.
Qed.
End TextInv.

Lemma open_qe cp :
  cfg_open cp ->
  (forall b, qe_of cp b = Byte.eqb b (qte cp) || Byte.eqb b (esc cp)) /\
  (forall b, qe_of cp b = true -> sp_of (scan cp) b = true).
Proof.
  intros (Hs & Hm & Hl).
  assert (H1 : forall b, qe_of cp b
                         = Byte.eqb b (qte cp) || Byte.eqb b (esc cp)).
  { intros b. unfold qe_of, is_special. rewrite Hs. cbn -[Byte.eqb].
    rewrite (byte_eqb_sym (qte cp) b), (byte_eqb_sym (esc cp) b).
    destruct (Byte.eqb b (qte cp)), (Byte.eqb b (esc cp)); reflexivity. }
  split; [exact H1|]. intros b. rewrite H1.
  unfold sp_of, is_special. rewrite Hm, Hl. cbn -[Byte.eqb].
  rewrite (byte_eqb_sym (qte cp) b), (byte_eqb_sym (esc cp) b).
  destruct (Byte.eqb b (qte cp)), (Byte.eqb b (esc cp)); cbn [orb]; auto;
    discriminate.
Qed.

(** On a buffer without NUL bytes, the fields of a completed row meet
    [text_cond]. *)
Lemma csv_line_text alloc_ok cp mem b bufsz r c :
  cp_wf cp -> cfg_open cp ->
  0 <= b -> b + bufsz <= zlen mem -> nul_free mem b (b + bufsz) ->
  csv_line alloc_ok cp mem (Some b) bufsz = Some (r, c) -> 0 < r ->
  fields_ok c mem (fldtop c).
Proof.
  intros Hwf Hopen Hb Hin Hnul Hline Hr.
  pose proof (csv_line_row_bufsz _ _ _ _ _ _ _ Hline Hr) as Hgt.
  destruct (open_qe cp Hopen) as [Hqe Hf].
  pose proof (csv_line_aline alloc_ok cp mem b bufsz Hgt) as Hsim.
  destruct (aline alloc_ok cp mem b bufsz) as [[r' ca]|] eqn:Ha;
    [|congruence].
  destruct Hsim as (c' & Hc & He). rewrite Hline in Hc.
  injection Hc as <- <-.
  unfold aline in Ha.
  apply (arun_text alloc_ok _ mem b (b + bufsz) cp Hqe Hf Hb Hin Hnul Hwf)
    in Ha; auto.
  - subst ca. exact Ha.
  - now apply line_inv_init.
  - split; [|exact I]. intros i Hi. cbn [cno] in Hi. lia.
Qed.

(** [csv_feed] comes back on every buffer without NUL bytes. *)
Lemma csv_feed_runs alloc_ok cp mem b bufsz :
  cp_wf cp -> cfg_open cp ->
  0 <= b -> b + bufsz <= zlen mem -> nul_free mem b (b + bufsz) ->
  exists r, csv_feed alloc_ok cp mem (Some b) bufsz = Some r.
Proof.
  intros Hwf Hopen Hb Hin Hnul.
  destruct (csv_line_total alloc_ok cp mem (Some b) bufsz) as (r & c1 & Hline).
  destruct (Z.leb_spec r 0) as [Hle|Hgt].
  - unfold csv_feed. rewrite Hline.
    destruct (Z.leb_spec r 0); [eauto|lia].
  - pose proof (csv_line_row_bufsz _ _ _ _ _ _ _ Hline Hgt) as Hsz.
    destruct (csv_feed_row alloc_ok cp mem b bufsz r c1 Hwf Hsz Hline Hgt)
      as (c2 & mem' & _ & Hfeed & _); [|eauto].
    now apply (csv_line_text alloc_ok cp mem b bufsz r c1).
Qed.





(** What [csv_open] returns meets both conditions. *)
Lemma csv_open_fit alloc_ok q e d ns cp :
  csv_open alloc_ok q e d ns = Some cp -> cp_wf cp /\ cfg_open cp.
Proof.
  unfold csv_open. destruct (negb (alloc_ok sizeof_csv_parse_t));
    [discriminate|].
  intros [= <-]. split.
  - unfold cp_wf; cbn. lia.
  - repeat split.
Qed.

(** With a NUL byte behind an escape pair, [touchup] stops at the NUL
    while it copies the tail of the field, and its [assert] fails: on the
    row of the quoted field [a], quote, quote, [b], NUL, [c] there is no
    result. *)
Example csv_feed_nul_behind_escape :
  csv_feed always_ok default_cp
           ([DQUOTE] ++ txt "a" ++ [DQUOTE; DQUOTE] ++ txt "b" ++ [NUL]
                     ++ txt "c" ++ [DQUOTE; LF])
           (Some 0) 9
  = None.
Proof. reflexivity. Qed.

(** ** Blocks *)

Lemma rd_skipn mem p j :
  0 <= p -> 0 <= j -> rd (skipn (Z.to_nat p) mem) j = rd mem (p + j).
Proof.
  intros Hp Hj. unfold rd, zget.
  destruct (Z.ltb_spec j 0); [lia|]. destruct (Z.ltb_spec (p + j) 0); [lia|].
  rewrite nth_skipn. f_equal. lia.
Qed.

Lemma memcpy_from_sub mem p n :
  0 <= p -> 0 <= n -> p + n <= zlen mem ->
  memcpy_from mem p n = sub_block mem p n.
Proof.
  intros Hp Hn Hin. unfold sub_block.
  rewrite <- memcpy_from_firstn.
  - apply memcpy_from_ext. intros j Hj. symmetry. apply rd_skipn; lia.
  - unfold zlen in *. rewrite length_skipn. lia.
Qed.

Lemma zlen_sub_block mem p n :
  0 <= p -> 0 <= n -> p + n <= zlen mem -> zlen (sub_block mem p n) = n.
Proof.
  intros Hp Hn Hin. rewrite <- memcpy_from_sub by auto.
  now apply memcpy_from_zlen.
Qed.

Lemma rd_sub_block mem p n l j :
  0 <= p -> p + n <= zlen mem -> 0 <= j < n ->
  rd (sub_block mem p n ++ l) j = rd mem (p + j).
Proof.
  intros Hp Hin Hj. unfold rd at 1.
  rewrite zget_app_l by (rewrite zlen_sub_block; lia).
  rewrite <- memcpy_from_sub by lia.
  fold (rd (memcpy_from mem p n) j). now apply rd_memcpy_from.
Qed.

(** * A row that ends in a lone CR *)

Lemma reterr_state c cp e m a b n :
  state c = state cp ->
  state (snd (reterr c e m a b n)) = state (snd (reterr cp e m a b n)).
Proof. unfold reterr; cbn. now intros ->. Qed.

Section LoneCR.
Variable alloc_ok : Z -> bool.
Variable f : byte -> bool.
Variable mem : list byte.
Variables buf q : Z.

Notation "'reach'" := (reaches alloc_ok f mem buf q).

Variables qt dl : byte.
Hypothesis Hf : forall b, f b = Byte.eqb b qt || Byte.eqb b dl
                              || Byte.eqb b CR || Byte.eqb b LF.
Hypothesis Hqd : qt <> dl.
Hypothesis Hqc : qt <> CR.
Hypothesis Hql : qt <> LF.
Hypothesis Hdc : dl <> CR.
Hypothesis Hdl : dl <> LF.
Hypothesis Halloc : forall n, alloc_ok n = true.

(** The machine over the fields of a row and a CR that no LF follows:
    the line-end error, at the offset behind the CR. *)
Lemma lone_cr_run more :
  forall fd pos cp L,
    cfg_run qt dl cp -> cp_wf cp -> 0 <= cno L <= fldmax cp -> ppp L = pos ->
    mem_has mem pos (enc_body qt dl fd more ++ [CR]) ->
    Forall (fun fd => fst fd = false -> Forall (fun b => f b = false) (snd fd))
           (fd :: more) ->
    pos + zlen (enc_body qt dl fd more) < q ->
    (pos + zlen (enc_body qt dl fd more) + 1 < q ->
     rd mem (pos + zlen (enc_body qt dl fd more) + 1) <> LF) ->
    exists c nl,
      reach (AGoto START_VAL cp L pos) (AReturn (-1) c) /\
      state c
      = state (snd (reterr cp CSV_ECRLF "CRLF expected"
                           (cno L + 1 + zlen more) nl
                           (pos + zlen (enc_body qt dl fd more) + 1 - buf))).
Proof.
  induction more as [|fd' more IH];
    intros fd pos cp L Hcfg Hwf Hk Hppp Hmem Hok Hq Hnolf;
    apply Forall_cons_iff in Hok; destruct Hok as [Hfd Hok']; subst pos;
    pose proof (zlen_nonneg (enc_field qt fd)) as Hnn.
  - unfold enc_body, enc_more in *. cbn [flat_map] in *.
    rewrite app_nil_r in *.
    pose proof (mem_has_snoc _ _ _ _ _ Hmem) as (_ & Hrcr & _).
    pose proof (field_run alloc_ok f mem buf q qt dl) as Hrun.
    premises Hrun.
    destruct (Hrun cp L (ppp L) fd CR Hcfg Hwf Hk eq_refl Hmem Hfd)
      as (nl & Hr); [apply (f_cr f qt dl Hf) | congruence | lia |].
    pose proof (finish_err mem buf q qt dl) as Hfin.
    premises Hfin.
    rewrite (Hfin _ _ CR) in Hr.
    + cbn [lift ppp cno nline] in Hr.
      eexists. exists nl. split; [exact Hr|].
      change (zlen (@nil src_field)) with 0.
      replace (cno L + 1 + 0) with (cno L + 1) by lia.
      apply reterr_state. cbn [state set_fldtop set_state].
      now rewrite fin_arrays_state, started_state.
    + unfold started.
      apply (ensure_ok alloc_ok qt dl Halloc cp (cno L) Hwf Hk). exact Hcfg.
    + exact Hrcr.
    + congruence.
    + discriminate.
    + cbn [ppp]. intros _. exact Hnolf.
  - rewrite enc_body_cons in *.
    pose proof (zlen_nonneg (enc_body qt dl fd' more)) as Hnn'.
    rewrite <- app_assoc in Hmem. cbn [app] in Hmem.
    apply mem_has_snoc in Hmem. destruct Hmem as (Hm1 & Hrdl & Hm2).
    rewrite zlen_app in *.
    pose proof (zlen_cons dl (enc_body qt dl fd' more)) as Hzc.
    pose proof (field_run alloc_ok f mem buf q qt dl) as Hrun.
    premises Hrun.
    destruct (Hrun cp L (ppp L) fd dl Hcfg Hwf Hk eq_refl Hm1 Hfd)
      as (nl & Hr); [apply (f_dl f qt dl Hf) | congruence | lia |].
    destruct (field_fin alloc_ok qt dl Halloc cp (cno L) (ppp L) nl fd
                        Hcfg Hwf Hk)
      as (Fcfg & Fwf & Fmax & Ffld & Foth).
    rewrite (finish_delim mem buf _ qt dl) in Hr; auto.
    2:{ unfold started.
        apply (ensure_ok alloc_ok qt dl Halloc cp (cno L) Hwf Hk). exact Hcfg. }
    cbn [lift ppp cno nline fldv quoted l_escptr] in Hr.
    match type of Hr with
    | reaches _ _ _ _ _ _ (AGoto _ ?c2 ?L2 _) =>
        destruct (IH fd' (ppp L + zlen (enc_field qt fd) + 1) c2 L2
                     Fcfg Fwf)
        as (c & nl' & Hr' & Hst);
        [cbn [cno]; lia | reflexivity | exact Hm2 | exact Hok' | lia
         | intros H;
           replace (ppp L + zlen (enc_field qt fd) + 1
                    + zlen (enc_body qt dl fd' more) + 1)
             with (ppp L + (zlen (enc_field qt fd)
                            + zlen (dl :: enc_body qt dl fd' more)) + 1)
             by lia;
           apply Hnolf; lia |]
    end.
    exists c, nl'. split; [eapply reaches_trans; [exact Hr|exact Hr']|].
    rewrite Hst. cbn [cno]. rewrite zlen_cons.
    replace (cno L + 1 + 1 + zlen more) with (cno L + 1 + (1 + zlen more))
      by lia.
    replace (ppp L + zlen (enc_field qt fd) + 1
             + zlen (enc_body qt dl fd' more) + 1 - buf)
      with (ppp L + (zlen (enc_field qt fd)
                     + zlen (dl :: enc_body qt dl fd' more)) + 1 - buf)
      by lia.
    apply reterr_state.
    now rewrite fin_arrays_state, started_state.
Qed.
End LoneCR.

(** [csv_line] on the fields of a row followed by a CR that is the last
    byte of the buffer, or has a byte other than LF behind it. *)
Lemma csv_line_lone_cr alloc_ok cp mem b bufsz fd more :
  cfg_std cp -> cp_wf cp -> (forall n, alloc_ok n = true) ->
  Forall (valid_field cp) (fd :: more) ->
  mem_has mem b (enc_body (qte cp) (delim cp) fd more ++ [CR]) ->
  zlen (enc_body (qte cp) (delim cp) fd more) < bufsz ->
  (zlen (enc_body (qte cp) (delim cp) fd more) + 1 < bufsz ->
   rd mem (b + zlen (enc_body (qte cp) (delim cp) fd more) + 1) <> LF) ->
  exists c',
    csv_line alloc_ok cp mem (Some b) bufsz = Some (-1, c') /\
    errnum (state c') = Some CSV_ECRLF /\
    echarnum (state c')
    = charnum (state cp) + zlen (enc_body (qte cp) (delim cp) fd more) + 1 /\
    efldnum (state c') = 1 + zlen more /\
    erownum (state c') = rownum (state cp) + 1 /\
    counters c' = counters cp.
Proof.
  intros Hstd Hwf Halloc Hv Hmem Hsz Hnolf.
  pose proof (zlen_nonneg (enc_body (qte cp) (delim cp) fd more)) as Hnn.
  destruct (std_run cp Hstd) as [Hf Hcfg].
  pose proof Hstd as (He & _ & _ & _ & Hqd & Hqc & Hql & Hdc & Hdl).
  set (L0 := {| ppp := b; cno := 0; nline := 0; fldv := b;
                quoted := false; l_escptr := None |}).
  assert (Hk : 0 <= cno L0 <= fldmax (erase cp))
    by (cbn; destruct Hwf; lia).
  pose proof (lone_cr_run alloc_ok (sp_of (scan cp)) mem b (b + bufsz)
                          (qte cp) (delim cp)) as Hrun.
  premises Hrun.
  destruct (Hrun more fd b (erase cp) L0 Hcfg Hwf Hk eq_refl Hmem)
    as (c & nl & Hr & Hst).
  { eapply Forall_impl; [|exact Hv]. intros a [_ Ha] Hq.
    eapply Forall_impl; [|exact (Ha Hq)]. intros x Hx. now rewrite sp_std. }
  { lia. }
  { intros H. apply Hnolf. lia. }
  destruct (csv_line_reaches alloc_ok cp mem b bufsz _ _ ltac:(lia) Hr)
    as (c' & Hline & Her).
  exists c'. split; [exact Hline|].
  assert (Hst' : state c' = state c) by (rewrite <- Her; reflexivity).
  unfold counters. rewrite Hst', Hst. cbn.
  repeat split; try reflexivity; lia.
Qed.

(** ** The driver up to the row that fails *)






(** ** [csv_feed_last] on the same bytes *)


(** * The end of the stream *)

(** ** The end-of-stream path *)

Lemma csv_feed_last_scratch alloc_ok cp mem buf bufsz :
  0 <= buf -> 0 < bufsz -> buf + bufsz <= zlen mem ->
  rd mem (buf + bufsz - 1) <> LF -> alloc_ok (bufsz + 2) = true ->
  let scratch := sub_block mem buf bufsz ++ [LF; NUL] in
  csv_feed_last alloc_ok cp mem buf bufsz
  = match csv_feed alloc_ok (set_lastbuf cp (Some scratch)) scratch (Some 0)
                   (bufsz + 1) with
    | None => None
    | Some r0 =>
        Some {| f_ret := if 0 <? f_ret r0 then f_ret r0 - 1 else f_ret r0;
                f_cp := set_lastbuf (f_cp r0) (Some (f_mem r0));
                f_mem := mem; f_fldmem := f_mem r0;
                f_field := f_field r0; f_nfield := f_nfield r0 |}
    end.
Proof.
  intros Hbuf Hsz Hin Hlast Halloc scratch. unfold csv_feed_last.
  destruct (Z.ltb_spec bufsz 0); [lia|].
  destruct (Z.eqb_spec bufsz 0); [lia|].
  rewrite (byte_eqb_neq _ LF Hlast). cbn [negb].
  rewrite Halloc. cbn [negb].
  rewrite memcpy_from_sub by lia. reflexivity.
Qed.

Lemma rd_scratch_lf mem buf bufsz :
  0 <= buf -> 0 <= bufsz -> buf + bufsz <= zlen mem ->
  rd (sub_block mem buf bufsz ++ [LF; NUL]) bufsz = LF.
Proof.
  intros Hb Hn Hin. unfold rd.
  rewrite zget_app_r by (rewrite zlen_sub_block; lia).
  rewrite zlen_sub_block by lia. now replace (bufsz - bufsz) with 0 by lia.
Qed.

(** C4: on a non-empty final buffer whose last byte is not LF, with the
    scratch allocation served, whatever [csv_feed_last] returns is the
    result of one [csv_feed] over a scratch block that holds exactly the
    [bufsz] bytes of the buffer followed by LF and NUL: the caller's block
    comes back untouched, the scratch block is kept in [lastbuf] and is the
    block the fields point into, and on success the return value is one
    less than what [csv_feed] consumed -- between 0 and [bufsz], the offset
    of the LF that ended the row, hence [bufsz] itself when the buffer holds
    no LF.  On a buffer without NUL bytes, with the scan vectors of
    [csv_open], the call does return. *)
Theorem csv_feed_last_appends alloc_ok cp mem buf bufsz
        (Hwf : cp_wf cp)
        (Hbuf : 0 <= buf) (Hsz : 0 < bufsz) (Hin : buf + bufsz <= zlen mem)
        (Hlast : rd mem (buf + bufsz - 1) <> LF)
        (Halloc : alloc_ok (bufsz + 2) = true) :
  let scratch := sub_block mem buf bufsz ++ [LF; NUL] in
  (forall r,
      csv_feed_last alloc_ok cp mem buf bufsz = Some r ->
      exists r0,
        csv_feed alloc_ok (set_lastbuf cp (Some scratch)) scratch (Some 0)
                 (bufsz + 1) = Some r0 /\
        f_ret r = (if 0 <? f_ret r0 then f_ret r0 - 1 else f_ret r0) /\
        f_mem r = mem /\ f_fldmem r = f_mem r0 /\
        feed_row r = feed_row r0 /\
        lastbuf (f_cp r) = Some (f_mem r0) /\
        (f_ret r0 <= 0 ->
         (f_ret r = 0 \/ f_ret r = -1) /\ feed_row r = [] /\
         f_fldmem r = scratch) /\
        (0 < f_ret r0 ->
         0 <= f_ret r <= bufsz /\ rd scratch (f_ret r) = LF /\
         1 <= f_nfield r /\
         ((forall k, buf <= k < buf + bufsz -> rd mem k <> LF) ->
          f_ret r = bufsz))) /\
  (cfg_open cp -> nul_free mem buf (buf + bufsz) ->
   exists r, csv_feed_last alloc_ok cp mem buf bufsz = Some r).
Proof.
  intros scratch.
  pose proof (csv_feed_last_scratch alloc_ok cp mem buf bufsz
                                    Hbuf Hsz Hin Hlast Halloc) as Hunf.
  cbv zeta in Hunf. fold scratch in Hunf.
  assert (Hwf' : cp_wf (set_lastbuf cp (Some scratch)))
    by now apply set_lastbuf_wf.
  assert (Hlen : zlen scratch = bufsz + 2).
  { unfold scratch. rewrite zlen_app, zlen_sub_block by lia. reflexivity. }
  split.
  - intros r Hr. rewrite Hunf in Hr.
    destruct (csv_feed alloc_ok (set_lastbuf cp (Some scratch)) scratch
                       (Some 0) (bufsz + 1)) as [r0|] eqn:Hfeed;
      [|discriminate].
    injection Hr as <-. exists r0. split; [reflexivity|].
    cbn [f_ret f_mem f_fldmem f_cp f_field f_nfield lastbuf set_lastbuf].
    split; [reflexivity|]. split; [reflexivity|]. split; [reflexivity|].
    split.
    { unfold feed_row; cbn [f_fldmem f_field f_nfield].
      now rewrite (csv_feed_fldmem _ _ _ _ _ _ Hfeed). }
    split; [reflexivity|].
    destruct (csv_feed_inv _ _ _ _ _ _ Hfeed)
      as (rowsz & c1 & Hline & Hret & Hno & Hrow).
    pose proof (csv_line_post alloc_ok _ scratch 0 (bufsz + 1) rowsz c1
                              ltac:(lia) Hline)
      as (_ & Hrange & _ & _ & Hpos & _).
    rewrite Hret. split.
    + intros Hle. destruct (Z.ltb_spec 0 rowsz); [lia|].
      split; [lia|]. rewrite (Hno Hle).
      unfold feed_row. cbn. auto.
    + intros Hgt. destruct (Z.ltb_spec 0 rowsz); [|lia].
      destruct (Hpos Hgt) as (_ & Htop & Hlf).
      replace (0 + rowsz - 1) with (rowsz - 1) in Hlf by lia.
      split; [lia|]. split; [exact Hlf|]. split.
      * specialize (Hrow Hgt).
        destruct (csv_feed_row_inv alloc_ok _ scratch 0 (bufsz + 1) rowsz c1
                                   _ _ Hwf' ltac:(lia) Hline Hgt Hrow)
          as (Hf & Htop2 & _).
        rewrite Hf in Hfeed. injection Hfeed as <-. cbn [f_nfield].
        rewrite Htop2. exact Htop.
      * intros Hnolf.
        destruct (Z.eq_dec (rowsz - 1) bufsz) as [|Hne]; [assumption|].
        exfalso. apply (Hnolf (buf + (rowsz - 1))); [lia|].
        rewrite <- Hlf. unfold scratch. symmetry.
        apply rd_sub_block; lia.
  - intros Hopen Hnul.
    destruct (csv_feed_runs alloc_ok (set_lastbuf cp (Some scratch)) scratch 0
                            (bufsz + 1) Hwf' Hopen (Z.le_refl 0))
      as (r0 & Hfeed).
    + lia.
    + intros k Hk. destruct (Z.eq_dec k bufsz) as [->|Hne].
      * unfold scratch. rewrite rd_scratch_lf by lia. discriminate.
      * unfold scratch. rewrite rd_sub_block by lia. apply Hnul. lia.
    + rewrite Hunf, Hfeed. eauto.
Qed.

(** The final chunk [a,b], here inside a larger block: one row, fields [a]
    and [b], 3 bytes consumed. *)
Lemma csv_feed_last_appends_witness :
  feed_view (csv_feed_last always_ok default_cp (txt "a,b") 0 3)
  = Some (3, [Some (txt "a"); Some (txt "b")]) /\
  feed_view (csv_feed_last always_ok default_cp (txt "12a,b34") 2 3)
  = Some (3, [Some (txt "a"); Some (txt "b")]) /\
  sub_block (txt "12a,b34") 2 3 ++ [LF; NUL] = txt "a,b" ++ [LF; NUL] /\
  let scratch := sub_block (txt "12a,b34") 2 3 ++ [LF; NUL] in
  (forall r,
      csv_feed_last always_ok default_cp (txt "12a,b34") 2 3 = Some r ->
      exists r0,
        csv_feed always_ok (set_lastbuf default_cp (Some scratch)) scratch
                 (Some 0) (3 + 1) = Some r0 /\
        f_ret r = (if 0 <? f_ret r0 then f_ret r0 - 1 else f_ret r0) /\
        f_mem r = txt "12a,b34" /\ f_fldmem r = f_mem r0 /\
        feed_row r = feed_row r0 /\
        lastbuf (f_cp r) = Some (f_mem r0) /\
        (f_ret r0 <= 0 ->
         (f_ret r = 0 \/ f_ret r = -1) /\ feed_row r = [] /\
         f_fldmem r = scratch) /\
        (0 < f_ret r0 ->
         0 <= f_ret r <= 3 /\ rd scratch (f_ret r) = LF /\
         1 <= f_nfield r /\
         ((forall k, 2 <= k < 2 + 3 -> rd (txt "12a,b34") k <> LF) ->
          f_ret r = 3))) /\
  (cfg_open default_cp -> nul_free (txt "12a,b34") 2 (2 + 3) ->
   exists r, csv_feed_last always_ok default_cp (txt "12a,b34") 2 3 = Some r).
Proof.
  split; [reflexivity|]. split; [reflexivity|]. split; [reflexivity|].
  refine (csv_feed_last_appends always_ok default_cp (txt "12a,b34") 2 3
                                default_cp_wf _ _ _ _ _).
  - lia.
  - lia.
  - vm_compute. discriminate.
  - vm_compute. discriminate.
  - reflexivity.
Defined.

(** ** A stream that ends in a lone CR *)








(** X17: a CR without its LF.  With the doubling configuration, when the
    buffer holds the fields of a row (plain or quoted) and behind them a CR
    that is the last byte of the buffer or has a byte other than LF behind
    it, [csv_line] returns -1 with [CSV_ECRLF]; the error record names the
    character offset just behind the CR, the number of fields read and the
    row being read, and the counters are unchanged. *)
Theorem csv_line_cr_without_lf alloc_ok cp mem b bufsz fd more :
  cfg_std cp -> cp_wf cp -> (forall n, alloc_ok n = true) ->
  Forall (valid_field cp) (fd :: more) ->
  mem_has mem b (enc_body (qte cp) (delim cp) fd more ++ [CR]) ->
  zlen (enc_body (qte cp) (delim cp) fd more) < bufsz ->
  (zlen (enc_body (qte cp) (delim cp) fd more) + 1 < bufsz ->
   rd mem (b + zlen (enc_body (qte cp) (delim cp) fd more) + 1) <> LF) ->
  exists c',
    csv_line alloc_ok cp mem (Some b) bufsz = Some (-1, c') /\
    errnum (state c') = Some CSV_ECRLF /\
    echarnum (state c')
    = charnum (state cp) + zlen (enc_body (qte cp) (delim cp) fd more) + 1 /\
    efldnum (state c') = 1 + zlen more /\
    erownum (state c') = rownum (state cp) + 1 /\
    counters c' = counters cp.
Proof. exact (csv_line_lone_cr alloc_ok cp mem b bufsz fd more). Qed.

Lemma csv_line_cr_without_lf_witness :
  line_view (csv_line always_ok default_cp
                      (txt "a," ++ [DQUOTE] ++ txt "b,c" ++ [DQUOTE; CR]
                           ++ txt "d" ++ [LF])
                      (Some 0) 10)
  = Some (-1, Some CSV_ECRLF, 8) /\
  exists c',
    csv_line always_ok default_cp
             (txt "a," ++ [DQUOTE] ++ txt "b,c" ++ [DQUOTE; CR]
                  ++ txt "d" ++ [LF])
             (Some 0) 10 = Some (-1, c') /\
    errnum (state c') = Some CSV_ECRLF /\
    echarnum (state c') = 8 /\
    efldnum (state c') = 2 /\
    erownum (state c') = 1 /\
    counters c' = counters default_cp.
Proof.
  split; [reflexivity|].
  apply (csv_line_cr_without_lf always_ok default_cp _ 0 10
           (false, txt "a") [(true, txt "b,c")]
           default_cp_std default_cp_wf).
  - reflexivity.
  - repeat constructor; try discriminate; try reflexivity.
  - reflexivity.
  - vm_compute. reflexivity.
  - intros _. discriminate.
Defined.
